(** * HiDeF weaver: a shallow embedding of [hidef/weaver.py]

    The development follows the source file from the leaves up:
    the containment index, the attributed directed graph the code keeps
    its hierarchy in (networkx [DiGraph], insertion ordered), the
    candidate-graph construction of [Weaver._build], the edge selection of
    [Weaver.pick], [prune], and the depth annotation of
    [Weaver.update_depth].

    Numbers.  Cluster sizes, indices and depths are Python integers and are
    modelled by [Z] and [nat].  Containment indices, edge weights, the
    cutoff and the percentages are Python floats; they are modelled by the
    rationals [Q]: sums of 0/1 products are integers and exact in either
    arithmetic, and a quotient of two counts is modelled by the rational
    quotient.  A quotient by a zero count (numpy's nan) is [0] in [Q]; both
    compare false against a positive cutoff.  The preference that ranks the
    parents of a cluster is computed as the code computes it, operation by
    operation in IEEE binary64 with the operations of [SpecFloat], since the
    rounding decides the order of parents that are equal as rationals; its
    result is kept as the rational value of the float. *)

From Stdlib Require Import List ZArith QArith Bool Lia Arith Permutation Sorted FinFun SpecFloat.
Import ListNotations.

Local Open Scope Z_scope.

(** ** Nodes *)

(** Internal nodes are the tuples [(i, 0)] of the source, terminals are the
    terminal labels themselves; [istuple] tells them apart.  Terminal labels
    are modelled by integer codes ([np.arange] by default). *)
Inductive node : Type :=
| Internal (i k : Z)
| Terminal (t : Z).

Definition istuple (n : node) : bool :=
  match n with Internal _ _ => true | Terminal _ => false end.

Definition node_eqb (a b : node) : bool :=
  match a, b with
  | Internal i k, Internal i' k' => (i =? i') && (k =? k')
  | Terminal t, Terminal t' => t =? t'
  | _, _ => false
  end.

(** ** Exceptions *)

Inductive vmsg : Type :=
| PartitionsEmpty
| PartitionsLength
| LevelsLength
| TerminalsSize
| VstackEmpty
| NotBuilt
| EdgeMissing (u v : node).

Inductive exn : Type :=
| ValueError (m : vmsg)
| IndexError
| KeyError
| TypeError
| StopIteration
| UnboundLocalError
| NetworkXError
| NetworkXNoPath.

Inductive result (A : Type) : Type :=
| Ok (a : A)
| Raise (e : exn).
Arguments Ok {A} a.
Arguments Raise {A} e.

Definition bind {A B} (r : result A) (f : A -> result B) : result B :=
  match r with Ok a => f a | Raise e => Raise e end.

Notation "x <- c ;; k" := (bind c (fun x => k))
  (at level 61, c at next level, right associativity).

(** ** The graph: networkx [DiGraph]

    Nodes are kept in insertion order with their attribute dictionary,
    edges in insertion order with their weight.  The successors of [u]
    (the keys of [_succ[u]]) and the predecessors of [v] (the keys of
    [_pred[v]]) are then the edges from [u], to [v], in insertion order. *)

Record attrs : Type := mkAttrs {
  a_index : option Z;
  a_level : option Z;
  a_label : option Z;
  a_depth : option nat
}.

Definition no_attrs : attrs := mkAttrs None None None None.

Definition edge : Type := (node * node)%type.

Record DiGraph : Type := mkGraph {
  g_nodes : list (node * attrs);
  g_edges : list (edge * Q)
}.

Definition empty_graph : DiGraph := mkGraph [] [].

Definition nodes (G : DiGraph) : list node := map fst (g_nodes G).

Definition edge_eqb (e e' : edge) : bool :=
  node_eqb (fst e) (fst e') && node_eqb (snd e) (snd e').

Definition mem (n : node) (l : list node) : bool := existsb (node_eqb n) l.

Definition emem (e : edge) (l : list edge) : bool := existsb (edge_eqb e) l.

Definition has_node (G : DiGraph) (n : node) : bool := mem n (nodes G).

Definition has_edge (G : DiGraph) (u v : node) : bool :=
  emem (u, v) (map fst (g_edges G)).

Definition successors (G : DiGraph) (u : node) : list node :=
  map (fun e => snd (fst e)) (filter (fun e => node_eqb (fst (fst e)) u) (g_edges G)).

Definition predecessors (G : DiGraph) (v : node) : list node :=
  map (fun e => fst (fst e)) (filter (fun e => node_eqb (snd (fst e)) v) (g_edges G)).

Definition out_degree (G : DiGraph) (u : node) : nat := length (successors G u).

Definition in_degree (G : DiGraph) (v : node) : nat := length (predecessors G v).

(** [G[u][v]['weight']]; a missing edge is a [KeyError]. *)
Fixpoint lookup_edge (l : list (edge * Q)) (e : edge) : option Q :=
  match l with
  | [] => None
  | (e', w) :: l' => if edge_eqb e e' then Some w else lookup_edge l' e
  end.

Definition weight (G : DiGraph) (u v : node) : result Q :=
  match lookup_edge (g_edges G) (u, v) with
  | Some w => Ok w
  | None => Raise KeyError
  end.

(** [G.add_node(n, **a)]: a new node goes last; for a node already in the
    graph the given attributes are updated. *)
Definition merge_attrs (old new : attrs) : attrs :=
  let pick {A} (o n : option A) := match n with Some _ => n | None => o end in
  mkAttrs (pick (a_index old) (a_index new)) (pick (a_level old) (a_level new))
          (pick (a_label old) (a_label new)) (pick (a_depth old) (a_depth new)).

Definition add_node (G : DiGraph) (n : node) (a : attrs) : DiGraph :=
  if has_node G n
  then mkGraph (map (fun p => if node_eqb (fst p) n then (fst p, merge_attrs (snd p) a) else p)
                    (g_nodes G)) (g_edges G)
  else mkGraph (g_nodes G ++ [(n, a)]) (g_edges G).

(** [G.add_edge(u, v, weight=w)]: missing end points are added, [u] first;
    an edge already there keeps its place and takes the new weight. *)
Definition touch_node (G : DiGraph) (n : node) : DiGraph :=
  if has_node G n then G else mkGraph (g_nodes G ++ [(n, no_attrs)]) (g_edges G).

Definition add_edge (G : DiGraph) (u v : node) (w : Q) : DiGraph :=
  let G1 := touch_node (touch_node G u) v in
  if has_edge G1 u v
  then mkGraph (g_nodes G1)
               (map (fun e => if edge_eqb (fst e) (u, v) then (fst e, w) else e) (g_edges G1))
  else mkGraph (g_nodes G1) (g_edges G1 ++ [((u, v), w)]).

(** [G.remove_edges_from(ebunch)]: edges that are not there are skipped
    silently. *)
Definition remove_edges_from (G : DiGraph) (l : list edge) : DiGraph :=
  mkGraph (g_nodes G) (filter (fun e => negb (emem (fst e) l)) (g_edges G)).

(** [G.remove_edge(u, v)] raises when the edge is not there. *)
Definition remove_edge (G : DiGraph) (u v : node) : result DiGraph :=
  if has_edge G u v then Ok (remove_edges_from G [(u, v)]) else Raise NetworkXError.

(** [G.remove_node(n)] takes the node and every edge at it away, and raises
    when the node is not there. *)
Definition drop_node (G : DiGraph) (n : node) : DiGraph :=
  mkGraph (filter (fun p => negb (node_eqb (fst p) n)) (g_nodes G))
          (filter (fun e => negb (node_eqb (fst (fst e)) n) && negb (node_eqb (snd (fst e)) n))
                  (g_edges G)).

Definition remove_node (G : DiGraph) (n : node) : result DiGraph :=
  if has_node G n then Ok (drop_node G n) else Raise NetworkXError.

(** [G.copy()]: the nodes in order with a copy of their attributes, then the
    edges re-inserted source by source in node order. *)
Definition copy (G : DiGraph) : DiGraph :=
  mkGraph (g_nodes G)
          (flat_map (fun u => filter (fun e => node_eqb (fst (fst e)) u) (g_edges G)) (nodes G)).

(** ** Reachability: [nx.has_path], [nx.ancestors], [nx.shortest_path_length] *)

(** [union S S'] appends to [S] the elements of [S'] that are new. *)
Fixpoint union (S S' : list node) : list node :=
  match S' with
  | [] => S
  | x :: r => if mem x S then union S r else union (S ++ [x]) r
  end.

(** One round adds the successors of everything found so far. *)
Definition expand (G : DiGraph) (S : list node) : list node :=
  union S (flat_map (successors G) S).

Fixpoint closure (G : DiGraph) (fuel : nat) (S : list node) : list node :=
  match fuel with
  | O => S
  | Datatypes.S f => closure G f (expand G S)
  end.

(** The nodes reachable from [s], [s] included; a round per node of the
    graph is enough for the search to be complete. *)
Definition reachable_from (G : DiGraph) (s : node) : list node :=
  closure G (length (g_nodes G)) [s].

Definition has_path (G : DiGraph) (s t : node) : bool := mem t (reachable_from G s).

(** [nx.ancestors(G, v)]: the nodes with a path to [v], [v] excluded. *)
Definition ancestors (G : DiGraph) (v : node) : list node :=
  filter (fun u => negb (node_eqb u v) && has_path G u v) (nodes G).

(** [nx.descendants(G, v)]. *)
Definition descendants (G : DiGraph) (v : node) : list node :=
  filter (fun u => negb (node_eqb u v)) (reachable_from G v).

(** Breadth-first layers: [layer] holds the nodes at distance [d], [seen]
    the nodes at distance at most [d]. *)
Fixpoint bfs_length (G : DiGraph) (fuel : nat) (seen layer : list node) (t : node) (d : nat)
  : option nat :=
  if mem t layer then Some d
  else match fuel with
       | O => None
       | Datatypes.S f =>
           let next := filter (fun n => negb (mem n seen)) (union [] (flat_map (successors G) layer)) in
           match next with
           | [] => None
           | _ => bfs_length G f (seen ++ next) next t (Datatypes.S d)
           end
       end.

(** [nx.shortest_path_length(G, s, t)]; no path is [NetworkXNoPath]. *)
Definition shortest_path_length (G : DiGraph) (s t : node) : option nat :=
  bfs_length G (length (g_nodes G)) [s] [s] t 0.

(** ** Containment index *)

Definition count_nonzero (row : list bool) : Z :=
  Z.of_nat (length (filter (fun b => b) row)).

(** [row.astype(float)] *)
Definition astype_float (row : list bool) : list Q :=
  map (fun b : bool => if b then 1%Q else 0%Q) row.

(** The inner product of two rows, [A.dot(B.T)[i, j]]. *)
Definition dot (x y : list Q) : Q :=
  fold_left Qplus (map (fun p => (fst p * snd p)%Q) (combine x y)) 0%Q.

Definition containment_indices_boolean (A B : list (list bool)) : list (list Q) :=
  let count := map count_nonzero A in
  let A' := map astype_float A in
  let B' := map astype_float B in
  let overlap := map (fun a => map (fun b => dot a b) B') A' in
  map (fun oc => map (fun o => (o / inject_Z (snd oc))%Q) (fst oc)) (combine overlap count).

(** [CI[i, j]] *)
Definition at2 (CI : list (list Q)) (i j : Z) : Q :=
  nth (Z.to_nat j) (nth (Z.to_nat i) CI []) 0%Q.

(** The number of positions where both rows are true. *)
Definition both_count (a b : list bool) : Z :=
  Z.of_nat (length (filter (fun p => fst p && snd p) (combine a b))).

(** ** numpy's [float64]

    IEEE binary64, round to nearest even: 53 bits of precision, exponents
    below 1024. *)
Definition float64 : Type := spec_float.

(** [float(z)] for a Python integer. *)
Definition float_of_Z (z : Z) : float64 := binary_normalize 53 1024 z 0 false.

(** The float the code holds where the model holds the quotient of two
    counts: the quotient of the two floats. *)
Definition float_of_Q (q : Q) : float64 :=
  SFdiv 53 1024 (float_of_Z (Qnum q)) (float_of_Z (Zpos (Qden q))).

Definition float_mul (x y : float64) : float64 := SFmul 53 1024 x y.
Definition float_sub (x y : float64) : float64 := SFsub 53 1024 x y.
Definition float_div (x y : float64) : float64 := SFdiv 53 1024 x y.

(** The value of a finite float; nan is [0] as above, and so are the
    infinities, which no quotient of sizes gives. *)
Definition Q_of_float (f : float64) : Q :=
  match f with
  | S754_finite s m e =>
      let z := if s then Zneg m else Zpos m in
      match e with
      | Z0 => inject_Z z
      | Zpos _ => inject_Z (z * 2 ^ e)
      | Zneg p => Qmake z (2 ^ p)%positive
      end
  | _ => 0%Q
  end.

(** ** The state of a [Weaver] *)

Record Weaver : Type := mkWeaver {
  hier : option DiGraph;
  _full : option DiGraph;
  _secondary_edges : option (list (edge * Q));
  _secondary_terminal_edges : option (list (edge * nat));
  _labels : option (list Z);
  _levels : option (list Z);
  assume_levels : bool;
  _terminals : option (list Z);
  _assignment : option (list (list bool))
}.

(** [Weaver.__init__] *)
Definition init_weaver : Weaver :=
  mkWeaver None None None None None None false None None.

Definition n_terminals (w : Weaver) : nat :=
  match _assignment w with
  | None => O
  | Some L => length (nth 0 L [])
  end.

(** The [terminals] argument: [None], a numpy array, or another sequence. *)
Inductive terminals_arg : Type :=
| TNone
| TNdarray (a : list Z)
| TSeq (l : list Z).

Definition range (n : nat) : list Z := map Z.of_nat (seq 0 n).

(** [Weaver.set_terminals]: the local [terminals] is bound in the first two
    branches only; reading it unbound is an [UnboundLocalError]. *)
Definition set_terminals (w : Weaver) (value : terminals_arg) : result Weaver :=
  let terminals : option (list Z) :=
    match value with
    | TNone => Some (range (n_terminals w))
    | TSeq l => Some l
    | TNdarray _ => None
    end in
  match terminals with
  | None => Raise UnboundLocalError
  | Some t =>
      if negb (length t =? n_terminals w)%nat
      then Raise (ValueError TerminalsSize)
      else Ok (mkWeaver (hier w) (_full w) (_secondary_edges w) (_secondary_terminal_edges w)
                        (_labels w) (_levels w) (assume_levels w) (Some t) (_assignment w))
  end.

(** ** Small Python idioms *)

Definition nthZ {A} (l : list A) (i : Z) (d : A) : A := nth (Z.to_nat i) l d.

(** [l[i]] with Python's negative indices. *)
Definition py_index {A} (l : list A) (i : Z) (d : A) : A :=
  if i <? 0 then nthZ l (Z.of_nat (length l) + i) d else nthZ l i d.

(** [itertools.product(rng, rng)] *)
Definition iproduct (rng : list Z) : list (Z * Z) :=
  flat_map (fun i => map (fun j => (i, j)) rng) rng.

Fixpoint foldM {A B} (f : A -> B -> result A) (l : list B) (a : A) : result A :=
  match l with
  | [] => Ok a
  | x :: r => a' <- f a x ;; foldM f r a'
  end.

Fixpoint mapM {A B} (f : A -> result B) (l : list A) : result (list B) :=
  match l with
  | [] => Ok []
  | x :: r => y <- f x ;; ys <- mapM f r ;; Ok (y :: ys)
  end.

(** [list.remove(x)]: the first occurrence goes. *)
Fixpoint remove_first (x : node) (l : list node) : list node :=
  match l with
  | [] => []
  | y :: r => if node_eqb x y then r else y :: remove_first x r
  end.

(** [sorted(l, key=key, reverse=True)]: descending and stable. *)
Fixpoint insert_desc {A K} (gtb : K -> K -> bool) (key : A -> K) (x : A) (l : list A) : list A :=
  match l with
  | [] => [x]
  | y :: r => if gtb (key y) (key x) then y :: insert_desc gtb key x r else x :: y :: r
  end.

Definition sorted_desc {A K} (gtb : K -> K -> bool) (key : A -> K) (l : list A) : list A :=
  fold_right (insert_desc gtb key) [] l.

Definition Qgtb (a b : Q) : bool := negb (Qle_bool a b).

Definition nat_gtb (a b : nat) : bool := (b <? a)%nat.

(** [neq(a, b)]: [r = a != b] is a plain bool for the nodes of the graph,
    [len(r)] raises the [TypeError] and the function answers [True]. *)
Definition neq (a b : node) : bool := true.

(** ** [Weaver._build]: the candidate graph *)

Section Build.

Variable L : list (list bool).
Variable levels labels : list Z.
Variable assume : bool.
Variable terminals : list Z.
Variable cutoff : Q.

Definition n_sets : nat := length L.

(** The pairs the first loop runs over. *)
Definition gen : list (Z * Z) :=
  filter (fun ij => if assume
                    then nthZ levels (snd ij) 0 <? nthZ levels (fst ij) 0
                    else negb (fst ij =? snd ij))
         (iproduct (range n_sets)).

Definition CI : list (list Q) := containment_indices_boolean L L.

Definition cluster_attrs (i : Z) : attrs :=
  mkAttrs (Some i) (Some (nthZ levels i 0)) (Some (nthZ labels i 0)) None.

(** The body of the first loop for the pair [(i, j)].  The test
    [G.has_edge(na, nb)] and the read of [G[na][nb]['weight']] are one
    lookup here; [G.remove_edge(na, nb)] runs under that test. *)
Definition init_step (G : DiGraph) (ij : Z * Z) : DiGraph :=
  let i := fst ij in
  let j := snd ij in
  let C := at2 CI i j in
  let na := Internal i 0 in
  let nb := Internal j 0 in
  let G1 := if has_node G na then G else add_node G na (cluster_attrs i) in
  let G2 := if has_node G1 nb then G1 else add_node G1 nb (cluster_attrs j) in
  if Qle_bool cutoff C then
    match lookup_edge (g_edges G2) (na, nb) with
    | Some C0 =>
        if Qgtb C C0
        then add_edge (remove_edges_from G2 [(na, nb)]) nb na C
        else G2
    | None => add_edge G2 nb na C
    end
  else G2.

Definition init_graph : DiGraph := fold_left init_step gen empty_graph.

(** The root: the only node without a parent, or a new node [(-1, 0)] above
    all of them; [roots[0]] of an empty list is an [IndexError]. *)
Definition root_attrs : attrs := mkAttrs (Some (-1)) (Some (-1)) (Some 1) None.

Definition add_root (G : DiGraph) : result (DiGraph * node) :=
  let roots := filter (fun n => (in_degree G n =? 0)%nat) (nodes G) in
  if (1 <? length roots)%nat then
    let root := Internal (-1) 0 in
    let G1 := add_node G root root_attrs in
    Ok (fold_left (fun G' n => add_edge G' root n 1) roots G1, root)
  else
    match roots with
    | r :: _ => Ok (G, r)
    | [] => Raise IndexError
    end.

(** The edges from a grandparent: for a parent [a] of [node], the first
    ancestor [b] of [node] with an edge [a -> b] marks [(a, node)]. *)
Definition redundant_edges (G : DiGraph) : list edge :=
  flat_map (fun node =>
    let parents := predecessors G node in
    let ancs := ancestors G node in
    flat_map (fun a =>
      if existsb (fun b => neq a b && has_edge G a b) ancs then [(a, node)] else [])
      parents)
    (nodes G).

Definition remove_redundant (G : DiGraph) : DiGraph :=
  remove_edges_from G (redundant_edges G).

(** *** Terminal attachment *)

(** [attached_record], a [defaultdict(list)] keyed by terminal. *)
Definition record : Type := list (Z * list node).

Fixpoint get_attached (r : record) (t : Z) : list node :=
  match r with
  | [] => []
  | (t', l) :: r' => if t =? t' then l else get_attached r' t
  end.

Fixpoint set_attached (r : record) (t : Z) (l : list node) : record :=
  match r with
  | [] => [(t, l)]
  | (t', l') :: r' => if t =? t' then (t, l) :: r' else (t', l') :: set_attached r' t l
  end.

(** [for other in reversed(attached)]: the iterator walks the indices down
    from the last one over the list as it is at each step, and stops at an
    index that is out of the list. *)
Fixpoint scan_attached (G : DiGraph) (n ter : node) (idx : nat) (attached : list node)
  : result (bool * DiGraph * list node) :=
  match idx with
  | O => Ok (false, G, attached)
  | S k =>
      if (k <? length attached)%nat then
        let other := nth k attached n in
        if has_path G n other then Ok (true, G, attached)
        else if has_path G other n then
          G' <- remove_edge G other ter ;;
          scan_attached G' n ter k (remove_first other attached)
        else scan_attached G n ter k attached
      else Ok (false, G, attached)
  end.

Definition attach_one (n : node) (st : DiGraph * record) (i : Z)
  : result (DiGraph * record) :=
  let G := fst st in
  let t := nthZ terminals i 0 in
  let ter := Terminal t in
  let attached := get_attached (snd st) t in
  r <- scan_attached G n ter (length attached) attached ;;
  let skip := fst (fst r) in
  let G1 := snd (fst r) in
  let attached1 := snd r in
  if skip then Ok (G1, set_attached (snd st) t attached1)
  else Ok (add_edge G1 n ter 1, set_attached (snd st) t (attached1 ++ [n])).

(** [X[L[n]]]: the positions of the true entries of a row. *)
Definition true_positions (row : list bool) : list Z :=
  map fst (filter (fun p => snd p) (combine (range (length row)) row)).

Definition attach_node (st : DiGraph * record) (n : node) : result (DiGraph * record) :=
  match n with
  | Internal i _ =>
      if i =? -1 then Ok st
      else foldM (attach_one n) (true_positions (nthZ L i [])) st
  | Terminal _ => Raise TypeError
  end.

Definition attach_terminals (G : DiGraph) : result DiGraph :=
  st <- foldM attach_node (nodes G) (G, []) ;; Ok (fst st).

(** The graph kept in [self._full], with its root. *)
Definition build_graph : result (DiGraph * node) :=
  Gr <- add_root init_graph ;;
  G <- attach_terminals (remove_redundant (fst Gr)) ;;
  Ok (G, snd Gr).

(** *** Secondary edges *)

Definition node_size (n : node) : Z :=
  match n with
  | Internal i _ => count_nonzero (py_index L i [])
  | Terminal _ => 1
  end.

(** [usize / (nsize + psize - usize)] with [usize = w * nsize]: the sizes
    are Python integers and their sum is exact; the product, the difference
    and the quotient are float operations. *)
Definition preference (G : DiGraph) (n p : node) : result Q :=
  w <- weight G p n ;;
  let nsize := node_size n in
  let psize := node_size p in
  let usize := float_mul (float_of_Q w) (float_of_Z nsize) in
  Ok (Q_of_float (float_div usize (float_sub (float_of_Z (nsize + psize)) usize))).

Definition steps_from (G : DiGraph) (root n p : node) : result (edge * nat) :=
  match shortest_path_length G root p with
  | Some d => Ok ((p, n), d)
  | None => Raise NetworkXNoPath
  end.

Definition secondary_step (G : DiGraph) (root : node)
  (acc : list (edge * Q) * list (edge * nat)) (n : node)
  : result (list (edge * Q) * list (edge * nat)) :=
  let parents := predecessors G n in
  if (1 <? length parents)%nat then
    if istuple n then
      pref <- mapM (preference G n) parents ;;
      let ranked_edges :=
        map (fun x => ((fst x, n), snd x))
            (sorted_desc Qgtb (fun x => snd x) (combine parents pref)) in
      Ok (fst acc ++ tl ranked_edges, snd acc)
    else
      edges <- mapM (steps_from G root n) parents ;;
      Ok (fst acc, snd acc ++ tl (sorted_desc nat_gtb (fun x => snd x) edges))
  else Ok acc.

Definition secondary (G : DiGraph) (root : node)
  : result (list (edge * Q) * list (edge * nat)) :=
  acc <- foldM (secondary_step G root) (nodes G) ([], []) ;;
  Ok (sorted_desc Qgtb (fun x => snd x) (fst acc),
      sorted_desc nat_gtb (fun x => snd x) (snd acc)).

End Build.

(** ** [get_root], [traverse_topdown] and [prune] *)

(** The first node without a parent, in node order. *)
Definition get_root (T : DiGraph) : option node :=
  find (fun n => (in_degree T n =? 0)%nat) (nodes T).

(** The loop of [traverse_topdown] in breadth mode; the nodes yielded so far
    are the visited ones.  The second component is what is left of the
    queue when the rounds run out. *)
Fixpoint traverse_loop (T : DiGraph) (fuel : nat) (Q out : list node)
  : list node * list node :=
  match fuel with
  | O => (out, Q)
  | S f =>
      match Q with
      | [] => (out, [])
      | n :: Q' =>
          if mem n out then traverse_loop T f Q' out
          else traverse_loop T f (Q' ++ successors T n) (out ++ [n])
      end
  end.

(** Every edge is put on the queue once at most, so a round per edge and
    one for the root empty it.  With no root the first [T.successors(None)]
    raises. *)
Definition traverse_topdown (T : DiGraph) : result (list node) :=
  match get_root T with
  | None => Raise NetworkXError
  | Some r => Ok (fst (traverse_loop T (S (length (g_edges T))) [r] []))
  end.

Definition internal_nodes (T : DiGraph) : list node := filter istuple (nodes T).

(** One pass of [for node in reversed(internal_nodes)]. *)
Definition sweep_step (st : DiGraph * list node) (n : node) : DiGraph * list node :=
  if istuple n && (out_degree (fst st) n =? 0)%nat
  then (drop_node (fst st) n, remove_first n (snd st))
  else st.

Definition has_dead_end (T : DiGraph) (internal : list node) : bool :=
  existsb (fun n => (out_degree T n =? 0)%nat) internal.

(** [while (0 in out_degrees)]: every pass that starts takes a node away,
    so a round per internal node is enough. *)
Fixpoint remove_dead_ends (fuel : nat) (T : DiGraph) (internal : list node)
  : DiGraph * list node :=
  if has_dead_end T internal then
    match fuel with
    | O => (T, internal)
    | S f =>
        let st := fold_left sweep_step (rev internal) (T, internal) in
        remove_dead_ends f (fst st) (snd st)
    end
  else (T, internal).

Definition _single_branch (strict_single_branch : bool) (T : DiGraph) (n : node) : bool :=
  if negb (in_degree T n =? 1)%nat then false
  else
    let outdeg :=
      if strict_single_branch then
        let outdeg := out_degree T n in
        if (outdeg =? 1)%nat then
          match successors T n with
          | child :: _ => if negb (istuple child) then O else outdeg
          | [] => outdeg
          end
        else outdeg
      else length (filter istuple (successors T n)) in
    if (1 <? outdeg)%nat then false
    else if (outdeg =? 0)%nat then (out_degree T n =? 1)%nat
    else true.

(** The body of the last loop of [prune] for a single-branch node. *)
Definition collapse (T : DiGraph) (n : node) : result DiGraph :=
  match predecessors T n with
  | [] => Raise StopIteration
  | parent :: _ =>
      let children := successors T n in
      w1 <- weight T parent n ;;
      T' <- foldM (fun T' child =>
                     w2 <- weight T' n child ;;
                     Ok (add_edge T' parent child (w1 + w2)%Q))
                  children T ;;
      remove_node T' n
  end.

Definition collapse_step (strict_single_branch : bool) (T : DiGraph) (n : node)
  : result DiGraph :=
  if _single_branch strict_single_branch T n then collapse T n else Ok T.

Definition prune (T : DiGraph) (strict_single_branch : bool) : result DiGraph :=
  let internal := internal_nodes T in
  let T1 := fst (remove_dead_ends (length internal) T internal) in
  all_nodes <- traverse_topdown T1 ;;
  foldM (collapse_step strict_single_branch) all_nodes T1.

(** ** [Weaver.update_depth] *)

Definition get_attrs (T : DiGraph) (n : node) : option attrs :=
  option_map snd (find (fun p => node_eqb (fst p) n) (g_nodes T)).

(** ['depth' in T.nodes[n]] and its value. *)
Definition get_depth (T : DiGraph) (n : node) : option nat :=
  match get_attrs T n with
  | Some a => a_depth a
  | None => None
  end.

(** [T.nodes[n]['depth'] = d] *)
Definition set_depth (T : DiGraph) (n : node) (d : nat) : DiGraph :=
  mkGraph (map (fun p => if node_eqb (fst p) n
                         then (fst p, mkAttrs (a_index (snd p)) (a_level (snd p))
                                              (a_label (snd p)) (Some d))
                         else p) (g_nodes T))
          (g_edges T).

Definition relax (par_depth : nat) (st : DiGraph * list node) (child : node)
  : DiGraph * list node :=
  let T := fst st in
  let skip :=
    match get_depth T child with
    | Some ch_depth => (ch_depth <=? par_depth + 1)%nat
    | None => false
    end in
  if skip then st
  else (set_depth T child (par_depth + 1)%nat, snd st ++ [child]).

(** [_update_topdown]: the second component is what is left of the queue
    when the rounds run out. *)
Fixpoint update_topdown (fuel : nat) (T : DiGraph) (Q : list node)
  : result (DiGraph * list node) :=
  match fuel with
  | O => Ok (T, Q)
  | S f =>
      match Q with
      | [] => Ok (T, [])
      | parent :: Q' =>
          match get_depth T parent with
          | None => Raise KeyError
          | Some par_depth =>
              let st := fold_left (relax par_depth) (successors T parent) (T, Q') in
              update_topdown f (fst st) (snd st)
          end
      end
  end.

(** On a hierarchy without depth attributes, as [pick] hands it over, each
    node enters the queue once, and a round per node empties the queue. *)
Definition update_depth_graph (T : DiGraph) : result DiGraph :=
  match get_root T with
  | None => Raise KeyError
  | Some root =>
      st <- update_topdown (S (length (g_nodes T))) (set_depth T root 0) [root] ;;
      Ok (fst st)
  end.

Definition set_hier (w : Weaver) (h : option DiGraph) : Weaver :=
  mkWeaver h (_full w) (_secondary_edges w) (_secondary_terminal_edges w)
           (_labels w) (_levels w) (assume_levels w) (_terminals w) (_assignment w).

(** A method leaves the object as it was when it raised, and gives its
    value or its exception. *)
Definition method (A : Type) : Type := (Weaver * result A)%type.

Definition update_depth (w : Weaver) : method unit :=
  match hier w with
  | None => (w, Raise (ValueError NotBuilt))
  | Some T =>
      match update_depth_graph T with
      | Ok T' => (set_hier w (Some T'), Ok tt)
      | Raise e => (w, Raise e)
      end
  end.

(** ** [Weaver._build] as a method *)

Definition set_full (w : Weaver) (G : DiGraph) : Weaver :=
  mkWeaver (hier w) (Some G) (_secondary_edges w) (_secondary_terminal_edges w)
           (_labels w) (_levels w) (assume_levels w) (_terminals w) (_assignment w).

Definition set_secondary (w : Weaver) (se : list (edge * Q)) (ste : list (edge * nat)) : Weaver :=
  mkWeaver (hier w) (_full w) (Some se) (Some ste)
           (_labels w) (_levels w) (assume_levels w) (_terminals w) (_assignment w).

Definition _build (w : Weaver) (cutoff : Q) : method DiGraph :=
  match _assignment w, _levels w, _labels w, _terminals w with
  | Some L, Some levels, Some labels, Some terminals =>
      match build_graph L levels labels (assume_levels w) terminals cutoff with
      | Raise e => (w, Raise e)
      | Ok Gr =>
          let w1 := set_full w (fst Gr) in
          match secondary L (fst Gr) (snd Gr) with
          | Raise e => (w1, Raise e)
          | Ok s => (set_secondary w1 (fst s) (snd s), Ok (fst Gr))
          end
      end
  | _, _, _, _ => (w, Raise TypeError)
  end.

(** ** [Weaver.pick] *)

(** [int(x)] of a float: towards zero. *)
Definition py_int (x : Q) : Z := Z.quot (Qnum x) (Zpos (Qden x)).

(** [l[n:]] *)
Definition slice_from {A} (n : Z) (l : list A) : list A :=
  if n <? 0 then skipn (Z.to_nat (Z.max 0 (Z.of_nat (length l) + n))) l
  else skipn (Z.to_nat n) l.

(** The treatment of one pool of secondary edges under its percentage. *)
Definition trim (T : DiGraph) (pool : list edge) (percentage : Q) : DiGraph :=
  if Qeq_bool percentage 0 then remove_edges_from T pool
  else if Qgtb 100 percentage then
    let n := py_int (inject_Z (Z.of_nat (length pool)) * percentage / 100)%Q in
    remove_edges_from T (slice_from n pool)
  else T.

(** The body of the loop over the [additional] edges. *)
Definition add_manual (G : DiGraph) (replace : bool) (T : DiGraph) (uv : edge)
  : result DiGraph :=
  let u := fst uv in
  let v := snd uv in
  if negb (has_edge G u v) then Raise (ValueError (EdgeMissing u v))
  else
    let T1 := if replace
              then remove_edges_from T (map (fun p => (p, v)) (predecessors T v))
              else T in
    Ok (add_edge T1 u v 1).

(** The working graph of [pick] as it goes to [prune]. *)
Definition select (G : DiGraph) (secondary : list edge) (sectereg : list edge)
  (percentage_edges percentage_terminal_edges : Q)
  (additional : option (list edge)) (replace : bool) : result DiGraph :=
  let T := copy G in
  let T1 := trim T secondary percentage_edges in
  let T2 := trim T1 sectereg percentage_terminal_edges in
  match additional with
  | None => Ok T2
  | Some add_edges => foldM (add_manual G replace) add_edges T2
  end.

Definition hier_result (w : Weaver) : result DiGraph :=
  match hier w with
  | Some h => Ok h
  | None => Raise (ValueError NotBuilt)
  end.

Definition pick (w : Weaver) (percentage_edges percentage_terminal_edges : Q)
  (additional : option (list edge)) (replace strict_single_branch : bool)
  : method DiGraph :=
  match _secondary_edges w, _secondary_terminal_edges w with
  | None, _ => (w, Raise (ValueError NotBuilt))
  | _, None => (w, Raise (ValueError NotBuilt))
  | Some se, Some ste =>
      match _full w with
      | None => (w, Raise TypeError)
      | Some G =>
          match (T <- select G (map fst se) (map fst ste) percentage_edges
                        percentage_terminal_edges additional replace ;;
                 prune T strict_single_branch) with
          | Raise e => (w, Raise e)
          | Ok h =>
              let w1 := set_hier w (Some h) in
              match update_depth w1 with
              | (w2, Ok _) => (w2, hier_result w2)
              | (w2, Raise e) => (w2, Raise e)
              end
          end
      end
  end.

(** ** [Weaver.weave] *)

(** [np.unique]: the labels of a partition, sorted, each once. *)
Fixpoint insert_unique (x : Z) (l : list Z) : list Z :=
  match l with
  | [] => [x]
  | y :: r => if x <? y then x :: y :: r
              else if x =? y then y :: r
              else y :: insert_unique x r
  end.

Definition unique (p : list Z) : list Z := fold_right insert_unique [] p.

(** The [levels] argument: a bool, or a key per partition. *)
Inductive levels_arg : Type :=
| LBool (b : bool)
| LList (l : list Z).

(** The keyword arguments [weave] hands on. *)
Record config : Type := mkConfig {
  top : Q;
  cutoff : Q;
  percentage_terminal_edges : Q;
  additional : option (list edge);
  replace : bool;
  strict_single_branch : bool
}.

Definition default_config : config := mkConfig 100 (8 # 10) 0 None false false.

Definition set_assume (w : Weaver) (b : bool) : Weaver :=
  mkWeaver (hier w) (_full w) (_secondary_edges w) (_secondary_terminal_edges w)
           (_labels w) (_levels w) b (_terminals w) (_assignment w).

Definition set_assignment (w : Weaver) (L : list (list bool)) (labels levels : list Z) : Weaver :=
  mkWeaver (hier w) (_full w) (_secondary_edges w) (_secondary_terminal_edges w)
           (Some labels) (Some levels) (assume_levels w) (_terminals w) (Some L).

(** The rows of the assignment matrix with their labels and levels. *)
Definition rows_boolean (partitions : list (list Z)) : list (list bool) :=
  map (map (fun x => negb (x =? 0))) partitions.

Definition rows_labelled (partitions : list (list Z)) (clevels : list Z)
  : list (list bool * Z * Z) :=
  flat_map (fun ip =>
              map (fun label => (map (fun x => x =? label) (snd ip), label,
                                 nthZ clevels (fst ip) 0))
                  (unique (snd ip)))
           (combine (range (length partitions)) partitions).

Definition weave (w : Weaver) (partitions : list (list Z)) (terminals : terminals_arg)
  (boolean : bool) (levels : levels_arg) (c : config) : method DiGraph :=
  let n_sets := length partitions in
  if (n_sets =? 0)%nat then (w, Raise (ValueError PartitionsEmpty))
  else
    let lengths := map (@length Z) partitions in
    if existsb (fun l => negb (l =? hd O lengths)%nat) lengths
    then (w, Raise (ValueError PartitionsLength))
    else
      let w1 := set_assume w (match levels with LBool b => b | LList _ => true end) in
      let clevels := match levels with LBool _ => range n_sets | LList l => l end in
      if negb (length clevels =? n_sets)%nat then (w1, Raise (ValueError LevelsLength))
      else
        let assigned :=
          if boolean
          then Ok (set_assignment w1 (rows_boolean partitions)
                                  (map (fun _ => 1) partitions) clevels)
          else
            let rows := rows_labelled partitions clevels in
            match rows with
            | [] => Raise (ValueError VstackEmpty)
            | _ => Ok (set_assignment w1 (map (fun r => fst (fst r)) rows)
                                      (map (fun r => snd (fst r)) rows)
                                      (map (fun r => snd r) rows))
            end in
        match assigned with
        | Raise e => (w1, Raise e)
        | Ok w2 =>
            match set_terminals w2 terminals with
            | Raise e => (w2, Raise e)
            | Ok w3 =>
                match _build w3 (cutoff c) with
                | (w4, Raise e) => (w4, Raise e)
                | (w4, Ok _) =>
                    pick w4 (top c) (percentage_terminal_edges c) (additional c)
                         (replace c) (strict_single_branch c)
                end
            end
        end.

(** ** Vocabulary of the statements *)

(** The edges of a graph as pairs. *)
Definition edges (G : DiGraph) : list edge := map fst (g_edges G).

(** A directed path, possibly empty. *)
Inductive path (G : DiGraph) : node -> node -> Prop :=
| path_refl : forall u, path G u u
| path_step : forall u v w, In (u, v) (edges G) -> path G v w -> path G u w.

(** A directed path with its number of edges. *)
Inductive walk (G : DiGraph) : node -> node -> nat -> Prop :=
| walk_nil : forall u, walk G u u O
| walk_cons : forall u v w n, In (u, v) (edges G) -> walk G v w n -> walk G u w (S n).

(** No edge lies on a cycle. *)
Definition acyclic (G : DiGraph) : Prop :=
  forall u v, In (u, v) (edges G) -> ~ path G v u.

(** What a networkx graph is by construction: a node once, an edge once,
    and the end points of the edges among the nodes. *)
Definition wf_graph (G : DiGraph) : Prop :=
  NoDup (nodes G) /\ NoDup (edges G) /\
  forall u v, In (u, v) (edges G) -> In u (nodes G) /\ In v (nodes G).

(** The only node without a parent. *)
Definition only_root (G : DiGraph) (r : node) : Prop :=
  In r (nodes G) /\ in_degree G r = O /\
  forall v, In v (nodes G) -> in_degree G v = O -> v = r.

(** The length of a shortest path. *)
Definition shortest (G : DiGraph) (u v : node) (d : nat) : Prop :=
  walk G u v d /\ forall d', walk G u v d' -> (d <= d')%nat.

(** No node carries a depth yet. *)
Definition no_depth (G : DiGraph) : Prop :=
  forall n a, In (n, a) (g_nodes G) -> a_depth a = None.

(** * Invariants and measures used by the proofs *)

(** ** Invariants of the construction *)

(** A graph of clusters only and without depths, as it is before the
    terminals are attached. *)
Definition cluster_graph (G : DiGraph) : Prop :=
  wf_graph G /\ (forall n, In n (nodes G) -> istuple n = true) /\ no_depth G.

(** The state of the attachment loop against the graph [G0] it started
    from: the edges between clusters are those of [G0], every other edge
    goes from a cluster to a terminal and is on record, and the clusters on
    record for a terminal are pairwise unrelated in [G0].  A terminal of the
    graph has a cluster on record, but for the terminal [busy] whose record
    is being scanned. *)
Record attach_inv (G0 G : DiGraph) (r : record) (busy : option Z) : Prop := mkAttachInv {
  ai_wf : wf_graph G;
  ai_src : forall u v, In (u, v) (edges G) -> istuple u = true;
  ai_old : forall u v, istuple v = true -> (In (u, v) (edges G) <-> In (u, v) (edges G0));
  ai_rec : forall t p, In p (get_attached r t) <-> In (p, Terminal t) (edges G);
  ai_nodup : forall t, NoDup (get_attached r t);
  ai_anti : forall t p q, In p (get_attached r t) -> In q (get_attached r t) ->
                          p <> q -> ~ path G0 p q;
  ai_some : forall t, busy <> Some t -> In (Terminal t) (nodes G) -> get_attached r t <> [];
  ai_nodes : forall n, istuple n = true -> (In n (nodes G) <-> In n (nodes G0));
  ai_nodepth : no_depth G
}.

Arguments ai_wf {G0 G r busy} _.
Arguments ai_src {G0 G r busy} _ _ _ _.
Arguments ai_old {G0 G r busy} _ _ _ _.
Arguments ai_rec {G0 G r busy} _ _ _.
Arguments ai_nodup {G0 G r busy} _ _.
Arguments ai_anti {G0 G r busy} _ _ _ _ _ _ _ _.
Arguments ai_some {G0 G r busy} _ _ _ _.
Arguments ai_nodes {G0 G r busy} _ _ _.
Arguments ai_nodepth {G0 G r busy} _ _ _ _.

(** The edges of the two pools of secondary edges. *)
Definition pool (acc : list (edge * Q) * list (edge * nat)) : list edge :=
  map fst (fst acc) ++ map fst (snd acc).

(** The secondary edges a node contributes. *)
Definition node_pool (L : list (list bool)) (G : DiGraph) (root n : node) : list edge :=
  match secondary_step L G root ([], []) n with
  | Ok acc => pool acc
  | Raise _ => []
  end.

(** Every node has one parent at most. *)
Definition single_parent (G : DiGraph) : Prop :=
  forall p q v, In (p, v) (edges G) -> In (q, v) (edges G) -> p = q.

(** ** The state of the depth annotation *)

(** The number of nodes without a depth. *)
Definition unset (T : DiGraph) : nat :=
  length (filter (fun p => match a_depth (snd p) with None => true | Some _ => false end)
                 (g_nodes T)).

(** [T'] has the nodes and edges of [T] and the depths of [T], and maybe
    more depths. *)
Definition depth_ext (T T' : DiGraph) : Prop :=
  g_edges T' = g_edges T /\ nodes T' = nodes T /\
  forall v d, get_depth T v = Some d -> get_depth T' v = Some d.

(** No depth is above [b]. *)
Definition depth_bound (T : DiGraph) (b : nat) : Prop :=
  forall v d, get_depth T v = Some d -> (d <= b)%nat.

(** All the children of [u] have a depth, one more than [du] at most. *)
Definition relaxed (T : DiGraph) (u : node) (du : nat) : Prop :=
  forall v, In (u, v) (edges T) -> exists dv, get_depth T v = Some dv /\ (dv <= du + 1)%nat.

(** The loop of [_update_topdown] on a graph without stale depths: the
    queue holds nodes of depth [d0] and behind them nodes of depth
    [d0 + 1]; a depth is the length of a path from the root; a node with a
    depth is in the queue or has its children relaxed. *)
Record bfs_inv (r : node) (T : DiGraph) (Q : list node) : Prop := mkBfsInv {
  bi_wf : wf_graph T;
  bi_root : get_depth T r = Some O;
  bi_walk : forall v d, get_depth T v = Some d -> walk T r v d;
  bi_done : forall u du, get_depth T u = Some du -> In u Q \/ relaxed T u du;
  bi_queue : exists d0 Qa Qb, Q = Qa ++ Qb /\
               (forall q, In q Qa -> get_depth T q = Some d0) /\
               (forall q, In q Qb -> get_depth T q = Some (S d0)) /\
               depth_bound T (S d0)
}.

Arguments bi_wf {r T Q} _.
Arguments bi_root {r T Q} _.
Arguments bi_walk {r T Q} _ _ _ _.
Arguments bi_done {r T Q} _ _ _ _.
Arguments bi_queue {r T Q} _.

(** ** Ranks: the order the edges of the candidate graph follow *)

Definition size (L : list (list bool)) (i : Z) : Z := count_nonzero (nthZ L i []).

Definition inter (L : list (list bool)) (i j : Z) : Z :=
  both_count (nthZ L i []) (nthZ L j []).

Definition max_list (l : list Z) : Z := fold_right Z.max 0 l.

(** Without levels a cluster ranks by its size and then by its index; with
    levels it ranks by its level, the lower level the higher rank. *)
Definition cluster_rank (L : list (list bool)) (levels : list Z) (assume : bool) (i : Z) : Z :=
  if assume then 1 + max_list levels - nthZ levels i 0
  else size L i * (Z.of_nat (length L) + 1) + i + 1.

Definition top_rank (L : list (list bool)) (levels : list Z) (assume : bool) : Z :=
  1 + max_list (map (cluster_rank L levels assume) (range (length L))).

(** The added root [(-1, 0)] ranks above every cluster, a terminal below. *)
Definition rank (L : list (list bool)) (levels : list Z) (assume : bool) (n : node) : Z :=
  match n with
  | Internal i _ => if i <? 0 then top_rank L levels assume else cluster_rank L levels assume i
  | Terminal _ => 0
  end.

(** Every edge goes down in rank. *)
Definition ranked (rk : node -> Z) (G : DiGraph) : Prop :=
  forall u v, In (u, v) (edges G) -> rk v < rk u.

(** The order of the pairs in [itertools.product]. *)
Definition lt2 (p q : Z * Z) : Prop := fst p < fst q \/ (fst p = fst q /\ snd p < snd q).

(** The first loop of [_build] after the pairs [done], with [rest] to
    come: an edge [(j, 0) -> (i, 0)] comes from the pair [(i, j)] and carries
    [CI[i, j]]; it goes down in rank, or the pair [(j, i)] is still to come
    and will turn it round; a pair above the cutoff has left an edge one way
    or the other. *)
Record init_inv (L : list (list bool)) (levels : list Z) (assume : bool) (cutoff : Q)
  (done rest : list (Z * Z)) (G : DiGraph) : Prop := mkInitInv {
  ii_cluster : cluster_graph G;
  ii_nodepth : no_depth G;
  ii_index : forall n, In n (nodes G) ->
               exists i, n = Internal i 0 /\ 0 <= i < Z.of_nat (length L);
  ii_edge : forall u v, In (u, v) (edges G) ->
              exists i j, u = Internal j 0 /\ v = Internal i 0 /\ In (i, j) done /\
                lookup_edge (g_edges G) (u, v) = Some (at2 (CI L) i j) /\
                (cutoff <= at2 (CI L) i j)%Q /\
                (rank L levels assume v < rank L levels assume u \/
                 (assume = false /\ In (j, i) rest /\ size L j < size L i));
  ii_done : forall i j, In (i, j) done -> (cutoff <= at2 (CI L) i j)%Q ->
              In (Internal j 0, Internal i 0) (edges G) \/
              In (Internal i 0, Internal j 0) (edges G)
}.

Arguments ii_cluster {L levels assume cutoff done rest G} _.
Arguments ii_nodepth {L levels assume cutoff done rest G} _ _ _ _.
Arguments ii_index {L levels assume cutoff done rest G} _ _ _.
Arguments ii_edge {L levels assume cutoff done rest G} _ _ _ _.
Arguments ii_done {L levels assume cutoff done rest G} _ _ _ _ _.

(** Every node but [r] has a parent, and [r] has none. *)
Definition rooted (r : node) (G : DiGraph) : Prop :=
  (forall v, In v (nodes G) -> v = r \/ exists p, In (p, v) (edges G)) /\
  (forall p, ~ In (p, r) (edges G)).

(** Every edge leaves a cluster. *)
Definition src_tuple (G : DiGraph) : Prop :=
  forall u v, In (u, v) (edges G) -> istuple u = true.

(** What the graph is from [_build] to the end of [prune]. *)
Record hier_inv (rk : node -> Z) (r : node) (T : DiGraph) : Prop := mkHierInv {
  hi_wf : wf_graph T;
  hi_nodepth : no_depth T;
  hi_src : src_tuple T;
  hi_ranked : ranked rk T;
  hi_rooted : rooted r T
}.

Arguments hi_wf {rk r T} _.
Arguments hi_nodepth {rk r T} _ _ _ _.
Arguments hi_src {rk r T} _ _ _ _.
Arguments hi_ranked {rk r T} _ _ _ _.
Arguments hi_rooted {rk r T} _.

(** The state of a pass over the dead ends of [prune], started on [T0]. *)
Definition sweep_ok (T0 : DiGraph) (st : DiGraph * list node) : Prop :=
  NoDup (nodes (fst st)) /\ snd st = internal_nodes (fst st) /\
  forall e, In e (edges (fst st)) -> In e (edges T0).

(** The state of the attachment loop between two clusters. *)
Definition attach_ok (G0 : DiGraph) (st : DiGraph * record) : Prop :=
  attach_inv G0 (fst st) (snd st) None.

(** The list behind the [additional] argument of [pick]. *)
Definition additional_edges (additional : option (list edge)) : list edge :=
  match additional with
  | Some l => l
  | None => []
  end.

(** * Worked inputs *)

(** ** The example of the docstring of [weave] *)

Definition docstring_partitions : list (list Z) :=
  [[1;1;1;1;1;1;1;1]; [1;1;1;1;1;1;0;0]; [0;0;0;0;1;1;1;1]; [1;1;1;0;0;0;0;0];
   [0;0;1;1;0;0;0;0]; [0;0;0;0;1;1;0;0]; [0;0;0;0;0;0;1;1]].

(** [weave(P, boolean=True, cutoff=0.9, top=10)] *)
Definition docstring_config : config := mkConfig 10 (9 # 10) 0 None false false.

(** The object as [weave] has prepared it when it calls [_build]. *)
Definition docstring_assigned : Weaver :=
  match set_terminals
          (set_assignment (set_assume init_weaver false)
                          (rows_boolean docstring_partitions)
                          (map (fun _ => 1) docstring_partitions) (range 7))
          TNone with
  | Ok w => w
  | Raise _ => init_weaver
  end.

Definition docstring_weave : method DiGraph :=
  weave init_weaver docstring_partitions TNone true (LBool false) docstring_config.

Definition docstring_weaver : Weaver := fst docstring_weave.

Definition docstring_hier : DiGraph :=
  match snd docstring_weave with
  | Ok h => h
  | Raise _ => empty_graph
  end.

Definition docstring_full : DiGraph :=
  match _full docstring_weaver with
  | Some G => G
  | None => empty_graph
  end.

(** ** Two clusters with the same members *)

Definition twin_rows : list (list bool) := [[true; true]; [true; true]].

(** ** A root with two terminals *)

Definition small_hier : DiGraph :=
  mkGraph [(Internal 0 0, no_attrs); (Terminal 0, no_attrs); (Terminal 1, no_attrs)]
          [((Internal 0 0, Terminal 0), 1%Q); ((Internal 0 0, Terminal 1), 1%Q)].

(** ** Clusters that share a child *)

(** Five boolean partitions over six terminals: cluster 3 = {0} lies in
    cluster 1 = {0, 1} and in cluster 4 = {0, 2}, which lies in cluster
    2 = {0, 2, 3}; cluster 0 has every terminal. *)
Definition chain_partitions : list (list Z) :=
  [[1;1;1;1;1;1]; [1;1;0;0;0;0]; [1;0;1;1;0;0]; [1;0;0;0;0;0]; [1;0;1;0;0;0]].

(** [weave(P, boolean=True, cutoff=1.0, top=100)] *)
Definition chain_config : config := mkConfig 100 1 0 None false false.

Definition chain_weaver : Weaver :=
  fst (weave init_weaver chain_partitions TNone true (LBool false) chain_config).

(** The graph [pick] hands to [prune] in that call. *)
Definition chain_selection : DiGraph :=
  match _full chain_weaver, _secondary_edges chain_weaver,
        _secondary_terminal_edges chain_weaver with
  | Some G, Some se, Some ste =>
      match select G (map fst se) (map fst ste) 100 0 None false with
      | Ok T => T
      | Raise _ => empty_graph
      end
  | _, _, _ => empty_graph
  end.

(** * Further invariants *)

(** The pairs (cluster, terminal) in [D] have an attached cluster below
    the cluster. *)
Definition covered (G0 : DiGraph) (r : record) (D : node -> Z -> Prop) : Prop :=
  forall N t, D N t -> exists q, In q (get_attached r t) /\ path G0 N q.

(** Every cluster of the graph has a child. *)
Definition no_dead_end (T : DiGraph) : Prop :=
  forall v, In v (nodes T) -> istuple v = true -> out_degree T v <> O.

(** ** A triangle *)

(** [(0, 0) -> (1, 0) -> (2, 0)] with the shortcut [(0, 0) -> (2, 0)]. *)
Definition triangle : DiGraph :=
  mkGraph [(Internal 0 0, no_attrs); (Internal 1 0, no_attrs); (Internal 2 0, no_attrs)]
          [((Internal 0 0, Internal 1 0), 1%Q); ((Internal 1 0, Internal 2 0), 1%Q);
           ((Internal 0 0, Internal 2 0), 1%Q)].

Definition triangle_rank (n : node) : Z :=
  match n with
  | Internal i _ => 3 - i
  | Terminal _ => 0
  end.

(** * Reading the hierarchy

    The methods of [Weaver] that read the hierarchy [weave] has stored:
    [get_root], [get_levels], [some_node], [get_attribute] with [depth] and
    [level], [get_max_depth], [all_depths], [has_any_terminal],
    [node_cluster] and [_topdown_cluster] with [depth_cluster] and
    [level_cluster]. *)

(** ** Outcomes

    A call returns, raises one of the exceptions of [exn], raises numpy's
    [ValueError] for a reduction over no element ([RaisesEmpty]), or is
    [Outside] the model: numpy's behaviour at that point depends on its
    version or on a state that the methods of the class do not produce. *)

Inductive outcome (A : Type) : Type :=
| Returns (a : A)
| Raises (e : exn)
| RaisesEmpty
| Outside.
Arguments Returns {A} a.
Arguments Raises {A} e.
Arguments RaisesEmpty {A}.
Arguments Outside {A}.

Definition obind {A B} (o : outcome A) (f : A -> outcome B) : outcome B :=
  match o with
  | Returns a => f a
  | Raises e => Raises e
  | RaisesEmpty => RaisesEmpty
  | Outside => Outside
  end.

Notation "x <~ c ;; k" := (obind c (fun x => k))
  (at level 61, c at next level, right associativity).

Fixpoint ofoldM {A B} (f : A -> B -> outcome A) (l : list B) (a : A) : outcome A :=
  match l with
  | [] => Returns a
  | x :: r => a' <~ f a x ;; ofoldM f r a'
  end.

Fixpoint omapM {A B} (f : A -> outcome B) (l : list A) : outcome (list B) :=
  match l with
  | [] => Returns []
  | x :: r => y <~ f x ;; ys <~ omapM f r ;; Returns (y :: ys)
  end.

(** ** Attributes *)

(** The two attributes the methods read; [T.nodes[n][attr]] is an integer. *)
Inductive attr_name : Type :=
| Depth
| Level.

Definition attr_of (attr : attr_name) (a : attrs) : option Z :=
  match attr with
  | Depth => option_map Z.of_nat (a_depth a)
  | Level => a_level a
  end.

(** [T.nodes[n][attr]], [None] for a missing key. *)
Definition get_attr (attr : attr_name) (T : DiGraph) (n : node) : option Z :=
  match get_attrs T n with
  | Some a => attr_of attr a
  | None => None
  end.

(** [nx.get_node_attributes(G, attr)]: the nodes that have the attribute,
    in node order, with its value. *)
Definition get_node_attributes (G : DiGraph) (attr : attr_name) : list (node * Z) :=
  flat_map (fun p => match attr_of attr (snd p) with
                     | Some v => [(fst p, v)]
                     | None => []
                     end) (g_nodes G).

(** [values[n]] in such a dictionary. *)
Fixpoint lookup_value (values : list (node * Z)) (n : node) : option Z :=
  match values with
  | [] => None
  | (m, v) :: r => if node_eqb m n then Some v else lookup_value r n
  end.

(** ** [Weaver.get_root] *)

Definition root (w : Weaver) : outcome (option node) :=
  match hier w with
  | None => Raises (ValueError NotBuilt)
  | Some G => Returns (get_root G)
  end.

(** ** [Weaver.get_levels] and [Weaver.some_node] *)

Fixpoint insert_sorted (x : Z) (l : list Z) : list Z :=
  match l with
  | [] => [x]
  | y :: r => if x <=? y then x :: y :: r else y :: insert_sorted x r
  end.

(** [levels.sort()] *)
Definition sort (l : list Z) : list Z := fold_right insert_sorted [] l.

(** One round of the loop of [get_levels]. *)
Definition levels_step (T : DiGraph) (levels : list Z) (n : node) : outcome (list Z) :=
  match get_attr Level T n with
  | None => Raises KeyError
  | Some level =>
      if existsb (Z.eqb level) levels then Returns levels
      else Returns (levels ++ [level])
  end.

Definition get_levels (w : Weaver) : outcome (list Z) :=
  match hier w with
  | None => Raises (ValueError NotBuilt)
  | Some T =>
      levels <~ ofoldM (levels_step T) (internal_nodes T) [] ;;
      Returns (sort levels)
  end.

(** The loop of [some_node]; the end of the loop returns [None]. *)
Fixpoint some_node_loop (T : DiGraph) (level : Z) (l : list node) : outcome (option node) :=
  match l with
  | [] => Returns None
  | n :: r =>
      match get_attr Level T n with
      | None => Raises KeyError
      | Some v => if v =? level then Returns (Some n) else some_node_loop T level r
      end
  end.

Definition some_node (w : Weaver) (level : Z) : outcome (option node) :=
  match hier w with
  | None => Raises (ValueError NotBuilt)
  | Some T => some_node_loop T level (internal_nodes T)
  end.

(** ** [Weaver.get_attribute], [depth], [level] *)

(** The [node] argument: [None], one node (a tuple or a scalar), or an
    array or list of nodes. *)
Inductive node_arg : Type :=
| NNone
| NOne (n : node)
| NMany (l : list node).

(** What comes back: the dictionary, one value, or a list with [None] for
    the nodes without the attribute. *)
Inductive attr_value : Type :=
| VDict (d : list (node * Z))
| VOne (v : Z)
| VList (l : list (option Z)).

Definition get_attribute (w : Weaver) (attr : attr_name) (node : node_arg)
  : outcome attr_value :=
  match hier w with
  | None => Raises (ValueError NotBuilt)
  | Some G =>
      let values := get_node_attributes G attr in
      match node with
      | NNone => Returns (VDict values)
      | NOne n =>
          match lookup_value values n with
          | Some v => Returns (VOne v)
          | None => Raises KeyError
          end
      | NMany l => Returns (VList (map (lookup_value values) l))
      end
  end.

Definition depth (w : Weaver) (node : node_arg) : outcome attr_value :=
  get_attribute w Depth node.

Definition level (w : Weaver) (node : node_arg) : outcome attr_value :=
  get_attribute w Level node.

(** ** [Weaver.get_max_depth] *)

Definition is_some {A} (o : option A) : bool :=
  match o with Some _ => true | None => false end.

(** [np.max] of a list of integers and [None]s: no element is a
    [ValueError]; one element is returned as it is; with two or more a
    [None] is compared with another element, a [TypeError]. *)
Definition np_max (l : list (option Z)) : outcome (option Z) :=
  match l with
  | [] => RaisesEmpty
  | [x] => Returns x
  | x :: r =>
      if forallb is_some l
      then Returns (Some (fold_left Z.max (map (fun o => match o with Some v => v | None => 0 end) r)
                                    (match x with Some v => v | None => 0 end)))
      else Raises TypeError
  end.

(** The terminals are handed over as the array they are kept in; without
    terminals the argument is [None] and a dictionary would come back. *)
Definition get_max_depth (w : Weaver) : outcome (option Z) :=
  match _terminals w with
  | None => match hier w with
            | None => Raises (ValueError NotBuilt)
            | Some _ => Outside
            end
  | Some ts =>
      v <~ depth w (NMany (map Terminal ts)) ;;
      match v with
      | VList depths => np_max depths
      | _ => Outside
      end
  end.

(** ** [Weaver.all_depths] *)

Definition all_depths (w : Weaver) (leaf : bool) : outcome (list Z) :=
  v <~ depth w NNone ;;
  match v with
  | VDict depth_dict =>
      let depths :=
        if leaf then map snd depth_dict
        else map snd (filter (fun kv => istuple (fst kv)) depth_dict) in
      Returns (unique depths)
  | _ => Outside
  end.

(** ** [find] *)

Module Util.

Fixpoint first_index (a : Z) (A : list Z) : option nat :=
  match A with
  | [] => None
  | x :: r => if x =? a then Some O else option_map S (first_index a r)
  end.

(** [find(A, a)] for the array of terminals: [np.where(A == a)[0][0]], the
    first position of [a], an [IndexError] when there is none.  For a tuple
    [a] numpy compares the array with the tuple as an array; what comes out
    depends on the two lengths and on the version of numpy. *)
Definition find (A : list Z) (a : node) : outcome nat :=
  match a with
  | Terminal t =>
      match first_index t A with
      | Some j => Returns j
      | None => Raises IndexError
      end
  | Internal _ _ => Outside
  end.

End Util.

(** ** [Weaver.has_any_terminal] *)

Definition has_any_terminal (w : Weaver) (n : node) : outcome bool :=
  match hier w with
  | None => Raises (ValueError NotBuilt)
  | Some T =>
      if has_node T n
      then Returns (existsb (fun child => negb (istuple child)) (successors T n))
      else Raises NetworkXError
  end.

(** ** [Weaver.node_cluster] *)

(** [out[j] = True] *)
Fixpoint set_true (out : list bool) (j : nat) : outcome (list bool) :=
  match out, j with
  | [], _ => Raises IndexError
  | _ :: r, O => Returns (true :: r)
  | b :: r, S j' => r' <~ set_true r j' ;; Returns (b :: r')
  end.

Definition mark (terminals : list Z) (out : list bool) (d : node) : outcome (list bool) :=
  j <~ Util.find terminals d ;; set_true out j.

(** The descendants are a set; the marks do not depend on the order they
    are made in.  Without terminals the array compared is [None]. *)
Definition node_cluster (w : Weaver) (n : node) (out : option (list bool))
  : outcome (list bool) :=
  match hier w with
  | None => Raises (ValueError NotBuilt)
  | Some T =>
      let out0 := match out with
                  | Some o => o
                  | None => repeat false (n_terminals w)
                  end in
      if has_node T n then
        match _terminals w with
        | None => Outside
        | Some terminals =>
            match filter (fun d => negb (istuple d)) (descendants T n) with
            | [] => mark terminals out0 n
            | desc => ofoldM (mark terminals) desc out0
            end
        end
      else Raises NetworkXError
  end.

(** ** [Weaver._topdown_cluster] *)

(** The state of the loop: the queue, the visited nodes, the clusters found
    and the number of warnings logged. *)
Record scan : Type := mkScan {
  s_queue : list node;
  s_visited : list node;
  s_clusters : list node;
  s_warnings : nat
}.

Section Topdown.

Variable w : Weaver.
Variable T : DiGraph.
Variable attr : attr_name.
Variable value : Z.
Variable stop_before_terminal : bool.

(** One round of [while Q] on a queue that starts with [n]. *)
Definition topdown_step (n : node) (Q visited clusters : list node) (warnings : nat)
  : outcome scan :=
  if mem n visited then Returns (mkScan Q visited clusters warnings)
  else
    let visited := n :: visited in
    if negb (istuple n)
    then Returns (mkScan Q visited
                         (if stop_before_terminal then clusters else clusters ++ [n])
                         warnings)
    else
      match get_attr attr T n with
      | None => Raises KeyError
      | Some a =>
          if a <? value then
            keep <~ (if stop_before_terminal then has_any_terminal w n else Returns false) ;;
            Returns (mkScan (Q ++ filter (fun child => negb (stop_before_terminal
                                                              && negb (istuple child)))
                                         (successors T n))
                            visited
                            (if keep then clusters ++ [n] else clusters)
                            warnings)
          else if a =? value then Returns (mkScan Q visited (clusters ++ [n]) warnings)
          else Returns (mkScan Q visited clusters (S warnings))
      end.

Fixpoint topdown_loop (fuel : nat) (s : scan) : outcome scan :=
  match fuel with
  | O => Returns s
  | S f =>
      match s_queue s with
      | [] => Returns s
      | n :: Q =>
          s' <~ topdown_step n Q (s_visited s) (s_clusters s) (s_warnings s) ;;
          topdown_loop f s'
      end
  end.

End Topdown.

(** [H * I.T] and [H.max(axis=0)]: row [i] counts [i + 1] where it is set;
    the maximum over no row is numpy's [ValueError]. *)
Definition scale_row (i : nat) (row : list bool) : list Z :=
  map (fun b : bool => if b then Z.of_nat (S i) else 0) row.

Definition column_max (x y : list Z) : list Z :=
  map (fun p => Z.max (fst p) (snd p)) (combine x y).

Definition flatten (H : list (list bool)) : outcome (list Z) :=
  match map (fun p => scale_row (fst p) (snd p)) (combine (seq 0 (length H)) H) with
  | [] => RaisesEmpty
  | r :: rs => Returns (fold_left column_max rs r)
  end.

(** The labels of the terminals, or the matrix of the clusters. *)
Inductive clustering : Type :=
| Labels (h : list Z)
| Matrix (H : list (list bool)).

(** A node is put on the queue once for the root and once at most for every
    edge, so a round per edge and one for the root empty the queue.  With
    no root the queue holds [None], which is no tuple: it is skipped, or
    becomes a cluster that [nx.descendants] does not find in the graph.
    The second component is the number of warnings logged. *)
Definition _topdown_cluster (w : Weaver) (attr : attr_name) (value : Z)
           (flat stop_before_terminal : bool) : outcome (clustering * nat) :=
  match hier w with
  | None => Raises (ValueError NotBuilt)
  | Some T =>
      let n_nodes := n_terminals w in
      found <~ match get_root T with
               | Some r =>
                   s <~ topdown_loop w T attr value stop_before_terminal
                                     (S (length (g_edges T))) (mkScan [r] [] [] O) ;;
                   Returns (s_clusters s, s_warnings s)
               | None =>
                   if stop_before_terminal then Returns ([], O) else Raises NetworkXError
               end ;;
      H <~ omapM (fun n => node_cluster w n (Some (repeat false n_nodes))) (fst found) ;;
      if flat then h <~ flatten H ;; Returns (Labels h, snd found)
      else Returns (Matrix H, snd found)
  end.

Definition depth_cluster (w : Weaver) (depth : Z) (flat stop_before_terminal : bool)
  : outcome (clustering * nat) :=
  _topdown_cluster w Depth depth flat stop_before_terminal.

(** [level_cluster] logs a warning of its own when levels were not assumed. *)
Definition level_cluster (w : Weaver) (level : Z) (flat stop_before_terminal : bool)
  : outcome (clustering * nat) :=
  r <~ _topdown_cluster w Level level flat stop_before_terminal ;;
  Returns (fst r, if assume_levels w then snd r else S (snd r)).

(** ** What the methods find after [weave]

    The hierarchy [h] in the object, its root [r] and the terminals [ts]:
    the edges leave clusters and go down in rank, every node is below the
    root and carries its depth, every cluster has a child and a level, and
    the terminals of the hierarchy are among [ts]. *)
Record stored (rk : node -> Z) (w : Weaver) (h : DiGraph) (r : node) (ts : list Z)
  : Prop := mkStored {
  st_hier : hier w = Some h;
  st_terminals : _terminals w = Some ts;
  st_n : n_terminals w = length ts;
  st_wf : wf_graph h;
  st_src : src_tuple h;
  st_ranked : ranked rk h;
  st_root : get_root h = Some r;
  st_tuple : istuple r = true;
  st_reach : forall v, In v (nodes h) -> path h r v;
  st_depth : forall v, In v (nodes h) ->
               exists d, get_depth h v = Some d /\ shortest h r v d;
  st_child : no_dead_end h;
  st_term : forall t, In (Terminal t) (nodes h) -> In t ts;
  st_level : forall n, In n (nodes h) -> istuple n = true ->
               exists l, get_attr Level h n = Some l
}.

Arguments st_hier {rk w h r ts} _.
Arguments st_terminals {rk w h r ts} _.
Arguments st_n {rk w h r ts} _.
Arguments st_wf {rk w h r ts} _.
Arguments st_src {rk w h r ts} _ _ _ _.
Arguments st_ranked {rk w h r ts} _ _ _ _.
Arguments st_root {rk w h r ts} _.
Arguments st_tuple {rk w h r ts} _.
Arguments st_reach {rk w h r ts} _ _ _.
Arguments st_depth {rk w h r ts} _ _ _.
Arguments st_child {rk w h r ts} _ _ _ _.
Arguments st_term {rk w h r ts} _ _ _.
Arguments st_level {rk w h r ts} _ _ _ _.

(** ** Invariants of the construction that the methods rely on *)

(** Every cluster carries a level. *)
Definition levelled (G : DiGraph) : Prop :=
  forall n a, In (n, a) (g_nodes G) -> istuple n = true -> a_level a <> None.

(** A terminal of the graph is at a position that a row marks. *)
Definition from_rows (L : list (list bool)) (terminals : list Z) (G : DiGraph) : Prop :=
  forall t, In (Terminal t) (nodes G) ->
    exists i p, In p (true_positions (nthZ L i [])) /\ t = nthZ terminals p 0.

(** ** The loop of [_topdown_cluster] *)

(** The edges whose source has not been visited: they can still put a node
    on the queue. *)
Definition pending (h : DiGraph) (visited : list node) : nat :=
  length (filter (fun e => negb (mem (fst (fst e)) visited)) (g_edges h)).

(** The state of the loop on the hierarchy [h] with root [r].  The nodes of
    the queue and the visited ones are nodes of [h], clusters only when the
    search stops before the terminals; with [bounded] set no cluster among
    them is above [value] and no warning was logged.  The clusters found
    are visited.  A visited cluster below [value] has its children on the
    queue or visited, or is itself a cluster found when the child is a
    terminal the search stops before; a visited cluster at [value] and a
    visited terminal are clusters found. *)
Record scan_inv (h : DiGraph) (r : node) (attr : attr_name) (value : Z)
  (stop_before_terminal bounded : bool) (s : scan) : Prop := mkScanInv {
  si_queue : forall n, In n (s_queue s) ->
    In n (nodes h) /\ (stop_before_terminal = true -> istuple n = true) /\
    (bounded = true -> istuple n = true ->
     exists a, get_attr attr h n = Some a /\ a <= value);
  si_visited : forall n, In n (s_visited s) ->
    In n (nodes h) /\ (stop_before_terminal = true -> istuple n = true) /\
    (bounded = true -> istuple n = true ->
     exists a, get_attr attr h n = Some a /\ a <= value);
  si_clusters : forall n, In n (s_clusters s) -> In n (s_visited s);
  si_root : In r (s_queue s) \/ In r (s_visited s);
  si_low : forall n a c, In n (s_visited s) -> istuple n = true ->
    get_attr attr h n = Some a -> a < value -> In (n, c) (edges h) ->
    (istuple c = false /\ stop_before_terminal = true /\ In n (s_clusters s)) \/
    In c (s_queue s) \/ In c (s_visited s);
  si_eq : forall n, In n (s_visited s) -> istuple n = true ->
    get_attr attr h n = Some value -> In n (s_clusters s);
  si_term : forall n, In n (s_visited s) -> istuple n = false -> In n (s_clusters s);
  si_warn : bounded = true -> s_warnings s = O
}.

Arguments si_queue {h r attr value stop_before_terminal bounded s} _ _ _.
Arguments si_visited {h r attr value stop_before_terminal bounded s} _ _ _.
Arguments si_clusters {h r attr value stop_before_terminal bounded s} _ _ _.
Arguments si_root {h r attr value stop_before_terminal bounded s} _.
Arguments si_low {h r attr value stop_before_terminal bounded s} _ _ _ _ _ _ _ _ _.
Arguments si_eq {h r attr value stop_before_terminal bounded s} _ _ _ _ _.
Arguments si_term {h r attr value stop_before_terminal bounded s} _ _ _ _.
Arguments si_warn {h r attr value stop_before_terminal bounded s} _ _.

(** ** The weights of the candidate graph *)

(** What the weight [q] of an edge [u -> v] is: between two clusters the
    part of the child [v] that is in the parent [u], which reaches the
    cutoff; 1 below the added root [(-1, 0)] and above a terminal. *)
Definition edge_weight_ok (L : list (list bool)) (cutoff : Q) (u v : node) (q : Q) : Prop :=
  match u, v with
  | Internal j _, Internal i _ =>
      if j <? 0 then q = 1%Q
      else q = (inject_Z (inter L i j) / inject_Z (size L i))%Q /\ (cutoff <= q)%Q
  | Internal _ _, Terminal _ => q = 1%Q
  | Terminal _, _ => False
  end.

(** Every edge of the graph carries such a weight. *)
Definition weighted (L : list (list bool)) (cutoff : Q) (G : DiGraph) : Prop :=
  forall u v, In (u, v) (edges G) ->
    exists q, lookup_edge (g_edges G) (u, v) = Some q /\ edge_weight_ok L cutoff u v q.

(** ** A terminal in no cluster *)

(** Two boolean partitions over three terminals; the last terminal is in
    neither cluster. *)
Definition gap_partitions : list (list Z) := [[1; 1; 0]; [1; 0; 0]].

Definition gap_weave : method DiGraph :=
  weave init_weaver gap_partitions TNone true (LBool false) default_config.

Definition gap_weaver : Weaver := fst gap_weave.

Definition gap_hier : DiGraph :=
  match snd gap_weave with
  | Ok h => h
  | Raise _ => empty_graph
  end.

(** ** The attributes of the nodes *)

(** What a node carries from [_build] on: a cluster [(i, 0)] its index and
    the level and the label of its row, the added root [(-1, 0)] its own
    three values, a terminal nothing. *)
Definition node_attrs_ok (levels labels : list Z) (n : node) (a : attrs) : Prop :=
  match n with
  | Internal i k =>
      k = 0 /\
      if i <? 0
      then i = -1 /\ a_index a = Some (-1) /\ a_level a = Some (-1) /\ a_label a = Some 1
      else i < Z.of_nat (length levels) /\
           a_index a = Some i /\ a_level a = Some (nthZ levels i 0) /\
           a_label a = Some (nthZ labels i 0)
  | Terminal _ => a_index a = None /\ a_level a = None /\ a_label a = None
  end.

Definition attributed (levels labels : list Z) (G : DiGraph) : Prop :=
  forall n a, In (n, a) (g_nodes G) -> node_attrs_ok levels labels n a.

(** ** [Weaver.relabel] *)

(** [map_indices], a [defaultdict(int)]. *)
Fixpoint counter_get (c : list (Z * nat)) (v : Z) : nat :=
  match c with
  | [] => O
  | (v', k) :: r => if v' =? v then k else counter_get r v
  end.

Fixpoint counter_incr (c : list (Z * nat)) (v : Z) : list (Z * nat) :=
  match c with
  | [] => [(v, 1%nat)]
  | (v', k) :: r => if v' =? v then (v', S k) :: r else (v', k) :: counter_incr r v
  end.

(** The body of [for node in map_dict]: a cluster is mapped to its value
    and the number of clusters of that value met before. *)
Definition relabel_step (st : list (node * node) * list (Z * nat)) (kv : node * Z)
  : list (node * node) * list (Z * nat) :=
  if istuple (fst kv) then
    let value := snd kv in
    let idx := counter_get (snd st) value in
    (fst st ++ [(fst kv, Internal value (Z.of_nat idx))], counter_incr (snd st) value)
  else st.

Fixpoint lookup_node (m : list (node * node)) (n : node) : option node :=
  match m with
  | [] => None
  | (k, v) :: r => if node_eqb k n then Some v else lookup_node r n
  end.

(** [mapping.get(n, n)] *)
Definition relabelled (m : list (node * node)) (n : node) : node :=
  match lookup_node m n with
  | Some n' => n'
  | None => n
  end.

(** [H._node[n] = a] for a node of the graph. *)
Definition set_attrs (G : DiGraph) (n : node) (a : attrs) : DiGraph :=
  mkGraph (map (fun p => if node_eqb (fst p) n then (fst p, a) else p) (g_nodes G))
          (g_edges G).

(** [nx.relabel_nodes(G, mapping, copy=True)] as networkx 2 and 3 have it:
    a new graph takes the new names of the nodes in the order of the nodes,
    then a copy of the attributes of every node, then the edges, source by
    source, under their new names. *)
Definition relabel_nodes (G : DiGraph) (m : list (node * node)) : DiGraph :=
  let name := relabelled m in
  let H0 := fold_left (fun H p => add_node H (name (fst p)) no_attrs) (g_nodes G) empty_graph in
  let H1 := fold_left (fun H p => set_attrs H (name (fst p)) (snd p)) (g_nodes G) H0 in
  fold_left (fun H e => add_edge H (name (fst (fst e))) (name (snd (fst e))) (snd e))
            (g_edges (copy G)) H1.

Definition relabel (w : Weaver) : Weaver * outcome (list (node * node)) :=
  match (if assume_levels w then level w NNone else depth w NNone) with
  | Returns (VDict map_dict) =>
      let mapping := fst (fold_left relabel_step map_dict ([], [])) in
      match hier w with
      | Some h => (set_hier w (Some (relabel_nodes h mapping)), Returns mapping)
      | None => (w, Raises (ValueError NotBuilt))
      end
  | Returns _ => (w, Outside)
  | Raises e => (w, Raises e)
  | RaisesEmpty => (w, RaisesEmpty)
  | Outside => (w, Outside)
  end.

(** The mapping after the entries [done] of the dictionary. *)
Record mapping_inv (done : list (node * Z)) (m : list (node * node)) (c : list (Z * nat))
  : Prop := mkMappingInv {
  mi_val : forall n n', In (n, n') m ->
             exists v k, n' = Internal v (Z.of_nat k) /\ In (n, v) done /\
                         istuple n = true /\ (k < counter_get c v)%nat;
  mi_key : forall n v, In (n, v) done -> istuple n = true -> exists n', In (n, n') m;
  mi_idx : forall v k, (k < counter_get c v)%nat ->
             exists n, In (n, Internal v (Z.of_nat k)) m;
  mi_inj : forall n1 n2 n', In (n1, n') m -> In (n2, n') m -> n1 = n2;
  mi_nodup : NoDup (map fst m)
}.

Arguments mi_val {done m c} _ _ _ _.
Arguments mi_key {done m c} _ _ _ _ _.
Arguments mi_idx {done m c} _ _ _ _.
Arguments mi_inj {done m c} _ _ _ _ _ _.
Arguments mi_nodup {done m c} _.

(** * Containment indices of two labellings

    [containment_indices_legacy] and [containment_indices] take two
    sequences of labels, one label per element, and
    [containment_indices_sparse] two boolean matrices of clusters. *)

(** ** [containment_indices_legacy] *)

(** [counterAB], a [defaultdict(int)] on pairs of labels. *)
Fixpoint pair_get (c : list (Z * Z * nat)) (k : Z * Z) : nat :=
  match c with
  | [] => O
  | ((a, b), n) :: r =>
      if (a =? fst k) && (b =? snd k) then n else pair_get r k
  end.

Fixpoint pair_incr (c : list (Z * Z * nat)) (k : Z * Z) : list (Z * Z * nat) :=
  match c with
  | [] => [(k, 1%nat)]
  | ((a, b), n) :: r =>
      if (a =? fst k) && (b =? snd k) then ((a, b), S n) :: r
      else ((a, b), n) :: pair_incr r k
  end.

Record counters : Type := mkCounters {
  counterA : list (Z * nat);
  counterB : list (Z * nat);
  counterAB : list (Z * Z * nat)
}.

(** The three increments of one round. *)
Definition count_pair (st : counters) (ab : Z * Z) : counters :=
  {| counterA := counter_incr (counterA st) (fst ab);
     counterB := counter_incr (counterB st) (snd ab);
     counterAB := pair_incr (counterAB st) ab |}.

(** The body of [for i in range(n)]; [A[i]] and [B[i]] raise [IndexError]
    past the end. *)
Definition count_step (A B : list Z) (st : counters) (i : nat) : outcome counters :=
  match nth_error A i with
  | None => Raises IndexError
  | Some a =>
      match nth_error B i with
      | None => Raises IndexError
      | Some b => Returns (count_pair st (a, b))
      end
  end.

(** [counterAB[(a, b)] / counterA[a]] *)
Definition legacy_entry (st : counters) (a b : Z) : Q :=
  (inject_Z (Z.of_nat (pair_get (counterAB st) (a, b)))
   / inject_Z (Z.of_nat (counter_get (counterA st) a)))%Q.

Definition containment_indices_legacy (A B : list Z)
  : outcome (list (list Q) * list Z * list Z) :=
  let n := length A in
  st <~ ofoldM (count_step A B) (seq 0 n) (mkCounters [] [] []) ;;
  let LA := map fst (counterA st) in
  let LB := map fst (counterB st) in
  Returns (map (fun a => map (fun b => legacy_entry st a b) LB) LA, LA, LB).

(** ** [containment_indices] *)

(** What [containment_indices] does with two lists of Python integers: it
    returns, or [bA.dot(bB.T)] raises numpy's [ValueError] for shapes that
    do not fit, or [np.asarray] has given the labels another type than the
    64-bit integer ([Promoted]): with a label outside that range numpy
    turns the list into unsigned integers, floats or objects by its rules
    of promotion, and as floats two labels can become one.  That case is
    left outside the model. *)
Inductive shaped (A : Type) : Type :=
| Fits (a : A)
| Mismatch
| Promoted.
Arguments Fits {A} a.
Arguments Mismatch {A}.
Arguments Promoted {A}.

(** A label that [np.asarray] keeps as a 64-bit integer. *)
Definition is_int64 (z : Z) : bool := (- 2 ^ 63 <=? z) && (z <? 2 ^ 63).

(** [bA[i] = A == a], a row of the float matrix. *)
Definition indicator (A : list Z) (a : Z) : list Q :=
  map (fun x => if x =? a then 1%Q else 0%Q) A.

(** [bA.sum(axis=1)[i]] *)
Definition row_sum (r : list Q) : Q := fold_left Qplus r 0%Q.

(** [bA.dot(bB.T)] needs rows of [bA] and of [bB] of one length, whatever
    the type of the labels; nothing before it raises. *)
Definition containment_indices (A B : list Z) : shaped (list (list Q) * list Z * list Z) :=
  let LA := unique A in
  let LB := unique B in
  let bA := map (indicator A) LA in
  let bB := map (indicator B) LB in
  if (length A =? length B)%nat then
    if forallb is_int64 A && forallb is_int64 B then
      let overlap := map (fun ra => map (fun rb => dot ra rb) bB) bA in
      let count := map row_sum bA in
      Fits (map (fun oc => map (fun o => (o / snd oc)%Q) (fst oc)) (combine overlap count),
            LA, LB)
    else Promoted
  else Mismatch.

(** The number of elements with label [a] in [A] and label [b] in [B], and
    the number of those with label [a] in [A]. *)
Definition labelled (A : list Z) (a : Z) : list bool := map (fun x => x =? a) A.

Definition containment (A B : list Z) (a b : Z) : Q :=
  (inject_Z (both_count (labelled A a) (labelled B b))
   / inject_Z (count_nonzero (labelled A a)))%Q.

(** ** [containment_indices_sparse] *)

(** A matrix of [rows] rows of [cols] entries. *)
Definition has_shape (A : list (list bool)) (rows cols : nat) : bool :=
  (length A =? rows)%nat && forallb (fun r => (length r =? cols)%nat) A.

(** A row of [Asp.multiply(Bsp)]. *)
Definition multiply (a b : list bool) : list bool :=
  map (fun p => fst p && snd p) (combine a b).

(** Two matrices of one shape; for two shapes scipy broadcasts or raises
    by the rules of its version, which is left [Outside], as is a matrix
    without a row, whose number of columns the rows cannot tell. A row of
    [A] without a member divides 0 by 0. *)
Definition containment_indices_sparse (A B : list (list bool)) : outcome (list Q) :=
  match A with
  | [] => Outside
  | a0 :: _ =>
      let cols := length a0 in
      if has_shape A (length A) cols && has_shape B (length A) cols then
        let both :=
          map (fun ab => count_nonzero (multiply (fst ab) (snd ab))) (combine A B) in
        let countA := map count_nonzero A in
        Returns (map (fun bc => (1 * inject_Z (fst bc) / inject_Z (snd bc))%Q)
                     (combine both countA))
      else Outside
  end.

(** * [n_simple_paths] *)

(** [nsp_reg], a dictionary from nodes to numbers of paths. *)
Fixpoint reg_get (reg : list (node * nat)) (u : node) : option nat :=
  match reg with
  | [] => None
  | (x, k) :: r => if node_eqb x u then Some k else reg_get r u
  end.

(** [nsp(u, v)], with [nsp_reg] before and after the call.  [limit] is the
    depth of recursion the interpreter allows; past it Python raises
    [RecursionError], which is left [Outside].  [G.successors(u)] raises
    for a [u] that is no node of [G]. *)
Fixpoint nsp (G : DiGraph) (v : node) (limit : nat) (reg : list (node * nat)) (u : node)
  : outcome (list (node * nat) * nat) :=
  match limit with
  | O => Outside
  | S limit' =>
      if node_eqb u v then Returns (reg, 1%nat)
      else
        match reg_get reg u with
        | Some k => Returns (reg, k)
        | None =>
            if has_node G u then
              r <~ ofoldM (fun (st : list (node * nat) * nat) (c : node) =>
                             r <~ nsp G v limit' (fst st) c ;;
                             Returns (fst r, (snd st + snd r)%nat))
                          (successors G u) (reg, O) ;;
              Returns ((u, snd r) :: fst r, snd r)
            else Raises NetworkXError
        end
  end.

Definition n_simple_paths (G : DiGraph) (limit : nat) (u v : node) : outcome nat :=
  r <~ nsp G v limit [] u ;; Returns (snd r).

(** The nodes after [u] on a directed path from [u] to [v]. *)
Fixpoint chain (G : DiGraph) (u v : node) (p : list node) : Prop :=
  match p with
  | [] => u = v
  | x :: r => In (u, x) (edges G) /\ chain G x v r
  end.

(** The paths from [u] to [v] of at most [n] nodes that meet [v] at their
    end only. *)
Fixpoint paths_from (G : DiGraph) (v : node) (n : nat) (u : node) : list (list node) :=
  match n with
  | O => []
  | S n' =>
      if node_eqb u v then [[]]
      else flat_map (fun c => map (cons c) (paths_from G v n' c)) (successors G u)
  end.

(** * [all_equal] *)

(** [itertools.groupby(iterable)]: the runs of equal elements, each with
    its key. *)
Fixpoint groupby (l : list Z) : list (Z * list Z) :=
  match l with
  | [] => []
  | x :: r =>
      match groupby r with
      | (k, grp) :: gs => if x =? k then (k, x :: grp) :: gs else (x, [x]) :: (k, grp) :: gs
      | [] => [(x, [x])]
      end
  end.

(** [next(g, True) and not next(g, False)]: a group is a pair and counts
    as true. *)
Definition all_equal (l : list Z) : bool :=
  match groupby l with
  | [] => negb false
  | _ :: gs => match gs with
               | [] => negb false
               | _ :: _ => negb true
               end
  end.

(** * A tie that rounding breaks

    A cluster of 22 members with two parents: 15 of its members are in the
    first parent, of 23 members, and all are in the second, of 44.  Both
    Jaccard indices are 1/2. *)
Definition near_tie_rows : list (list bool) :=
  [repeat true 23; repeat true 44; repeat true 22].

Definition near_tie_graph : DiGraph :=
  mkGraph [(Internal 0 0, no_attrs); (Internal 1 0, no_attrs); (Internal 2 0, no_attrs)]
          [((Internal 0 0, Internal 2 0), (inject_Z 15 / inject_Z 22)%Q);
           ((Internal 1 0, Internal 2 0), (inject_Z 22 / inject_Z 22)%Q)].

(** * Proofs *)

(** * Facts about nodes, edges and the graph operations *)

Lemma node_eqb_eq : forall a b, node_eqb a b = true <-> a = b.
Proof.
  intros [i k|t] [i' k'|t']; simpl; split; intro H; try discriminate.
  - apply andb_true_iff in H as [H1 H2].
    apply Z.eqb_eq in H1, H2. now subst.
  - inversion H; subst. now rewrite !Z.eqb_refl.
  - apply Z.eqb_eq in H. now subst.
  - inversion H; subst. apply Z.eqb_refl.
Qed.

Lemma node_eqb_refl : forall a, node_eqb a a = true.
Proof. intro a. now apply node_eqb_eq. Qed.

Lemma node_eqb_neq : forall a b, node_eqb a b = false <-> a <> b.
Proof.
  intros a b. split.
  - intros H E. apply node_eqb_eq in E. congruence.
  - intro H. destruct (node_eqb a b) eqn:E; [|reflexivity].
    apply node_eqb_eq in E. contradiction.
Qed.

Lemma node_eqb_sym : forall a b, node_eqb a b = node_eqb b a.
Proof.
  intros a b. destruct (node_eqb a b) eqn:E.
  - apply node_eqb_eq in E. subst. now rewrite node_eqb_refl.
  - symmetry. apply node_eqb_neq. apply node_eqb_neq in E. congruence.
Qed.

Lemma node_eq_dec : forall a b : node, {a = b} + {a <> b}.
Proof.
  intros a b. destruct (node_eqb a b) eqn:E.
  - left. now apply node_eqb_eq.
  - right. now apply node_eqb_neq.
Qed.

Lemma edge_eqb_eq : forall e e', edge_eqb e e' = true <-> e = e'.
Proof.
  intros [a b] [a' b']. unfold edge_eqb. simpl.
  rewrite andb_true_iff, !node_eqb_eq. split.
  - intros [-> ->]. reflexivity.
  - intro H. inversion H. auto.
Qed.

Lemma edge_eqb_refl : forall e, edge_eqb e e = true.
Proof. intro e. now apply edge_eqb_eq. Qed.

Lemma edge_eqb_neq : forall e e', edge_eqb e e' = false <-> e <> e'.
Proof.
  intros e e'. split.
  - intros H E. apply edge_eqb_eq in E. congruence.
  - intro H. destruct (edge_eqb e e') eqn:E; [|reflexivity].
    apply edge_eqb_eq in E. contradiction.
Qed.

Lemma edge_eq_dec : forall a b : edge, {a = b} + {a <> b}.
Proof.
  intros a b. destruct (edge_eqb a b) eqn:E.
  - left. now apply edge_eqb_eq.
  - right. now apply edge_eqb_neq.
Qed.

Lemma mem_In : forall n l, mem n l = true <-> In n l.
Proof.
  intros n l. unfold mem. rewrite existsb_exists. split.
  - intros [x [Hx E]]. apply node_eqb_eq in E. now subst.
  - intro H. exists n. split; [assumption|apply node_eqb_refl].
Qed.

Lemma mem_false : forall n l, mem n l = false <-> ~ In n l.
Proof.
  intros n l. rewrite <- mem_In. destruct (mem n l); split; congruence.
Qed.

Lemma emem_In : forall e l, emem e l = true <-> In e l.
Proof.
  intros e l. unfold emem. rewrite existsb_exists. split.
  - intros [x [Hx E]]. apply edge_eqb_eq in E. now subst.
  - intro H. exists e. split; [assumption|apply edge_eqb_refl].
Qed.

Lemma emem_false : forall e l, emem e l = false <-> ~ In e l.
Proof.
  intros e l. rewrite <- emem_In. destruct (emem e l); split; congruence.
Qed.

Lemma has_node_In : forall G n, has_node G n = true <-> In n (nodes G).
Proof. intros. apply mem_In. Qed.

Lemma has_edge_In : forall G u v, has_edge G u v = true <-> In (u, v) (edges G).
Proof. intros. apply emem_In. Qed.

Lemma has_edge_false : forall G u v, has_edge G u v = false <-> ~ In (u, v) (edges G).
Proof. intros. apply emem_false. Qed.

Lemma In_successors : forall G u v, In v (successors G u) <-> In (u, v) (edges G).
Proof.
  intros G u v. unfold successors, edges. rewrite !in_map_iff. split.
  - intros [[[a b] w] [E H]]. simpl in E. subst b.
    apply filter_In in H as [H1 H2]. simpl in H2. apply node_eqb_eq in H2. subst a.
    exists ((u, v), w). auto.
  - intros [[[a b] w] [E H]]. simpl in E. inversion E; subst.
    exists ((u, v), w). split; [reflexivity|].
    apply filter_In. split; [assumption|apply node_eqb_refl].
Qed.

Lemma In_predecessors : forall G u v, In u (predecessors G v) <-> In (u, v) (edges G).
Proof.
  intros G u v. unfold predecessors, edges. rewrite !in_map_iff. split.
  - intros [[[a b] w] [E H]]. simpl in E. subst a.
    apply filter_In in H as [H1 H2]. simpl in H2. apply node_eqb_eq in H2. subst b.
    exists ((u, v), w). auto.
  - intros [[[a b] w] [E H]]. simpl in E. inversion E; subst.
    exists ((u, v), w). split; [reflexivity|].
    apply filter_In. split; [assumption|apply node_eqb_refl].
Qed.

Lemma lookup_edge_Some : forall l e w, lookup_edge l e = Some w -> In (e, w) l.
Proof.
  induction l as [|[e' w'] l IH]; simpl; intros e w H; [discriminate|].
  destruct (edge_eqb e e') eqn:E.
  - apply edge_eqb_eq in E. inversion H; subst. now left.
  - right. now apply IH.
Qed.

Lemma lookup_edge_In : forall l e, In e (map fst l) <-> exists w, lookup_edge l e = Some w.
Proof.
  induction l as [|[e' w'] l IH]; simpl; intros e.
  - split; [tauto|intros [w H]; discriminate].
  - destruct (edge_eqb e e') eqn:E.
    + apply edge_eqb_eq in E. subst. split; eauto.
    + apply edge_eqb_neq in E. rewrite <- IH. split; [intros [H|H]; congruence|auto].
Qed.

Lemma lookup_edge_None : forall l e, lookup_edge l e = None <-> ~ In e (map fst l).
Proof.
  intros l e. rewrite lookup_edge_In. destruct (lookup_edge l e).
  - split; [discriminate|]. intro H. exfalso. apply H. eauto.
  - split; [|reflexivity]. intros _ [w H]. discriminate.
Qed.

Lemma weight_Ok : forall G u v, In (u, v) (edges G) -> exists w, weight G u v = Ok w.
Proof.
  intros G u v H. apply lookup_edge_In in H as [w H].
  exists w. unfold weight. now rewrite H.
Qed.

(** ** Edges and nodes after each operation *)

Lemma edges_remove_edges_from : forall G l e,
  In e (edges (remove_edges_from G l)) <-> In e (edges G) /\ ~ In e l.
Proof.
  intros G l e. unfold edges, remove_edges_from. simpl.
  rewrite !in_map_iff. split.
  - intros [[e' w] [E H]]. simpl in E. subst e'.
    apply filter_In in H as [H1 H2]. simpl in H2.
    apply negb_true_iff, emem_false in H2. split; [|assumption].
    exists (e, w). auto.
  - intros [[[e' w] [E H]] Hn]. simpl in E. subst e'.
    exists (e, w). split; [reflexivity|]. apply filter_In. split; [assumption|].
    simpl. now apply negb_true_iff, emem_false.
Qed.

Lemma nodes_remove_edges_from : forall G l, g_nodes (remove_edges_from G l) = g_nodes G.
Proof. reflexivity. Qed.

Lemma nodes_touch_node : forall G n x,
  In x (nodes (touch_node G n)) <-> In x (nodes G) \/ x = n.
Proof.
  intros G n x. unfold touch_node. destruct (has_node G n) eqn:E.
  - apply has_node_In in E. split; [auto|]. intros [H|H]; [assumption|now subst].
  - unfold nodes. simpl. rewrite map_app, in_app_iff. simpl. intuition.
Qed.

Lemma edges_touch_node : forall G n, g_edges (touch_node G n) = g_edges G.
Proof. intros G n. unfold touch_node. now destruct (has_node G n). Qed.

Lemma map_fst_update : forall (l : list (edge * Q)) e w,
  map fst (map (fun x => if edge_eqb (fst x) e then (fst x, w) else x) l) = map fst l.
Proof.
  induction l as [|x l IH]; simpl; intros; [reflexivity|].
  rewrite IH. now destruct (edge_eqb (fst x) e).
Qed.

Lemma edges_add_edge_list : forall G u v w,
  edges (add_edge G u v w) =
  if has_edge G u v then edges G else edges G ++ [(u, v)].
Proof.
  intros G u v w. unfold add_edge, has_edge, edges.
  rewrite !edges_touch_node.
  destruct (emem (u, v) (map fst (g_edges G))); simpl.
  - apply map_fst_update.
  - rewrite ?edges_touch_node, map_app. reflexivity.
Qed.

Lemma edges_add_edge : forall G u v w e,
  In e (edges (add_edge G u v w)) <-> In e (edges G) \/ e = (u, v).
Proof.
  intros G u v w e. rewrite edges_add_edge_list.
  destruct (has_edge G u v) eqn:E.
  - apply has_edge_In in E. split; [auto|]. intros [H|H]; [assumption|now subst].
  - rewrite in_app_iff. simpl. intuition.
Qed.

Lemma g_nodes_add_edge : forall G u v w,
  g_nodes (add_edge G u v w) = g_nodes (touch_node (touch_node G u) v).
Proof.
  intros. unfold add_edge. now destruct (has_edge _ u v).
Qed.

Lemma nodes_add_edge : forall G u v w x,
  In x (nodes (add_edge G u v w)) <-> In x (nodes G) \/ x = u \/ x = v.
Proof.
  intros G u v w x. unfold nodes at 1. rewrite g_nodes_add_edge.
  fold (nodes (touch_node (touch_node G u) v)).
  rewrite !nodes_touch_node. tauto.
Qed.

Lemma g_nodes_add_edge_same : forall G u v w,
  In u (nodes G) -> In v (nodes G) -> g_nodes (add_edge G u v w) = g_nodes G.
Proof.
  intros G u v w Hu Hv. rewrite g_nodes_add_edge. unfold touch_node.
  apply has_node_In in Hu. rewrite Hu.
  apply has_node_In in Hv. now rewrite Hv.
Qed.

Lemma edges_add_node : forall G n a, g_edges (add_node G n a) = g_edges G.
Proof. intros. unfold add_node. now destruct (has_node G n). Qed.

Lemma nodes_add_node_list : forall G n a,
  nodes (add_node G n a) = if has_node G n then nodes G else nodes G ++ [n].
Proof.
  intros G n a. unfold add_node, nodes. destruct (has_node G n); simpl.
  - rewrite map_map. apply map_ext. intros [x b]; simpl. now destruct (node_eqb x n).
  - now rewrite map_app.
Qed.

Lemma nodes_add_node : forall G n a x,
  In x (nodes (add_node G n a)) <-> In x (nodes G) \/ x = n.
Proof.
  intros G n a x. rewrite nodes_add_node_list. destruct (has_node G n) eqn:E.
  - apply has_node_In in E. split; [auto|]. intros [H|H]; [assumption|now subst].
  - rewrite in_app_iff. simpl. intuition.
Qed.

Lemma edges_drop_node : forall G n a b,
  In (a, b) (edges (drop_node G n)) <-> In (a, b) (edges G) /\ a <> n /\ b <> n.
Proof.
  intros G n a b. unfold edges, drop_node. simpl. rewrite !in_map_iff. split.
  - intros [[e w] [E H]]. simpl in E. subst e.
    apply filter_In in H as [H1 H2]. simpl in H2.
    apply andb_true_iff in H2 as [H2 H3].
    apply negb_true_iff, node_eqb_neq in H2, H3.
    split; [|auto]. exists ((a, b), w). auto.
  - intros [[[e w] [E H]] [Ha Hb]]. simpl in E. subst e.
    exists ((a, b), w). split; [reflexivity|]. apply filter_In. split; [assumption|].
    simpl. apply andb_true_iff. split; apply negb_true_iff, node_eqb_neq; assumption.
Qed.

Lemma nodes_drop_node_list : forall G n,
  nodes (drop_node G n) = filter (fun x => negb (node_eqb x n)) (nodes G).
Proof.
  intros G n. unfold nodes, drop_node. simpl.
  induction (g_nodes G) as [|[x a] l IH]; simpl; [reflexivity|].
  destruct (node_eqb x n); simpl; now rewrite IH.
Qed.

Lemma nodes_drop_node : forall G n x,
  In x (nodes (drop_node G n)) <-> In x (nodes G) /\ x <> n.
Proof.
  intros G n x. rewrite nodes_drop_node_list, filter_In, negb_true_iff, node_eqb_neq.
  tauto.
Qed.

Lemma edges_set_depth : forall G n d, g_edges (set_depth G n d) = g_edges G.
Proof. reflexivity. Qed.

Lemma nodes_set_depth : forall G n d, nodes (set_depth G n d) = nodes G.
Proof.
  intros G n d. unfold nodes, set_depth. simpl. rewrite map_map.
  apply map_ext. intros [x a]. simpl. now destruct (node_eqb x n).
Qed.

(** ** Well-formed graphs *)

Lemma NoDup_map_filter : forall (A B : Type) (f : A -> B) (p : A -> bool) (l : list A),
  NoDup (map f l) -> NoDup (map f (filter p l)).
Proof.
  induction l as [|x l IH]; simpl; intro H; [constructor|].
  inversion H as [|? ? Hn Hd]; subst.
  destruct (p x); simpl; [|auto].
  constructor; [|auto]. intro Hin. apply Hn.
  apply in_map_iff in Hin as [y [E Hy]]. apply filter_In in Hy as [Hy _].
  rewrite <- E. now apply in_map.
Qed.

Lemma wf_empty : wf_graph empty_graph.
Proof. repeat split; simpl; try constructor; contradiction. Qed.

Lemma wf_remove_edges_from : forall G l, wf_graph G -> wf_graph (remove_edges_from G l).
Proof.
  intros G l (Hn & He & Hin). repeat split.
  - exact Hn.
  - unfold edges, remove_edges_from. simpl. now apply NoDup_map_filter.
  - apply edges_remove_edges_from in H as [H _]. now apply Hin in H.
  - apply edges_remove_edges_from in H as [H _]. now apply Hin in H.
Qed.

Lemma has_node_false : forall G n, has_node G n = false <-> ~ In n (nodes G).
Proof. intros. apply mem_false. Qed.

Lemma NoDup_snoc : forall (A : Type) (l : list A) (x : A),
  NoDup l -> ~ In x l -> NoDup (l ++ [x]).
Proof.
  intros A l x Hl Hx. apply NoDup_app; [assumption|repeat constructor; simpl; tauto|].
  intros y Hy [E|[]]. subst. contradiction.
Qed.

Lemma wf_add_node : forall G n a, wf_graph G -> wf_graph (add_node G n a).
Proof.
  intros G n a (Hn & He & Hin). unfold wf_graph, edges.
  rewrite edges_add_node. fold (edges G). repeat split.
  - rewrite nodes_add_node_list. destruct (has_node G n) eqn:E; [assumption|].
    apply has_node_false in E. now apply NoDup_snoc.
  - assumption.
  - apply nodes_add_node. left. now apply Hin in H.
  - apply nodes_add_node. left. now apply Hin in H.
Qed.

Lemma wf_touch_node : forall G n, wf_graph G -> wf_graph (touch_node G n).
Proof.
  intros G n (Hn & He & Hin). unfold touch_node.
  destruct (has_node G n) eqn:E; [repeat split; auto; now apply Hin in H|].
  apply has_node_false in E. unfold wf_graph, edges, nodes. simpl.
  rewrite map_app. simpl. repeat split.
  - now apply NoDup_snoc.
  - assumption.
  - apply in_app_iff. left. now apply Hin in H.
  - apply in_app_iff. left. now apply Hin in H.
Qed.

Lemma wf_add_edge : forall G u v w, wf_graph G -> wf_graph (add_edge G u v w).
Proof.
  intros G u v w (Hn & He & Hin). repeat split.
  - unfold nodes. rewrite g_nodes_add_edge.
    assert (wf_graph (touch_node (touch_node G u) v)) as Hw
      by (apply wf_touch_node, wf_touch_node; repeat split; auto; now apply Hin in H).
    apply Hw.
  - rewrite edges_add_edge_list. destruct (has_edge G u v) eqn:E; [assumption|].
    apply has_edge_false in E. now apply NoDup_snoc.
  - apply nodes_add_edge. apply edges_add_edge in H as [H|H].
    + left. now apply Hin in H.
    + inversion H. auto.
  - apply nodes_add_edge. apply edges_add_edge in H as [H|H].
    + left. now apply Hin in H.
    + inversion H. auto.
Qed.

Lemma wf_drop_node : forall G n, wf_graph G -> wf_graph (drop_node G n).
Proof.
  intros G n (Hn & He & Hin). repeat split.
  - rewrite nodes_drop_node_list. now apply NoDup_filter.
  - unfold edges, drop_node. simpl. now apply NoDup_map_filter.
  - apply edges_drop_node in H as (H & Hu & Hv). apply nodes_drop_node.
    split; [now apply Hin in H|assumption].
  - apply edges_drop_node in H as (H & Hu & Hv). apply nodes_drop_node.
    split; [now apply Hin in H|assumption].
Qed.

Lemma wf_set_depth : forall G n d, wf_graph G -> wf_graph (set_depth G n d).
Proof.
  intros G n d (Hn & He & Hin). unfold wf_graph.
  rewrite nodes_set_depth. unfold edges. rewrite edges_set_depth. auto.
Qed.

(** The copy has the same nodes and, in a well-formed graph, the same
    edges; only the order of the edges changes. *)
Lemma nodes_copy : forall G, g_nodes (copy G) = g_nodes G.
Proof. reflexivity. Qed.

Lemma g_edges_copy_In : forall G x,
  In x (g_edges (copy G)) <-> In x (g_edges G) /\ In (fst (fst x)) (nodes G).
Proof.
  intros G x. unfold copy. simpl. rewrite in_flat_map. split.
  - intros [u [Hu H]]. apply filter_In in H as [H E].
    apply node_eqb_eq in E. subst. auto.
  - intros [H Hu]. exists (fst (fst x)). split; [assumption|].
    apply filter_In. split; [assumption|apply node_eqb_refl].
Qed.

Lemma edges_copy : forall G e, wf_graph G -> (In e (edges (copy G)) <-> In e (edges G)).
Proof.
  intros G [u v] (Hn & He & Hin). unfold edges at 1 2. rewrite !in_map_iff. split.
  - intros [x [E H]]. apply g_edges_copy_In in H as [H _]. eauto.
  - intros [x [E H]]. exists x. split; [assumption|].
    apply g_edges_copy_In. split; [assumption|].
    assert (In (u, v) (edges G)) as Huv.
    { unfold edges. apply in_map_iff. eauto. }
    apply Hin in Huv as [Hu _]. destruct x as [[a b] w]. simpl in *.
    inversion E; subst. assumption.
Qed.

Lemma NoDup_flat_map_sources : forall (l : list (edge * Q)) (ns : list node),
  NoDup ns -> NoDup (map fst l) ->
  NoDup (map fst (flat_map (fun u => filter (fun e => node_eqb (fst (fst e)) u) l) ns)).
Proof.
  intros l ns Hns Hl. induction Hns as [|n ns Hn Hns IH]; simpl; [constructor|].
  rewrite map_app. apply NoDup_app.
  - now apply NoDup_map_filter.
  - assumption.
  - intros e H1 H2.
    apply in_map_iff in H1 as [x [E1 H1]]. apply filter_In in H1 as [_ H1].
    apply node_eqb_eq in H1.
    apply in_map_iff in H2 as [y [E2 H2]]. apply in_flat_map in H2 as [u [Hu H2]].
    apply filter_In in H2 as [_ H2]. apply node_eqb_eq in H2.
    apply Hn. assert (n = u) as E by (rewrite <- H1, <- H2; congruence).
    rewrite E. exact Hu.
Qed.

Lemma wf_copy : forall G, wf_graph G -> wf_graph (copy G).
Proof.
  intros G Hw. pose proof Hw as (Hn & He & Hin). repeat split.
  - exact Hn.
  - unfold edges, copy. simpl. now apply NoDup_flat_map_sources.
  - apply (proj1 (edges_copy G _ Hw)) in H. now apply Hin in H.
  - apply (proj1 (edges_copy G _ Hw)) in H. now apply Hin in H.
Qed.

(** ** Degrees *)

Lemma NoDup_predecessors : forall G v, wf_graph G -> NoDup (predecessors G v).
Proof.
  intros G v (_ & He & _). unfold predecessors, edges in *.
  induction (g_edges G) as [|[[a b] w] l IH]; simpl; [constructor|].
  inversion He as [|? ? Hn Hd]; subst.
  destruct (node_eqb b v) eqn:E; simpl; [|auto].
  apply node_eqb_eq in E. subst b.
  constructor; [|auto]. intro Hin. apply Hn.
  apply in_map_iff in Hin as [[[a' b'] w'] [E' H]]. simpl in E'. subst a'.
  apply filter_In in H as [H E]. simpl in E. apply node_eqb_eq in E. subst b'.
  apply in_map_iff. exists ((a, v), w'). auto.
Qed.

Lemma NoDup_successors : forall G u, wf_graph G -> NoDup (successors G u).
Proof.
  intros G u (_ & He & _). unfold successors, edges in *.
  induction (g_edges G) as [|[[a b] w] l IH]; simpl; [constructor|].
  inversion He as [|? ? Hn Hd]; subst.
  destruct (node_eqb a u) eqn:E; simpl; [|auto].
  apply node_eqb_eq in E. subst a.
  constructor; [|auto]. intro Hin. apply Hn.
  apply in_map_iff in Hin as [[[a' b'] w'] [E' H]]. simpl in E'. subst b'.
  apply filter_In in H as [H E]. simpl in E. apply node_eqb_eq in E. subst a'.
  apply in_map_iff. exists ((u, b), w'). auto.
Qed.

Lemma in_degree_zero : forall G v,
  in_degree G v = O <-> forall u, ~ In (u, v) (edges G).
Proof.
  intros G v. unfold in_degree. split.
  - intros H u Hu. apply In_predecessors in Hu.
    destruct (predecessors G v); [contradiction|discriminate].
  - intro H. destruct (predecessors G v) as [|p l] eqn:E; [reflexivity|].
    exfalso. apply (H p). apply In_predecessors. rewrite E. now left.
Qed.

Lemma out_degree_zero : forall G u,
  out_degree G u = O <-> forall v, ~ In (u, v) (edges G).
Proof.
  intros G u. unfold out_degree. split.
  - intros H v Hv. apply In_successors in Hv.
    destruct (successors G u); [contradiction|discriminate].
  - intro H. destruct (successors G u) as [|p l] eqn:E; [reflexivity|].
    exfalso. apply (H p). apply In_successors. rewrite E. now left.
Qed.

Lemma NoDup_all_equal_length : forall (l : list node),
  NoDup l -> (forall a b, In a l -> In b l -> a = b) -> (length l <= 1)%nat.
Proof.
  intros [|x [|y l]] Hn H; simpl; try lia.
  exfalso. assert (x = y) by (apply H; simpl; auto). subst.
  inversion Hn; subst. apply H2. now left.
Qed.

Lemma in_degree_le_1 : forall G v, wf_graph G ->
  (forall p q, In (p, v) (edges G) -> In (q, v) (edges G) -> p = q) ->
  (in_degree G v <= 1)%nat.
Proof.
  intros G v Hw H. unfold in_degree. apply NoDup_all_equal_length.
  - now apply NoDup_predecessors.
  - intros a b Ha Hb. apply H; now apply In_predecessors.
Qed.


(** ** Graphs without depth attributes *)

Lemma no_depth_same_nodes : forall G G', g_nodes G' = g_nodes G -> no_depth G -> no_depth G'.
Proof. intros G G' E H n a Hin. rewrite E in Hin. eapply H; eassumption. Qed.

Lemma no_depth_touch_node : forall G n, no_depth G -> no_depth (touch_node G n).
Proof.
  intros G n H. unfold touch_node. destruct (has_node G n); [assumption|].
  intros x a Hin. simpl in Hin. apply in_app_iff in Hin as [Hin|[E|[]]].
  - eapply H; eassumption.
  - inversion E. reflexivity.
Qed.

Lemma no_depth_add_edge : forall G u v w, no_depth G -> no_depth (add_edge G u v w).
Proof.
  intros G u v w H. apply no_depth_same_nodes with (G := touch_node (touch_node G u) v).
  - apply g_nodes_add_edge.
  - now apply no_depth_touch_node, no_depth_touch_node.
Qed.

Lemma no_depth_add_node : forall G n a,
  a_depth a = None -> no_depth G -> no_depth (add_node G n a).
Proof.
  intros G n a Ha H. unfold add_node. destruct (has_node G n).
  - intros x b Hin. simpl in Hin. apply in_map_iff in Hin as [[y c] [E Hy]].
    simpl in E. destruct (node_eqb y n).
    + inversion E; subst. simpl. rewrite Ha. eapply H; eassumption.
    + inversion E; subst. eapply H; eassumption.
  - intros x b Hin. simpl in Hin. apply in_app_iff in Hin as [Hin|[E|[]]].
    + eapply H; eassumption.
    + inversion E. now subst.
Qed.

Lemma no_depth_drop_node : forall G n, no_depth G -> no_depth (drop_node G n).
Proof.
  intros G n H x a Hin. simpl in Hin. apply filter_In in Hin as [Hin _]. eapply H; eassumption.
Qed.

(** * Reachability *)

Lemma path_edge : forall G u v, In (u, v) (edges G) -> path G u v.
Proof. intros G u v H. eapply path_step; [exact H|apply path_refl]. Qed.

Lemma path_trans : forall G u v w, path G u v -> path G v w -> path G u w.
Proof.
  intros G u v w H. induction H; intro H'; [assumption|].
  eapply path_step; [eassumption|auto].
Qed.

Lemma path_snoc : forall G u v w, path G u v -> In (v, w) (edges G) -> path G u w.
Proof. intros G u v w H E. eapply path_trans; [exact H|now apply path_edge]. Qed.

(** A path that is not empty ends with an edge. *)
Lemma path_last : forall G u w, path G u w -> u = w \/ exists v, path G u v /\ In (v, w) (edges G).
Proof.
  intros G u w H. induction H as [u|u v w E H IH]; [now left|].
  right. destruct IH as [->|[x [Hx Ex]]].
  - exists u. split; [apply path_refl|assumption].
  - exists x. split; [|assumption]. eapply path_step; eassumption.
Qed.

Lemma path_mono : forall G G' u v,
  (forall e, In e (edges G) -> In e (edges G')) -> path G u v -> path G' u v.
Proof.
  intros G G' u v Hincl H. induction H; [apply path_refl|].
  eapply path_step; [apply Hincl; eassumption|assumption].
Qed.

Lemma In_union : forall S' S x, In x (union S S') <-> In x S \/ In x S'.
Proof.
  induction S' as [|y S' IH]; simpl; intros S x; [tauto|].
  destruct (mem y S) eqn:E.
  - apply mem_In in E. rewrite IH. split; [tauto|].
    intros [H|[H|H]]; auto. subst. auto.
  - rewrite IH, in_app_iff. simpl. tauto.
Qed.

Lemma NoDup_union : forall S' S, NoDup S -> NoDup (union S S').
Proof.
  induction S' as [|y S' IH]; simpl; intros S H; [assumption|].
  destruct (mem y S) eqn:E; [auto|].
  apply IH. apply NoDup_snoc; [assumption|now apply mem_false].
Qed.

Lemma length_union : forall S' S, (length S <= length (union S S'))%nat.
Proof.
  induction S' as [|y S' IH]; simpl; intros S; [lia|].
  destruct (mem y S); [apply IH|].
  specialize (IH (S ++ [y])). rewrite length_app in IH. simpl in IH. lia.
Qed.

Lemma union_same : forall S' S, incl S' S -> union S S' = S.
Proof.
  induction S' as [|y S' IH]; simpl; intros S H; [reflexivity|].
  assert (In y S) as Hy by (apply H; now left).
  apply mem_In in Hy. rewrite Hy. apply IH. intros x Hx. apply H. now right.
Qed.

Lemma length_union_lt : forall S' S y,
  In y S' -> ~ In y S -> (length S < length (union S S'))%nat.
Proof.
  induction S' as [|z S' IH]; simpl; intros S y Hy Hn; [contradiction|].
  destruct (mem z S) eqn:E.
  - apply mem_In in E. destruct Hy as [->|Hy]; [contradiction|]. eapply IH; eassumption.
  - pose proof (length_union S' (S ++ [z])) as H. rewrite length_app in H. simpl in H. lia.
Qed.

Lemma closure_incl : forall G f S, incl S (closure G f S).
Proof.
  intros G f. induction f as [|f IH]; simpl; intros S x Hx; [assumption|].
  apply IH. apply In_union. now left.
Qed.

Lemma closure_sound : forall G f S x,
  In x (closure G f S) -> exists s, In s S /\ path G s x.
Proof.
  intros G f. induction f as [|f IH]; simpl; intros S x Hx.
  - exists x. split; [assumption|apply path_refl].
  - apply IH in Hx as [s [Hs Hp]]. apply In_union in Hs as [Hs|Hs].
    + eauto.
    + apply in_flat_map in Hs as [u [Hu Hs]]. apply In_successors in Hs.
      exists u. split; [assumption|]. eapply path_step; eassumption.
Qed.

Lemma closure_fix : forall G f S, expand G S = S -> closure G f S = S.
Proof.
  intros G f S H. induction f as [|f IH]; simpl; [reflexivity|]. now rewrite H.
Qed.

Lemma incl_dec_nodes : forall (l S : list node), {incl l S} + {exists y, In y l /\ ~ In y S}.
Proof.
  induction l as [|x l IH]; intro S.
  - left. intros y [].
  - destruct (IH S) as [H|H].
    + destruct (mem x S) eqn:E.
      * left. apply mem_In in E. intros y [->|Hy]; auto.
      * right. exists x. split; [now left|now apply mem_false].
    + right. destruct H as [y [Hy Hn]]. exists y. split; [now right|assumption].
Qed.

Lemma closure_closed : forall G, wf_graph G -> forall f S,
  NoDup S -> incl S (nodes G) -> (length (nodes G) - length S <= f)%nat ->
  forall x y, In x (closure G f S) -> In (x, y) (edges G) -> In y (closure G f S).
Proof.
  intros G Hw. pose proof Hw as (Hn & He & Hin).
  induction f as [|f IH]; intros S HS Hincl Hlen x y Hx Hxy.
  - simpl in *. apply Hin in Hxy as [_ Hy].
    assert (incl (nodes G) S) as H by (apply NoDup_length_incl; [assumption|lia|assumption]).
    now apply H.
  - simpl in *. destruct (incl_dec_nodes (flat_map (successors G) S) S) as [Hc|[z [Hz Hnz]]].
    + assert (expand G S = S) as E by now apply union_same.
      rewrite E, closure_fix in * by assumption.
      apply Hc. apply in_flat_map. exists x. split; [assumption|now apply In_successors].
    + apply IH with (x := x); try assumption.
      * now apply NoDup_union.
      * intros u Hu. apply In_union in Hu as [Hu|Hu]; [auto|].
        apply in_flat_map in Hu as [s [Hs Hu]]. apply In_successors in Hu.
        now apply Hin in Hu.
      * pose proof (length_union_lt (flat_map (successors G) S) S z Hz Hnz).
        unfold expand. lia.
Qed.

Lemma reachable_from_complete : forall G s t, wf_graph G ->
  path G s t -> In t (reachable_from G s).
Proof.
  intros G s t Hw Hp. unfold reachable_from.
  destruct (in_dec node_eq_dec s (nodes G)) as [Hs|Hs].
  - assert (forall a u, path G a u -> In a (closure G (length (g_nodes G)) [s]) ->
                        In u (closure G (length (g_nodes G)) [s])) as H.
    { intros a u Hu. induction Hu as [a|a b c E Hu IH]; intro Ha; [assumption|].
      apply IH. apply closure_closed with (x := a); try assumption.
      - repeat constructor. simpl. tauto.
      - intros z [<-|[]]. assumption.
      - unfold nodes. rewrite length_map. simpl. lia. }
    apply (H s t Hp). apply closure_incl. now left.
  - inversion Hp; subst.
    + apply closure_incl. now left.
    + exfalso. apply Hs. destruct Hw as (_ & _ & Hin). now apply Hin in H.
Qed.

Lemma has_path_spec : forall G s t, wf_graph G -> (has_path G s t = true <-> path G s t).
Proof.
  intros G s t Hw. unfold has_path. rewrite mem_In. split.
  - intro H. apply closure_sound in H as [s' [[<-|[]] Hp]]. assumption.
  - now apply reachable_from_complete.
Qed.

Lemma has_path_false : forall G s t, wf_graph G -> (has_path G s t = false <-> ~ path G s t).
Proof.
  intros G s t Hw. rewrite <- has_path_spec by assumption.
  destruct (has_path G s t); split; congruence.
Qed.

Lemma has_path_refl : forall G s, has_path G s s = true.
Proof. intros. apply mem_In, closure_incl. now left. Qed.

Lemma In_ancestors : forall G u v, wf_graph G ->
  (In u (ancestors G v) <-> In u (nodes G) /\ u <> v /\ path G u v).
Proof.
  intros G u v Hw. unfold ancestors.
  rewrite filter_In, andb_true_iff, negb_true_iff, node_eqb_neq, has_path_spec by assumption.
  tauto.
Qed.

(** Paths and cycles under a rank that every edge lowers. *)
Lemma path_rank : forall G (rk : node -> Z),
  (forall u v, In (u, v) (edges G) -> rk v < rk u) ->
  forall u v, path G u v -> rk v <= rk u.
Proof.
  intros G rk H u v Hp. induction Hp as [u|u v w E Hp IH]; [lia|].
  apply H in E. lia.
Qed.

Lemma ranked_acyclic : forall G (rk : node -> Z),
  (forall u v, In (u, v) (edges G) -> rk v < rk u) -> acyclic G.
Proof.
  intros G rk H u v E Hp. apply (path_rank G rk H) in Hp. apply H in E. lia.
Qed.

(** * The containment index *)

Lemma dot_counts : forall a b k,
  fold_left Qplus (map (fun p => (fst p * snd p)%Q) (combine (astype_float a) (astype_float b)))
            (inject_Z k)
  = inject_Z (k + both_count a b).
Proof.
  induction a as [|x a IH]; intros b k.
  - simpl. unfold both_count. simpl. now rewrite Z.add_0_r.
  - destruct b as [|y b].
    + simpl. unfold both_count. simpl. now rewrite Z.add_0_r.
    + cbn [astype_float map combine fold_left fst snd].
      replace (inject_Z k + (if x then 1 else 0) * (if y then 1 else 0))%Q
        with (inject_Z (k + (if x && y then 1 else 0))).
      * fold (astype_float a). fold (astype_float b). rewrite IH. f_equal.
        unfold both_count. cbn [combine filter fst snd].
        destruct (x && y); cbn [length]; lia.
      * destruct x, y; unfold Qplus, Qmult, inject_Z; simpl; f_equal; lia.
Qed.

Lemma dot_both_count : forall a b,
  dot (astype_float a) (astype_float b) = inject_Z (both_count a b).
Proof. intros a b. unfold dot. apply (dot_counts a b 0). Qed.

Lemma nth_map_in : forall (A B : Type) (f : A -> B) (l : list A) (i : nat) (d : A) (d' : B),
  (i < length l)%nat -> nth i (map f l) d' = f (nth i l d).
Proof.
  intros A B f l i d d' H. rewrite nth_indep with (d' := f d) by now rewrite length_map.
  apply map_nth.
Qed.

Lemma containment_entry : forall A B i j,
  (i < length A)%nat -> (j < length B)%nat ->
  nth j (nth i (containment_indices_boolean A B) []) 0%Q
  = (inject_Z (both_count (nth i A []) (nth j B []))
     / inject_Z (count_nonzero (nth i A [])))%Q.
Proof.
  intros A B i j Hi Hj. unfold containment_indices_boolean.
  rewrite nth_map_in with (d := ([], 0)).
  2:{ rewrite length_combine, !length_map. lia. }
  rewrite combine_nth by now rewrite !length_map.
  cbn [fst snd].
  rewrite nth_map_in with (d := @nil Q) by now rewrite length_map.
  rewrite nth_map_in with (d := 0%Q).
  2:{ rewrite !length_map. assumption. }
  rewrite nth_map_in with (d := @nil bool) (l := A) by assumption.
  rewrite nth_map_in with (d := @nil Q) by now rewrite length_map.
  rewrite nth_map_in with (d := @nil bool) (l := B) by assumption.
  rewrite dot_both_count.
  rewrite nth_map_in with (d := @nil bool) (l := A) by assumption.
  reflexivity.
Qed.

(** C1.  For boolean matrices [A] (m x n) and [B] (k x n) with no empty
    row in [A], the entry [i, j] of [containment_indices_boolean A B] is the
    number of positions where row [i] of [A] and row [j] of [B] are both
    true, divided by the number of true entries of row [i] of [A]. *)
Theorem containment_indices_boolean_exact :
  forall (A B : list (list bool)) (n i j : nat),
    (forall r, In r A -> length r = n) ->
    (forall r, In r B -> length r = n) ->
    (forall r, In r A -> 0 < count_nonzero r) ->
    (i < length A)%nat -> (j < length B)%nat ->
    nth j (nth i (containment_indices_boolean A B) []) 0%Q
    = (inject_Z (both_count (nth i A []) (nth j B []))
       / inject_Z (count_nonzero (nth i A [])))%Q.
Proof. intros A B n i j _ _ _ Hi Hj. now apply containment_entry. Qed.

Lemma containment_indices_boolean_exact_witness :
  nth 1 (nth 0 (containment_indices_boolean
                  [[true; true; false]; [false; true; true]]
                  [[true; false; false]; [true; true; true]]) []) 0%Q
  = (inject_Z 2 / inject_Z 2)%Q.
Proof.
  apply (containment_indices_boolean_exact
           [[true; true; false]; [false; true; true]]
           [[true; false; false]; [true; true; true]] 3 0 1).
  - intros r [<-|[<-|[]]]; reflexivity.
  - intros r [<-|[<-|[]]]; reflexivity.
  - intros r [<-|[<-|[]]]; reflexivity.
  - simpl. lia.
  - simpl. lia.
Defined.

(** * The terminals setter *)

(** C10.  A numpy array as [terminals] leaves the local variable of
    [set_terminals] unbound: the setter raises [UnboundLocalError] whatever
    the array, before the size check; [weave] therefore never returns a
    hierarchy for such an argument, and the exception it raises is this one
    or a [ValueError] of its own earlier checks. *)
Theorem set_terminals_ndarray_unbound :
  forall (w : Weaver) (a : list Z),
    set_terminals w (TNdarray a) = Raise UnboundLocalError /\
    forall partitions boolean levels c,
      snd (weave w partitions (TNdarray a) boolean levels c) = Raise UnboundLocalError \/
      exists m, snd (weave w partitions (TNdarray a) boolean levels c) = Raise (ValueError m).
Proof.
  intros w a. split; [reflexivity|].
  intros partitions boolean levels c. unfold weave.
  destruct (length partitions =? 0)%nat; [right; eexists; reflexivity|].
  destruct (existsb _ _); [right; eexists; reflexivity|].
  destruct (negb _); [right; eexists; reflexivity|].
  destruct boolean.
  - left. reflexivity.
  - destruct (rows_labelled _ _); [right; eexists; reflexivity|].
    left. reflexivity.
Qed.

(** * The first loop of [_build] *)

Lemma lookup_edge_app : forall l l' e,
  lookup_edge (l ++ l') e =
  match lookup_edge l e with Some w => Some w | None => lookup_edge l' e end.
Proof.
  induction l as [|[e' w'] l IH]; simpl; intros l' e; [reflexivity|].
  destruct (edge_eqb e e'); [reflexivity|apply IH].
Qed.

Lemma lookup_edge_update_same : forall l e w,
  In e (map fst l) ->
  lookup_edge (map (fun x => if edge_eqb (fst x) e then (fst x, w) else x) l) e = Some w.
Proof.
  induction l as [|[e' w'] l IH]; simpl; intros e w H; [contradiction|].
  destruct (edge_eqb e' e) eqn:E; simpl.
  - apply edge_eqb_eq in E. subst. now rewrite edge_eqb_refl.
  - rewrite edge_eqb_neq in E.
    assert (edge_eqb e e' = false) as E' by (apply edge_eqb_neq; congruence).
    rewrite E'. apply IH. destruct H as [H|H]; [congruence|assumption].
Qed.

Lemma lookup_edge_update_other : forall l e e' w, e' <> e ->
  lookup_edge (map (fun x => if edge_eqb (fst x) e then (fst x, w) else x) l) e'
  = lookup_edge l e'.
Proof.
  induction l as [|[e0 w0] l IH]; simpl; intros e e' w H; [reflexivity|].
  destruct (edge_eqb e0 e) eqn:E; simpl.
  - apply edge_eqb_eq in E. subst.
    assert (edge_eqb e' e = false) as E' by now apply edge_eqb_neq.
    rewrite E'. now apply IH.
  - destruct (edge_eqb e' e0); [reflexivity|now apply IH].
Qed.

Lemma lookup_add_edge_same : forall G u v w,
  lookup_edge (g_edges (add_edge G u v w)) (u, v) = Some w.
Proof.
  intros G u v w. unfold add_edge. destruct (has_edge _ u v) eqn:E; simpl.
  - apply lookup_edge_update_same. now apply emem_In.
  - rewrite lookup_edge_app. apply emem_false, lookup_edge_None in E.
    rewrite E. simpl. now rewrite edge_eqb_refl.
Qed.

Lemma lookup_add_edge_other : forall G u v w e, e <> (u, v) ->
  lookup_edge (g_edges (add_edge G u v w)) e = lookup_edge (g_edges G) e.
Proof.
  intros G u v w e H. unfold add_edge. destruct (has_edge _ u v) eqn:E; simpl.
  - rewrite lookup_edge_update_other by assumption. now rewrite !edges_touch_node.
  - rewrite lookup_edge_app, !edges_touch_node. destruct (lookup_edge (g_edges G) e); [reflexivity|].
    simpl. apply edge_eqb_neq in H. now rewrite H.
Qed.

Lemma lookup_remove_edges_from : forall G l e,
  lookup_edge (g_edges (remove_edges_from G l)) e =
  if emem e l then None else lookup_edge (g_edges G) e.
Proof.
  intros G l e. unfold remove_edges_from. simpl.
  induction (g_edges G) as [|[e' w'] es IH]; simpl.
  - now destruct (emem e l).
  - destruct (emem e' l) eqn:E'; simpl.
    + rewrite IH. destruct (edge_eqb e e') eqn:E; [|reflexivity].
      apply edge_eqb_eq in E. subst. now rewrite E'.
    + destruct (edge_eqb e e') eqn:E.
      * apply edge_eqb_eq in E. subst. now rewrite E'.
      * apply IH.
Qed.

(** C3, as the code has it.  For a pair [(i, j)] of the loop with
    [CI[i, j] >= cutoff] the edge [(j, 0) -> (i, 0)] is added with weight
    [CI[i, j]] when the opposite edge [(i, 0) -> (j, 0)] is not in the graph;
    when the opposite edge is there with a lower weight it is removed and the
    new edge is added; when it is there with a weight that is not lower, the
    edges are left as they are and the new edge is not added.  Below the
    cutoff the edges are left as they are. *)
Theorem init_step_competing_edge :
  forall (L : list (list bool)) (levels labels : list Z) (cutoff : Q)
         (G : DiGraph) (i j : Z),
    i <> j ->
    let C := at2 (CI L) i j in
    let na := Internal i 0 in
    let nb := Internal j 0 in
    let G' := init_step L levels labels cutoff G (i, j) in
    (Qle_bool cutoff C = true ->
       (lookup_edge (g_edges G) (na, nb) = None ->
          lookup_edge (g_edges G') (nb, na) = Some C /\
          lookup_edge (g_edges G') (na, nb) = None) /\
       (forall C0, lookup_edge (g_edges G) (na, nb) = Some C0 -> (C0 < C)%Q ->
          lookup_edge (g_edges G') (nb, na) = Some C /\
          lookup_edge (g_edges G') (na, nb) = None) /\
       (forall C0, lookup_edge (g_edges G) (na, nb) = Some C0 -> (C <= C0)%Q ->
          g_edges G' = g_edges G)) /\
    (Qle_bool cutoff C = false -> g_edges G' = g_edges G).
Proof.
  intros L levels labels cutoff G i j Hij C na nb G'.
  assert (na <> nb) as Hn by (unfold na, nb; intro E; inversion E; contradiction).
  assert ((na, nb) <> (nb, na)) as Hne by (intro E; inversion E; contradiction).
  unfold G', init_step. cbn [fst snd]. fold C na nb.
  set (G1 := if has_node G na then G else add_node G na (cluster_attrs levels labels i)).
  set (G2 := if has_node G1 nb then G1 else add_node G1 nb (cluster_attrs levels labels j)).
  assert (g_edges G2 = g_edges G) as E2.
  { unfold G2, G1.
    destruct (has_node G na); destruct (has_node _ nb); rewrite ?edges_add_node; reflexivity. }
  assert (forall C0, (C0 < C)%Q -> Qle_bool C C0 = false) as Hlt.
  { intros C0 H0. destruct (Qle_bool C C0) eqn:E; [|reflexivity].
    apply Qle_bool_iff in E. exfalso. apply (Qlt_not_le _ _ H0 E). }
  split.
  - intro HC. rewrite HC, E2. split; [|split].
    + intro H. rewrite H. split; [apply lookup_add_edge_same|].
      rewrite lookup_add_edge_other, E2 by assumption. assumption.
    + intros C0 H H0. rewrite H. unfold Qgtb. rewrite (Hlt C0 H0). simpl.
      split; [apply lookup_add_edge_same|].
      rewrite lookup_add_edge_other by assumption.
      rewrite lookup_remove_edges_from. simpl. now rewrite edge_eqb_refl.
    + intros C0 H H0. rewrite H. unfold Qgtb.
      apply Qle_bool_iff in H0. rewrite H0. simpl. exact E2.
  - intro HC. rewrite HC. exact E2.
Qed.

(** * Terminal attachment *)

Lemma foldM_inv : forall (A B : Type) (P : A -> Prop) (f : A -> B -> result A) (l : list B) (a : A),
  P a ->
  (forall a x, In x l -> P a -> exists a', f a x = Ok a' /\ P a') ->
  exists a', foldM f l a = Ok a' /\ P a'.
Proof.
  intros A B P f. induction l as [|x l IH]; intros a Ha Hf; simpl.
  - eauto.
  - destruct (Hf a x (or_introl eq_refl) Ha) as [a1 [E1 H1]]. rewrite E1. simpl.
    apply IH; [assumption|]. intros a2 y Hy. apply Hf. now right.
Qed.

Lemma foldM_Ok_inv : forall (A B : Type) (P : A -> Prop) (f : A -> B -> result A) (l : list B) (a a' : A),
  P a ->
  (forall a x a', In x l -> P a -> f a x = Ok a' -> P a') ->
  foldM f l a = Ok a' -> P a'.
Proof.
  intros A B P f. induction l as [|x l IH]; intros a a' Ha Hf; simpl.
  - intro E. inversion E. now subst.
  - destruct (f a x) as [a1|e] eqn:E1; simpl; [|discriminate].
    apply IH.
    + eapply Hf; [now left|exact Ha|exact E1].
    + intros a2 y a3 Hy. apply Hf. now right.
Qed.

Lemma get_set_attached_same : forall r t l, get_attached (set_attached r t l) t = l.
Proof.
  induction r as [|[t' l'] r IH]; simpl; intros t l.
  - now rewrite Z.eqb_refl.
  - destruct (t =? t') eqn:E; simpl.
    + now rewrite Z.eqb_refl.
    + rewrite E. apply IH.
Qed.

Lemma get_set_attached_other : forall r t t' l, t' <> t ->
  get_attached (set_attached r t l) t' = get_attached r t'.
Proof.
  induction r as [|[t0 l0] r IH]; simpl; intros t t' l H.
  - apply Z.eqb_neq in H. now rewrite H.
  - destruct (t =? t0) eqn:E; simpl.
    + apply Z.eqb_eq in E. subst t0. apply Z.eqb_neq in H. now rewrite H.
    + destruct (t' =? t0); [reflexivity|now apply IH].
Qed.

Lemma remove_first_middle : forall pre o post,
  ~ In o pre -> remove_first o (pre ++ o :: post) = pre ++ post.
Proof.
  induction pre as [|x pre IH]; simpl; intros o post H.
  - now rewrite node_eqb_refl.
  - assert (node_eqb o x = false) as E by (apply node_eqb_neq; intro; subst; tauto).
    rewrite E. f_equal. apply IH. tauto.
Qed.

Lemma list_last_split : forall (A : Type) (l : list A) k,
  length l = S k -> exists l' x, l = l' ++ [x] /\ length l' = k.
Proof.
  intros A l k H. destruct (exists_last (l := l)) as [l' [x E]].
  - intro E. subst. discriminate.
  - exists l', x. split; [assumption|]. subst. rewrite length_app in H. simpl in H. lia.
Qed.

Lemma get_set_attached_get : forall r t t',
  get_attached (set_attached r t (get_attached r t)) t' = get_attached r t'.
Proof.
  intros r t t'. destruct (Z.eq_dec t' t) as [->|H].
  - apply get_set_attached_same.
  - now apply get_set_attached_other.
Qed.

Lemma get_set_attached_twice : forall r t l l' t',
  get_attached (set_attached r t l') t' = get_attached (set_attached (set_attached r t l) t l') t'.
Proof.
  intros r t l l' t'. destruct (Z.eq_dec t' t) as [->|H].
  - now rewrite !get_set_attached_same.
  - now rewrite !get_set_attached_other.
Qed.

Lemma attach_inv_ext : forall G0 G r r' busy,
  (forall t, get_attached r' t = get_attached r t) ->
  attach_inv G0 G r busy -> attach_inv G0 G r' busy.
Proof.
  intros G0 G r r' busy H Hi. constructor; try apply Hi.
  - intros t p. rewrite H. apply (ai_rec Hi).
  - intro t. rewrite H. apply (ai_nodup Hi).
  - intros t p q. rewrite H. apply (ai_anti Hi).
  - intros t. rewrite H. apply (ai_some Hi).
Qed.

Section Attach.

Variable G0 : DiGraph.
Hypothesis HG0 : cluster_graph G0.

Lemma cluster_edge_tuple : forall u v, In (u, v) (edges G0) -> istuple u = true /\ istuple v = true.
Proof.
  intros u v H. destruct HG0 as ((_ & _ & Hin) & Ht & _). apply Hin in H as [Hu Hv]. auto.
Qed.

(** Terminals have no edge out, so a path to a cluster stays among the
    clusters, where the graph has the edges of [G0]. *)
Lemma path_to_cluster : forall G r busy, attach_inv G0 G r busy ->
  forall u v, istuple v = true -> (path G u v <-> path G0 u v).
Proof.
  intros G r busy Hi u v Hv. split; intro Hp.
  - induction Hp as [u|u x v E Hp IH]; [apply path_refl|].
    assert (istuple x = true) as Hx.
    { inversion Hp; subst; [assumption|]. eapply ai_src; eassumption. }
    eapply path_step; [|now apply IH]. now apply (ai_old Hi).
  - induction Hp as [u|u x v E Hp IH]; [apply path_refl|].
    eapply path_step; [|now apply IH].
    apply (ai_old Hi); [|assumption]. now apply cluster_edge_tuple in E.
Qed.

Lemma has_path_cluster : forall G r busy, attach_inv G0 G r busy ->
  forall u v, istuple v = true -> (has_path G u v = true <-> path G0 u v).
Proof.
  intros G r busy Hi u v Hv. rewrite has_path_spec by apply (ai_wf Hi).
  eapply path_to_cluster; eassumption.
Qed.

Variable n : node.
Hypothesis Hn : istuple n = true.
Variable t : Z.

Lemma attach_inv_remove : forall G r pre o post,
  attach_inv G0 G r (Some t) ->
  get_attached r t = pre ++ o :: post ->
  attach_inv G0 (remove_edges_from G [(o, Terminal t)]) (set_attached r t (pre ++ post)) (Some t).
Proof.
  intros G r pre o post Hi E.
  assert (NoDup (pre ++ o :: post)) as Hnd by (rewrite <- E; apply (ai_nodup Hi)).
  constructor.
  - apply wf_remove_edges_from, (ai_wf Hi).
  - intros u v H. apply edges_remove_edges_from in H as [H _]. eapply ai_src; eassumption.
  - intros u v Hv. rewrite edges_remove_edges_from, (ai_old Hi) by assumption.
    split; [tauto|]. intro H. split; [assumption|].
    intros [E'|[]]. inversion E'; subst. discriminate.
  - intros t' p. rewrite edges_remove_edges_from, <- (ai_rec Hi).
    destruct (Z.eq_dec t' t) as [->|Ht].
    + rewrite get_set_attached_same, E. apply NoDup_remove in Hnd as [_ Hnd].
      rewrite !in_app_iff in *. simpl. split.
      * intro H. split; [tauto|]. intros [E'|[]]. inversion E'; subst. tauto.
      * intros [[H|[H|H]] Hne]; auto. subst. exfalso. apply Hne. now left.
    + rewrite get_set_attached_other by assumption. split; [|tauto].
      intro H. split; [assumption|]. intros [E'|[]]. inversion E'; subst. contradiction.
  - intros t'. destruct (Z.eq_dec t' t) as [->|Ht].
    + rewrite get_set_attached_same. now apply NoDup_remove in Hnd.
    + rewrite get_set_attached_other by assumption. apply (ai_nodup Hi).
  - intros t' p q. destruct (Z.eq_dec t' t) as [->|Ht].
    + rewrite get_set_attached_same. intros Hp Hq. apply (ai_anti Hi t); rewrite E.
      * apply in_app_iff in Hp. apply in_app_iff. simpl. tauto.
      * apply in_app_iff in Hq. apply in_app_iff. simpl. tauto.
    + rewrite get_set_attached_other by assumption. apply (ai_anti Hi).
  - intros t' Hb Hin. assert (t' <> t) as Ht by congruence.
    rewrite get_set_attached_other by assumption.
    apply (ai_some Hi); [exact Hb|exact Hin].
  - intros x Hx. exact (ai_nodes Hi x Hx).
  - exact (ai_nodepth Hi).
Qed.

Lemma scan_attached_spec : forall idx G r pre post,
  attach_inv G0 G r (Some t) ->
  get_attached r t = pre ++ post ->
  length pre = idx ->
  (forall o, In o post -> ~ path G0 n o /\ ~ path G0 o n) ->
  exists skip G' att',
    scan_attached G n (Terminal t) idx (pre ++ post) = Ok (skip, G', att') /\
    attach_inv G0 G' (set_attached r t att') (Some t) /\
    g_nodes G' = g_nodes G /\
    (skip = true -> att' <> []) /\
    (skip = false -> forall o, In o att' -> ~ path G0 n o /\ ~ path G0 o n).
Proof.
  induction idx as [|k IH]; intros G r pre post Hi E Hlen Hpost.
  - destruct pre; [|discriminate]. simpl in *.
    exists false, G, post.
    split; [reflexivity|]. split; [|split; [reflexivity|split; [discriminate|]]].
    + apply attach_inv_ext with (r := r); [|exact Hi].
      intro t'. rewrite <- E. apply get_set_attached_get.
    + intros _. exact Hpost.
  - destruct (list_last_split _ pre k Hlen) as [pre' [o [-> Hlen']]].
    rewrite <- app_assoc in *. simpl in *.
    assert (In o (get_attached r t)) as Ho by (rewrite E; apply in_app_iff; simpl; auto).
    assert (istuple o = true) as Hto.
    { apply (ai_rec Hi) in Ho. eapply ai_src; eassumption. }
    assert ((k <? length (pre' ++ o :: post))%nat = true) as Hk.
    { apply Nat.ltb_lt. rewrite length_app. simpl. lia. }
    assert (nth k (pre' ++ o :: post) n = o) as Hnth.
    { rewrite <- Hlen'. apply nth_middle. }
    rewrite Hk, Hnth.
    destruct (has_path G n o) eqn:E1.
    + exists true, G, (pre' ++ o :: post).
      split; [reflexivity|]. split; [|split; [reflexivity|split; [|discriminate]]].
      * apply attach_inv_ext with (r := r); [|exact Hi].
        intro t'. rewrite <- E. apply get_set_attached_get.
      * intros _ E'. apply app_eq_nil in E' as [_ E']. discriminate.
    + assert (~ path G0 n o) as Hno.
      { intro Hp. apply (has_path_cluster G r _ Hi n o Hto) in Hp. congruence. }
      destruct (has_path G o n) eqn:E2.
      * unfold remove_edge.
        assert (has_edge G o (Terminal t) = true) as He
          by (apply has_edge_In, (ai_rec Hi); assumption).
        rewrite He. simpl.
        assert (NoDup (pre' ++ o :: post)) as Hnd by (rewrite <- E; apply (ai_nodup Hi)).
        rewrite remove_first_middle.
        2:{ apply NoDup_remove in Hnd as [_ Hnd]. intro H. apply Hnd, in_app_iff. auto. }
        pose proof (attach_inv_remove G r pre' o post Hi E) as Hi1.
        destruct (IH _ _ pre' post Hi1 (get_set_attached_same _ _ _) Hlen' Hpost)
          as (skip & G' & att' & Es & Hi' & Hn' & Hs & Hf).
        exists skip, G', att'.
        split; [exact Es|]. split; [|split; [exact Hn'|split; assumption]].
        eapply attach_inv_ext; [|exact Hi']. intro t'. cbv beta. apply get_set_attached_twice.
      * assert (~ path G0 o n) as Hon.
        { intro Hp. apply (has_path_cluster G r _ Hi o n Hn) in Hp. congruence. }
        apply (IH G r pre' (o :: post) Hi E Hlen').
        intros x [<-|Hx]; [auto|now apply Hpost].
Qed.

Lemma attach_inv_busy : forall G r, attach_inv G0 G r None -> attach_inv G0 G r (Some t).
Proof.
  intros G r Hi. constructor; try apply Hi.
  intros t' _. apply (ai_some Hi). discriminate.
Qed.

Lemma attach_inv_idle : forall G r,
  attach_inv G0 G r (Some t) -> get_attached r t <> [] -> attach_inv G0 G r None.
Proof.
  intros G r Hi Hne. constructor; try apply Hi.
  intros t' _ Hin. destruct (Z.eq_dec t' t) as [->|Ht]; [assumption|].
  apply (ai_some Hi); [congruence|assumption].
Qed.

Hypothesis Hn0 : In n (nodes G0).

Lemma attach_inv_add : forall G r att,
  attach_inv G0 G (set_attached r t att) (Some t) ->
  (forall o, In o att -> ~ path G0 n o /\ ~ path G0 o n) ->
  attach_inv G0 (add_edge G n (Terminal t) 1) (set_attached r t (att ++ [n])) None.
Proof.
  intros G r att Hi Hatt.
  assert (forall p, In p att <-> In (p, Terminal t) (edges G)) as Hrec.
  { intro p. rewrite <- (ai_rec Hi), get_set_attached_same. tauto. }
  assert (NoDup att) as Hnd.
  { pose proof (ai_nodup Hi t) as H. now rewrite get_set_attached_same in H. }
  assert (~ In n att) as Hnn.
  { intro H. apply Hatt in H as [H _]. apply H, path_refl. }
  constructor.
  - apply wf_add_edge, (ai_wf Hi).
  - intros u v H. apply edges_add_edge in H as [H|H].
    + eapply ai_src; eassumption.
    + inversion H; subst. assumption.
  - intros u v Hv. rewrite edges_add_edge, (ai_old Hi) by assumption.
    split; [|tauto]. intros [H|H]; [assumption|]. inversion H; subst. discriminate.
  - intros t' p. rewrite edges_add_edge. destruct (Z.eq_dec t' t) as [->|Ht].
    + rewrite get_set_attached_same, in_app_iff, Hrec. simpl. split.
      * intros [H|[H|[]]]; [now left|right; now subst].
      * intros [H|H]; [now left|]. inversion H. auto.
    + rewrite get_set_attached_other by assumption.
      rewrite <- (ai_rec Hi), get_set_attached_other by assumption.
      split; [tauto|]. intros [H|H]; [assumption|]. inversion H. contradiction.
  - intros t'. destruct (Z.eq_dec t' t) as [->|Ht].
    + rewrite get_set_attached_same. now apply NoDup_snoc.
    + rewrite get_set_attached_other by assumption.
      pose proof (ai_nodup Hi t') as H. now rewrite get_set_attached_other in H.
  - intros t' p q. destruct (Z.eq_dec t' t) as [->|Ht].
    + rewrite get_set_attached_same, !in_app_iff. simpl.
      intros [Hp|[Hp|[]]] [Hq|[Hq|[]]] Hne; subst.
      * apply (ai_anti Hi t); rewrite ?get_set_attached_same; assumption.
      * now apply Hatt.
      * now apply Hatt.
      * contradiction.
    + rewrite get_set_attached_other by assumption.
      pose proof (ai_anti Hi t' p q) as H. now rewrite get_set_attached_other in H.
  - intros t' _ Hin. destruct (Z.eq_dec t' t) as [->|Ht].
    + rewrite get_set_attached_same. intro E. apply app_eq_nil in E as [_ E]. discriminate.
    + rewrite get_set_attached_other by assumption.
      apply nodes_add_edge in Hin as [Hin|[Hin|Hin]].
      * pose proof (ai_some Hi t') as H. rewrite get_set_attached_other in H by assumption.
        apply H; [congruence|assumption].
      * rewrite <- Hin in Hn. discriminate.
      * inversion Hin. contradiction.
  - intros x Hx. rewrite nodes_add_edge, (ai_nodes Hi) by assumption.
    split; [|tauto]. intros [H|[H|H]]; [assumption|now subst|subst; discriminate].
  - apply no_depth_add_edge, (ai_nodepth Hi).
Qed.

End Attach.

Section AttachLoop.

Variable L : list (list bool).
Variable terminals : list Z.
Variable G0 : DiGraph.
Hypothesis HG0 : cluster_graph G0.

Lemma attach_one_spec : forall n st i,
  istuple n = true -> In n (nodes G0) -> attach_ok G0 st ->
  exists st', attach_one terminals n st i = Ok st' /\ attach_ok G0 st' /\
              incl (nodes (fst st)) (nodes (fst st')) /\
              In (Terminal (nthZ terminals i 0)) (nodes (fst st')).
Proof.
  intros n [G r] i Hn Hn0 Hi. unfold attach_ok in *. simpl in Hi.
  unfold attach_one. cbn [fst snd].
  set (t := nthZ terminals i 0).
  destruct (scan_attached_spec G0 HG0 n Hn t (length (get_attached r t)) G r
              (get_attached r t) [] (attach_inv_busy G0 t G r Hi))
    as (skip & G' & att' & Es & Hi' & Hn' & Hs & Hf).
  { now rewrite app_nil_r. }
  { reflexivity. }
  { intros o []. }
  rewrite app_nil_r in Es. rewrite Es. cbn [bind fst snd].
  destruct skip.
  - eexists. split; [reflexivity|]. cbn [fst snd].
    assert (attach_inv G0 G' (set_attached r t att') None) as Hi2.
    { apply attach_inv_idle with (t := t); [assumption|].
      rewrite get_set_attached_same. now apply Hs. }
    split; [assumption|]. split.
    + unfold nodes. rewrite Hn'. apply incl_refl.
    + destruct att' as [|p att1]; [exfalso; now apply Hs|].
      assert (In (p, Terminal t) (edges G')) as Hp.
      { apply (ai_rec Hi2). rewrite get_set_attached_same. now left. }
      apply (ai_wf Hi2) in Hp. apply Hp.
  - eexists. split; [reflexivity|]. cbn [fst snd]. split; [|split].
    + apply attach_inv_add; auto.
    + intros x Hx. apply nodes_add_edge. left. unfold nodes in *. now rewrite Hn'.
    + apply nodes_add_edge. auto.
Qed.

Lemma attach_node_spec : forall n st,
  In n (nodes G0) -> attach_ok G0 st ->
  exists st', attach_node L terminals st n = Ok st' /\ attach_ok G0 st' /\
              incl (nodes (fst st)) (nodes (fst st')) /\
              forall i k p, n = Internal i k -> i <> -1 ->
                            In p (true_positions (nthZ L i [])) ->
                            In (Terminal (nthZ terminals p 0)) (nodes (fst st')).
Proof.
  intros n st Hn0 Hi.
  assert (istuple n = true) as Hn by (apply HG0; assumption).
  destruct n as [i k|t]; [|discriminate]. unfold attach_node.
  destruct (i =? -1) eqn:Ei.
  - exists st. split; [reflexivity|]. split; [assumption|]. split; [apply incl_refl|].
    intros i' k' p E. inversion E; subst. apply Z.eqb_eq in Ei. contradiction.
  - assert (forall ps st, attach_ok G0 st ->
              exists st', foldM (attach_one terminals (Internal i k)) ps st = Ok st' /\
                attach_ok G0 st' /\ incl (nodes (fst st)) (nodes (fst st')) /\
                forall p, In p ps -> In (Terminal (nthZ terminals p 0)) (nodes (fst st'))) as H.
    { induction ps as [|p ps IH]; intros st0 Hi0.
      - exists st0. simpl. split; [reflexivity|]. split; [assumption|].
        split; [apply incl_refl|]. intros p [].
      - simpl. destruct (attach_one_spec (Internal i k) st0 p Hn Hn0 Hi0)
          as (st1 & E1 & Hi1 & Hinc1 & Hin1).
        rewrite E1. simpl. destruct (IH st1 Hi1) as (st2 & E2 & Hi2 & Hinc2 & Hin2).
        exists st2. split; [assumption|]. split; [assumption|]. split.
        + eapply incl_tran; eassumption.
        + intros p' [<-|Hp']; [now apply Hinc2|now apply Hin2]. }
    destruct (H (true_positions (nthZ L i [])) st Hi) as (st' & E & Hi' & Hinc & Hin).
    exists st'. split; [assumption|]. split; [assumption|]. split; [assumption|].
    intros i' k' p E'. inversion E'; subst. intros _. apply Hin.
Qed.

Lemma attach_inv_init : attach_inv G0 G0 [] None.
Proof.
  destruct HG0 as (Hw & Ht & Hd). constructor; simpl; try tauto.
  - intros u v H. apply Hw in H as [Hu _]. now apply Ht.
  - intros t p. split; [contradiction|]. intro H. apply Hw in H as [_ Hv].
    apply Ht in Hv. discriminate.
  - constructor.
  - intros t _ H. apply Ht in H. discriminate.
Qed.

Lemma attach_terminals_spec :
  exists G r, attach_terminals L terminals G0 = Ok G /\ attach_inv G0 G r None /\
              forall i k p, In (Internal i k) (nodes G0) -> i <> -1 ->
                            In p (true_positions (nthZ L i [])) ->
                            In (Terminal (nthZ terminals p 0)) (nodes G).
Proof.
  unfold attach_terminals.
  assert (forall l st, incl l (nodes G0) -> attach_ok G0 st ->
            exists st', foldM (attach_node L terminals) l st = Ok st' /\ attach_ok G0 st' /\
              incl (nodes (fst st)) (nodes (fst st')) /\
              forall i k p, In (Internal i k) l -> i <> -1 ->
                            In p (true_positions (nthZ L i [])) ->
                            In (Terminal (nthZ terminals p 0)) (nodes (fst st'))) as H.
  { induction l as [|n l IH]; intros st Hl Hi.
    - exists st. simpl. split; [reflexivity|]. split; [assumption|]. split; [apply incl_refl|].
      intros i k p [].
    - simpl. destruct (attach_node_spec n st (Hl n (or_introl eq_refl)) Hi)
        as (st1 & E1 & Hi1 & Hinc1 & Hin1).
      rewrite E1. simpl.
      destruct (IH st1 (fun x Hx => Hl x (or_intror Hx)) Hi1) as (st2 & E2 & Hi2 & Hinc2 & Hin2).
      exists st2. split; [assumption|]. split; [assumption|]. split.
      + eapply incl_tran; eassumption.
      + intros i k p [E|Hik] Hne Hp.
        * apply Hinc2. eapply Hin1; eauto.
        * eapply Hin2; eassumption. }
  destruct (H (nodes G0) (G0, []) (incl_refl _) attach_inv_init) as (st & E & Hi & _ & Hin).
  rewrite E. simpl. exists (fst st), (snd st). split; [reflexivity|]. split; [exact Hi|exact Hin].
Qed.

End AttachLoop.

(** * The graph of clusters before the attachment *)

Lemma fold_left_inv : forall (A B : Type) (P : A -> Prop) (f : A -> B -> A) (l : list B) (a : A),
  P a -> (forall a x, In x l -> P a -> P (f a x)) -> P (fold_left f l a).
Proof.
  intros A B P f. induction l as [|x l IH]; intros a Ha Hf; simpl; [assumption|].
  apply IH; [apply Hf; [now left|assumption]|]. intros a' y Hy. apply Hf. now right.
Qed.

Lemma cluster_add_node : forall G i k a, a_depth a = None ->
  cluster_graph G -> cluster_graph (add_node G (Internal i k) a).
Proof.
  intros G i k a Ha (Hw & Ht & Hd). split; [now apply wf_add_node|].
  split; [|now apply no_depth_add_node].
  intros n H. apply nodes_add_node in H as [H| ->]; [now apply Ht|reflexivity].
Qed.

Lemma cluster_add_edge : forall G u v w,
  istuple u = true -> istuple v = true ->
  cluster_graph G -> cluster_graph (add_edge G u v w).
Proof.
  intros G u v w Hu Hv (Hw & Ht & Hd). split; [now apply wf_add_edge|].
  split; [|now apply no_depth_add_edge].
  intros n H. apply nodes_add_edge in H as [H|[->| ->]]; auto.
Qed.

Lemma cluster_remove_edges_from : forall G l,
  cluster_graph G -> cluster_graph (remove_edges_from G l).
Proof.
  intros G l (Hw & Ht & Hd). split; [now apply wf_remove_edges_from|]. split; assumption.
Qed.

Lemma cluster_init_step : forall L levels labels cutoff G ij,
  cluster_graph G -> cluster_graph (init_step L levels labels cutoff G ij).
Proof.
  intros L levels labels cutoff G [i j] HG. unfold init_step. cbn [fst snd].
  set (G1 := if has_node G (Internal i 0) then G else _).
  assert (cluster_graph G1) as H1
    by (unfold G1; destruct (has_node G _); [assumption|now apply cluster_add_node]).
  set (G2 := if has_node G1 (Internal j 0) then G1 else _).
  assert (cluster_graph G2) as H2
    by (unfold G2; destruct (has_node G1 _); [assumption|now apply cluster_add_node]).
  destruct (Qle_bool _ _); [|assumption].
  destruct (lookup_edge _ _).
  - destruct (Qgtb _ _); [|assumption].
    apply cluster_add_edge; auto. now apply cluster_remove_edges_from.
  - now apply cluster_add_edge.
Qed.

Lemma cluster_init_graph : forall L levels labels assume cutoff,
  cluster_graph (init_graph L levels labels assume cutoff).
Proof.
  intros. unfold init_graph. apply fold_left_inv.
  - split; [apply wf_empty|]. split; [intros n []|intros n a []].
  - intros. now apply cluster_init_step.
Qed.

Lemma cluster_add_root : forall G G' r,
  cluster_graph G -> add_root G = Ok (G', r) -> cluster_graph G'.
Proof.
  intros G G' r HG. unfold add_root.
  set (roots := filter _ _).
  destruct (1 <? length roots)%nat.
  - intro E. inversion E; subst. apply fold_left_inv.
    + now apply cluster_add_node.
    + intros a x Hx Ha. apply cluster_add_edge; auto.
      apply filter_In in Hx as [Hx _]. now apply HG.
  - destruct roots; intro E; inversion E. now subst.
Qed.

Lemma cluster_remove_redundant : forall G,
  cluster_graph G -> cluster_graph (remove_redundant G).
Proof. intros. now apply cluster_remove_edges_from. Qed.

(** What [build_graph] returns, phase by phase. *)
Lemma build_graph_phases : forall L levels labels assume terminals cutoff G root,
  build_graph L levels labels assume terminals cutoff = Ok (G, root) ->
  exists G1, add_root (init_graph L levels labels assume cutoff) = Ok (G1, root) /\
             attach_terminals L terminals (remove_redundant G1) = Ok G.
Proof.
  intros L levels labels assume terminals cutoff G root. unfold build_graph.
  destruct (add_root _) as [[G1 r]|e]; simpl; [|discriminate].
  destruct (attach_terminals _ _ _) as [G2|e] eqn:E2; simpl; [|discriminate].
  intro E. inversion E; subst. exists G1. split; [reflexivity|exact E2].
Qed.

(** Two distinct clusters with an edge to the same terminal are unrelated in
    the graph [build_graph] returns. *)
Lemma attached_unrelated_core :
  forall L levels labels assume terminals cutoff G root,
    build_graph L levels labels assume terminals cutoff = Ok (G, root) ->
    forall t p q,
      In (p, Terminal t) (edges G) -> In (q, Terminal t) (edges G) -> p <> q ->
      ~ path G p q /\ ~ path G q p.
Proof.
  intros L levels labels assume terminals cutoff G root HB t p q Hp Hq Hne.
  apply build_graph_phases in HB as (G1 & E1 & E2).
  assert (cluster_graph (remove_redundant G1)) as HG0.
  { apply cluster_remove_redundant. eapply cluster_add_root; [|exact E1].
    apply cluster_init_graph. }
  destruct (attach_terminals_spec L terminals _ HG0) as (G' & r & E' & Hi & _).
  rewrite E2 in E'. inversion E'; subst G'.
  assert (istuple p = true) as Htp by (eapply (ai_src Hi); eassumption).
  assert (istuple q = true) as Htq by (eapply (ai_src Hi); eassumption).
  apply (ai_rec Hi) in Hp, Hq.
  split; intro H; apply (path_to_cluster _ HG0 _ _ _ Hi) in H; try assumption.
  - revert H. now apply (ai_anti Hi t).
  - revert H. apply (ai_anti Hi t); auto.
Qed.

(** * Secondary edges *)

Lemma insert_desc_perm : forall (A K : Type) (gtb : K -> K -> bool) (key : A -> K) x l,
  Permutation (insert_desc gtb key x l) (x :: l).
Proof.
  intros A K gtb key x. induction l as [|y l IH]; simpl; [reflexivity|].
  destruct (gtb (key y) (key x)); [|reflexivity].
  rewrite IH. apply perm_swap.
Qed.

Lemma sorted_desc_perm : forall (A K : Type) (gtb : K -> K -> bool) (key : A -> K) l,
  Permutation (sorted_desc gtb key l) l.
Proof.
  intros A K gtb key. induction l as [|x l IH]; simpl; [reflexivity|].
  rewrite insert_desc_perm. now constructor.
Qed.

Lemma mapM_length : forall (A B : Type) (f : A -> result B) l l',
  mapM f l = Ok l' -> length l' = length l.
Proof.
  intros A B f. induction l as [|x l IH]; simpl; intros l' H.
  - inversion H. reflexivity.
  - destruct (f x); simpl in H; [|discriminate].
    destruct (mapM f l); simpl in H; [|discriminate].
    inversion H. simpl. f_equal. now apply IH.
Qed.

Lemma mapM_map : forall (A B C : Type) (f : A -> result B) (g : B -> C) (h : A -> C) l l',
  (forall x y, f x = Ok y -> g y = h x) ->
  mapM f l = Ok l' -> map g l' = map h l.
Proof.
  intros A B C f g h. induction l as [|x l IH]; simpl; intros l' Hf H.
  - inversion H. reflexivity.
  - destruct (f x) eqn:E; simpl in H; [|discriminate].
    destruct (mapM f l) eqn:E'; simpl in H; [|discriminate].
    inversion H. simpl. f_equal; [now apply Hf|now apply IH].
Qed.

Lemma map_fst_combine : forall (A B : Type) (l : list A) (l' : list B),
  length l = length l' -> map fst (combine l l') = l.
Proof.
  intros A B. induction l as [|x l IH]; intros [|y l'] H; simpl in *; try discriminate; [reflexivity|].
  f_equal. apply IH. lia.
Qed.

Lemma map_tail : forall (A B : Type) (f : A -> B) l, map f (tl l) = tl (map f l).
Proof. intros A B f [|x l]; reflexivity. Qed.

Lemma keys_ranked : forall (n : node) (S : list (node * Q)),
  map fst (map (fun x => ((fst x, n), snd x)) S) = map (fun p => (p, n)) (map fst S).
Proof. intros n S. induction S as [|x S IH]; simpl; [reflexivity|now rewrite IH]. Qed.

(** The ranked parent edges of a node with several parents: the parent
    edges in some order. *)
Lemma node_pool_ranked : forall L G root n,
  (1 < length (predecessors G n))%nat ->
  (exists acc, secondary_step L G root ([], []) n = Ok acc) ->
  exists K, Permutation K (map (fun p => (p, n)) (predecessors G n)) /\
            node_pool L G root n = tl K.
Proof.
  intros L G root n Hlen [acc E]. unfold node_pool. rewrite E.
  unfold secondary_step in E. apply Nat.ltb_lt in Hlen. rewrite Hlen in E.
  destruct (istuple n).
  - destruct (mapM (preference L G n) (predecessors G n)) as [pref|e] eqn:Ep;
      simpl in E; [|discriminate].
    inversion E; subst acc. unfold pool. simpl. rewrite app_nil_r.
    eexists. split; [|rewrite map_tail; reflexivity].
    rewrite keys_ranked. apply Permutation_map. rewrite sorted_desc_perm.
    rewrite map_fst_combine; [reflexivity|]. symmetry. eapply mapM_length; eassumption.
  - destruct (mapM (steps_from G root n) (predecessors G n)) as [es|e] eqn:Ep;
      simpl in E; [|discriminate].
    inversion E; subst acc. unfold pool. simpl.
    eexists. split; [|rewrite map_tail; reflexivity].
    rewrite sorted_desc_perm.
    erewrite mapM_map; [reflexivity| |exact Ep].
    intros x y. unfold steps_from. destruct (shortest_path_length G root x); [|discriminate].
    intro H. inversion H. reflexivity.
Qed.

Lemma node_pool_single : forall L G root n,
  (length (predecessors G n) <= 1)%nat -> node_pool L G root n = [].
Proof.
  intros L G root n H. unfold node_pool, secondary_step.
  assert ((1 <? length (predecessors G n))%nat = false) as E by (apply Nat.ltb_ge; lia).
  now rewrite E.
Qed.

Lemma NoDup_parent_edges : forall G n, wf_graph G ->
  NoDup (map (fun p => (p, n)) (predecessors G n)).
Proof.
  intros G n Hw. apply Finite.Injective_map_NoDup.
  - intros x y E. now inversion E.
  - now apply NoDup_predecessors.
Qed.

Lemma node_pool_facts : forall L G root n, wf_graph G ->
  (exists acc, secondary_step L G root ([], []) n = Ok acc) ->
  (forall e, In e (node_pool L G root n) -> snd e = n /\ In e (edges G)) /\
  (forall p q, In (p, n) (edges G) -> In (q, n) (edges G) -> p <> q ->
     In (p, n) (node_pool L G root n) \/ In (q, n) (node_pool L G root n)) /\
  (forall p, In (p, n) (edges G) ->
     exists p', In (p', n) (edges G) /\ ~ In (p', n) (node_pool L G root n)).
Proof.
  intros L G root n Hw Hs.
  destruct (le_lt_dec (length (predecessors G n)) 1) as [Hle|Hlt].
  - rewrite node_pool_single by assumption. split; [intros e []|]. split.
    + intros p q Hp Hq Hne. exfalso. apply Hne.
      apply In_predecessors in Hp, Hq.
      pose proof (NoDup_predecessors G n Hw) as Hnd.
      destruct (predecessors G n) as [|x [|y l]]; simpl in *; try lia; intuition congruence.
    + intros p Hp. exists p. auto.
  - destruct (node_pool_ranked L G root n Hlt Hs) as (K & HK & ->).
    assert (NoDup K) as Hnd.
    { eapply Permutation_NoDup; [symmetry; exact HK|]. now apply NoDup_parent_edges. }
    assert (forall e, In e K <-> exists p, e = (p, n) /\ In (p, n) (edges G)) as HinK.
    { intro e. rewrite (Permutation_in' (eq_refl e) HK), in_map_iff. split.
      - intros [p [<- Hp]]. exists p. split; [reflexivity|now apply In_predecessors].
      - intros [p [-> Hp]]. exists p. split; [reflexivity|now apply In_predecessors]. }
    destruct K as [|top rest].
    { apply Permutation_length in HK. rewrite length_map in HK. simpl in HK. lia. }
    simpl. inversion Hnd as [|? ? Htop Hrest]; subst. split; [|split].
    + intros e He. destruct (proj1 (HinK e) (or_intror He)) as [p [-> Hp]]. auto.
    + intros p q Hp Hq Hne.
      assert (In (p, n) (top :: rest)) as Hp' by (apply HinK; eauto).
      assert (In (q, n) (top :: rest)) as Hq' by (apply HinK; eauto).
      destruct Hp' as [Ep|Hp']; [|now left]. destruct Hq' as [Eq|Hq']; [|now right].
      exfalso. apply Hne. congruence.
    + intros p Hp. destruct (proj1 (HinK top) (or_introl eq_refl)) as [p' [-> Hp']].
      exists p'. auto.
Qed.

Lemma secondary_step_acc : forall L G root acc n acc',
  secondary_step L G root acc n = Ok acc' ->
  exists a0, secondary_step L G root ([], []) n = Ok a0 /\
             fst acc' = fst acc ++ fst a0 /\ snd acc' = snd acc ++ snd a0.
Proof.
  intros L G root acc n acc'. unfold secondary_step.
  destruct (1 <? length (predecessors G n))%nat.
  - destruct (istuple n).
    + destruct (mapM _ _); simpl; [|discriminate]. intro E. inversion E.
      eexists. split; [reflexivity|]. simpl. now rewrite app_nil_r.
    + destruct (mapM _ _); simpl; [|discriminate]. intro E. inversion E.
      eexists. split; [reflexivity|]. simpl. now rewrite app_nil_r.
  - intro E. inversion E. eexists. split; [reflexivity|]. simpl. now rewrite !app_nil_r.
Qed.

Lemma secondary_step_pool : forall L G root acc n acc',
  secondary_step L G root acc n = Ok acc' ->
  (exists a0, secondary_step L G root ([], []) n = Ok a0) /\
  forall e, In e (pool acc') <-> In e (pool acc) \/ In e (node_pool L G root n).
Proof.
  intros L G root acc n acc' H.
  destruct (secondary_step_acc _ _ _ _ _ _ H) as (a0 & E0 & E1 & E2).
  split; [eauto|]. intro e. unfold node_pool. rewrite E0. unfold pool.
  rewrite E1, E2, !map_app, !in_app_iff. tauto.
Qed.

Lemma secondary_fold_pool : forall L G root l acc acc',
  foldM (secondary_step L G root) l acc = Ok acc' ->
  (forall n, In n l -> exists a0, secondary_step L G root ([], []) n = Ok a0) /\
  forall e, In e (pool acc') <-> In e (pool acc) \/ exists n, In n l /\ In e (node_pool L G root n).
Proof.
  intros L G root. induction l as [|n l IH]; simpl; intros acc acc' H.
  - inversion H; subst. split; [intros n []|]. intro e. split; [auto|].
    intros [He|[n [[] _]]]. assumption.
  - destruct (secondary_step L G root acc n) as [acc1|] eqn:E1; simpl in H; [|discriminate].
    apply secondary_step_pool in E1 as [Hs1 Hp1].
    apply IH in H as [Hs Hp]. split.
    + intros x [<-|Hx]; auto.
    + intro e. rewrite Hp, Hp1. split.
      * intros [[He|He]|[x [Hx He]]]; eauto.
      * intros [He|[x [[<-|Hx] He]]]; eauto.
Qed.

(** What [_build] leaves in the two pools: parent edges of the graph; of
    two parent edges of a node one at least; and for no node all of them. *)
Lemma secondary_spec : forall L G root s, wf_graph G ->
  secondary L G root = Ok s ->
  (forall e, In e (pool s) -> In e (edges G)) /\
  (forall p q v, In (p, v) (edges G) -> In (q, v) (edges G) -> p <> q ->
     In (p, v) (pool s) \/ In (q, v) (pool s)) /\
  (forall p v, In (p, v) (edges G) ->
     exists p', In (p', v) (edges G) /\ ~ In (p', v) (pool s)).
Proof.
  intros L G root s Hw. unfold secondary.
  destruct (foldM _ _ _) as [acc|] eqn:E; simpl; [|discriminate].
  intro H. inversion H; subst s. clear H.
  apply secondary_fold_pool in E as [Hs Hp].
  assert (forall e, In e (pool (sorted_desc Qgtb (fun x => snd x) (fst acc),
                              sorted_desc nat_gtb (fun x => snd x) (snd acc)))
                    <-> exists n, In n (nodes G) /\ In e (node_pool L G root n)) as Hpool.
  { intro e. unfold pool at 1. cbn [fst snd].
    rewrite in_app_iff.
    rewrite (Permutation_in' (eq_refl e) (Permutation_map fst (sorted_desc_perm _ _ _ _ (fst acc)))).
    rewrite (Permutation_in' (eq_refl e) (Permutation_map fst (sorted_desc_perm _ _ _ _ (snd acc)))).
    rewrite <- in_app_iff. fold (pool acc). rewrite Hp. simpl. tauto. }
  assert (forall p v, In (p, v) (edges G) -> In v (nodes G)) as Hv
    by (intros p v Hpv; now apply Hw in Hpv).
  split; [|split].
  - intros e He. apply Hpool in He as [n [Hn He]].
    now apply (node_pool_facts L G root n Hw (Hs n Hn)) in He.
  - intros p q v Hp' Hq Hne.
    destruct (node_pool_facts L G root v Hw (Hs v (Hv _ _ Hp'))) as (_ & H2 & _).
    destruct (H2 p q Hp' Hq Hne) as [H|H]; [left|right]; apply Hpool; eauto.
  - intros p v Hp'.
    destruct (node_pool_facts L G root v Hw (Hs v (Hv _ _ Hp'))) as (H1 & _ & H3).
    destruct (H3 p Hp') as [p' [Hin Hnot]]. exists p'. split; [assumption|].
    intro H. apply Hpool in H as [n [Hn He]].
    assert (n = v) as ->.
    { destruct (node_pool_facts L G root n Hw (Hs n Hn)) as (H1' & _ & _).
      apply H1' in He as [He _]. simpl in He. congruence. }
    contradiction.
Qed.

(** * [prune] *)

Lemma sweep_inv : forall (P : DiGraph -> Prop),
  (forall T n, P T -> istuple n = true -> out_degree T n = O -> P (drop_node T n)) ->
  forall l st, P (fst st) -> P (fst (fold_left sweep_step l st)).
Proof.
  intros P HP l st H. apply fold_left_inv; [assumption|].
  intros [T i] n _ HT. unfold sweep_step. cbn [fst snd] in *.
  destruct (istuple n) eqn:E1; [|assumption].
  destruct (out_degree T n =? 0)%nat eqn:E2; [|assumption].
  simpl. apply HP; [assumption|assumption|now apply Nat.eqb_eq].
Qed.

Lemma remove_dead_ends_inv : forall (P : DiGraph -> Prop),
  (forall T n, P T -> istuple n = true -> out_degree T n = O -> P (drop_node T n)) ->
  forall fuel T internal, P T -> P (fst (remove_dead_ends fuel T internal)).
Proof.
  intros P HP. induction fuel as [|f IH]; intros T internal H; simpl.
  - now destruct (has_dead_end T internal).
  - destruct (has_dead_end T internal); [|assumption].
    apply IH. now apply sweep_inv.
Qed.

Section Collapse.

Variable T : DiGraph.
Variable n parent : node.
Hypothesis Hw : wf_graph T.
Hypothesis Hparent : In (parent, n) (edges T).

Lemma collapse_children : forall w1 cs T1,
  wf_graph T1 ->
  (forall e, In e (edges T) -> In e (edges T1)) ->
  g_nodes T1 = g_nodes T ->
  (forall c, In c cs -> In (n, c) (edges T)) ->
  exists T2,
    foldM (fun T' child => w2 <- weight T' n child ;; Ok (add_edge T' parent child (w1 + w2)%Q))
          cs T1 = Ok T2 /\
    wf_graph T2 /\ g_nodes T2 = g_nodes T /\
    forall e, In e (edges T2) <-> In e (edges T1) \/ exists c, In c cs /\ e = (parent, c).
Proof.
  intros w1. induction cs as [|c cs IH]; intros T1 Hw1 Hsub Hn1 Hcs; simpl.
  - exists T1. split; [reflexivity|]. split; [assumption|]. split; [assumption|].
    intro e. split; [auto|]. intros [H|[c [[] _]]]. assumption.
  - assert (In (n, c) (edges T)) as Hc by (apply Hcs; now left).
    destruct (weight_Ok T1 n c (Hsub _ Hc)) as [w2 Ew]. rewrite Ew. simpl.
    destruct (IH (add_edge T1 parent c (w1 + w2)%Q)) as (T2 & E2 & Hw2 & Hn2 & He2).
    + now apply wf_add_edge.
    + intros e He. apply edges_add_edge. left. now apply Hsub.
    + rewrite g_nodes_add_edge_same; [assumption| |]; unfold nodes; rewrite Hn1.
      * now apply Hw in Hparent.
      * now apply Hw in Hc.
    + intros c' Hc'. apply Hcs. now right.
    + exists T2. split; [assumption|]. split; [assumption|]. split; [assumption|].
      intro e. rewrite He2, edges_add_edge. split.
      * intros [[H|H]|[c' [Hc' H]]]; [now left|right; exists c; auto|right; exists c'; auto].
      * intros [H|[c' [[<-|Hc'] H]]]; [left; now left|left; now right|right; eauto].
Qed.

Lemma collapse_spec : forall ps, predecessors T n = parent :: ps ->
  exists T', collapse T n = Ok T' /\ wf_graph T' /\
    g_nodes T' = filter (fun p => negb (node_eqb (fst p) n)) (g_nodes T) /\
    forall a b, In (a, b) (edges T') <->
      (In (a, b) (edges T) \/ (a = parent /\ In (n, b) (edges T))) /\ a <> n /\ b <> n.
Proof.
  intros ps Hp. unfold collapse. rewrite Hp.
  destruct (weight_Ok T parent n Hparent) as [w1 Ew]. rewrite Ew. cbn [bind].
  destruct (collapse_children w1 (successors T n) T Hw (fun e H => H) eq_refl)
    as (T2 & E2 & Hw2 & Hn2 & He2).
  { intros c Hc. now apply In_successors. }
  rewrite E2. cbn [bind]. unfold remove_node.
  assert (has_node T2 n = true) as Hn.
  { apply has_node_In. unfold nodes. rewrite Hn2. now apply Hw in Hparent. }
  rewrite Hn. eexists. split; [reflexivity|]. split; [now apply wf_drop_node|]. split.
  - unfold drop_node. simpl. now rewrite Hn2.
  - intros a b. rewrite edges_drop_node, He2. split.
    + intros [[H|[c [Hc H]]] Hne]; split; auto.
      inversion H; subst. right. split; [reflexivity|now apply In_successors].
    + intros [[H|[-> H]] Hne]; split; auto.
      right. exists b. split; [now apply In_successors|reflexivity].
Qed.

End Collapse.

Lemma single_branch_parent : forall strict T n,
  _single_branch strict T n = true -> exists p, predecessors T n = [p].
Proof.
  intros strict T n. unfold _single_branch.
  destruct (in_degree T n =? 1)%nat eqn:E; simpl; [|discriminate].
  intros _. apply Nat.eqb_eq in E. unfold in_degree in E.
  destruct (predecessors T n) as [|p [|q l]]; try discriminate. eauto.
Qed.

Lemma single_branch_collapse : forall strict T n, wf_graph T ->
  _single_branch strict T n = true ->
  exists parent T', predecessors T n = [parent] /\ In (parent, n) (edges T) /\
    collapse T n = Ok T' /\ wf_graph T' /\
    g_nodes T' = filter (fun p => negb (node_eqb (fst p) n)) (g_nodes T) /\
    forall a b, In (a, b) (edges T') <->
      (In (a, b) (edges T) \/ (a = parent /\ In (n, b) (edges T))) /\ a <> n /\ b <> n.
Proof.
  intros strict T n Hw Hs. destruct (single_branch_parent _ _ _ Hs) as [p Hp].
  assert (In (p, n) (edges T)) as Hin by (apply In_predecessors; rewrite Hp; now left).
  destruct (collapse_spec T n p Hw Hin [] Hp) as (T' & E & H).
  exists p, T'. auto.
Qed.

(** An invariant of [prune]: kept by the removal of a dead end and by the
    collapse of a single branch, it holds of the result. *)
Lemma prune_inv : forall (P : DiGraph -> Prop) strict,
  (forall T n, P T -> istuple n = true -> out_degree T n = O -> P (drop_node T n)) ->
  (forall T n T', P T -> _single_branch strict T n = true -> collapse T n = Ok T' -> P T') ->
  forall T T', P T -> prune T strict = Ok T' -> P T'.
Proof.
  intros P strict Hd Hc T T' HT. unfold prune.
  set (T1 := fst (remove_dead_ends _ _ _)).
  assert (P T1) as H1 by now apply remove_dead_ends_inv.
  destruct (traverse_topdown T1) as [all_nodes|]; simpl; [|discriminate].
  apply foldM_Ok_inv; [assumption|].
  intros a x a' _ Ha. unfold collapse_step.
  destruct (_single_branch strict a x) eqn:E.
  - now apply Hc.
  - intro H. inversion H. now subst.
Qed.

Lemma prune_single_parent : forall strict T T',
  wf_graph T -> single_parent T -> prune T strict = Ok T' ->
  wf_graph T' /\ single_parent T'.
Proof.
  intros strict T T' Hw Hs. apply prune_inv with (P := fun T => wf_graph T /\ single_parent T).
  - intros G n [HwG HsG] _ _. split; [now apply wf_drop_node|].
    intros p q v Hp Hq. apply edges_drop_node in Hp as [Hp _], Hq as [Hq _]. eapply HsG; eassumption.
  - intros G n G' [HwG HsG] Hsb Hc.
    destruct (single_branch_collapse _ _ _ HwG Hsb) as (parent & G1 & _ & _ & E & Hw1 & _ & He).
    rewrite Hc in E. inversion E; subst G1. split; [assumption|].
    intros p q v Hp Hq. apply He in Hp as [Hp [Hpn _]], Hq as [Hq [Hqn _]].
    destruct Hp as [Hp|[-> Hp]], Hq as [Hq|[-> Hq]].
    + eapply HsG; eassumption.
    + exfalso. apply Hpn. eapply HsG; eassumption.
    + exfalso. apply Hqn. eapply HsG; eassumption.
    + reflexivity.
  - auto.
Qed.

(** * [update_depth] leaves the nodes and the edges as they are *)

Lemma relax_edges : forall d l st,
  g_edges (fst (fold_left (relax d) l st)) = g_edges (fst st) /\
  nodes (fst (fold_left (relax d) l st)) = nodes (fst st).
Proof.
  intros d. induction l as [|c l IH]; intros st; simpl; [auto|].
  destruct (IH (relax d st c)) as [H1 H2]. rewrite H1, H2.
  unfold relax. destruct (match get_depth (fst st) c with Some _ => _ | None => _ end); [auto|].
  simpl. split; [reflexivity|apply nodes_set_depth].
Qed.

Lemma update_topdown_edges : forall fuel T Q st,
  update_topdown fuel T Q = Ok st ->
  g_edges (fst st) = g_edges T /\ nodes (fst st) = nodes T.
Proof.
  induction fuel as [|f IH]; intros T Q st; simpl.
  - intro H. inversion H. auto.
  - destruct Q as [|p Q]; [intro H; inversion H; auto|].
    destruct (get_depth T p); [|discriminate].
    intro H. apply IH in H as [H1 H2].
    destruct (relax_edges n (successors T p) (T, Q)) as [H3 H4].
    rewrite H1, H2, H3, H4. auto.
Qed.

Lemma update_depth_graph_edges : forall T T',
  update_depth_graph T = Ok T' -> g_edges T' = g_edges T /\ nodes T' = nodes T.
Proof.
  intros T T'. unfold update_depth_graph.
  destruct (get_root T) as [r|]; [|discriminate].
  destruct (update_topdown _ _ _) as [st|] eqn:E; simpl; [|discriminate].
  intro H. inversion H; subst. apply update_topdown_edges in E as [H1 H2].
  rewrite H1, H2. simpl. split; [reflexivity|apply nodes_set_depth].
Qed.

(** * [pick] *)

(** What [pick] returns, and the state it leaves, in terms of its three
    phases. *)
Lemma pick_phases : forall w G se ste pe pte adds rep strict,
  _full w = Some G -> _secondary_edges w = Some se ->
  _secondary_terminal_edges w = Some ste ->
  pick w pe pte adds rep strict =
  match (T <- select G (map fst se) (map fst ste) pe pte adds rep ;; prune T strict) with
  | Raise e => (w, Raise e)
  | Ok h0 =>
      match update_depth_graph h0 with
      | Ok h => (set_hier w (Some h), Ok h)
      | Raise e => (set_hier w (Some h0), Raise e)
      end
  end.
Proof.
  intros w G se ste pe pte adds rep strict HG Hse Hste. unfold pick.
  rewrite Hse, Hste, HG.
  destruct (T <- select _ _ _ _ _ _ _ ;; prune T strict) as [h0|e]; [|reflexivity].
  unfold update_depth. cbn [hier set_hier].
  destruct (update_depth_graph h0) as [h|e]; reflexivity.
Qed.

Lemma pick_Ok : forall w G se ste pe pte adds rep strict w' h,
  _full w = Some G -> _secondary_edges w = Some se ->
  _secondary_terminal_edges w = Some ste ->
  pick w pe pte adds rep strict = (w', Ok h) ->
  exists T h0, select G (map fst se) (map fst ste) pe pte adds rep = Ok T /\
               prune T strict = Ok h0 /\ update_depth_graph h0 = Ok h /\
               w' = set_hier w (Some h).
Proof.
  intros w G se ste pe pte adds rep strict w' h HG Hse Hste.
  rewrite (pick_phases w G se ste) by assumption.
  destruct (select _ _ _ _ _ _ _) as [T|e] eqn:ET; simpl; [|discriminate].
  destruct (prune T strict) as [h0|e] eqn:E0; [|discriminate].
  destruct (update_depth_graph h0) as [h1|e] eqn:E; [|discriminate].
  intro H. inversion H; subst. exists T, h0. repeat split; assumption.
Qed.

(** What [_build] leaves in the object. *)
Lemma _build_Ok : forall w c w' G,
  _build w c = (w', Ok G) ->
  exists L levels labels terminals root s,
    build_graph L levels labels (assume_levels w) terminals c = Ok (G, root) /\
    secondary L G root = Ok s /\
    _assignment w = Some L /\
    _full w' = Some G /\ _secondary_edges w' = Some (fst s) /\
    _secondary_terminal_edges w' = Some (snd s).
Proof.
  intros w c w' G. unfold _build.
  destruct (_assignment w) as [L|]; [|discriminate].
  destruct (_levels w) as [levels|]; [|discriminate].
  destruct (_labels w) as [labels|]; [|discriminate].
  destruct (_terminals w) as [terminals|]; [|discriminate].
  destruct (build_graph _ _ _ _ _ _) as [[G1 root]|] eqn:EB; [|discriminate].
  cbn [fst snd]. destruct (secondary L G1 root) as [s|] eqn:ES; [|discriminate].
  intro H. inversion H; subst.
  exists L, levels, labels, terminals, root, s. simpl. auto 10.
Qed.

Lemma build_graph_wf : forall L levels labels assume terminals c G root,
  build_graph L levels labels assume terminals c = Ok (G, root) -> wf_graph G.
Proof.
  intros L levels labels assume terminals c G root HB.
  apply build_graph_phases in HB as (G1 & E1 & E2).
  assert (cluster_graph (remove_redundant G1)) as HG0.
  { apply cluster_remove_redundant. eapply cluster_add_root; [|exact E1].
    apply cluster_init_graph. }
  destruct (attach_terminals_spec L terminals _ HG0) as (G' & r & E' & Hi & _).
  rewrite E2 in E'. inversion E'; subst G'. apply (ai_wf Hi).
Qed.

Lemma trim_edges : forall T pl p e,
  In e (edges (trim T pl p)) -> In e (edges T).
Proof.
  intros T pl p e. unfold trim. destruct (Qeq_bool p 0).
  - intro H. now apply edges_remove_edges_from in H.
  - destruct (Qgtb 100 p); [|auto]. intro H. now apply edges_remove_edges_from in H.
Qed.

Lemma wf_trim : forall T pl p, wf_graph T -> wf_graph (trim T pl p).
Proof.
  intros T pl p H. unfold trim. destruct (Qeq_bool p 0); [now apply wf_remove_edges_from|].
  destruct (Qgtb 100 p); [now apply wf_remove_edges_from|assumption].
Qed.

Lemma In_slice_from : forall (A : Type) n (l : list A) x, In x (slice_from n l) -> In x l.
Proof.
  intros A n l x. unfold slice_from.
  destruct (n <? 0); intro H;
    match type of H with In _ (skipn ?k _) => rewrite <- (firstn_skipn k l) end;
    apply in_app_iff; now right.
Qed.

Lemma trim_keeps : forall T pl p e,
  In e (edges T) -> ~ In e pl -> In e (edges (trim T pl p)).
Proof.
  intros T pl p e He Hn. unfold trim. destruct (Qeq_bool p 0).
  - apply edges_remove_edges_from. auto.
  - destruct (Qgtb 100 p); [|assumption]. apply edges_remove_edges_from. split; [assumption|].
    intro H. apply Hn. eapply In_slice_from; eassumption.
Qed.

Lemma trim_zero : forall T pl, trim T pl 0 = remove_edges_from T pl.
Proof. reflexivity. Qed.

Lemma g_nodes_trim : forall T pl p, g_nodes (trim T pl p) = g_nodes T.
Proof.
  intros. unfold trim. destruct (Qeq_bool p 0); [reflexivity|]. now destruct (Qgtb 100 p).
Qed.

(** With both percentages at 0 every node of the hierarchy has one parent at
    most. *)
Lemma pick_zero_core :
  forall (L : list (list bool)) (G : DiGraph) (root : node)
         (s : list (edge * Q) * list (edge * nat)) (w w' : Weaver) (h : DiGraph)
         (rep strict : bool),
    wf_graph G -> secondary L G root = Ok s ->
    _full w = Some G -> _secondary_edges w = Some (fst s) ->
    _secondary_terminal_edges w = Some (snd s) ->
    pick w 0 0 None rep strict = (w', Ok h) ->
    forall v, (in_degree h v <= 1)%nat.
Proof.
  intros L G root s w w' h rep strict Hw HS HG Hse Hste HP v.
  destruct (pick_Ok _ _ _ _ _ _ _ _ _ _ _ HG Hse Hste HP) as (T & h0 & ET & Eh0 & Eh & _).
  unfold select in ET. rewrite !trim_zero in ET. inversion ET; subst T. clear ET.
  destruct (secondary_spec L G root s Hw HS) as (_ & Hcover & _).
  assert (wf_graph h0 /\ single_parent h0) as [Hw0 Hs0].
  { eapply prune_single_parent; [| |exact Eh0].
    - now apply wf_remove_edges_from, wf_remove_edges_from, wf_copy.
    - intros p q x Hp Hq.
      apply edges_remove_edges_from in Hp as [Hp Hp2], Hq as [Hq Hq2].
      apply edges_remove_edges_from in Hp as [Hp Hp1], Hq as [Hq Hq1].
      apply (edges_copy G _ Hw) in Hp, Hq.
      destruct (node_eq_dec p q) as [|Hne]; [assumption|exfalso].
      destruct (Hcover p q x Hp Hq Hne) as [H|H]; unfold pool in H;
        apply in_app_iff in H as [H|H]; contradiction. }
  apply update_depth_graph_edges in Eh as [Ee En].
  apply in_degree_le_1.
  - destruct Hw0 as (H1 & H2 & H3). unfold wf_graph, edges. rewrite Ee, En. auto.
  - intros p q. unfold edges. rewrite Ee. apply Hs0.
Qed.

(** C9, as the code has it.  [pick(100)] takes no secondary edge between
    clusters away.  With [percentage_terminal_edges = 100] as well the
    hierarchy is the pruned copy of the candidate graph, depths added; with
    the default [percentage_terminal_edges = 0] it is the pruned copy
    without the secondary terminal edges. *)
Theorem pick_hundred_keeps_cluster_edges :
  forall (w : Weaver) (G : DiGraph) se ste (strict : bool),
    _full w = Some G -> _secondary_edges w = Some se ->
    _secondary_terminal_edges w = Some ste ->
    snd (pick w 100 100 None false strict)
    = (h0 <- prune (copy G) strict ;; update_depth_graph h0) /\
    snd (pick w 100 0 None false strict)
    = (h0 <- prune (remove_edges_from (copy G) (map fst ste)) strict ;;
       update_depth_graph h0).
Proof.
  intros w G se ste strict HG Hse Hste.
  rewrite !(pick_phases w G se ste) by assumption.
  unfold select. change (trim (copy G) (map fst se) 100) with (copy G).
  change (trim (copy G) (map fst ste) 100) with (copy G).
  rewrite trim_zero. cbn [bind]. split.
  - destruct (prune (copy G) strict) as [h0|e]; [|reflexivity].
    cbn [bind]. now destruct (update_depth_graph h0).
  - destruct (prune _ strict) as [h0|e]; [|reflexivity].
    cbn [bind]. now destruct (update_depth_graph h0).
Qed.

Local Open Scope nat_scope.

(** * The depth annotation *)

Lemma walk_snoc : forall G u v w n, walk G u v n -> In (v, w) (edges G) -> walk G u w (S n).
Proof.
  intros G u v w n H E. induction H as [u|u x v n E' H IH].
  - eapply walk_cons; [exact E|apply walk_nil].
  - eapply walk_cons; [exact E'|auto].
Qed.

Lemma walk_path : forall G u v n, walk G u v n -> path G u v.
Proof.
  intros G u v n H. induction H; [apply path_refl|]. eapply path_step; eassumption.
Qed.

Lemma path_walk : forall G u v, path G u v -> exists n, walk G u v n.
Proof.
  intros G u v H. induction H as [u|u x v E H [n IH]].
  - exists 0. apply walk_nil.
  - exists (S n). eapply walk_cons; eassumption.
Qed.

Lemma walk_edges_eq : forall G G' u v n,
  g_edges G' = g_edges G -> walk G u v n -> walk G' u v n.
Proof.
  intros G G' u v n E H. induction H; [apply walk_nil|].
  eapply walk_cons; [|eassumption]. unfold edges in *. now rewrite E.
Qed.

Lemma find_node_none : forall (l : list (node * attrs)) n,
  ~ In n (map fst l) -> find (fun p => node_eqb (fst p) n) l = None.
Proof.
  induction l as [|[x a] l IH]; simpl; intros n H; [reflexivity|].
  destruct (node_eqb x n) eqn:E.
  - apply node_eqb_eq in E. subst. tauto.
  - apply IH. tauto.
Qed.

Lemma get_depth_not_node : forall T n, ~ In n (nodes T) -> get_depth T n = None.
Proof.
  intros T n H. unfold get_depth, get_attrs. now rewrite find_node_none.
Qed.

Lemma get_depth_node : forall T n d, get_depth T n = Some d -> In n (nodes T).
Proof.
  intros T n d H. destruct (in_dec node_eq_dec n (nodes T)) as [|Hn]; [assumption|].
  rewrite get_depth_not_node in H by assumption. discriminate.
Qed.

Lemma get_set_depth_same : forall T n d, In n (nodes T) -> get_depth (set_depth T n d) n = Some d.
Proof.
  intros T n d. unfold get_depth, get_attrs, set_depth, nodes. simpl.
  induction (g_nodes T) as [|[x a] l IH]; simpl; [contradiction|].
  intros [E|H].
  - subst. rewrite node_eqb_refl. simpl. now rewrite node_eqb_refl.
  - destruct (node_eqb x n) eqn:E; simpl; rewrite E; [reflexivity|]. now apply IH.
Qed.

Lemma get_set_depth_other : forall T n m d, m <> n ->
  get_depth (set_depth T n d) m = get_depth T m.
Proof.
  intros T n m d Hne. unfold get_depth, get_attrs, set_depth. simpl.
  induction (g_nodes T) as [|[x a] l IH]; simpl; [reflexivity|].
  destruct (node_eqb x n) eqn:E; simpl.
  - apply node_eqb_eq in E. subst x.
    assert (node_eqb n m = false) as E' by (apply node_eqb_neq; congruence).
    rewrite E'. exact IH.
  - destruct (node_eqb x m); [reflexivity|exact IH].
Qed.

Lemma no_depth_get : forall T v, no_depth T -> get_depth T v = None.
Proof.
  intros T v H. unfold get_depth, get_attrs.
  destruct (find _ (g_nodes T)) as [[x a]|] eqn:E; [|reflexivity].
  apply find_some in E as [E _]. simpl. eapply H; eassumption.
Qed.

Lemma no_depth_unset : forall T, no_depth T -> unset T = length (g_nodes T).
Proof.
  intros T H. unfold unset. unfold no_depth in H.
  induction (g_nodes T) as [|[x a] l IH]; simpl; [reflexivity|].
  rewrite (H x a) by now left. simpl. f_equal. apply IH.
  intros n b Hn. apply (H n b). now right.
Qed.

Lemma unset_set_depth : forall T n d,
  NoDup (nodes T) -> In n (nodes T) -> get_depth T n = None ->
  S (unset (set_depth T n d)) = unset T.
Proof.
  intros T n d. unfold unset, get_depth, get_attrs, set_depth, nodes. simpl.
  induction (g_nodes T) as [|[x a] l IH]; simpl; [contradiction|].
  intros Hnd Hin Hg. inversion Hnd as [|? ? Hx Hl]; subst.
  destruct (node_eqb x n) eqn:E; simpl in *.
  - apply node_eqb_eq in E. subst x. rewrite Hg. simpl. f_equal.
    clear IH Hg Hin Hnd Hl. induction l as [|[y b] l IH]; simpl; [reflexivity|].
    assert (node_eqb y n = false) as E.
    { apply node_eqb_neq. intro. subst. apply Hx. now left. }
    rewrite E. simpl. destruct (a_depth b); simpl; [|f_equal]; apply IH;
      intro H; apply Hx; now right.
  - destruct Hin as [Hin|Hin]; [apply node_eqb_neq in E; congruence|].
    destruct (a_depth a); simpl; [|f_equal]; now apply IH.
Qed.

Lemma depth_ext_refl : forall T, depth_ext T T.
Proof. intro T. repeat split; auto. Qed.

Lemma depth_ext_trans : forall T1 T2 T3, depth_ext T1 T2 -> depth_ext T2 T3 -> depth_ext T1 T3.
Proof.
  intros T1 T2 T3 (E1 & N1 & D1) (E2 & N2 & D2). repeat split; try congruence. auto.
Qed.

Lemma depth_ext_wf : forall T T', depth_ext T T' -> wf_graph T -> wf_graph T'.
Proof.
  intros T T' (E & N & _) (H1 & H2 & H3). unfold wf_graph, edges in *. rewrite E, N. auto.
Qed.

Lemma depth_ext_relaxed : forall T T' u du, depth_ext T T' -> relaxed T u du -> relaxed T' u du.
Proof.
  intros T T' u du (E & N & D) H v Hv. unfold edges in Hv. rewrite E in Hv.
  destruct (H v Hv) as [dv [H1 H2]]. exists dv. auto.
Qed.

(** The loop over the children of a node of depth [d0]. *)
Lemma relax_fold : forall d0 cs T1 Q1,
  NoDup (nodes T1) -> (forall c, In c cs -> In c (nodes T1)) -> depth_bound T1 (S d0) ->
  exists Qn,
    snd (fold_left (relax d0) cs (T1, Q1)) = Q1 ++ Qn /\
    depth_ext T1 (fst (fold_left (relax d0) cs (T1, Q1))) /\
    depth_bound (fst (fold_left (relax d0) cs (T1, Q1))) (S d0) /\
    (forall c, In c cs -> exists dc,
       get_depth (fst (fold_left (relax d0) cs (T1, Q1))) c = Some dc /\ dc <= d0 + 1) /\
    (forall v d, get_depth (fst (fold_left (relax d0) cs (T1, Q1))) v = Some d ->
       get_depth T1 v = Some d \/ (d = S d0 /\ In v cs /\ In v Qn)) /\
    (forall q, In q Qn -> get_depth (fst (fold_left (relax d0) cs (T1, Q1))) q = Some (S d0)) /\
    length Qn + unset (fst (fold_left (relax d0) cs (T1, Q1))) = unset T1.
Proof.
  intros d0. induction cs as [|c cs IH]; intros T1 Q1 Hnd Hcs Hb.
  - exists []. simpl. rewrite app_nil_r. repeat split; auto.
    + intros c [].
    + intros q [].
  - cbn [fold_left].
    assert (In c (nodes T1)) as Hc by (apply Hcs; now left).
    destruct (get_depth T1 c) as [dc|] eqn:Ec.
    + assert (dc <= S d0) as Hdc by (eapply Hb; eassumption).
      assert (relax d0 (T1, Q1) c = (T1, Q1)) as El.
      { unfold relax. cbn [fst snd]. rewrite Ec.
        assert ((dc <=? d0 + 1) = true) as El by (apply Nat.leb_le; lia).
        now rewrite El. }
      rewrite El.
      destruct (IH T1 Q1 Hnd (fun x Hx => Hcs x (or_intror Hx)) Hb)
        as (Qn & E1 & Hext & Hb' & Hch & Hnew & Hq & Hlen).
      exists Qn. split; [assumption|]. split; [assumption|]. split; [assumption|].
      split; [|split; [|split; assumption]].
      * intros x [<-|Hx]; [|now apply Hch].
        exists dc. split; [now apply Hext|lia].
      * intros v d Hv. destruct (Hnew v d Hv) as [H|(H1 & H2 & H3)]; [now left|].
        right. repeat split; auto. now right.
    + assert (relax d0 (T1, Q1) c = (set_depth T1 c (d0 + 1), Q1 ++ [c])) as El.
      { unfold relax. cbn [fst snd]. now rewrite Ec. }
      rewrite El.
      set (T2 := set_depth T1 c (d0 + 1)).
      assert (NoDup (nodes T2)) as Hnd2 by (unfold T2; now rewrite nodes_set_depth).
      assert (depth_ext T1 T2) as Hext12.
      { unfold T2. split; [reflexivity|]. split; [apply nodes_set_depth|].
        intros v d Hv. rewrite get_set_depth_other; [assumption|]. congruence. }
      assert (depth_bound T2 (S d0)) as Hb2.
      { intros v d Hv. unfold T2 in Hv. destruct (node_eq_dec v c) as [->|Hne].
        - rewrite get_set_depth_same in Hv by assumption. inversion Hv. lia.
        - rewrite get_set_depth_other in Hv by assumption. eapply Hb; eassumption. }
      destruct (IH T2 (Q1 ++ [c]) Hnd2) as (Qn & E1 & Hext & Hb' & Hch & Hnew & Hq & Hlen);
        [|assumption|].
      { intros x Hx. unfold T2. rewrite nodes_set_depth. apply Hcs. now right. }
      assert (get_depth T2 c = Some (S d0)) as Ec2.
      { unfold T2. rewrite get_set_depth_same by assumption. f_equal. lia. }
      exists (c :: Qn). split; [rewrite E1, <- app_assoc; reflexivity|].
      split; [eapply depth_ext_trans; eassumption|]. split; [assumption|].
      split; [|split; [|split]].
      * intros x [<-|Hx]; [|now apply Hch].
        exists (S d0). split; [now apply Hext|lia].
      * intros v d Hv. destruct (Hnew v d Hv) as [H|(H1 & H2 & H3)].
        -- destruct (node_eq_dec v c) as [->|Hne].
           ++ right. rewrite Ec2 in H. inversion H. repeat split; now left.
           ++ left. unfold T2 in H. now rewrite get_set_depth_other in H.
        -- right. repeat split; auto; now right.
      * intros q [<-|Hq']; [now apply Hext|now apply Hq].
      * simpl. rewrite <- (unset_set_depth T1 c (d0 + 1)) by assumption.
        fold T2. lia.
Qed.

Lemma bfs_queue_head : forall r T q Q', bfs_inv r T (q :: Q') ->
  exists d Qa Qb, Q' = Qa ++ Qb /\ get_depth T q = Some d /\
    (forall x, In x Qa -> get_depth T x = Some d) /\
    (forall x, In x Qb -> get_depth T x = Some (S d)) /\
    depth_bound T (S d).
Proof.
  intros r T q Q' Hi. destruct (bi_queue Hi) as (d0 & Qa & Qb & E & Ha & Hb & Hbd).
  destruct Qa as [|a Qa].
  - simpl in E. subst Qb. exists (S d0), Q', []. rewrite app_nil_r.
    split; [reflexivity|]. split; [apply Hb; now left|].
    split; [intros x Hx; apply Hb; now right|]. split; [intros x []|].
    intros v d Hv. apply Hbd in Hv. lia.
  - simpl in E. inversion E; subst. exists d0, Qa, Qb.
    split; [reflexivity|]. split; [apply Ha; now left|].
    split; [intros x Hx; apply Ha; now right|]. split; assumption.
Qed.

Lemma update_topdown_spec : forall fuel r T Q,
  bfs_inv r T Q -> length Q + unset T <= fuel ->
  exists T', update_topdown fuel T Q = Ok (T', []) /\ depth_ext T T' /\ bfs_inv r T' [].
Proof.
  induction fuel as [|f IH]; intros r T Q Hi Hlen.
  - destruct Q; [|simpl in Hlen; lia]. exists T. simpl.
    split; [reflexivity|]. split; [apply depth_ext_refl|assumption].
  - destruct Q as [|q Q'].
    { exists T. simpl. split; [reflexivity|]. split; [apply depth_ext_refl|assumption]. }
    destruct (bfs_queue_head r T q Q' Hi) as (d & Qa & Qb & EQ & Hq & Ha & Hb & Hbd).
    cbn [update_topdown]. rewrite Hq.
    pose proof (bi_wf Hi) as Hw.
    destruct (relax_fold d (successors T q) T Q') as (Qn & E1 & Hext & Hb' & Hch & Hnew & Hqn & Hl).
    { apply Hw. }
    { intros c Hc. apply In_successors in Hc. now apply Hw in Hc. }
    { assumption. }
    set (st := fold_left (relax d) (successors T q) (T, Q')) in *.
    assert (g_edges (fst st) = g_edges T) as Ee by apply Hext.
    assert (bfs_inv r (fst st) (snd st)) as Hi2.
    { rewrite E1. constructor.
      - eapply depth_ext_wf; eassumption.
      - apply Hext, (bi_root Hi).
      - intros v dv Hv. apply walk_edges_eq with (G := T); [assumption|].
        destruct (Hnew v dv Hv) as [H|(-> & Hc & _)].
        + now apply (bi_walk Hi).
        + apply walk_snoc with (v := q); [now apply (bi_walk Hi)|now apply In_successors].
      - intros u du Hu. destruct (Hnew u du Hu) as [H|(_ & _ & Hin)].
        + destruct (bi_done Hi u du H) as [[<-|Hin]|Hr].
          * right. rewrite Hq in H. inversion H; subst du.
            intros v Hv. apply Hch. apply In_successors. unfold edges in *. now rewrite <- Ee.
          * left. apply in_app_iff. now left.
          * right. eapply depth_ext_relaxed; eassumption.
        + left. apply in_app_iff. now right.
      - exists d, Qa, (Qb ++ Qn). split; [rewrite EQ; symmetry; apply app_assoc|].
        split; [intros x Hx; apply Hext; now apply Ha|]. split; [|assumption].
        intros x Hx. apply in_app_iff in Hx as [Hx|Hx]; [apply Hext; now apply Hb|now apply Hqn]. }
    destruct (IH r (fst st) (snd st) Hi2) as (T' & E' & Hext' & Hi').
    { rewrite E1, length_app. simpl in Hlen. lia. }
    exists T'. split; [assumption|]. split; [eapply depth_ext_trans; eassumption|assumption].
Qed.

Lemma get_root_Some : forall T r, get_root T = Some r -> In r (nodes T) /\ in_degree T r = 0.
Proof.
  intros T r H. unfold get_root in H. apply find_some in H as [H1 H2].
  split; [assumption|now apply Nat.eqb_eq].
Qed.

Lemma bfs_inv_init : forall T r, wf_graph T -> no_depth T -> In r (nodes T) ->
  bfs_inv r (set_depth T r 0) [r] /\ 1 + unset (set_depth T r 0) = length (g_nodes T).
Proof.
  intros T r Hw Hn Hr.
  assert (forall v d, get_depth (set_depth T r 0) v = Some d -> v = r /\ d = 0) as Honly.
  { intros v d Hv. destruct (node_eq_dec v r) as [->|Hne].
    - rewrite get_set_depth_same in Hv by assumption. inversion Hv. auto.
    - rewrite get_set_depth_other, no_depth_get in Hv by assumption. discriminate. }
  split.
  - constructor.
    + now apply wf_set_depth.
    + now apply get_set_depth_same.
    + intros v d Hv. apply Honly in Hv as [-> ->]. apply walk_nil.
    + intros u du Hu. apply Honly in Hu as [-> _]. left. now left.
    + exists 0, [r], []. split; [reflexivity|].
      split; [intros q [<-|[]]; now apply get_set_depth_same|].
      split; [intros q []|]. intros v d Hv. apply Honly in Hv as [_ ->]. lia.
  - rewrite <- (no_depth_unset T Hn). simpl. apply unset_set_depth.
    + apply Hw.
    + assumption.
    + now apply no_depth_get.
Qed.

(** C5.  On a hierarchy without depth attributes and with a root, as
    [pick] hands it to [update_depth], the annotation ends with an empty
    queue and leaves the nodes and edges as they are; the root has depth 0;
    the nodes with a depth are the nodes reachable from the root; along an
    edge from a node with a depth the depth grows by one at most; and the
    depth of a node reachable from the root is the length of a shortest
    path from the root. *)
Theorem update_depth_shortest_path :
  forall (w : Weaver) (T : DiGraph) (r : node),
    hier w = Some T -> wf_graph T -> no_depth T -> get_root T = Some r ->
    exists T',
      update_depth w = (set_hier w (Some T'), Ok tt) /\
      update_topdown (S (length (g_nodes T))) (set_depth T r 0) [r] = Ok (T', []) /\
      g_edges T' = g_edges T /\ nodes T' = nodes T /\
      get_depth T' r = Some 0 /\
      (forall v, (exists d, get_depth T' v = Some d) <-> path T' r v) /\
      (forall u v du, In (u, v) (edges T') -> get_depth T' u = Some du ->
         exists dv, get_depth T' v = Some dv /\ dv <= du + 1) /\
      (forall v, path T' r v -> exists d, get_depth T' v = Some d /\ shortest T' r v d).
Proof.
  intros w T r Hh Hw Hn Hr.
  destruct (get_root_Some T r Hr) as [Hin _].
  destruct (bfs_inv_init T r Hw Hn Hin) as [Hi0 Hlen].
  destruct (update_topdown_spec (S (length (g_nodes T))) r _ [r] Hi0) as (T' & E & Hext & Hi).
  { simpl. lia. }
  assert (forall u v du, In (u, v) (edges T') -> get_depth T' u = Some du ->
            exists dv, get_depth T' v = Some dv /\ dv <= du + 1) as Hedge.
  { intros u v du Huv Hu. destruct (bi_done Hi u du Hu) as [[]|Hrel]. now apply Hrel. }
  assert (forall v n, walk T' r v n -> exists d, get_depth T' v = Some d /\ d <= n) as Hmin.
  { intros v n Hwk. remember r as s eqn:Es.
    assert (forall a b k, walk T' a b k -> forall da, get_depth T' a = Some da ->
              exists d, get_depth T' b = Some d /\ d <= da + k) as Hgen.
    { intros a b k Hab. induction Hab as [a|a x b k Eax Hxb IH]; intros da Ha.
      - exists da. split; [assumption|lia].
      - destruct (Hedge a x da Eax Ha) as [dx [Hx Hle]].
        destruct (IH dx Hx) as [d [Hd Hle']]. exists d. split; [assumption|lia]. }
    subst s. destruct (Hgen r v n Hwk 0 (bi_root Hi)) as [d [Hd Hle]].
    exists d. split; [assumption|lia]. }
  exists T'. split; [|split; [exact E|]].
  - unfold update_depth. rewrite Hh. unfold update_depth_graph. rewrite Hr, E. reflexivity.
  - destruct Hext as (Ee & Ne & _). split; [exact Ee|]. split; [rewrite Ne; apply nodes_set_depth|].
    split; [apply (bi_root Hi)|]. split; [|split; [exact Hedge|]].
    + intro v. split.
      * intros [d Hd]. eapply walk_path. exact (bi_walk Hi v d Hd).
      * intro Hp. apply path_walk in Hp as [n Hn']. destruct (Hmin v n Hn') as [d [Hd _]]. eauto.
    + intros v Hp. apply path_walk in Hp as [n Hn']. destruct (Hmin v n Hn') as [d [Hd _]].
      exists d. split; [assumption|]. split; [now apply (bi_walk Hi)|].
      intros d' Hd'. destruct (Hmin v d' Hd') as [d2 [Hd2 Hle]].
      rewrite Hd in Hd2. inversion Hd2. lia.
Qed.

Local Close Scope nat_scope.

(** * Containment indices as quotients of counts *)

Lemma count_nonzero_nonneg : forall r, 0 <= count_nonzero r.
Proof. intro r. unfold count_nonzero. lia. Qed.

Lemma both_filter_sym : forall a b : list bool,
  length (filter (fun p => fst p && snd p) (combine a b))
  = length (filter (fun p => fst p && snd p) (combine b a)).
Proof.
  induction a as [|x a IH]; intros [|y b]; simpl; try reflexivity.
  rewrite (andb_comm y x). destruct (x && y); simpl; now rewrite IH.
Qed.

Lemma both_filter_le : forall a b : list bool,
  (length (filter (fun p => fst p && snd p) (combine a b))
   <= length (filter (fun x => x) a))%nat.
Proof.
  induction a as [|x a IH]; intros [|y b]; cbn [combine filter length]; try lia.
  specialize (IH b). cbn [fst snd].
  destruct x, y; cbn [andb length]; lia.
Qed.

Lemma both_count_sym : forall a b, both_count a b = both_count b a.
Proof. intros a b. unfold both_count. now rewrite both_filter_sym. Qed.

Lemma both_count_le : forall a b, 0 <= both_count a b <= count_nonzero a.
Proof.
  intros a b. unfold both_count, count_nonzero.
  pose proof (both_filter_le a b). lia.
Qed.

Lemma inter_sym : forall L i j, inter L i j = inter L j i.
Proof. intros. apply both_count_sym. Qed.

Lemma inter_le : forall L i j, 0 <= inter L i j <= size L i.
Proof. intros. apply both_count_le. Qed.

Lemma CI_entry : forall L i j,
  0 <= i < Z.of_nat (length L) -> 0 <= j < Z.of_nat (length L) ->
  at2 (CI L) i j = (inject_Z (inter L i j) / inject_Z (size L i))%Q.
Proof.
  intros L i j Hi Hj. unfold at2, CI. rewrite containment_entry by lia. reflexivity.
Qed.

Lemma Qdiv_counts : forall b s, 0 < s -> (inject_Z b / inject_Z s == b # Z.to_pos s)%Q.
Proof.
  intros b s Hs. rewrite Qmake_Qdiv. rewrite Z2Pos.id by assumption. reflexivity.
Qed.

Lemma Qdiv_zero_count : forall b, (inject_Z b / inject_Z 0 == 0)%Q.
Proof. intro b. unfold Qdiv. simpl. unfold Qinv. simpl. apply Qmult_0_r. Qed.

(** A quotient of counts above a positive cutoff has positive counts. *)
Lemma quotient_above_cutoff : forall c b s,
  (0 < c)%Q -> 0 <= b -> 0 <= s -> (c <= inject_Z b / inject_Z s)%Q -> 0 < b /\ 0 < s.
Proof.
  intros c b s Hc Hb Hs H.
  assert (0 < inject_Z b / inject_Z s)%Q as Hpos by (eapply Qlt_le_trans; eassumption).
  destruct (Z.eq_dec s 0) as [->|Hs0].
  { rewrite Qdiv_zero_count in Hpos. discriminate. }
  assert (0 < s) as Hs' by lia. split; [|assumption].
  rewrite Qdiv_counts in Hpos by assumption.
  unfold Qlt in Hpos. simpl in Hpos. lia.
Qed.

Lemma quotient_lt : forall b s1 s2, 0 < b -> 0 < s1 -> 0 < s2 ->
  ((inject_Z b / inject_Z s1 < inject_Z b / inject_Z s2)%Q <-> s2 < s1).
Proof.
  intros b s1 s2 Hb H1 H2. rewrite !Qdiv_counts by assumption.
  unfold Qlt. simpl. rewrite !Z2Pos.id by assumption. nia.
Qed.

Lemma quotient_le : forall b s1 s2, 0 < b -> 0 < s1 -> 0 < s2 ->
  ((inject_Z b / inject_Z s1 <= inject_Z b / inject_Z s2)%Q <-> s2 <= s1).
Proof.
  intros b s1 s2 Hb H1 H2. rewrite !Qdiv_counts by assumption.
  unfold Qle. simpl. rewrite !Z2Pos.id by assumption. nia.
Qed.

Lemma Qgtb_lt : forall a b, Qgtb a b = true <-> (b < a)%Q.
Proof.
  intros a b. unfold Qgtb. rewrite negb_true_iff. split.
  - intro H. apply Qnot_le_lt. intro Hle. apply Qle_bool_iff in Hle. congruence.
  - intro H. destruct (Qle_bool a b) eqn:E; [|reflexivity].
    apply Qle_bool_iff in E. exfalso. eapply Qlt_not_le; eassumption.
Qed.

Lemma Qgtb_false : forall a b, Qgtb a b = false <-> (a <= b)%Q.
Proof.
  intros a b. unfold Qgtb. rewrite negb_false_iff. apply Qle_bool_iff.
Qed.

(** * The pairs of the first loop *)

Lemma pair_eq_dec : forall p q : Z * Z, {p = q} + {p <> q}.
Proof. decide equality; apply Z.eq_dec. Qed.

Lemma In_range : forall n x, In x (range n) <-> 0 <= x < Z.of_nat n.
Proof.
  intros n x. unfold range. rewrite in_map_iff. split.
  - intros [k [<- Hk]]. apply in_seq in Hk. lia.
  - intro H. exists (Z.to_nat x). split; [lia|]. apply in_seq. lia.
Qed.

Lemma range_sorted : forall n, StronglySorted Z.lt (range n).
Proof.
  intro n. unfold range. generalize 0%nat as s.
  induction n as [|n IH]; intro s; simpl; constructor; [apply IH|].
  apply Forall_forall. intros x Hx. apply in_map_iff in Hx as [k [<- Hk]].
  apply in_seq in Hk. lia.
Qed.

Lemma In_iproduct : forall rng i j, In (i, j) (iproduct rng) <-> In i rng /\ In j rng.
Proof.
  intros rng i j. unfold iproduct. rewrite in_flat_map. split.
  - intros [x [Hx H]]. apply in_map_iff in H as [y [E Hy]]. inversion E; subst. auto.
  - intros [Hi Hj]. exists i. split; [assumption|]. apply in_map_iff. eauto.
Qed.

Lemma sorted_map_pair : forall i rng, StronglySorted Z.lt rng ->
  StronglySorted lt2 (map (fun j => (i, j)) rng).
Proof.
  intros i rng H. induction H as [|x l Hl IH Hx]; simpl; constructor; [assumption|].
  apply Forall_forall. intros p Hp. apply in_map_iff in Hp as [y [<- Hy]].
  right. simpl. split; [reflexivity|]. rewrite Forall_forall in Hx. now apply Hx.
Qed.

Lemma sorted_app : forall (l1 l2 : list (Z * Z)),
  StronglySorted lt2 l1 -> StronglySorted lt2 l2 ->
  (forall p q, In p l1 -> In q l2 -> lt2 p q) -> StronglySorted lt2 (l1 ++ l2).
Proof.
  intros l1 l2 H1 H2 H. induction H1 as [|x l Hl IH Hx]; simpl; [assumption|].
  constructor.
  - apply IH. intros p q Hp Hq. apply H; [now right|assumption].
  - apply Forall_app. split; [assumption|].
    apply Forall_forall. intros q Hq. apply H; [now left|assumption].
Qed.

Lemma iproduct_sorted : forall rng' rng, StronglySorted Z.lt rng' ->
  StronglySorted Z.lt rng ->
  StronglySorted lt2 (flat_map (fun i => map (fun j => (i, j)) rng) rng').
Proof.
  intros rng' rng H' H. induction H' as [|x l Hl IH Hx]; simpl; [constructor|].
  apply sorted_app; [now apply sorted_map_pair|assumption|].
  intros p q Hp Hq. apply in_map_iff in Hp as [y [<- Hy]].
  apply in_flat_map in Hq as [z [Hz Hq]]. apply in_map_iff in Hq as [y' [<- Hy']].
  left. simpl. rewrite Forall_forall in Hx. now apply Hx.
Qed.

Lemma sorted_filter : forall (f : Z * Z -> bool) l,
  StronglySorted lt2 l -> StronglySorted lt2 (filter f l).
Proof.
  intros f l H. induction H as [|x l Hl IH Hx]; simpl; [constructor|].
  destruct (f x); [|assumption]. constructor; [assumption|].
  apply Forall_forall. intros p Hp. apply filter_In in Hp as [Hp _].
  rewrite Forall_forall in Hx. now apply Hx.
Qed.

Lemma gen_sorted : forall L levels assume, StronglySorted lt2 (gen L levels assume).
Proof.
  intros. unfold gen. apply sorted_filter. apply iproduct_sorted; apply range_sorted.
Qed.

Lemma lt2_irrefl : forall p, ~ lt2 p p.
Proof. intros p [H|[_ H]]; lia. Qed.

Lemma sorted_split : forall l1 x l2, StronglySorted lt2 (l1 ++ x :: l2) ->
  (forall p, In p l1 -> lt2 p x) /\ (forall q, In q l2 -> lt2 x q) /\
  ~ In x l1 /\ ~ In x l2.
Proof.
  induction l1 as [|a l1 IH]; simpl; intros x l2 H.
  - inversion H as [|? ? Hl Hx]; subst. rewrite Forall_forall in Hx.
    split; [intros p []|]. split; [assumption|]. split; [tauto|].
    intro Hin. apply Hx in Hin. now apply lt2_irrefl in Hin.
  - inversion H as [|? ? Hl Ha]; subst. rewrite Forall_forall in Ha.
    destruct (IH x l2 Hl) as (H1 & H2 & H3 & H4).
    split; [|split; [assumption|split; [|assumption]]].
    + intros p [<-|Hp]; [|now apply H1]. apply Ha. apply in_app_iff. right. now left.
    + intros [->|Hin]; [|contradiction].
      assert (lt2 x x) as Hxx by (apply Ha; apply in_app_iff; right; now left).
      now apply lt2_irrefl in Hxx.
Qed.

Lemma In_gen : forall L levels assume i j,
  In (i, j) (gen L levels assume) <->
  0 <= i < Z.of_nat (length L) /\ 0 <= j < Z.of_nat (length L) /\
  (if assume then nthZ levels j 0 < nthZ levels i 0 else i <> j).
Proof.
  intros L levels assume i j. unfold gen, n_sets.
  rewrite filter_In, In_iproduct, !In_range. cbn [fst snd].
  destruct assume.
  - rewrite Z.ltb_lt. tauto.
  - rewrite negb_true_iff, Z.eqb_neq. tauto.
Qed.

(** * Ranks *)

Lemma max_list_nonneg : forall l, 0 <= max_list l.
Proof. induction l as [|x l IH]; simpl; lia. Qed.

Lemma max_list_ge : forall l x, In x l -> x <= max_list l.
Proof.
  induction l as [|y l IH]; simpl; intros x H; [contradiction|].
  destruct H as [->|H]; [lia|]. apply IH in H. lia.
Qed.

Lemma nthZ_le_max : forall l i, nthZ l i 0 <= max_list l.
Proof.
  intros l i. unfold nthZ. destruct (nth_in_or_default (Z.to_nat i) l 0) as [H|H].
  - now apply max_list_ge.
  - rewrite H. apply max_list_nonneg.
Qed.

Lemma size_nonneg : forall L i, 0 <= size L i.
Proof. intros. apply count_nonzero_nonneg. Qed.

Section Ranks.

Variable L : list (list bool).
Variable levels : list Z.
Variable assume : bool.

Let N := Z.of_nat (length L).
Let rk := rank L levels assume.
Let crk := cluster_rank L levels assume.

Lemma cluster_rank_pos : forall i, 0 <= i -> 1 <= crk i.
Proof.
  intros i Hi. unfold crk, cluster_rank. destruct assume.
  - pose proof (nthZ_le_max levels i). lia.
  - pose proof (size_nonneg L i). nia.
Qed.

Lemma cluster_rank_top : forall i, 0 <= i < N -> crk i < top_rank L levels assume.
Proof.
  intros i Hi. unfold top_rank.
  assert (crk i <= max_list (map (cluster_rank L levels assume) (range (length L)))).
  { apply max_list_ge. apply in_map_iff. exists i. split; [reflexivity|]. now apply In_range. }
  lia.
Qed.

Lemma rank_cluster : forall i k, 0 <= i -> rk (Internal i k) = crk i.
Proof.
  intros i k Hi. unfold rk, rank. destruct (i <? 0) eqn:E; [|reflexivity].
  apply Z.ltb_lt in E. lia.
Qed.

Lemma rank_root : forall k, rk (Internal (-1) k) = top_rank L levels assume.
Proof. reflexivity. Qed.

Lemma rank_internal_pos : forall n, istuple n = true -> 1 <= rk n.
Proof.
  intros [i k|t] H; [|discriminate]. unfold rk, rank. destruct (i <? 0) eqn:E.
  - unfold top_rank. pose proof (max_list_nonneg (map (cluster_rank L levels assume) (range (length L)))). lia.
  - apply Z.ltb_ge in E. now apply cluster_rank_pos.
Qed.

Lemma rank_size_lt : forall i j, assume = false -> 0 <= i < N -> 0 <= j < N ->
  size L i < size L j -> crk i < crk j.
Proof.
  intros i j Ha Hi Hj H. unfold crk, cluster_rank. rewrite Ha. fold N. nia.
Qed.

Lemma rank_index_lt : forall i j, assume = false -> 0 <= i < N -> 0 <= j < N ->
  size L i = size L j -> i < j -> crk i < crk j.
Proof.
  intros i j Ha Hi Hj H Hlt. unfold crk, cluster_rank. rewrite Ha, H. lia.
Qed.

Lemma rank_not_lt : forall i j, assume = false -> 0 <= i < N -> 0 <= j < N ->
  i < j -> ~ crk i < crk j -> size L j < size L i.
Proof.
  intros i j Ha Hi Hj Hlt Hn.
  destruct (Z_lt_le_dec (size L j) (size L i)) as [|Hle]; [assumption|exfalso].
  apply Hn. destruct (Z.eq_dec (size L i) (size L j)) as [E|Hne].
  - now apply rank_index_lt.
  - apply rank_size_lt; auto. lia.
Qed.

Lemma rank_level_lt : forall i j, assume = true ->
  nthZ levels j 0 < nthZ levels i 0 -> crk i < crk j.
Proof.
  intros i j Ha H. unfold crk, cluster_rank. rewrite Ha. lia.
Qed.

End Ranks.

(** * The first loop keeps its invariant *)

Lemma init_step_nodes : forall L levels labels cutoff G i j n,
  In n (nodes (init_step L levels labels cutoff G (i, j))) ->
  In n (nodes G) \/ n = Internal i 0 \/ n = Internal j 0.
Proof.
  intros L levels labels cutoff G i j n. unfold init_step. cbn [fst snd].
  set (G1 := if has_node G (Internal i 0) then G else _).
  set (G2 := if has_node G1 (Internal j 0) then G1 else _).
  assert (forall x, In x (nodes G1) -> In x (nodes G) \/ x = Internal i 0) as H1.
  { intros x. unfold G1. destruct (has_node G _); [auto|]. apply nodes_add_node. }
  assert (forall x, In x (nodes G2) -> In x (nodes G) \/ x = Internal i 0 \/ x = Internal j 0) as H2.
  { intros x. unfold G2. destruct (has_node G1 _).
    - intro H. apply H1 in H. tauto.
    - intro H. apply nodes_add_node in H as [H|H]; [apply H1 in H|]; tauto. }
  destruct (Qle_bool _ _); [|apply H2].
  destruct (lookup_edge _ _).
  - destruct (Qgtb _ _); [|apply H2].
    intro H. apply nodes_add_edge in H as [H|H]; [now apply H2|tauto].
  - intro H. apply nodes_add_edge in H as [H|H]; [now apply H2|tauto].
Qed.

Section InitLoop.

Variable L : list (list bool).
Variable levels labels : list Z.
Variable assume : bool.
Variable cutoff : Q.
Hypothesis Hcut : assume = true \/ (0 < cutoff)%Q.

Let N := Z.of_nat (length L).
Let rk := rank L levels assume.

Lemma CI_counts_pos : forall i j, assume = false ->
  0 <= i < N -> 0 <= j < N -> (cutoff <= at2 (CI L) i j)%Q ->
  0 < inter L i j /\ 0 < size L i.
Proof.
  intros i j Ha Hi Hj H. destruct Hcut as [Hc|Hc]; [congruence|].
  rewrite CI_entry in H by assumption.
  apply (quotient_above_cutoff cutoff); try assumption.
  - apply inter_le.
  - apply size_nonneg.
Qed.

(** A pair above the cutoff whose first cluster is the larger: the pair
    the other way round is strictly higher. *)
Lemma CI_flip : forall i j, assume = false ->
  0 <= i < N -> 0 <= j < N -> (cutoff <= at2 (CI L) j i)%Q ->
  size L i < size L j -> (at2 (CI L) j i < at2 (CI L) i j)%Q.
Proof.
  intros i j Ha Hi Hj Hc Hlt.
  destruct (CI_counts_pos j i Ha Hj Hi Hc) as [Hb Hs].
  assert (0 < size L i) as Hsi.
  { pose proof (inter_le L i j). rewrite (inter_sym L j i) in Hb. lia. }
  rewrite !CI_entry by assumption. rewrite (inter_sym L j i).
  apply quotient_lt; try assumption. now rewrite inter_sym.
Qed.

Lemma CI_lt_size : forall i j, assume = false ->
  0 <= i < N -> 0 <= j < N ->
  (cutoff <= at2 (CI L) j i)%Q -> (cutoff <= at2 (CI L) i j)%Q ->
  (at2 (CI L) j i < at2 (CI L) i j)%Q -> size L i < size L j.
Proof.
  intros i j Ha Hi Hj Hc1 Hc2 Hlt.
  destruct (CI_counts_pos j i Ha Hj Hi Hc1) as [Hb Hsj].
  destruct (CI_counts_pos i j Ha Hi Hj Hc2) as [_ Hsi].
  rewrite !CI_entry in Hlt by assumption. rewrite (inter_sym L j i) in Hlt.
  apply quotient_lt in Hlt; try assumption. now rewrite inter_sym.
Qed.

Lemma CI_le_size : forall i j, assume = false ->
  0 <= i < N -> 0 <= j < N ->
  (cutoff <= at2 (CI L) i j)%Q -> size L j <= size L i ->
  (cutoff <= at2 (CI L) j i)%Q.
Proof.
  intros i j Ha Hi Hj Hc Hle.
  destruct (CI_counts_pos i j Ha Hi Hj Hc) as [Hb Hsi].
  assert (0 < size L j) as Hsj.
  { pose proof (inter_le L j i). rewrite (inter_sym L j i) in H. lia. }
  eapply Qle_trans; [exact Hc|].
  rewrite !CI_entry by assumption. rewrite (inter_sym L j i).
  apply quotient_le; assumption.
Qed.

End InitLoop.

Section InitStep.

Variable L : list (list bool).
Variable levels labels : list Z.
Variable assume : bool.
Variable cutoff : Q.
Hypothesis Hcut : assume = true \/ (0 < cutoff)%Q.

Let N := Z.of_nat (length L).
Let rk := rank L levels assume.

Variable done rest : list (Z * Z).
Variable i j : Z.
Hypothesis Hgen : gen L levels assume = done ++ (i, j) :: rest.
Variable G : DiGraph.
Hypothesis Hinv : init_inv L levels assume cutoff done ((i, j) :: rest) G.

Let na := Internal i 0.
Let nb := Internal j 0.
Let C := at2 (CI L) i j.

Lemma step_pair : 0 <= i < N /\ 0 <= j < N /\ i <> j /\
  (assume = true -> nthZ levels j 0 < nthZ levels i 0).
Proof.
  assert (In (i, j) (gen L levels assume)) as H
    by (rewrite Hgen; apply in_app_iff; right; now left).
  apply In_gen in H as (Hi & Hj & Hc). fold N in Hi, Hj.
  split; [assumption|]. split; [assumption|].
  destruct (bool_dec assume true) as [Ea|Ea].
  - rewrite Ea in Hc. split; [|auto]. intro E. subst. lia.
  - apply not_true_is_false in Ea. rewrite Ea in Hc. split; [assumption|congruence].
Qed.

Lemma step_order :
  (forall p, In p done -> lt2 p (i, j)) /\ (forall q, In q rest -> lt2 (i, j) q) /\
  ~ In (i, j) done /\ ~ In (i, j) rest.
Proof.
  apply sorted_split. rewrite <- Hgen. apply gen_sorted.
Qed.

Lemma step_edge_origin : forall a b,
  In (Internal a 0, Internal b 0) (edges G) ->
  In (b, a) done /\ lookup_edge (g_edges G) (Internal a 0, Internal b 0) = Some (at2 (CI L) b a) /\
  (cutoff <= at2 (CI L) b a)%Q /\
  (rk (Internal b 0) < rk (Internal a 0) \/
   (assume = false /\ In (a, b) ((i, j) :: rest) /\ size L a < size L b)).
Proof.
  intros a b H. destruct (ii_edge Hinv _ _ H) as (i0 & j0 & Eu & Ev & Hd & Hl & Hc & Hr).
  inversion Eu; inversion Ev; subst. auto.
Qed.

Lemma step_no_new_edge : ~ In (nb, na) (edges G).
Proof.
  intro H. apply step_edge_origin in H as [H _]. now apply step_order in H.
Qed.

Lemma step_done_range : forall a b, In (a, b) done -> 0 <= a < N /\ 0 <= b < N.
Proof.
  intros a b H. assert (In (a, b) (gen L levels assume)) as Hg
    by (rewrite Hgen; apply in_app_iff; now left).
  apply In_gen in Hg. tauto.
Qed.

(** The new edge goes down in rank, or the pair the other way round is
    still to come and will turn it. *)
Lemma step_new_edge_rank :
  (cutoff <= C)%Q ->
  (forall C0, lookup_edge (g_edges G) (na, nb) = Some C0 -> (C0 < C)%Q) ->
  rk na < rk nb \/ (assume = false /\ In (j, i) rest /\ size L j < size L i).
Proof.
  intros HC Hrev. destruct step_pair as (Hi & Hj & Hij & Hlev).
  destruct step_order as (Hbefore & Hafter & Hnd & Hnr).
  unfold rk, na, nb. rewrite !rank_cluster by lia.
  destruct (bool_dec assume true) as [Ea|Ea].
  { left. apply rank_level_lt; auto. }
  apply not_true_is_false in Ea.
  destruct (in_dec pair_eq_dec (j, i) rest) as [Hin|Hnin].
  - (* the pair the other way round is still to come *)
    assert (i < j) as Hlt.
    { apply Hafter in Hin. destruct Hin as [H|[H1 H2]]; simpl in *; lia. }
    destruct (Z_lt_le_dec (cluster_rank L levels assume i) (cluster_rank L levels assume j))
      as [H|H]; [now left|right].
    split; [assumption|]. split; [assumption|].
    apply (rank_not_lt L levels assume); auto. lia.
  - (* the pair the other way round has been seen *)
    left. assert (In (j, i) done) as Hd.
    { assert (In (j, i) (gen L levels assume)) as Hg.
      { apply In_gen. fold N. rewrite Ea. repeat split; try lia. }
      rewrite Hgen in Hg. apply in_app_iff in Hg as [Hg|[Hg|Hg]]; [assumption| |contradiction].
      inversion Hg. lia. }
    destruct (Z_lt_le_dec (size L i) (size L j)) as [Hs|Hs].
    { now apply (rank_size_lt L levels assume). }
    exfalso.
    assert (cutoff <= at2 (CI L) j i)%Q as Hc' by (apply CI_le_size with (assume := assume); auto).
    destruct (ii_done Hinv j i Hd Hc') as [He|He].
    + (* the edge (i,0) -> (j,0) is there, so it is strictly lighter *)
      destruct (step_edge_origin _ _ He) as (_ & Hl & _ & _).
      fold na nb in Hl. specialize (Hrev _ Hl). fold C in Hrev.
      assert (size L i < size L j) as Hlt; [|lia].
      apply CI_lt_size with (assume := assume) (cutoff := cutoff); auto.
    + now apply step_no_new_edge in He.
Qed.

Lemma step_old_edge : forall a b G',
  In (Internal a 0, Internal b 0) (edges G) ->
  lookup_edge (g_edges G') (Internal a 0, Internal b 0)
  = lookup_edge (g_edges G) (Internal a 0, Internal b 0) ->
  ((a, b) = (i, j) -> assume = false -> size L i < size L j -> False) ->
  exists i0 j0, Internal a 0 = Internal j0 0 /\ Internal b 0 = Internal i0 0 /\
    In (i0, j0) (done ++ [(i, j)]) /\
    lookup_edge (g_edges G') (Internal a 0, Internal b 0) = Some (at2 (CI L) i0 j0) /\
    (cutoff <= at2 (CI L) i0 j0)%Q /\
    (rank L levels assume (Internal b 0) < rank L levels assume (Internal a 0) \/
     (assume = false /\ In (j0, i0) rest /\ size L j0 < size L i0)).
Proof.
  intros a b G' He Hl Hno.
  destruct (step_edge_origin a b He) as (Hd & Hl0 & Hc & Hr).
  exists b, a. split; [reflexivity|]. split; [reflexivity|].
  split; [apply in_app_iff; now left|]. split; [now rewrite Hl|]. split; [assumption|].
  destruct Hr as [Hr|(Ha & [E|Hin] & Hs)]; [now left| |right; auto].
  exfalso. inversion E; subst. apply Hno; auto.
Qed.

Lemma step_edge_shape : forall u v, In (u, v) (edges G) ->
  exists a b, u = Internal a 0 /\ v = Internal b 0.
Proof.
  intros u v H. destruct (ii_edge Hinv _ _ H) as (i0 & j0 & Eu & Ev & _). eauto.
Qed.

(** The edge the other way round, when it stays in the graph, is not one
    that waited for this pair. *)
Lemma step_kept_not_pending : forall C0,
  lookup_edge (g_edges G) (na, nb) = Some C0 -> (C <= C0)%Q ->
  size L i < size L j -> assume = false -> False.
Proof.
  intros C0 Hl Hle Hs Ha. destruct step_pair as (Hi & Hj & Hij & _).
  assert (In (na, nb) (edges G)) as He.
  { apply lookup_edge_In. eauto. }
  destruct (step_edge_origin i j He) as (_ & Hl0 & Hc & _).
  fold na nb in Hl0. rewrite Hl in Hl0. inversion Hl0; subst C0.
  assert (at2 (CI L) j i < at2 (CI L) i j)%Q as Hlt
    by (apply CI_flip with (assume := assume) (cutoff := cutoff); auto).
  fold C in Hlt. eapply Qlt_not_le; eassumption.
Qed.

Lemma step_below_not_pending :
  In (na, nb) (edges G) -> ~ (cutoff <= C)%Q ->
  size L i < size L j -> assume = false -> False.
Proof.
  intros He Hn Hs Ha. destruct step_pair as (Hi & Hj & Hij & _).
  destruct (step_edge_origin i j He) as (_ & _ & Hc & _).
  assert (at2 (CI L) j i < at2 (CI L) i j)%Q as Hlt
    by (apply CI_flip with (assume := assume) (cutoff := cutoff); auto).
  apply Hn. fold C in Hlt. apply Qlt_le_weak. eapply Qle_lt_trans; eassumption.
Qed.

Lemma init_step_inv :
  init_inv L levels assume cutoff (done ++ [(i, j)]) rest
           (init_step L levels labels cutoff G (i, j)).
Proof.
  destruct step_pair as (Hi & Hj & Hij & Hlev).
  destruct step_order as (_ & _ & Hnd & _).
  assert (na <> nb) as Hn by (unfold na, nb; intro E; inversion E; contradiction).
  assert ((na, nb) <> (nb, na)) as Hne by (intro E; inversion E; contradiction).
  pose proof (cluster_init_step L levels labels cutoff G (i, j) (ii_cluster Hinv)) as Hcl.
  assert (forall n, In n (nodes (init_step L levels labels cutoff G (i, j))) ->
            exists i0, n = Internal i0 0 /\ 0 <= i0 < Z.of_nat (length L)) as Hidx.
  { intros n H. apply init_step_nodes in H as [H|[->| ->]]; [now apply (ii_index Hinv)| |]; eauto. }
  cut ((forall u v, In (u, v) (edges (init_step L levels labels cutoff G (i, j))) ->
          exists i0 j0, u = Internal j0 0 /\ v = Internal i0 0 /\ In (i0, j0) (done ++ [(i, j)]) /\
            lookup_edge (g_edges (init_step L levels labels cutoff G (i, j))) (u, v)
            = Some (at2 (CI L) i0 j0) /\
            (cutoff <= at2 (CI L) i0 j0)%Q /\
            (rank L levels assume v < rank L levels assume u \/
             (assume = false /\ In (j0, i0) rest /\ size L j0 < size L i0))) /\
       (forall a b, In (a, b) (done ++ [(i, j)]) -> (cutoff <= at2 (CI L) a b)%Q ->
          In (Internal b 0, Internal a 0) (edges (init_step L levels labels cutoff G (i, j))) \/
          In (Internal a 0, Internal b 0) (edges (init_step L levels labels cutoff G (i, j))))).
  { intros [He Hd]. constructor; auto; apply Hcl. }
  clear Hcl Hidx. unfold init_step. cbn [fst snd]. fold na nb C.
  set (G1 := if has_node G na then G else add_node G na (cluster_attrs levels labels i)).
  set (G2 := if has_node G1 nb then G1 else add_node G1 nb (cluster_attrs levels labels j)).
  assert (g_edges G2 = g_edges G) as E2.
  { unfold G2, G1.
    destruct (has_node G na); destruct (has_node _ nb); rewrite ?edges_add_node; reflexivity. }
  assert (edges G2 = edges G) as E2' by (unfold edges; now rewrite E2).
  assert (forall a b, In (a, b) done -> (cutoff <= at2 (CI L) a b)%Q ->
            In (Internal b 0, Internal a 0) (edges G) \/
            In (Internal a 0, Internal b 0) (edges G)) as Hdone by apply (ii_done Hinv).
  destruct (Qle_bool cutoff C) eqn:HC.
  - apply Qle_bool_iff in HC.
    destruct (lookup_edge (g_edges G2) (na, nb)) as [C0|] eqn:Hl; rewrite E2 in Hl.
    + assert (In (na, nb) (edges G)) as Hrev by (apply lookup_edge_In; eauto).
      destruct (Qgtb C C0) eqn:Hg.
      * (* the edge the other way round is lighter: it goes, the new one comes *)
        apply Qgtb_lt in Hg.
        assert (forall e, In e (edges (add_edge (remove_edges_from G2 [(na, nb)]) nb na C)) <->
                  (In e (edges G) /\ e <> (na, nb)) \/ e = (nb, na)) as Hedges.
        { intro e. rewrite edges_add_edge, edges_remove_edges_from, E2'. simpl.
          split.
          - intros [[H1 H2]|H]; [left|now right]. split; [assumption|].
            intro E. apply H2. now left.
          - intros [[H1 H2]|H]; [left|now right]. split; [assumption|].
            intros [E|[]]. apply H2. now symmetry. }
        split.
        -- intros u v H. apply Hedges in H as [[H Hneq]| H].
           ++ destruct (step_edge_shape u v H) as (a & b & -> & ->).
              apply step_old_edge; [assumption| |].
              ** rewrite lookup_add_edge_other.
                 2:{ intro E. rewrite E in H. now apply step_no_new_edge in H. }
                 rewrite lookup_remove_edges_from, E2.
                 assert (emem (Internal a 0, Internal b 0) [(na, nb)] = false) as Em.
                 { apply emem_false. intros [E|[]]. apply Hneq. auto. }
                 now rewrite Em.
              ** intros E _ _. apply Hneq. inversion E. reflexivity.
           ++ inversion H; subst u v. exists i, j.
              split; [reflexivity|]. split; [reflexivity|].
              split; [apply in_app_iff; right; now left|].
              split; [apply lookup_add_edge_same|]. split; [exact HC|].
              apply step_new_edge_rank; [exact HC|].
              intros C0' Hl'. rewrite Hl in Hl'. inversion Hl'; subst. exact Hg.
        -- intros a b Hab Hc. apply in_app_iff in Hab as [Hab|[E|[]]].
           ++ destruct (edge_eq_dec (Internal b 0, Internal a 0) (na, nb)) as [E1|N1].
              { right. apply Hedges. right. inversion E1; subst. reflexivity. }
              destruct (edge_eq_dec (Internal a 0, Internal b 0) (na, nb)) as [E3|N3].
              { exfalso. inversion E3; subst. contradiction. }
              destruct (Hdone a b Hab Hc) as [H|H]; [left|right]; apply Hedges; left; auto.
           ++ inversion E; subst a b. left. apply Hedges. now right.
      * (* the edge the other way round is not lighter: nothing changes *)
        apply Qgtb_false in Hg. rewrite E2'. split.
        -- intros u v H. destruct (step_edge_shape u v H) as (a & b & -> & ->).
           apply step_old_edge; [assumption|now rewrite E2|].
           intros E Ha Hs. eapply step_kept_not_pending; eassumption.
        -- intros a b Hab Hc. apply in_app_iff in Hab as [Hab|[E|[]]]; [now apply Hdone|].
           inversion E; subst a b. right. exact Hrev.
    + (* no edge the other way round: the new one comes *)
      assert (~ In (na, nb) (edges G)) as Hrev by now apply lookup_edge_None.
      assert (forall e, In e (edges (add_edge G2 nb na C)) <-> In e (edges G) \/ e = (nb, na))
        as Hedges by (intro e; now rewrite edges_add_edge, E2').
      split.
      * intros u v H. apply Hedges in H as [H|H].
        -- destruct (step_edge_shape u v H) as (a & b & -> & ->).
           apply step_old_edge; [assumption| |].
           ++ rewrite lookup_add_edge_other, E2; [reflexivity|].
              intro E. rewrite E in H. now apply step_no_new_edge in H.
           ++ intros E _ _. apply Hrev. inversion E; subst. exact H.
        -- inversion H; subst u v. exists i, j.
           split; [reflexivity|]. split; [reflexivity|].
           split; [apply in_app_iff; right; now left|].
           split; [apply lookup_add_edge_same|]. split; [exact HC|].
           apply step_new_edge_rank; [exact HC|].
           intros C0' Hl'. rewrite Hl in Hl'. discriminate.
      * intros a b Hab Hc. apply in_app_iff in Hab as [Hab|[E|[]]].
        -- destruct (Hdone a b Hab Hc) as [H|H]; [left|right]; apply Hedges; now left.
        -- inversion E; subst a b. left. apply Hedges. now right.
  - (* below the cutoff: nothing changes *)
    assert (~ (cutoff <= C)%Q) as HC'.
    { intro H. apply Qle_bool_iff in H. congruence. }
    rewrite E2'. split.
    + intros u v H. destruct (step_edge_shape u v H) as (a & b & -> & ->).
      apply step_old_edge; [assumption|now rewrite E2|].
      intros E Ha Hs. inversion E; subst a b. eapply step_below_not_pending; eassumption.
    + intros a b Hab Hc. apply in_app_iff in Hab as [Hab|[E|[]]]; [now apply Hdone|].
      inversion E; subst a b. contradiction.
Qed.

End InitStep.

(** * The candidate graph goes down in rank and has one root *)

Section Candidate.

Variable L : list (list bool).
Variable levels labels : list Z.
Variable assume : bool.
Variable cutoff : Q.
Hypothesis Hcut : assume = true \/ (0 < cutoff)%Q.

Let N := Z.of_nat (length L).
Let rk := rank L levels assume.

Lemma init_inv_start : init_inv L levels assume cutoff [] (gen L levels assume) empty_graph.
Proof.
  constructor; simpl; try contradiction.
  - split; [apply wf_empty|]. split; [intros n []|intros n a []].
  - intros n a [].
Qed.

Lemma init_fold_inv : forall rest done G,
  gen L levels assume = done ++ rest ->
  init_inv L levels assume cutoff done rest G ->
  init_inv L levels assume cutoff (gen L levels assume) []
           (fold_left (init_step L levels labels cutoff) rest G).
Proof.
  induction rest as [|[i j] rest IH]; intros done G Hgen Hinv; simpl.
  - rewrite app_nil_r in Hgen. now rewrite Hgen.
  - apply IH with (done := done ++ [(i, j)]).
    + rewrite Hgen, <- app_assoc. reflexivity.
    + now apply init_step_inv.
Qed.

Lemma init_graph_inv :
  init_inv L levels assume cutoff (gen L levels assume) []
           (init_graph L levels labels assume cutoff).
Proof. unfold init_graph. apply init_fold_inv with (done := []); [reflexivity|apply init_inv_start]. Qed.

Lemma init_graph_ranked : ranked rk (init_graph L levels labels assume cutoff).
Proof.
  intros u v H. destruct (ii_edge init_graph_inv _ _ H) as (i & j & _ & _ & _ & _ & _ & Hr).
  destruct Hr as [Hr|(_ & [] & _)]. exact Hr.
Qed.

Lemma init_graph_index : forall n, In n (nodes (init_graph L levels labels assume cutoff)) ->
  exists i, n = Internal i 0 /\ 0 <= i < N.
Proof. apply (ii_index init_graph_inv). Qed.

(** ** The root *)

Lemma fold_add_root_edges : forall root roots G e,
  In e (edges (fold_left (fun G' n => add_edge G' root n 1) roots G)) <->
  In e (edges G) \/ exists n, In n roots /\ e = (root, n).
Proof.
  intros root. induction roots as [|x roots IH]; intros G e; simpl.
  - split; [auto|]. intros [H|[n [[] _]]]. assumption.
  - rewrite IH, edges_add_edge. split.
    + intros [[H|H]|[n [Hn H]]]; eauto.
    + intros [H|[n [[<-|Hn] H]]]; eauto.
Qed.

Lemma fold_add_root_nodes : forall root roots G,
  In root (nodes G) -> (forall n, In n roots -> In n (nodes G)) ->
  g_nodes (fold_left (fun G' n => add_edge G' root n 1) roots G) = g_nodes G.
Proof.
  intros root. induction roots as [|x roots IH]; intros G Hr Hn; simpl; [reflexivity|].
  assert (g_nodes (add_edge G root x 1) = g_nodes G) as E
    by (apply g_nodes_add_edge_same; [assumption|apply Hn; now left]).
  rewrite IH; [assumption| |]; unfold nodes; rewrite E; [assumption|].
  intros n H. apply Hn. now right.
Qed.

Lemma add_root_spec : forall G G1 root,
  cluster_graph G -> ranked rk G ->
  (forall n, In n (nodes G) -> exists i, n = Internal i 0 /\ 0 <= i < N) ->
  add_root G = Ok (G1, root) ->
  cluster_graph G1 /\ ranked rk G1 /\ rooted root G1 /\ In root (nodes G1).
Proof.
  intros G G1 root HG Hr Hidx Hadd.
  pose proof (cluster_add_root G G1 root HG Hadd) as HG1.
  split; [assumption|]. revert Hadd. unfold add_root.
  set (roots := filter (fun n => (in_degree G n =? 0)%nat) (nodes G)).
  assert (forall n, In n roots <-> In n (nodes G) /\ in_degree G n = 0%nat) as Hroots.
  { intro n. unfold roots. rewrite filter_In, Nat.eqb_eq. tauto. }
  assert (forall v, In v (nodes G) -> In v roots \/ exists p, In (p, v) (edges G)) as Hpar.
  { intros v Hv. destruct (in_degree G v) eqn:E; [left; apply Hroots; auto|right].
    unfold in_degree in E. destruct (predecessors G v) as [|p l] eqn:Ep; [discriminate|].
    exists p. apply In_predecessors. rewrite Ep. now left. }
  destruct (1 <? length roots)%nat eqn:Elen.
  - intro E. inversion E; subst G1 root. clear E.
    set (root := Internal (-1) 0).
    assert (~ In root (nodes G)) as Hnew.
    { intro H. apply Hidx in H as [i [E Hi]]. inversion E. lia. }
    assert (g_nodes (fold_left (fun G' n => add_edge G' root n 1) roots (add_node G root root_attrs))
            = g_nodes (add_node G root root_attrs)) as En.
    { apply fold_add_root_nodes.
      - apply nodes_add_node. now right.
      - intros n Hn. apply nodes_add_node. left. now apply Hroots in Hn. }
    assert (forall e, In e (edges (add_node G root root_attrs)) <-> In e (edges G)) as Ee
      by (intro e; unfold edges; now rewrite edges_add_node).
    split; [|split; [split|]].
    + intros u v H. apply fold_add_root_edges in H as [H|[n [Hn H]]].
      * apply Ee in H. now apply Hr.
      * inversion H; subst u v. apply Hroots in Hn as [Hn _].
        apply Hidx in Hn as [i [-> Hi]].
        assert (rk root = top_rank L levels assume) as -> by reflexivity.
        unfold rk. rewrite rank_cluster by lia.
        apply cluster_rank_top. exact Hi.
    + intros v Hv. unfold nodes in Hv. rewrite En in Hv.
      apply nodes_add_node in Hv as [Hv|Hv]; [|now left]. right.
      destruct (Hpar v Hv) as [Hin|[p Hp]].
      * exists root. apply fold_add_root_edges. right. eauto.
      * exists p. apply fold_add_root_edges. left. now apply Ee.
    + intros p H. apply fold_add_root_edges in H as [H|[n [Hn H]]].
      * apply Ee in H. apply Hnew. destruct HG as [Hw _]. now apply Hw in H.
      * inversion H; subst. apply Hroots in Hn as [Hn _]. contradiction.
    + unfold nodes. rewrite En. apply nodes_add_node. now right.
  - destruct roots as [|r roots'] eqn:Er; [discriminate|].
    intro E. inversion E; subst G1 root. clear E.
    assert (In r (r :: roots')) as Hin by now left.
    apply Hroots in Hin as [Hin Hdeg].
    split; [assumption|]. split; [split|assumption].
    + intros v Hv. destruct (Hpar v Hv) as [H|H]; [|now right].
      destruct H as [<-|H]; [now left|].
      apply Nat.ltb_ge in Elen. destruct roots'; [contradiction|simpl in Elen; lia].
    + now apply in_degree_zero.
Qed.

End Candidate.

(** ** Redundant edges *)

Lemma list_min_rank : forall (f : node -> Z) (l : list node), l <> [] ->
  exists m, In m l /\ forall x, In x l -> f m <= f x.
Proof.
  intros f. induction l as [|a l IH]; intro H; [contradiction|].
  destruct l as [|b l].
  - exists a. split; [now left|]. intros x [<-|[]]. lia.
  - destruct IH as [m [Hm Hmin]]; [discriminate|].
    destruct (Z_le_gt_dec (f a) (f m)) as [Hle|Hgt].
    + exists a. split; [now left|]. intros x [<-|Hx]; [lia|]. apply Hmin in Hx. lia.
    + exists m. split; [now right|]. intros x [<-|Hx]; [lia|]. now apply Hmin.
Qed.

Lemma In_redundant_edges : forall G a v, In (a, v) (redundant_edges G) ->
  In a (predecessors G v) /\ exists b, In b (ancestors G v) /\ has_edge G a b = true.
Proof.
  intros G a v H. unfold redundant_edges in H.
  apply in_flat_map in H as [n [Hn H]]. apply in_flat_map in H as [p [Hp H]].
  destruct (existsb _ _) eqn:E; [|contradiction].
  destruct H as [H|[]]. inversion H; subst p n. split; [assumption|].
  apply existsb_exists in E as [b [Hb E]]. exists b. split; [assumption|].
  now apply andb_true_iff in E as [_ E].
Qed.

Lemma remove_redundant_rooted : forall (rk : node -> Z) G r,
  wf_graph G -> ranked rk G -> rooted r G -> rooted r (remove_redundant G).
Proof.
  intros rk G r Hw Hr [Hpar Hroot]. split.
  - intros v Hv. destruct (Hpar v Hv) as [->|[p Hp]]; [now left|right].
    destruct (list_min_rank rk (predecessors G v)) as [m [Hm Hmin]].
    { apply In_predecessors in Hp. intro E. rewrite E in Hp. contradiction. }
    exists m. apply edges_remove_edges_from. split; [now apply In_predecessors|].
    intro Hred. apply In_redundant_edges in Hred as [_ [b [Hb He]]].
    apply In_ancestors in Hb as (_ & Hne & Hpath); [|assumption].
    apply has_edge_In in He. apply Hr in He.
    apply path_last in Hpath as [E|[x [Hbx Hxv]]]; [contradiction|].
    apply (path_rank G rk Hr) in Hbx.
    apply In_predecessors in Hxv. apply Hmin in Hxv. lia.
  - intros p H. apply edges_remove_edges_from in H as [H _]. now apply Hroot in H.
Qed.

Lemma remove_redundant_ranked : forall (rk : node -> Z) G,
  ranked rk G -> ranked rk (remove_redundant G).
Proof. intros rk G H u v He. apply edges_remove_edges_from in He as [He _]. now apply H. Qed.

(** ** After the attachment *)

Lemma attach_inv_props : forall (rk : node -> Z) G0 G r root,
  (forall n, istuple n = true -> 1 <= rk n) -> (forall t, rk (Terminal t) = 0) ->
  cluster_graph G0 -> ranked rk G0 -> rooted root G0 -> istuple root = true ->
  attach_inv G0 G r None ->
  wf_graph G /\ no_depth G /\ src_tuple G /\ ranked rk G /\ rooted root G.
Proof.
  intros rk G0 G r root Hpos Hzero HG0 Hr [Hpar Hroot] Ht Hi.
  split; [apply (ai_wf Hi)|]. split; [apply (ai_nodepth Hi)|].
  split; [exact (ai_src Hi)|]. split; [|split].
  - intros u v H. destruct v as [i k|t].
    + apply (ai_old Hi) in H; [|reflexivity]. now apply Hr.
    + rewrite Hzero. apply (ai_src Hi) in H. apply Hpos in H. lia.
  - intros v Hv. destruct v as [i k|t].
    + apply (ai_nodes Hi) in Hv; [|reflexivity].
      destruct (Hpar _ Hv) as [E|[p Hp]]; [now left|right].
      exists p. now apply (ai_old Hi).
    + right. pose proof (ai_some Hi t) as Hs.
      destruct (get_attached r t) as [|p l] eqn:E.
      * exfalso. apply Hs; [discriminate|assumption|reflexivity].
      * exists p. apply (ai_rec Hi). rewrite E. now left.
  - intros p H. apply (ai_old Hi) in H; [|assumption]. now apply Hroot in H.
Qed.

(** What [build_graph] gives: a graph that goes down in rank, with one
    root and with every edge out of a cluster. *)
Lemma build_graph_props : forall L levels labels assume terminals cutoff G root,
  assume = true \/ (0 < cutoff)%Q ->
  build_graph L levels labels assume terminals cutoff = Ok (G, root) ->
  wf_graph G /\ no_depth G /\ src_tuple G /\ ranked (rank L levels assume) G /\
  rooted root G /\ istuple root = true /\ In root (nodes G).
Proof.
  intros L levels labels assume terminals cutoff G root Hcut HB.
  apply build_graph_phases in HB as (G1 & E1 & E2).
  pose proof (init_graph_inv L levels labels assume cutoff Hcut) as Hinit.
  destruct (add_root_spec L levels assume cutoff Hcut _ G1 root (ii_cluster Hinit)
              (init_graph_ranked L levels labels assume cutoff Hcut)
              (ii_index Hinit) E1) as (HG1 & Hr1 & Hroot1 & Hin1).
  assert (cluster_graph (remove_redundant G1)) as HG0 by now apply cluster_remove_redundant.
  assert (istuple root = true) as Ht by (now apply HG1).
  destruct (attach_terminals_spec L terminals _ HG0) as (G' & r & E' & Hi & _).
  rewrite E2 in E'. inversion E'; subst G'.
  destruct (attach_inv_props (rank L levels assume) (remove_redundant G1) G r root)
    as (H1 & H2 & H3 & H4 & H5); try assumption.
  - apply rank_internal_pos.
  - reflexivity.
  - now apply remove_redundant_ranked.
  - apply remove_redundant_rooted with (rk := rank L levels assume); [apply HG1|assumption|assumption].
  - do 6 (split; [assumption|]).
    apply (ai_nodes Hi); [assumption|]. exact Hin1.
Qed.

(** * From the candidate graph to the hierarchy *)

Lemma hier_inv_drop : forall rk r T n,
  hier_inv rk r T -> out_degree T n = O -> hier_inv rk r (drop_node T n).
Proof.
  intros rk r T n Hi Hout. pose proof (proj1 (out_degree_zero T n) Hout) as Hno.
  destruct (hi_rooted Hi) as [Hpar Hroot]. constructor.
  - apply wf_drop_node, (hi_wf Hi).
  - apply no_depth_drop_node. exact (hi_nodepth Hi).
  - intros u v H. apply edges_drop_node in H as [H _]. exact (hi_src Hi u v H).
  - intros u v H. apply edges_drop_node in H as [H _]. exact (hi_ranked Hi u v H).
  - split.
    + intros v Hv. apply nodes_drop_node in Hv as [Hv Hne].
      destruct (Hpar v Hv) as [E|[p Hp]]; [now left|right].
      exists p. apply edges_drop_node. split; [assumption|]. split; [|assumption].
      intro E. subst p. now apply Hno in Hp.
    + intros p H. apply edges_drop_node in H as [H _]. now apply Hroot in H.
Qed.

Lemma hier_inv_collapse : forall rk r strict T n T',
  hier_inv rk r T -> _single_branch strict T n = true -> collapse T n = Ok T' ->
  hier_inv rk r T' /\ n <> r /\ forall x, In x (nodes T') <-> In x (nodes T) /\ x <> n.
Proof.
  intros rk r strict T n T' Hi Hsb Hc.
  destruct (single_branch_collapse strict T n (hi_wf Hi) Hsb)
    as (parent & T1 & Hp & Hpe & E & Hw1 & Hn1 & He).
  rewrite Hc in E. inversion E; subst T1. clear E.
  destruct (hi_rooted Hi) as [Hpar Hroot].
  assert (rk n < rk parent) as Hrk by exact (hi_ranked Hi _ _ Hpe).
  assert (forall x, In x (nodes T') <-> In x (nodes T) /\ x <> n) as Hnodes.
  { intro x. unfold nodes at 1. rewrite Hn1.
    change (map fst (filter (fun p => negb (node_eqb (fst p) n)) (g_nodes T)))
      with (nodes (drop_node T n)). apply nodes_drop_node. }
  split; [|split; [|exact Hnodes]].
  - constructor.
    + assumption.
    + intros x a Hin. rewrite Hn1 in Hin. apply filter_In in Hin as [Hin _].
      exact (hi_nodepth Hi x a Hin).
    + intros u v H. apply He in H as [[H|[-> H]] _].
      * exact (hi_src Hi u v H).
      * exact (hi_src Hi _ _ Hpe).
    + intros u v H. apply He in H as [[H|[-> H]] _].
      * exact (hi_ranked Hi u v H).
      * pose proof (hi_ranked Hi _ _ H). lia.
    + split.
      * intros v Hv. apply Hnodes in Hv as [Hv Hne].
        destruct (Hpar v Hv) as [E|[p Hp']]; [now left|right].
        destruct (node_eq_dec p n) as [->|Hpn].
        -- exists parent. apply He. split; [right; auto|]. split; [|assumption].
           intro E. subst parent. lia.
        -- exists p. apply He. auto.
      * intros p H. apply He in H as [[H|[-> H]] _]; now apply Hroot in H.
  - intro E. subst n. now apply Hroot in Hpe.
Qed.

Lemma single_branch_internal : forall strict T n,
  src_tuple T -> _single_branch strict T n = true -> istuple n = true.
Proof.
  intros strict T n Hs H. destruct n as [i k|t]; [reflexivity|exfalso].
  assert (successors T (Terminal t) = []) as E.
  { destruct (successors T (Terminal t)) as [|c l] eqn:E; [reflexivity|exfalso].
    assert (In c (successors T (Terminal t))) as Hc by (rewrite E; now left).
    apply In_successors in Hc. apply Hs in Hc. discriminate. }
  unfold _single_branch, out_degree in H. rewrite E in H. simpl in H.
  destruct (negb _); [discriminate|]. destruct strict; discriminate.
Qed.

(** ** The selection *)

Lemma add_manual_inv : forall rk r G rep T uv T',
  hier_inv rk r G ->
  hier_inv rk r T -> (forall e, In e (edges T) -> In e (edges G)) ->
  g_nodes T = g_nodes G ->
  add_manual G rep T uv = Ok T' ->
  hier_inv rk r T' /\ (forall e, In e (edges T') -> In e (edges G)) /\
  g_nodes T' = g_nodes G.
Proof.
  intros rk r G rep T [u v] T' HG HT Hsub Hn. unfold add_manual. cbn [fst snd].
  destruct (has_edge G u v) eqn:Euv; simpl; [|discriminate].
  apply has_edge_In in Euv. intro E. inversion E; subst T'. clear E.
  set (T1 := if rep then remove_edges_from T (map (fun p => (p, v)) (predecessors T v)) else T).
  assert (g_nodes T1 = g_nodes T) as En1 by (unfold T1; now destruct rep).
  assert (forall e, In e (edges T1) -> In e (edges T)) as Hsub1.
  { intro e. unfold T1. destruct rep; [|auto]. intro H. now apply edges_remove_edges_from in H. }
  assert (forall a b, b <> v -> In (a, b) (edges T) -> In (a, b) (edges T1)) as Hkeep.
  { intros a b Hb H. unfold T1. destruct rep; [|assumption].
    apply edges_remove_edges_from. split; [assumption|].
    intro Hin. apply in_map_iff in Hin as [p [Hp _]]. inversion Hp. congruence. }
  assert (wf_graph T1) as Hw1.
  { unfold T1. destruct rep; [apply wf_remove_edges_from|]; apply (hi_wf HT). }
  pose proof (proj1 (hi_wf HG) ) as _.
  assert (In u (nodes T1) /\ In v (nodes T1)) as [Hu Hv].
  { unfold nodes. rewrite En1, Hn. apply (hi_wf HG). exact Euv. }
  assert (g_nodes (add_edge T1 u v 1) = g_nodes G) as En'.
  { rewrite g_nodes_add_edge_same by assumption. now rewrite En1. }
  destruct (hi_rooted HT) as [Hpar Hroot]. destruct (hi_rooted HG) as [_ HrootG].
  split; [|split; [|exact En']].
  - constructor.
    + now apply wf_add_edge.
    + eapply no_depth_same_nodes; [exact En'|]. exact (hi_nodepth HG).
    + intros a b H. apply edges_add_edge in H as [H|H].
      * exact (hi_src HT a b (Hsub1 _ H)).
      * inversion H; subst. exact (hi_src HG _ _ Euv).
    + intros a b H. apply edges_add_edge in H as [H|H].
      * exact (hi_ranked HT a b (Hsub1 _ H)).
      * inversion H; subst. exact (hi_ranked HG _ _ Euv).
    + split.
      * intros x Hx. unfold nodes in Hx. rewrite En', <- Hn in Hx.
        destruct (node_eq_dec x v) as [->|Hne].
        -- right. exists u. apply edges_add_edge. now right.
        -- destruct (Hpar x Hx) as [E|[p Hp]]; [now left|right].
           exists p. apply edges_add_edge. left. now apply Hkeep.
      * intros p H. apply edges_add_edge in H as [H|H].
        -- now apply Hsub1, Hroot in H.
        -- inversion H; subst. now apply HrootG in Euv.
  - intros e H. apply edges_add_edge in H as [H|H]; [now apply Hsub, Hsub1|now subst].
Qed.

Lemma select_inv : forall rk r L G s pe pte adds rep T,
  hier_inv rk r G -> secondary L G r = Ok s ->
  select G (map fst (fst s)) (map fst (snd s)) pe pte adds rep = Ok T ->
  hier_inv rk r T /\ (forall e, In e (edges T) -> In e (edges G)) /\
  g_nodes T = g_nodes G.
Proof.
  intros rk r L G s pe pte adds rep T HG HS. unfold select.
  set (T2 := trim (trim (copy G) (map fst (fst s)) pe) (map fst (snd s)) pte).
  pose proof (hi_wf HG) as Hw.
  destruct (secondary_spec L G r s Hw HS) as (_ & _ & Hkeep).
  destruct (hi_rooted HG) as [Hpar Hroot].
  assert (forall e, In e (edges T2) -> In e (edges G)) as Hsub.
  { intros e H. unfold T2 in H. apply trim_edges, trim_edges in H. now apply (edges_copy G e Hw). }
  assert (g_nodes T2 = g_nodes G) as Hn by (unfold T2; now rewrite !g_nodes_trim).
  assert (hier_inv rk r T2) as H2.
  { constructor.
    - unfold T2. now apply wf_trim, wf_trim, wf_copy.
    - eapply no_depth_same_nodes; [exact Hn|]. exact (hi_nodepth HG).
    - intros u v H. exact (hi_src HG u v (Hsub _ H)).
    - intros u v H. exact (hi_ranked HG u v (Hsub _ H)).
    - split.
      + intros v Hv. unfold nodes in Hv. rewrite Hn in Hv.
        destruct (Hpar v Hv) as [E|[p Hp]]; [now left|right].
        destruct (Hkeep p v Hp) as [p' [Hp' Hnot]]. exists p'.
        unfold pool in Hnot. unfold T2.
        apply trim_keeps; [apply trim_keeps|].
        * now apply (edges_copy G _ Hw).
        * intro H. apply Hnot, in_app_iff. now left.
        * intro H. apply Hnot, in_app_iff. now right.
      + intros p H. now apply Hsub, Hroot in H. }
  clearbody T2. destruct adds as [adds|].
  - revert T2 Hsub Hn H2. induction adds as [|uv adds IH]; intros T2 Hsub Hn H2; simpl.
    + intro E. inversion E; subst. auto.
    + destruct (add_manual G rep T2 uv) as [T3|] eqn:E3; simpl; [|discriminate].
      destruct (add_manual_inv rk r G rep T2 uv T3 HG H2 Hsub Hn E3) as (H3 & Hsub3 & Hn3).
      now apply IH.
  - intro E. inversion E; subst. auto.
Qed.

(** ** The root of a ranked graph *)

Lemma ranked_has_root : forall rk T, wf_graph T -> ranked rk T -> nodes T <> [] ->
  exists r, get_root T = Some r.
Proof.
  intros rk T Hw Hr Hne.
  destruct (list_min_rank (fun n => - rk n) (nodes T) Hne) as (m & Hm & Hmin).
  unfold get_root.
  destruct (find (fun n => (in_degree T n =? 0)%nat) (nodes T)) as [r|] eqn:E; [eauto|exfalso].
  pose proof (find_none _ _ E m Hm) as H. simpl in H. apply Nat.eqb_neq in H.
  apply H. apply in_degree_zero. intros u Hu.
  pose proof (Hr u m Hu). assert (In u (nodes T)) as Hin by (now apply Hw in Hu).
  apply Hmin in Hin. lia.
Qed.

Lemma rooted_only_root : forall rk r T, hier_inv rk r T -> In r (nodes T) ->
  only_root T r /\ get_root T = Some r.
Proof.
  intros rk r T Hi Hin. destruct (hi_rooted Hi) as [Hpar Hroot].
  assert (in_degree T r = O) as H0 by (now apply in_degree_zero).
  assert (forall v, In v (nodes T) -> in_degree T v = O -> v = r) as Honly.
  { intros v Hv Hd. destruct (Hpar v Hv) as [E|[p Hp]]; [assumption|].
    exfalso. now apply (proj1 (in_degree_zero T v) Hd p). }
  split; [split; [assumption|split; assumption]|].
  unfold get_root.
  destruct (find (fun n => (in_degree T n =? 0)%nat) (nodes T)) as [x|] eqn:E.
  - apply find_some in E as [Hx Hd]. apply Nat.eqb_eq in Hd. f_equal. now apply Honly.
  - pose proof (find_none _ _ E r Hin) as H. simpl in H. rewrite H0 in H. discriminate.
Qed.

Lemma get_root_rooted : forall rk r T r', hier_inv rk r T -> get_root T = Some r' -> r' = r.
Proof.
  intros rk r T r' Hi H. apply get_root_Some in H as [Hin Hd].
  destruct (hi_rooted Hi) as [Hpar _].
  destruct (Hpar r' Hin) as [E|[p Hp]]; [assumption|].
  exfalso. now apply (proj1 (in_degree_zero T r') Hd p).
Qed.

(** ** [prune] on such a graph *)

Lemma prune_hier : forall rk r T strict h,
  hier_inv rk r T -> prune T strict = Ok h -> hier_inv rk r h /\ In r (nodes h).
Proof.
  intros rk r T strict h Hi. unfold prune.
  set (T1 := fst (remove_dead_ends _ T _)).
  assert (hier_inv rk r T1) as H1.
  { unfold T1. apply remove_dead_ends_inv; [|assumption].
    intros T0 n H0 _ Hout. now apply hier_inv_drop. }
  clearbody T1. unfold traverse_topdown.
  destruct (get_root T1) as [r'|] eqn:Er; simpl; [|discriminate].
  assert (r' = r) by (eapply get_root_rooted; eassumption). subst r'.
  apply get_root_Some in Er as [Hin _].
  apply (foldM_Ok_inv _ _ (fun T0 => hier_inv rk r T0 /\ In r (nodes T0))); [now split|].
  intros T0 n T' _ [H0 Hr0]. unfold collapse_step.
  destruct (_single_branch strict T0 n) eqn:Esb.
  - intro Hc. destruct (hier_inv_collapse rk r strict T0 n T' H0 Esb Hc) as (H' & Hne & Hnodes).
    split; [assumption|]. apply Hnodes. split; [assumption|]. congruence.
  - intro E. inversion E; subst. now split.
Qed.

Lemma prune_total : forall rk r T strict t,
  hier_inv rk r T -> In (Terminal t) (nodes T) -> exists h, prune T strict = Ok h.
Proof.
  intros rk r T strict t Hi Ht. unfold prune.
  set (T1 := fst (remove_dead_ends _ T _)).
  assert (hier_inv rk r T1 /\ In (Terminal t) (nodes T1)) as [H1 Ht1].
  { unfold T1.
    apply (remove_dead_ends_inv (fun T0 => hier_inv rk r T0 /\ In (Terminal t) (nodes T0)));
      [|now split].
    intros T0 n [H0 Ht0] Hn Hout. split; [now apply hier_inv_drop|].
    apply nodes_drop_node. split; [assumption|]. intro E. subst n. discriminate. }
  clearbody T1. unfold traverse_topdown.
  destruct (ranked_has_root rk T1 (hi_wf H1)) as [r' Er].
  { exact (hi_ranked H1). }
  { intro E. rewrite E in Ht1. destruct Ht1. }
  rewrite Er. simpl.
  destruct (foldM_inv _ _ (fun T0 => hier_inv rk r T0) (collapse_step strict)
              (fst (traverse_loop T1 (S (length (g_edges T1))) [r'] [])) T1 H1) as (h & Eh & _);
    [|eauto].
  intros T0 n _ H0. unfold collapse_step.
  destruct (_single_branch strict T0 n) eqn:Esb; [|eauto].
  destruct (single_branch_collapse strict T0 n (hi_wf H0) Esb) as (parent & T' & _ & _ & E & _).
  exists T'. split; [assumption|].
  now destruct (hier_inv_collapse rk r strict T0 n T' H0 Esb E).
Qed.

(** ** [update_depth] on the pruned graph *)

Lemma update_depth_graph_total : forall T r,
  wf_graph T -> no_depth T -> get_root T = Some r ->
  exists T', update_depth_graph T = Ok T'.
Proof.
  intros T r Hw Hn Hr. destruct (get_root_Some T r Hr) as [Hin _].
  destruct (bfs_inv_init T r Hw Hn Hin) as [Hi0 Hlen].
  destruct (update_topdown_spec (S (length (g_nodes T))) r _ [r] Hi0) as (T' & E & _).
  { simpl. lia. }
  exists T'. unfold update_depth_graph. rewrite Hr, E. reflexivity.
Qed.

(** ** The hierarchy [pick] returns *)

Lemma find_same : forall (A : Type) (f g : A -> bool) l,
  (forall x, f x = g x) -> find f l = find g l.
Proof.
  intros A f g l H. induction l as [|x l IH]; simpl; [reflexivity|].
  rewrite H, IH. reflexivity.
Qed.

Lemma build_hier_inv : forall w c w' G,
  assume_levels w = true \/ (0 < c)%Q -> _build w c = (w', Ok G) ->
  exists L root s rk,
    hier_inv rk root G /\ In root (nodes G) /\ secondary L G root = Ok s /\
    _full w' = Some G /\ _secondary_edges w' = Some (fst s) /\
    _secondary_terminal_edges w' = Some (snd s).
Proof.
  intros w c w' G Hc HB.
  destruct (_build_Ok w c w' G HB) as (L & levels & labels & terminals & root & s & EB & ES & _ & HG & Hse & Hste).
  destruct (build_graph_props _ _ _ _ _ _ _ _ Hc EB) as (Hw & Hn & Hs & Hr & Hroot & _ & Hin).
  exists L, root, s, (rank L levels (assume_levels w)).
  split; [now constructor|]. auto 6.
Qed.

Lemma hier_acyclic : forall rk r T, hier_inv rk r T -> acyclic T.
Proof.
  intros rk r T Hi. apply ranked_acyclic with (rk := rk). exact (hi_ranked Hi).
Qed.

Lemma pick_hierarchy : forall w0 c w G pe pte adds rep strict w' h,
  assume_levels w0 = true \/ (0 < c)%Q ->
  _build w0 c = (w, Ok G) ->
  pick w pe pte adds rep strict = (w', Ok h) ->
  acyclic h /\ (exists r, only_root h r /\ get_root h = Some r) /\ hier w' = Some h.
Proof.
  intros w0 c w G pe pte adds rep strict w' h Hc HB HP.
  destruct (build_hier_inv w0 c w G Hc HB) as (L & root & s & rk & HG & Hin & ES & EG & Ese & Este).
  destruct (pick_Ok w G _ _ pe pte adds rep strict w' h EG Ese Este HP)
    as (T & h0 & ET & E0 & Eh & Ew).
  destruct (select_inv rk root L G s pe pte adds rep T HG ES ET) as (HT & _ & _).
  destruct (prune_hier rk root T strict h0 HT E0) as [H0 Hr0].
  destruct (update_depth_graph_edges h0 h Eh) as [Ee En].
  assert (edges h = edges h0) as Ee' by (unfold edges; now rewrite Ee).
  destruct (rooted_only_root rk root h0 H0 Hr0) as [(Ha & Hb & Hc') Hroot].
  assert (forall v, in_degree h v = in_degree h0 v) as Hdeg.
  { intro v. unfold in_degree, predecessors. now rewrite Ee. }
  split; [|split].
  - intros u v Huv Hp. rewrite Ee' in Huv.
    apply (hier_acyclic rk root h0 H0 u v Huv).
    clear Huv. induction Hp as [x|x y z Hxy Hyz IH]; [constructor|].
    econstructor; [|eassumption]. now rewrite <- Ee'.
  - exists root. split.
    + split; [now rewrite En|]. split; [now rewrite Hdeg|].
      intros v Hv Hd. apply Hc'; [now rewrite <- En|now rewrite <- Hdeg].
    + unfold get_root in *. rewrite En.
      rewrite <- Hroot. apply find_same. intro v. now rewrite Hdeg.
  - subst w'. reflexivity.
Qed.

(** * [weave] *)

Lemma weave_Ok : forall w partitions terminals boolean levels c w' h,
  weave w partitions terminals boolean levels c = (w', Ok h) ->
  exists w3 w4 G,
    _build w3 (cutoff c) = (w4, Ok G) /\
    pick w4 (top c) (percentage_terminal_edges c) (additional c) (replace c)
         (strict_single_branch c) = (w', Ok h).
Proof.
  intros w partitions terminals boolean levels c w' h. unfold weave.
  destruct (length partitions =? 0)%nat; [discriminate|].
  destruct (existsb _ _); [discriminate|].
  destruct (negb _); [discriminate|].
  match goal with
  | |- match ?a with _ => _ end = _ -> _ => destruct a as [w2|e]; [|discriminate]
  end.
  destruct (set_terminals w2 terminals) as [w3|e]; [|discriminate].
  destruct (_build w3 (cutoff c)) as [w4 [G|e]] eqn:EB; [|discriminate].
  intro HP. exists w3, w4, G. split; [exact EB|exact HP].
Qed.

(** C2.  With a positive cutoff, a hierarchy that [weave] returns has no
    edge on a cycle and one node without a parent, which is the node
    [get_root] finds; the same hierarchy is stored in the object. *)
Theorem weave_hierarchy_acyclic_one_root :
  forall (w : Weaver) (partitions : list (list Z)) (terminals : terminals_arg)
         (boolean : bool) (levels : levels_arg) (c : config) (w' : Weaver) (h : DiGraph),
    (0 < cutoff c)%Q ->
    weave w partitions terminals boolean levels c = (w', Ok h) ->
    acyclic h /\ (exists r, only_root h r /\ get_root h = Some r) /\ hier w' = Some h.
Proof.
  intros w partitions terminals boolean levels c w' h Hc HW.
  destruct (weave_Ok _ _ _ _ _ _ _ _ HW) as (w3 & w4 & G & HB & HP).
  eapply pick_hierarchy; [right; exact Hc|exact HB|exact HP].
Qed.

(** * The [additional] edges of [pick] *)

Lemma foldM_app : forall (A B : Type) (f : A -> B -> result A) l1 l2 a,
  foldM f (l1 ++ l2) a = (a' <- foldM f l1 a ;; foldM f l2 a').
Proof.
  intros A B f l1. induction l1 as [|x l1 IH]; intros l2 a; simpl; [reflexivity|].
  destruct (f a x) as [a'|e]; simpl; [apply IH|reflexivity].
Qed.

Lemma manual_fold_cases : forall G rep adds T0,
  (exists T, foldM (add_manual G rep) adds T0 = Ok T /\
             forall u v, In (u, v) adds -> has_edge G u v = true) \/
  (exists u v, foldM (add_manual G rep) adds T0 = Raise (ValueError (EdgeMissing u v)) /\
               In (u, v) adds /\ has_edge G u v = false).
Proof.
  intros G rep adds. induction adds as [|[u v] adds IH]; intro T0.
  - left. exists T0. split; [reflexivity|]. intros u v [].
  - simpl. destruct (has_edge G u v) eqn:E.
    + set (T1 := add_edge (if rep then remove_edges_from T0 (map (fun p => (p, v)) (predecessors T0 v))
                           else T0) u v 1).
      assert (add_manual G rep T0 (u, v) = Ok T1) as E1.
      { unfold add_manual. cbn [fst snd]. rewrite E. reflexivity. }
      rewrite E1. simpl.
      destruct (IH T1) as [(T & ET & H)|(a & b & ER & Hin & Hab)].
      * left. exists T. split; [assumption|].
        intros a b [Hab|Hab]; [inversion Hab; now subst|auto].
      * right. exists a, b. split; [assumption|]. split; [now right|assumption].
    + assert (add_manual G rep T0 (u, v) = Raise (ValueError (EdgeMissing u v))) as E1.
      { unfold add_manual. cbn [fst snd]. rewrite E. reflexivity. }
      rewrite E1. simpl.
      right. exists u, v. split; [reflexivity|]. split; [now left|assumption].
Qed.

Lemma manual_step_weight : forall G rep T u v T',
  add_manual G rep T (u, v) = Ok T' -> lookup_edge (g_edges T') (u, v) = Some 1%Q.
Proof.
  intros G rep T u v T'. unfold add_manual. cbn [fst snd].
  destruct (negb _); [discriminate|]. intro E. inversion E. apply lookup_add_edge_same.
Qed.

Lemma manual_step_replace : forall G T u v T',
  add_manual G true T (u, v) = Ok T' -> forall p, In (p, v) (edges T') -> p = u.
Proof.
  intros G T u v T'. unfold add_manual. cbn [fst snd].
  destruct (negb _); [discriminate|]. intro E. inversion E; subst T'. clear E.
  intros p Hp. apply edges_add_edge in Hp as [Hp|Hp]; [exfalso|now inversion Hp].
  apply edges_remove_edges_from in Hp as [Hp Hn]. apply Hn.
  apply in_map_iff. exists p. split; [reflexivity|]. now apply In_predecessors.
Qed.

Lemma manual_step_other : forall G rep T u' v' T' v,
  add_manual G rep T (u', v') = Ok T' -> v' <> v ->
  forall p, lookup_edge (g_edges T') (p, v) = lookup_edge (g_edges T) (p, v).
Proof.
  intros G rep T u' v' T' v. unfold add_manual. cbn [fst snd].
  destruct (negb _); [discriminate|]. intro E. inversion E; subst T'. clear E.
  intros Hne p. rewrite lookup_add_edge_other by congruence.
  destruct rep; [|reflexivity]. rewrite lookup_remove_edges_from.
  destruct (emem _ _) eqn:Em; [|reflexivity].
  apply emem_In, in_map_iff in Em as [q [Hq _]]. inversion Hq. congruence.
Qed.

Lemma manual_fold_keep : forall G adds T0 T,
  foldM (add_manual G false) adds T0 = Ok T ->
  forall e, lookup_edge (g_edges T) e =
            if emem e adds then Some 1%Q else lookup_edge (g_edges T0) e.
Proof.
  intros G adds. induction adds as [|[u v] adds IH]; intros T0 T; simpl.
  - intro E. inversion E. reflexivity.
  - unfold add_manual at 1. cbn [fst snd].
    destruct (negb _); [discriminate|]. simpl. intros E e.
    rewrite (IH _ _ E e). destruct (emem e adds); [now rewrite orb_true_r|].
    rewrite orb_false_r. destruct (edge_eqb e (u, v)) eqn:Ee.
    + apply edge_eqb_eq in Ee. subst e. apply lookup_add_edge_same.
    + apply edge_eqb_neq in Ee. now apply lookup_add_edge_other.
Qed.

Lemma manual_fold_other : forall G rep v adds T0 T,
  (forall p, ~ In (p, v) adds) ->
  foldM (add_manual G rep) adds T0 = Ok T ->
  forall p, lookup_edge (g_edges T) (p, v) = lookup_edge (g_edges T0) (p, v).
Proof.
  intros G rep v adds. induction adds as [|[u' v'] adds IH]; intros T0 T Hno; simpl.
  - intro E. inversion E. reflexivity.
  - destruct (add_manual G rep T0 (u', v')) as [T1|] eqn:E1; simpl; [|discriminate].
    intros E p.
    assert (forall q, ~ In (q, v) adds) as Hno' by (intros q Hq; apply (Hno q); now right).
    rewrite (IH T1 T Hno' E p).
    eapply manual_step_other; [eassumption|].
    intro Ev. subst v'. apply (Hno u'). now left.
Qed.

Lemma manual_fold_replace : forall G pre u v post T0 T,
  (forall p, ~ In (p, v) post) ->
  foldM (add_manual G true) (pre ++ (u, v) :: post) T0 = Ok T ->
  lookup_edge (g_edges T) (u, v) = Some 1%Q /\
  forall p, In (p, v) (edges T) -> p = u.
Proof.
  intros G pre u v post T0 T Hno. rewrite foldM_app.
  destruct (foldM _ pre T0) as [Ta|]; cbn [bind foldM]; [|discriminate].
  destruct (add_manual G true Ta (u, v)) as [Tb|] eqn:Eb; cbn [bind]; [|discriminate].
  intro E. pose proof (manual_fold_other G true v post Tb T Hno E) as Hsame. split.
  - rewrite Hsame. eapply manual_step_weight; eassumption.
  - intros p Hp. apply lookup_edge_In in Hp as [x Hx]. rewrite Hsame in Hx.
    eapply manual_step_replace; [eassumption|]. apply lookup_edge_In. eauto.
Qed.

(** What [pick] does with its [additional] edges, on a candidate graph with
    a terminal. *)
Lemma pick_additional_core :
  forall (rk : node -> Z) (root : node) (L : list (list bool))
         (s : list (edge * Q) * list (edge * nat)) (w : Weaver) (G : DiGraph) (t : Z)
         (pe pte : Q) (additional : option (list edge)) (rep strict : bool),
    hier_inv rk root G -> In root (nodes G) -> secondary L G root = Ok s ->
    _full w = Some G -> _secondary_edges w = Some (fst s) ->
    _secondary_terminal_edges w = Some (snd s) ->
    In (Terminal t) (nodes G) ->
    let adds := additional_edges additional in
    let res := pick w pe pte additional rep strict in
    ((exists e, snd res = Raise e) <->
     (exists u v, In (u, v) adds /\ has_edge G u v = false)) /\
    (forall e, snd res = Raise e ->
       fst res = w /\
       exists u v, e = ValueError (EdgeMissing u v) /\ In (u, v) adds /\
                   has_edge G u v = false) /\
    ((forall u v, In (u, v) adds -> has_edge G u v = true) ->
       exists se ste T h0 h,
         _secondary_edges w = Some se /\ _secondary_terminal_edges w = Some ste /\
         select G (map fst se) (map fst ste) pe pte additional rep = Ok T /\
         prune T strict = Ok h0 /\ update_depth_graph h0 = Ok h /\
         res = (set_hier w (Some h), Ok h) /\
         (rep = false ->
            forall e, In e adds -> lookup_edge (g_edges T) e = Some 1%Q) /\
         (rep = true ->
            forall pre u v post, adds = pre ++ (u, v) :: post ->
              (forall p, ~ In (p, v) post) ->
              lookup_edge (g_edges T) (u, v) = Some 1%Q /\
              forall p, In (p, v) (edges T) -> p = u)) /\
    (forall T u v, has_edge G u v = true ->
       exists T', add_manual G rep T (u, v) = Ok T' /\
                  lookup_edge (g_edges T') (u, v) = Some 1%Q /\
                  (rep = true -> forall p, In (p, v) (edges T') -> p = u)).
Proof.
  intros rk root L s w G t pe pte additional rep strict HG Hin ES EG Ese Este Ht adds res.
  pose proof (pick_phases w G _ _ pe pte additional rep strict EG Ese Este) as Hres.
  fold res in Hres.
  set (T2 := trim (trim (copy G) (map fst (fst s)) pe) (map fst (snd s)) pte).
  assert (select G (map fst (fst s)) (map fst (snd s)) pe pte additional rep
          = foldM (add_manual G rep) adds T2) as Esel.
  { unfold select, adds, additional_edges. fold T2. now destruct additional. }
  assert (forall T, select G (map fst (fst s)) (map fst (snd s)) pe pte additional rep = Ok T ->
            exists h0 h, prune T strict = Ok h0 /\ update_depth_graph h0 = Ok h /\
                         res = (set_hier w (Some h), Ok h)) as Hgood.
  { intros T ET.
    destruct (select_inv rk root L G s pe pte additional rep T HG ES ET) as (HT & _ & En).
    destruct (prune_total rk root T strict t HT) as [h0 E0].
    { unfold nodes. now rewrite En. }
    destruct (prune_hier rk root T strict h0 HT E0) as [H0 Hr0].
    destruct (rooted_only_root rk root h0 H0 Hr0) as [_ Hroot].
    destruct (update_depth_graph_total h0 root (hi_wf H0) (hi_nodepth H0) Hroot) as [h Eh].
    exists h0, h. split; [assumption|]. split; [assumption|].
    rewrite Hres, ET. simpl. rewrite E0, Eh. reflexivity. }
  assert (forall u v, foldM (add_manual G rep) adds T2 = Raise (ValueError (EdgeMissing u v)) ->
            res = (w, Raise (ValueError (EdgeMissing u v)))) as Hbad.
  { intros u v ER. rewrite Hres, Esel, ER. reflexivity. }
  split; [|split; [|split]].
  - split.
    + intros [e He].
      destruct (manual_fold_cases G rep adds T2) as [(T & ET & Hall)|(u & v & ER & Huv & Hno)];
        [exfalso|eauto].
      rewrite <- Esel in ET. destruct (Hgood T ET) as (h0 & h & _ & _ & Er).
      rewrite Er in He. discriminate.
    + intros (u & v & Huv & Hno).
      destruct (manual_fold_cases G rep adds T2) as [(T & ET & Hall)|(a & b & ER & _)].
      * rewrite (Hall u v Huv) in Hno. discriminate.
      * exists (ValueError (EdgeMissing a b)). now rewrite (Hbad a b ER).
  - intros e He.
    destruct (manual_fold_cases G rep adds T2) as [(T & ET & Hall)|(u & v & ER & Huv & Hno)].
    + rewrite <- Esel in ET. destruct (Hgood T ET) as (h0 & h & _ & _ & Er).
      rewrite Er in He. discriminate.
    + rewrite (Hbad u v ER) in *. simpl in He. inversion He; subst e.
      split; [reflexivity|]. exists u, v. auto.
  - intro Hall.
    destruct (manual_fold_cases G rep adds T2) as [(T & ET & _)|(u & v & _ & Huv & Hno)].
    + pose proof ET as ET'. rewrite <- Esel in ET'.
      destruct (Hgood T ET') as (h0 & h & E0 & Eh & Er).
      exists (fst s), (snd s), T, h0, h.
      do 6 (split; [assumption|]). split.
      * intros -> e He. rewrite (manual_fold_keep G adds T2 T ET e).
        apply emem_In in He. now rewrite He.
      * intros -> pre u v post Eadds Hno. rewrite Eadds in ET.
        eapply manual_fold_replace; eassumption.
    + rewrite (Hall u v Huv) in Hno. discriminate.
  - intros T u v Huv. unfold add_manual. cbn [fst snd]. rewrite Huv. simpl.
    eexists. split; [reflexivity|]. split; [apply lookup_add_edge_same|].
    intros -> p Hp. eapply manual_step_replace; [|exact Hp].
    unfold add_manual. cbn [fst snd]. rewrite Huv. reflexivity.
Qed.

(** * The dead ends of [prune] *)

Lemma filter_absent : forall n l, ~ In n l ->
  filter (fun x => negb (node_eqb x n)) l = l.
Proof.
  intros n l. induction l as [|y l IH]; simpl; intro H; [reflexivity|].
  assert (node_eqb y n = false) as E by (apply node_eqb_neq; intro; subst; tauto).
  rewrite E. simpl. f_equal. apply IH. tauto.
Qed.

Lemma remove_first_filter : forall n l, NoDup l ->
  remove_first n l = filter (fun x => negb (node_eqb x n)) l.
Proof.
  intros n l H. induction H as [|y l Hy Hl IH]; simpl; [reflexivity|].
  rewrite (node_eqb_sym n y). destruct (node_eqb y n) eqn:E; simpl.
  - apply node_eqb_eq in E. subst y. symmetry. now apply filter_absent.
  - now rewrite IH.
Qed.

Lemma filter_swap : forall (A : Type) (f g : A -> bool) l,
  filter f (filter g l) = filter g (filter f l).
Proof.
  intros A f g l. induction l as [|x l IH]; simpl; [reflexivity|].
  destruct (f x) eqn:Ef, (g x) eqn:Eg; simpl; rewrite ?Ef, ?Eg, IH; reflexivity.
Qed.

Lemma internal_drop : forall T n, NoDup (nodes T) ->
  internal_nodes (drop_node T n) = remove_first n (internal_nodes T).
Proof.
  intros T n H. unfold internal_nodes.
  rewrite nodes_drop_node_list, remove_first_filter by now apply NoDup_filter.
  apply filter_swap.
Qed.

Lemma length_remove_first : forall n l, (length (remove_first n l) <= length l)%nat.
Proof.
  intros n l. induction l as [|y l IH]; simpl; [lia|].
  destruct (node_eqb n y); simpl; lia.
Qed.

Lemma length_remove_first_In : forall n l, In n l ->
  (length (remove_first n l) < length l)%nat.
Proof.
  intros n l. induction l as [|y l IH]; simpl; intro H; [destruct H|].
  destruct (node_eqb n y) eqn:E; simpl; [lia|].
  apply node_eqb_neq in E. destruct H as [H|H]; [congruence|].
  apply IH in H. lia.
Qed.

Lemma In_remove_first_other : forall n x l, x <> n -> In x l -> In x (remove_first n l).
Proof.
  intros n x l Hne. induction l as [|y l IH]; simpl; intro H; [assumption|].
  destruct (node_eqb n y) eqn:E.
  - apply node_eqb_eq in E. subst y. destruct H as [H|H]; [congruence|assumption].
  - destruct H as [H|H]; [now left|right; auto].
Qed.

Lemma sweep_step_ok : forall T0 st n, sweep_ok T0 st ->
  sweep_ok T0 (sweep_step st n) /\
  (length (snd (sweep_step st n)) <= length (snd st))%nat.
Proof.
  intros T0 [T i] n (Hnd & Hi & Hsub). unfold sweep_step. cbn [fst snd] in *.
  destruct (istuple n && (out_degree T n =? 0)%nat); cbn [fst snd].
  - split; [|apply length_remove_first]. unfold sweep_ok. cbn [fst snd]. split; [|split].
    + rewrite nodes_drop_node_list. now apply NoDup_filter.
    + subst i. symmetry. now apply internal_drop.
    + intros [a b] H. apply edges_drop_node in H as [H _]. now apply Hsub.
  - split; [|lia]. split; [assumption|split; assumption].
Qed.

Lemma sweep_fold_ok : forall T0 l st, sweep_ok T0 st ->
  sweep_ok T0 (fold_left sweep_step l st) /\
  (length (snd (fold_left sweep_step l st)) <= length (snd st))%nat.
Proof.
  intros T0 l. induction l as [|x l IH]; intros st H; simpl; [split; [assumption|lia]|].
  destruct (sweep_step_ok T0 st x H) as [H1 Hl1].
  destruct (IH _ H1) as [H2 Hl2]. split; [assumption|lia].
Qed.

Lemma sweep_fold_strict : forall T0 n l st, sweep_ok T0 st ->
  In n l -> In n (snd st) -> out_degree T0 n = O ->
  (length (snd (fold_left sweep_step l st)) < length (snd st))%nat.
Proof.
  intros T0 n l. induction l as [|x l IH]; intros st H Hl Hn Hout; [destruct Hl|].
  simpl. destruct (sweep_step_ok T0 st x H) as [H1 Hl1].
  destruct (node_eq_dec x n) as [->|Hne].
  - destruct (sweep_fold_ok T0 l _ H1) as [_ Hl2].
    assert (length (snd (sweep_step st n)) < length (snd st))%nat; [|lia].
    destruct st as [T i]. destruct H as (Hnd & Hi & Hsub). cbn [fst snd] in *.
    unfold sweep_step. cbn [fst snd].
    assert (istuple n = true) as Et.
    { subst i. unfold internal_nodes in Hn. now apply filter_In in Hn. }
    assert (out_degree T n = O) as E0.
    { apply out_degree_zero. intros v Hv. apply Hsub in Hv.
      now apply (proj1 (out_degree_zero T0 n) Hout v). }
    rewrite Et, E0. cbn [andb Nat.eqb snd]. now apply length_remove_first_In.
  - destruct Hl as [Hl|Hl]; [congruence|].
    assert (In n (snd (sweep_step st x))) as Hn1.
    { destruct st as [T i]. unfold sweep_step. cbn [fst snd] in *.
      destruct (istuple x && _); cbn [snd]; [|assumption].
      apply In_remove_first_other; [congruence|assumption]. }
    pose proof (IH _ H1 Hl Hn1 Hout). lia.
Qed.

Lemma remove_dead_ends_done : forall fuel T internal,
  NoDup (nodes T) -> internal = internal_nodes T -> (length internal <= fuel)%nat ->
  has_dead_end (fst (remove_dead_ends fuel T internal))
               (snd (remove_dead_ends fuel T internal)) = false /\
  snd (remove_dead_ends fuel T internal)
  = internal_nodes (fst (remove_dead_ends fuel T internal)).
Proof.
  induction fuel as [|f IH]; intros T internal Hnd Hi Hlen.
  - assert (internal = []) as E by (destruct internal; [reflexivity|simpl in Hlen; lia]).
    rewrite E in *. simpl. split; [reflexivity|assumption].
  - cbn [remove_dead_ends]. destruct (has_dead_end T internal) eqn:Ed.
    + set (st := fold_left sweep_step (rev internal) (T, internal)).
      assert (sweep_ok T (T, internal)) as H0 by (split; [assumption|split; auto]).
      destruct (sweep_fold_ok T (rev internal) _ H0) as [(Hnd' & Hi' & _) _].
      unfold has_dead_end in Ed. apply existsb_exists in Ed as [n [Hn Hout]].
      apply Nat.eqb_eq in Hout.
      pose proof (sweep_fold_strict T n (rev internal) (T, internal) H0
                    (proj1 (in_rev _ _) Hn) Hn Hout) as Hlt.
      fold st in Hlt, Hnd', Hi'. cbn [snd] in Hlt.
      apply IH; [assumption|assumption|lia].
    + cbn [fst snd]. split; assumption.
Qed.

(** A graph that [prune] accepts has a terminal. *)
Lemma prune_Ok_terminal : forall rk r T strict h,
  hier_inv rk r T -> prune T strict = Ok h -> exists t, In (Terminal t) (nodes T).
Proof.
  intros rk r T strict h Hi. unfold prune.
  pose proof (remove_dead_ends_done (length (internal_nodes T)) T (internal_nodes T)
                (proj1 (hi_wf Hi)) eq_refl (Nat.le_refl _)) as [Hdone Hint].
  assert (hier_inv rk r (fst (remove_dead_ends (length (internal_nodes T)) T (internal_nodes T)))
          /\ forall x, In x (nodes (fst (remove_dead_ends (length (internal_nodes T)) T
                                                          (internal_nodes T)))) ->
                       In x (nodes T)) as [H1 Hsub].
  { apply (remove_dead_ends_inv
             (fun T0 => hier_inv rk r T0 /\ forall x, In x (nodes T0) -> In x (nodes T)));
      [|split; auto].
    intros T0 n [H0 Hs0] _ Hout. split; [now apply hier_inv_drop|].
    intros x Hx. apply nodes_drop_node in Hx as [Hx _]. auto. }
  set (T1 := fst (remove_dead_ends _ T _)) in *.
  set (i1 := snd (remove_dead_ends _ T _)) in *.
  unfold traverse_topdown.
  destruct (get_root T1) as [r'|] eqn:Er; simpl; [|discriminate]. intros _.
  apply get_root_Some in Er as [Hr' _].
  destruct (list_min_rank rk (nodes T1)) as (m & Hm & Hmin).
  { intro E. rewrite E in Hr'. destruct Hr'. }
  destruct m as [a b|t]; [exfalso|exists t; auto].
  assert (In (Internal a b) i1) as Hin.
  { rewrite Hint. unfold internal_nodes. apply filter_In. split; [assumption|reflexivity]. }
  unfold has_dead_end in Hdone.
  assert (out_degree T1 (Internal a b) <> O) as Hout.
  { intro E. apply Nat.eqb_eq in E.
    assert (existsb (fun n => (out_degree T1 n =? 0)%nat) i1 = true) as Hex.
    { apply existsb_exists. eauto. }
    congruence. }
  unfold out_degree in Hout.
  destruct (successors T1 (Internal a b)) as [|x l] eqn:Es; [now apply Hout|].
  assert (In (Internal a b, x) (edges T1)) as He.
  { apply In_successors. rewrite Es. now left. }
  pose proof (hi_ranked H1 _ _ He) as Hlt.
  assert (In x (nodes T1)) as Hx by (now apply (hi_wf H1) in He).
  apply Hmin in Hx. lia.
Qed.

(** What [weave] leaves in the object when it returns. *)
Lemma weave_built : forall w0 partitions terminals boolean levels c w h1,
  weave w0 partitions terminals boolean levels c = (w, Ok h1) ->
  exists L G root s,
    wf_graph G /\ secondary L G root = Ok s /\
    _full w = Some G /\ _secondary_edges w = Some (fst s) /\
    _secondary_terminal_edges w = Some (snd s) /\ hier w = Some h1 /\
    ((0 < cutoff c)%Q ->
     exists rk t, hier_inv rk root G /\ In root (nodes G) /\ In (Terminal t) (nodes G)).
Proof.
  intros w0 partitions terminals boolean levels c w h1 HW.
  destruct (weave_Ok _ _ _ _ _ _ _ _ HW) as (w3 & w4 & G & HB & HP).
  destruct (_build_Ok w3 (cutoff c) w4 G HB)
    as (L & lv & labels & ts & root & s & EB & ES & _ & EG & Ese & Este).
  destruct (pick_Ok w4 G _ _ _ _ _ _ _ w h1 EG Ese Este HP) as (T & h0 & ET & E0 & Eh & Ew).
  exists L, G, root, s. subst w.
  split; [exact (build_graph_wf _ _ _ _ _ _ _ _ EB)|].
  do 5 (split; [assumption || reflexivity|]).
  intro Hc.
  destruct (build_graph_props _ _ _ _ _ _ _ _ (or_intror Hc) EB)
    as (Hw & Hn & Hs & Hr & Hroot & _ & Hin).
  assert (hier_inv (rank L lv (assume_levels w3)) root G) as HG by now constructor.
  destruct (select_inv _ root L G s _ _ _ _ T HG ES ET) as (HT & _ & En).
  destruct (prune_Ok_terminal _ root T _ h0 HT E0) as [t Ht].
  unfold nodes in Ht. rewrite En in Ht.
  exists (rank L lv (assume_levels w3)), t. auto.
Qed.

(** C7.  In the candidate graph that [_build] returns and keeps in
    [self._full], two distinct clusters with an edge to the same terminal are
    unrelated: neither is reachable from the other. *)
Theorem attached_clusters_unrelated :
  forall (w : Weaver) (c : Q) (w' : Weaver) (G : DiGraph),
    _build w c = (w', Ok G) ->
    _full w' = Some G /\
    forall (t : Z) (p q : node),
      In (p, Terminal t) (edges G) -> In (q, Terminal t) (edges G) -> p <> q ->
      ~ path G p q /\ ~ path G q p.
Proof.
  intros w c w' G HB.
  destruct (_build_Ok w c w' G HB)
    as (L & lv & labels & ts & root & s & EB & _ & _ & EG & _).
  split; [exact EG|].
  intros t p q. exact (attached_unrelated_core _ _ _ _ _ _ _ _ EB t p q).
Qed.

(** C4.  After [weave] has returned, a hierarchy that [pick(0)] with
    [percentage_terminal_edges = 0] and no additional edge returns has one
    parent at most for every node (the root has none); and when the cutoff
    of the [weave] was positive, [pick(0)] does return a hierarchy and
    stores it. *)
Theorem pick_zero_single_parent :
  forall (w0 : Weaver) (partitions : list (list Z)) (terminals : terminals_arg)
         (boolean : bool) (levels : levels_arg) (c : config) (w : Weaver) (h1 : DiGraph),
    weave w0 partitions terminals boolean levels c = (w, Ok h1) ->
    (forall (rep strict : bool) (w' : Weaver) (h : DiGraph),
       pick w 0 0 None rep strict = (w', Ok h) ->
       forall v, (in_degree h v <= 1)%nat) /\
    ((0 < cutoff c)%Q ->
     forall rep strict : bool,
       exists h, pick w 0 0 None rep strict = (set_hier w (Some h), Ok h)).
Proof.
  intros w0 partitions terminals boolean levels c w h1 HW.
  destruct (weave_built _ _ _ _ _ _ _ _ HW)
    as (L & G & root & s & Hw & ES & EG & Ese & Este & _ & Hpos).
  split.
  - intros rep strict w' h HP. eapply pick_zero_core; eassumption.
  - intros Hc rep strict. destruct (Hpos Hc) as (rk & t & HG & Hin & Ht).
    destruct (pick_additional_core rk root L s w G t 0 0 None rep strict
                HG Hin ES EG Ese Este Ht) as (_ & _ & Hgood & _).
    destruct Hgood as (se & ste & T & h0 & h & _ & _ & _ & _ & _ & Er & _).
    { intros u v []. }
    exists h. exact Er.
Qed.

(** [prune] takes nodes away and adds edges: an edge whose two ends are
    left is left. *)
Lemma prune_keeps_edges : forall strict T h,
  wf_graph T -> prune T strict = Ok h ->
  (forall x, In x (nodes h) -> In x (nodes T)) /\
  (forall u v, In (u, v) (edges T) -> In u (nodes h) -> In v (nodes h) ->
               In (u, v) (edges h)).
Proof.
  intros strict T h Hw E.
  assert (wf_graph h /\
          (forall x, In x (nodes h) -> In x (nodes T)) /\
          (forall u v, In (u, v) (edges T) -> In u (nodes h) -> In v (nodes h) ->
                       In (u, v) (edges h))) as (_ & H); [|exact H].
  revert E.
  apply (prune_inv (fun T0 =>
           wf_graph T0 /\
           (forall x, In x (nodes T0) -> In x (nodes T)) /\
           (forall u v, In (u, v) (edges T) -> In u (nodes T0) -> In v (nodes T0) ->
                        In (u, v) (edges T0)))).
  - intros T0 n (Hw0 & Hn0 & He0) _ _. split; [now apply wf_drop_node|]. split.
    + intros x Hx. apply nodes_drop_node in Hx as [Hx _]. now apply Hn0.
    + intros u v Huv Hu Hv.
      apply nodes_drop_node in Hu as [Hu Hun]. apply nodes_drop_node in Hv as [Hv Hvn].
      apply edges_drop_node. split; [now apply He0|]. now split.
  - intros T0 n T' (Hw0 & Hn0 & He0) Hsb Hc.
    destruct (single_branch_collapse strict T0 n Hw0 Hsb)
      as (parent & T1 & _ & _ & E & Hw1 & Hg & He).
    rewrite Hc in E. inversion E; subst T1.
    assert (forall x, In x (nodes T') -> In x (nodes T0) /\ x <> n) as Hn'.
    { intros x Hx. unfold nodes in Hx. rewrite Hg in Hx.
      apply in_map_iff in Hx as ([y a] & Ey & Hy). simpl in Ey. subst y.
      apply filter_In in Hy as [Hy Hne]. simpl in Hne.
      apply negb_true_iff, node_eqb_neq in Hne. split; [|assumption].
      unfold nodes. apply in_map_iff. exists (x, a). auto. }
    split; [assumption|]. split.
    + intros x Hx. apply Hn0. now apply Hn'.
    + intros u v Huv Hu Hv. destruct (Hn' u Hu) as [Hu0 Hun].
      destruct (Hn' v Hv) as [Hv0 Hvn]. apply He.
      split; [left; now apply He0|]. now split.
  - split; [assumption|]. split; auto.
Qed.

(** C8.  After a [weave] with a positive cutoff has returned, [pick] on
    the object raises exactly when one of the additional edges is not an
    edge of the cached candidate graph; the exception is then the
    ValueError naming such an edge, and the object is left as it was,
    stored hierarchy included.  When all of them are edges of the
    candidate graph, [pick] returns: the selection is pruned and annotated
    and becomes the stored hierarchy.  In the selection, without [replace]
    every additional edge is present with weight 1; with [replace] the last
    additional edge into a node is present with weight 1 and is the only
    edge into that node.  Each round of the loop sets the weight of its
    edge to 1, after removing with [replace] every edge into its target.
    The hierarchy that [pick] returns has the nodes of the selection that
    [prune] leaves, and every edge of the selection between two of them;
    an additional edge is in it when [prune] leaves its two ends, and is
    not when [prune] takes one of them away. *)
Theorem pick_additional_edges :
  forall (w0 : Weaver) (partitions : list (list Z)) (terminals : terminals_arg)
         (boolean : bool) (levels : levels_arg) (c : config) (w : Weaver) (h1 : DiGraph),
    (0 < cutoff c)%Q ->
    weave w0 partitions terminals boolean levels c = (w, Ok h1) ->
    exists G, _full w = Some G /\ hier w = Some h1 /\
    forall (pe pte : Q) (additional : option (list edge)) (rep strict : bool),
    let adds := additional_edges additional in
    let res := pick w pe pte additional rep strict in
    ((exists e, snd res = Raise e) <->
     (exists u v, In (u, v) adds /\ has_edge G u v = false)) /\
    (forall e, snd res = Raise e ->
       fst res = w /\
       exists u v, e = ValueError (EdgeMissing u v) /\ In (u, v) adds /\
                   has_edge G u v = false) /\
    ((forall u v, In (u, v) adds -> has_edge G u v = true) ->
       exists se ste T h0 h,
         _secondary_edges w = Some se /\ _secondary_terminal_edges w = Some ste /\
         select G (map fst se) (map fst ste) pe pte additional rep = Ok T /\
         prune T strict = Ok h0 /\ update_depth_graph h0 = Ok h /\
         res = (set_hier w (Some h), Ok h) /\
         (rep = false ->
            forall e, In e adds -> lookup_edge (g_edges T) e = Some 1%Q) /\
         (rep = true ->
            forall pre u v post, adds = pre ++ (u, v) :: post ->
              (forall p, ~ In (p, v) post) ->
              lookup_edge (g_edges T) (u, v) = Some 1%Q /\
              forall p, In (p, v) (edges T) -> p = u) /\
         (forall x, In x (nodes h) -> In x (nodes T)) /\
         (forall u v, In (u, v) (edges T) ->
            (In u (nodes h) /\ In v (nodes h) <-> In (u, v) (edges h)))) /\
    (forall T u v, has_edge G u v = true ->
       exists T', add_manual G rep T (u, v) = Ok T' /\
                  lookup_edge (g_edges T') (u, v) = Some 1%Q /\
                  (rep = true -> forall p, In (p, v) (edges T') -> p = u)).
Proof.
  intros w0 partitions terminals boolean levels c w h1 Hc HW.
  destruct (weave_built _ _ _ _ _ _ _ _ HW)
    as (L & G & root & s & Hw & ES & EG & Ese & Este & Eh & Hpos).
  destruct (Hpos Hc) as (rk & t & HG & Hin & Ht).
  exists G. split; [exact EG|]. split; [exact Eh|].
  intros pe pte additional rep strict.
  destruct (pick_additional_core rk root L s w G t pe pte additional rep strict
              HG Hin ES EG Ese Este Ht) as (H1 & H2 & H3 & H4).
  cbn zeta in H1, H2, H3, H4 |- *.
  split; [exact H1|]. split; [exact H2|]. split; [|exact H4].
  intro Hall.
  destruct (H3 Hall) as (se & ste & T & h0 & h & E1 & E2 & ET & E0 & Ed & Er & Hf & Ht').
  exists se, ste, T, h0, h.
  do 6 (split; [assumption|]). split; [exact Hf|]. split; [exact Ht'|].
  assert (se = fst s) as -> by congruence.
  assert (ste = snd s) as -> by congruence.
  destruct (select_inv rk root L G s pe pte additional rep T HG ES ET) as (HT & _ & _).
  destruct (prune_hier rk root T strict h0 HT E0) as [H0 _].
  destruct (update_depth_graph_edges h0 h Ed) as [Ee En].
  destruct (prune_keeps_edges strict T h0 (hi_wf HT) E0) as [Hsub Hkeep].
  split.
  - intros x Hx. rewrite En in Hx. now apply Hsub.
  - intros u v Huv. unfold edges. rewrite Ee, En. fold (edges h0). split.
    + intros [Hu Hv]. exact (Hkeep u v Huv Hu Hv).
    + intro He. exact (proj2 (proj2 (hi_wf H0)) u v He).
Qed.

(** * The worked inputs *)

Lemma Some_eq : forall (A : Type) (a b : A), Some a = Some b -> a = b.
Proof. intros A a b H. now inversion H. Qed.

Lemma docstring_weave_returns :
  weave init_weaver docstring_partitions TNone true (LBool false) docstring_config
  = (docstring_weaver, Ok docstring_hier).
Proof. vm_compute. reflexivity. Qed.

Lemma docstring_full_cached : _full docstring_weaver = Some docstring_full.
Proof. vm_compute. reflexivity. Qed.

Lemma weave_hierarchy_acyclic_one_root_witness :
  acyclic docstring_hier /\
  (exists r, only_root docstring_hier r /\ get_root docstring_hier = Some r) /\
  hier docstring_weaver = Some docstring_hier.
Proof.
  apply (weave_hierarchy_acyclic_one_root init_weaver docstring_partitions TNone true
           (LBool false) docstring_config docstring_weaver docstring_hier).
  - reflexivity.
  - vm_compute. reflexivity.
Defined.

Lemma pick_zero_single_parent_witness :
  (forall (rep strict : bool) (w' : Weaver) (h : DiGraph),
     pick docstring_weaver 0 0 None rep strict = (w', Ok h) ->
     forall v, (in_degree h v <= 1)%nat) /\
  ((0 < cutoff docstring_config)%Q ->
   forall rep strict : bool,
     exists h, pick docstring_weaver 0 0 None rep strict
               = (set_hier docstring_weaver (Some h), Ok h)).
Proof.
  apply (pick_zero_single_parent init_weaver docstring_partitions TNone true
           (LBool false) docstring_config docstring_weaver docstring_hier).
  vm_compute. reflexivity.
Defined.

Lemma pick_additional_edges_witness :
  exists e,
    snd (pick docstring_weaver 100 0 (Some [(Internal 4 0, Terminal 7)]) true false)
    = Raise e.
Proof.
  destruct (pick_additional_edges init_weaver docstring_partitions TNone true
              (LBool false) docstring_config docstring_weaver docstring_hier)
    as (G & EG & _ & H).
  - reflexivity.
  - vm_compute. reflexivity.
  - destruct (H 100%Q 0%Q (Some [(Internal 4 0, Terminal 7)]) true false) as (Hiff & _).
    apply Hiff. exists (Internal 4 0), (Terminal 7). split; [now left|].
    rewrite docstring_full_cached in EG. apply Some_eq in EG. subst G.
    vm_compute. reflexivity.
Defined.

(** [pick(100, additional=[((1, 0), (4, 0))])] on the example: the edge
    is an edge of the candidate graph and has weight 1 in the selection,
    where [(4, 0)] has lost its secondary edge to terminal 2 and is left
    with one parent and one child; [prune] takes [(4, 0)] away, and the
    hierarchy that [pick] returns has neither the node nor the edge. *)
Lemma pick_additional_edge_pruned :
  exists T h,
    option_map (map fst) (_secondary_edges docstring_weaver)
    = Some [(Internal 1 0, Internal 5 0)] /\
    option_map (map fst) (_secondary_terminal_edges docstring_weaver)
    = Some [(Internal 4 0, Terminal 2)] /\
    select docstring_full [(Internal 1 0, Internal 5 0)] [(Internal 4 0, Terminal 2)]
           100 0 (Some [(Internal 1 0, Internal 4 0)]) false = Ok T /\
    lookup_edge (g_edges T) (Internal 1 0, Internal 4 0) = Some 1%Q /\
    pick docstring_weaver 100 0 (Some [(Internal 1 0, Internal 4 0)]) false false
    = (set_hier docstring_weaver (Some h), Ok h) /\
    has_edge docstring_full (Internal 1 0) (Internal 4 0) = true /\
    has_node h (Internal 4 0) = false /\
    has_edge h (Internal 1 0) (Internal 4 0) = false.
Proof.
  do 2 eexists. split; [vm_compute; reflexivity|].
  split; [vm_compute; reflexivity|].
  split; [vm_compute; reflexivity|].
  split; [vm_compute; reflexivity|].
  split; [vm_compute; reflexivity|].
  split; [vm_compute; reflexivity|].
  split; vm_compute; reflexivity.
Qed.

Lemma attached_clusters_unrelated_witness :
  ~ path docstring_full (Internal 3 0) (Internal 4 0) /\
  ~ path docstring_full (Internal 4 0) (Internal 3 0).
Proof.
  destruct (attached_clusters_unrelated docstring_assigned (9 # 10)
              (fst (_build docstring_assigned (9 # 10))) docstring_full) as [_ H].
  - vm_compute. reflexivity.
  - apply (H 2 (Internal 3 0) (Internal 4 0)).
    + vm_compute. tauto.
    + vm_compute. tauto.
    + discriminate.
Defined.

Lemma pick_hundred_keeps_cluster_edges_witness :
  snd (pick docstring_weaver 100 100 None false false)
  = (h0 <- prune (copy docstring_full) false ;; update_depth_graph h0) /\
  snd (pick docstring_weaver 100 0 None false false)
  = (h0 <- prune (remove_edges_from (copy docstring_full) [(Internal 4 0, Terminal 2)])
                 false ;;
     update_depth_graph h0).
Proof.
  apply (pick_hundred_keeps_cluster_edges docstring_weaver docstring_full
           [((Internal 1 0, Internal 5 0), 6004799503160661 # 18014398509481984)] [((Internal 4 0, Terminal 2), 2%nat)]
           false).
  - vm_compute. reflexivity.
  - vm_compute. reflexivity.
  - vm_compute. reflexivity.
Defined.

(** [pick(100)] leaves the secondary terminal edge [(4, 0) -> 2] of the
    example out, and node [(4, 0)] with it; the pruned candidate graph has
    both. *)
Lemma pick_hundred_drops_terminal_edge :
  exists h h',
    snd (pick docstring_weaver 100 0 None false false) = Ok h /\
    (h0 <- prune (copy docstring_full) false ;; update_depth_graph h0) = Ok h' /\
    has_edge docstring_full (Internal 4 0) (Terminal 2) = true /\
    has_node h (Internal 4 0) = false /\
    has_edge h' (Internal 4 0) (Terminal 2) = true.
Proof.
  do 2 eexists. split; [vm_compute; reflexivity|].
  split; [vm_compute; reflexivity|].
  split; [|split]; vm_compute; reflexivity.
Qed.

Lemma init_step_competing_edge_witness :
  lookup_edge
    (g_edges (init_step [[true; true]; [true; false]] [0; 1] [1; 1] (8 # 10)
                        empty_graph (1, 0)))
    (Internal 0 0, Internal 1 0)
  = Some (at2 (CI [[true; true]; [true; false]]) 1 0).
Proof.
  destruct (init_step_competing_edge [[true; true]; [true; false]] [0; 1] [1; 1] (8 # 10)
              empty_graph 1 0) as [H _].
  - discriminate.
  - destruct H as [H _]; [reflexivity|].
    destruct H as [H _]; [reflexivity|]. exact H.
Defined.

(** With two clusters of the same members, the pair [(1, 0)] has a
    containment index of 1, above the cutoff, and the edge
    [(0, 0) -> (1, 0)] is not in the graph after the loop: the pair [(0, 1)]
    came first and its edge [(1, 0) -> (0, 0)] has the same weight. *)
Lemma init_graph_tie_drops_edge :
  In (1, 0) (gen twin_rows [0; 1] false) /\
  Qle_bool (8 # 10) (at2 (CI twin_rows) 1 0) = true /\
  has_edge (init_graph twin_rows [0; 1] [1; 1] false (8 # 10))
           (Internal 0 0) (Internal 1 0) = false /\
  has_edge (init_graph twin_rows [0; 1] [1; 1] false (8 # 10))
           (Internal 1 0) (Internal 0 0) = true.
Proof.
  split; [vm_compute; tauto|]. split; [|split]; vm_compute; reflexivity.
Qed.

Lemma update_depth_shortest_path_witness :
  exists T',
    update_depth (set_hier init_weaver (Some small_hier))
    = (set_hier (set_hier init_weaver (Some small_hier)) (Some T'), Ok tt) /\
    get_depth T' (Internal 0 0) = Some 0%nat.
Proof.
  destruct (update_depth_shortest_path (set_hier init_weaver (Some small_hier))
              small_hier (Internal 0 0)) as (T' & E & _ & _ & _ & H0 & _).
  - reflexivity.
  - split; [|split].
    + repeat constructor; simpl; intuition discriminate.
    + repeat constructor; simpl; intuition discriminate.
    + intros u v H. simpl in H. destruct H as [H|[H|[]]]; inversion H; subst; simpl; auto.
  - intros n a H. simpl in H.
    destruct H as [H|[H|[H|[]]]]; inversion H; reflexivity.
  - reflexivity.
  - exists T'. split; assumption.
Defined.


(** C6.  [prune] is not idempotent.  On the graph that [pick] hands to
    [prune] for [chain_partitions], the first [prune] (default policy)
    returns a graph in which cluster [(3, 0)] has one parent, the root, and
    one child, terminal 0: it was visited while it still had two parents,
    [(1, 0)] and [(4, 0)], and both were collapsed into the root afterwards.
    On that graph [(3, 0)] is a single branch, and the second [prune]
    removes it. *)
Theorem prune_twice_differs :
  exists h h',
    prune chain_selection false = Ok h /\
    prune h false = Ok h' /\
    nodes h = [Internal 0 0; Internal 3 0; Terminal 0; Terminal 1; Terminal 2;
               Terminal 3; Terminal 4; Terminal 5] /\
    predecessors h (Internal 3 0) = [Internal 0 0] /\
    successors h (Internal 3 0) = [Terminal 0] /\
    _single_branch false h (Internal 3 0) = true /\
    nodes h' = [Internal 0 0; Terminal 0; Terminal 1; Terminal 2;
                Terminal 3; Terminal 4; Terminal 5] /\
    snd (weave init_weaver chain_partitions TNone true (LBool false) chain_config)
    = update_depth_graph h.
Proof.
  do 2 eexists. split; [vm_compute; reflexivity|].
  split; [vm_compute; reflexivity|].
  do 5 (split; [vm_compute; reflexivity|]).
  vm_compute. reflexivity.
Qed.

(** * The removal of redundant edges is a transitive reduction *)

Lemma redundant_edges_In : forall G a b v, wf_graph G ->
  In a (predecessors G v) -> In b (ancestors G v) -> has_edge G a b = true ->
  In (a, v) (redundant_edges G).
Proof.
  intros G a b v Hw Ha Hb Hab. unfold redundant_edges. apply in_flat_map.
  exists v. split.
  - apply In_predecessors in Ha. now apply Hw in Ha.
  - apply in_flat_map. exists a. split; [assumption|].
    assert (existsb (fun b0 => neq a b0 && has_edge G a b0) (ancestors G v) = true) as ->.
    { apply existsb_exists. exists b. split; [assumption|]. now rewrite Hab. }
    now left.
Qed.

Lemma path_first_rank : forall G (rk : node -> Z), ranked rk G ->
  forall b x, path G b x -> b <> x -> rk x < rk b.
Proof.
  intros G rk Hr b x Hp Hne. destruct Hp as [b|b y x E Hp]; [congruence|].
  pose proof (Hr _ _ E). pose proof (path_rank G rk Hr _ _ Hp). lia.
Qed.

Lemma path_lift : forall G G' (rk : node -> Z) K, ranked rk G ->
  (forall y z, In (y, z) (edges G) -> rk y - rk z < K -> path G' y z) ->
  forall b x, path G b x -> rk b - rk x < K -> path G' b x.
Proof.
  intros G G' rk K Hr Hedge b x Hp. induction Hp as [b|b y x E Hp IH]; intro HK.
  - apply path_refl.
  - pose proof (Hr _ _ E). pose proof (path_rank G rk Hr _ _ Hp).
    eapply path_trans; [apply Hedge; [exact E|lia]|apply IH; lia].
Qed.

Lemma redundant_edge_path : forall G (rk : node -> Z), wf_graph G -> ranked rk G ->
  forall K : nat, forall u x, In (u, x) (edges G) -> rk u - rk x < Z.of_nat K ->
  path (remove_redundant G) u x.
Proof.
  intros G rk Hw Hr. induction K as [|K IH]; intros u x E HK.
  - pose proof (Hr _ _ E). lia.
  - destruct (in_dec edge_eq_dec (u, x) (redundant_edges G)) as [Hin|Hout].
    + apply In_redundant_edges in Hin as (_ & b & Hb & Hub).
      apply (In_ancestors G b x Hw) in Hb as (_ & Hne & Hp).
      apply has_edge_In in Hub.
      pose proof (path_first_rank G rk Hr b x Hp Hne) as Hbx.
      pose proof (Hr _ _ Hub) as Hub'.
      eapply path_trans.
      * apply (IH u b Hub). lia.
      * apply (path_lift G (remove_redundant G) rk (Z.of_nat K) Hr IH b x Hp). lia.
    + apply path_edge. unfold remove_redundant. apply edges_remove_edges_from. auto.
Qed.

(** Taking the redundant edges out of an acyclic graph changes no
    reachability: whatever was reachable from a node still is. *)
Theorem remove_redundant_keeps_paths :
  forall (G : DiGraph) (rk : node -> Z),
    wf_graph G -> ranked rk G ->
    forall u v, path G u v <-> path (remove_redundant G) u v.
Proof.
  intros G rk Hw Hr u v. split.
  - intro Hp. induction Hp as [u|u x v E Hp IH]; [apply path_refl|].
    eapply path_trans; [|exact IH].
    pose proof (Hr _ _ E).
    apply (redundant_edge_path G rk Hw Hr (S (Z.to_nat (rk u - rk x))) u x E). lia.
  - apply path_mono. intros e He. unfold remove_redundant in He.
    now apply edges_remove_edges_from in He.
Qed.

Lemma remove_redundant_no_shortcut : forall G a b n,
  wf_graph G -> In (a, n) (edges (remove_redundant G)) -> In (a, b) (edges G) ->
  b <> n -> ~ path G b n.
Proof.
  intros G a b n Hw Han Hab Hne Hp.
  unfold remove_redundant in Han. apply edges_remove_edges_from in Han as [Han Hnot].
  apply Hnot. apply redundant_edges_In with (b := b).
  - assumption.
  - now apply In_predecessors.
  - apply In_ancestors; [assumption|]. split; [|split; assumption].
    now apply Hw in Hab.
  - now apply has_edge_In.
Qed.

(** The candidate graph of [_build] has no shortcut: beside an edge
    [a -> n] there is no path from [a] to [n] through another child of
    [a], between clusters and down to the terminals. *)
Theorem candidate_graph_no_shortcut :
  forall (w : Weaver) (c : Q) (w' : Weaver) (G : DiGraph),
    (0 < c)%Q -> _build w c = (w', Ok G) ->
    forall a b n, In (a, n) (edges G) -> In (a, b) (edges G) -> b <> n -> ~ path G b n.
Proof.
  intros w c w' G Hc HB a b n Han Hab Hne Hp.
  destruct (_build_Ok w c w' G HB)
    as (L & lv & labels & ts & root & s & EB & _).
  destruct (build_graph_props _ _ _ _ _ _ _ _ (or_intror Hc) EB)
    as (Hw & _ & _ & Hr & _).
  pose proof EB as EB'.
  apply build_graph_phases in EB' as (G1 & E1 & E2).
  assert (cluster_graph G1) as HG1.
  { eapply cluster_add_root; [|exact E1]. apply cluster_init_graph. }
  assert (cluster_graph (remove_redundant G1)) as HG0 by now apply cluster_remove_redundant.
  destruct (attach_terminals_spec L ts _ HG0) as (G' & r & E' & Hi & _).
  rewrite E2 in E'. inversion E'; subst G'. clear E'.
  destruct (istuple n) eqn:Hn.
  - assert (istuple b = true) as Hb.
    { inversion Hp; subst; [congruence|]. eapply (ai_src Hi); eassumption. }
    apply (ai_old Hi) in Han; [|assumption]. apply (ai_old Hi) in Hab; [|assumption].
    apply (path_to_cluster _ HG0 _ _ _ Hi) in Hp; [|assumption].
    apply (remove_redundant_no_shortcut G1 a b n); try assumption.
    + apply HG1.
    + unfold remove_redundant in Hab. now apply edges_remove_edges_from in Hab.
    + revert Hp. apply path_mono. intros e He. unfold remove_redundant in He.
      now apply edges_remove_edges_from in He.
  - destruct n as [i k|t]; [discriminate|].
    apply path_last in Hp as [E|[q [Hbq Hq]]]; [congruence|].
    assert (path G a q) as Haq by (eapply path_step; eassumption).
    destruct (node_eq_dec a q) as [->|Hneq].
    + apply (ranked_acyclic G _ Hr q b Hab Hbq).
    + destruct (attached_unrelated_core _ _ _ _ _ _ _ _ EB t a q Han Hq Hneq) as [H _].
      now apply H.
Qed.

(** * Every cluster reaches its terminals *)

Section Cover.

Variable G0 : DiGraph.
Hypothesis HG0 : cluster_graph G0.

Lemma scan_attached_cover : forall n t, istuple n = true ->
  forall idx G r pre post skip G' att',
  attach_inv G0 G r (Some t) ->
  get_attached r t = pre ++ post ->
  length pre = idx ->
  scan_attached G n (Terminal t) idx (pre ++ post) = Ok (skip, G', att') ->
  (forall o, In o (pre ++ post) -> In o att' \/ path G0 o n) /\
  (skip = true -> exists o, In o att' /\ path G0 n o).
Proof.
  intros n t Hn. induction idx as [|k IH]; intros G r pre post skip G' att' Hi E Hlen Es.
  - destruct pre; [|discriminate]. simpl in *. inversion Es; subst.
    split; [auto|discriminate].
  - destruct (list_last_split _ pre k Hlen) as [pre' [o [-> Hlen']]].
    rewrite <- app_assoc in *. simpl in *.
    assert (In o (get_attached r t)) as Ho by (rewrite E; apply in_app_iff; simpl; auto).
    assert (istuple o = true) as Hto.
    { apply (ai_rec Hi) in Ho. eapply ai_src; eassumption. }
    assert ((k <? length (pre' ++ o :: post))%nat = true) as Hk.
    { apply Nat.ltb_lt. rewrite length_app. simpl. lia. }
    assert (nth k (pre' ++ o :: post) n = o) as Hnth.
    { rewrite <- Hlen'. apply nth_middle. }
    rewrite Hk, Hnth in Es.
    destruct (has_path G n o) eqn:E1.
    + assert (path G0 n o) as Hno by now apply (has_path_cluster G0 HG0 G r _ Hi n o Hto).
      inversion Es; subst. split; [auto|]. intros _. exists o. split.
      * apply in_app_iff. simpl. auto.
      * assumption.
    + destruct (has_path G o n) eqn:E2.
      * unfold remove_edge in Es.
        assert (has_edge G o (Terminal t) = true) as He
          by (apply has_edge_In, (ai_rec Hi); assumption).
        rewrite He in Es. cbn [bind] in Es.
        assert (NoDup (pre' ++ o :: post)) as Hnd by (rewrite <- E; apply (ai_nodup Hi)).
        rewrite remove_first_middle in Es.
        2:{ apply NoDup_remove in Hnd as [_ Hnd]. intro H. apply Hnd, in_app_iff. auto. }
        pose proof (attach_inv_remove G0 t G r pre' o post Hi E) as Hi1.
        destruct (IH _ _ pre' post skip G' att' Hi1 (get_set_attached_same _ _ _) Hlen' Es)
          as [Hc Hs].
        split; [|exact Hs].
        intros x Hx. apply in_app_iff in Hx as [Hx|[<-|Hx]].
        -- apply Hc, in_app_iff. auto.
        -- right. now apply (has_path_cluster G0 HG0 G r _ Hi o n Hn).
        -- apply Hc, in_app_iff. auto.
      * apply (IH G r pre' (o :: post) skip G' att' Hi E Hlen' Es).
Qed.

Variable terminals : list Z.

Lemma attach_one_cover : forall n st i st' D,
  istuple n = true -> attach_ok G0 st -> covered G0 (snd st) D ->
  attach_one terminals n st i = Ok st' ->
  covered G0 (snd st') (fun N t => D N t \/ (N = n /\ t = nthZ terminals i 0)).
Proof.
  intros n [G r] i st' D Hn Hi Hcov. unfold attach_ok in Hi. cbn [fst snd] in *.
  unfold attach_one. cbn [fst snd]. set (t := nthZ terminals i 0).
  destruct (scan_attached G n (Terminal t) (length (get_attached r t)) (get_attached r t))
    as [[[skip G1] att1]|e] eqn:Es; cbn [bind fst snd]; [|discriminate].
  destruct (scan_attached_cover n t Hn (length (get_attached r t)) G r (get_attached r t) []
              skip G1 att1 (attach_inv_busy G0 t G r Hi)) as [Hc Hs].
  { now rewrite app_nil_r. }
  { reflexivity. }
  { now rewrite app_nil_r. }
  rewrite app_nil_r in Hc.
  assert (forall att2, (forall o, In o att1 -> In o att2) ->
            (exists o, In o att2 /\ path G0 n o) ->
            covered G0 (set_attached r t att2)
                    (fun N t' => D N t' \/ (N = n /\ t' = t))) as Hgen.
  { intros att2 Hinc (o & Ho & Hno) N t' [HD|[-> ->]].
    - destruct (Hcov N t' HD) as (q & Hq & HNq).
      destruct (Z.eq_dec t' t) as [->|Hne].
      + rewrite get_set_attached_same. destruct (Hc q Hq) as [Hq1|Hqn].
        * exists q. auto.
        * exists o. split; [assumption|].
          eapply path_trans; [exact HNq|]. eapply path_trans; eassumption.
      + rewrite get_set_attached_other by assumption. eauto.
    - rewrite get_set_attached_same. eauto. }
  destruct skip; intro E; inversion E; subst st'; cbn [snd]; apply Hgen.
  - auto.
  - now apply Hs.
  - intros o Ho. apply in_app_iff. auto.
  - exists n. split; [apply in_app_iff; simpl; auto|apply path_refl].
Qed.

Variable L : list (list bool).

Lemma attach_node_cover : forall n st st' D,
  In n (nodes G0) -> attach_ok G0 st -> covered G0 (snd st) D ->
  attach_node L terminals st n = Ok st' ->
  attach_ok G0 st' /\
  covered G0 (snd st')
    (fun N t => D N t \/
       exists i k p, n = Internal i k /\ N = n /\ i <> -1 /\
                     In p (true_positions (nthZ L i [])) /\ t = nthZ terminals p 0).
Proof.
  intros n st st' D Hn0 Hi Hcov.
  assert (istuple n = true) as Hn by (apply HG0; assumption).
  destruct n as [i k|t]; [|discriminate]. unfold attach_node.
  destruct (i =? -1) eqn:Ei.
  - intro E. inversion E; subst st'. split; [assumption|].
    intros N t [HD|(i' & k' & p & E' & _ & Hne & _)]; [now apply Hcov|].
    inversion E'; subst. apply Z.eqb_eq in Ei. contradiction.
  - assert (forall ps st0 D0, attach_ok G0 st0 -> covered G0 (snd st0) D0 ->
              foldM (attach_one terminals (Internal i k)) ps st0 = Ok st' ->
              attach_ok G0 st' /\
              covered G0 (snd st')
                (fun N t => D0 N t \/
                   (N = Internal i k /\ exists p, In p ps /\ t = nthZ terminals p 0))) as H.
    { induction ps as [|p ps IH]; intros st0 D0 Hi0 Hc0; simpl.
      - intro E. inversion E; subst. split; [assumption|].
        intros N t [HD|(_ & p & [] & _)]. now apply Hc0.
      - destruct (attach_one_spec terminals G0 HG0 (Internal i k) st0 p Hn Hn0 Hi0)
          as (st1 & E1 & Hi1 & _).
        rewrite E1. cbn [bind]. intro E2.
        pose proof (attach_one_cover (Internal i k) st0 p st1 D0 Hn Hi0 Hc0 E1) as Hc1.
        destruct (IH st1 _ Hi1 Hc1 E2) as [Hi2 Hc2].
        split; [assumption|].
        intros N t HD. apply Hc2.
        destruct HD as [HD|(-> & p' & [<-|Hp'] & ->)]; eauto 8. }
    intro E. destruct (H _ st D Hi Hcov E) as [Hi' Hc'].
    split; [assumption|].
    intros N t [HD|(i' & k' & p & E' & -> & Hne & Hp & ->)]; apply Hc'; [now left|].
    inversion E'; subst. right. split; [reflexivity|]. eauto.
Qed.

Lemma attach_terminals_cover : forall G,
  attach_terminals L terminals G0 = Ok G ->
  forall i k p, In (Internal i k) (nodes G0) -> i <> -1 ->
    In p (true_positions (nthZ L i [])) ->
    path G (Internal i k) (Terminal (nthZ terminals p 0)).
Proof.
  intros G. unfold attach_terminals.
  destruct (foldM (attach_node L terminals) (nodes G0) (G0, [])) as [st|e] eqn:E;
    cbn [bind]; [|discriminate].
  intro EG. inversion EG; subst G. clear EG.
  assert (forall l st0 D0, incl l (nodes G0) -> attach_ok G0 st0 -> covered G0 (snd st0) D0 ->
            foldM (attach_node L terminals) l st0 = Ok st ->
            attach_ok G0 st /\
            covered G0 (snd st)
              (fun N t => D0 N t \/
                 exists i k p, In (Internal i k) l /\ N = Internal i k /\ i <> -1 /\
                               In p (true_positions (nthZ L i [])) /\
                               t = nthZ terminals p 0)) as H.
  { induction l as [|n l IH]; intros st0 D0 Hl Hi0 Hc0; simpl.
    - intro E0. inversion E0; subst. split; [assumption|].
      intros N t [HD|(i & k & p & [] & _)]. now apply Hc0.
    - destruct (attach_node L terminals st0 n) as [st1|e] eqn:E1; cbn [bind]; [|discriminate].
      intro E2.
      destruct (attach_node_cover n st0 st1 D0 (Hl n (or_introl eq_refl)) Hi0 Hc0 E1)
        as [Hi1 Hc1].
      destruct (IH st1 _ (fun x Hx => Hl x (or_intror Hx)) Hi1 Hc1 E2) as [Hi2 Hc2].
      split; [assumption|].
      intros N t HD. apply Hc2.
      destruct HD as [HD|(i & k & p & [->|Hin] & -> & Hne & Hp & ->)].
      + left. now left.
      + left. right. exists i, k, p. auto.
      + right. exists i, k, p. auto. }
  destruct (H (nodes G0) (G0, []) (fun _ _ => False) (incl_refl _)
              (attach_inv_init G0 HG0)) as [Hi Hc].
  { intros N t []. }
  { exact E. }
  intros i k p Hin Hne Hp.
  destruct (Hc (Internal i k) (nthZ terminals p 0)) as (q & Hq & Hpq).
  { right. exists i, k, p. auto. }
  unfold attach_ok in Hi. apply (ai_rec Hi) in Hq.
  eapply path_snoc; [|exact Hq].
  apply (path_to_cluster G0 HG0 _ _ _ Hi); [|assumption].
  eapply ai_src; eassumption.
Qed.

End Cover.

Lemma In_true_positions : forall row p,
  In p (true_positions row) <->
  0 <= p < Z.of_nat (length row) /\ nth (Z.to_nat p) row false = true.
Proof.
  intros row p. unfold true_positions, range.
  rewrite in_map_iff. split.
  - intros [[q b] [E H]]. simpl in E. subst q. apply filter_In in H as [H Hb].
    simpl in Hb. subst b.
    assert (forall s (l : list bool) x, In (x, true) (combine (map Z.of_nat (seq s (length l))) l) ->
              Z.of_nat s <= x < Z.of_nat (s + length l) /\
              nth (Z.to_nat x - s) l false = true) as Hgen.
    { intros s l. revert s. induction l as [|b l IH]; intros s x Hx; [destruct Hx|].
      simpl in Hx. destruct Hx as [Hx|Hx].
      - inversion Hx; subst. rewrite Nat2Z.id, Nat.sub_diag. simpl. split; [lia|reflexivity].
      - apply IH in Hx as [H1 H2]. simpl length. split; [lia|].
        replace (Z.to_nat x - s)%nat with (S (Z.to_nat x - S s)) by lia. exact H2. }
    apply Hgen in H as [H1 H2]. rewrite Nat.sub_0_r in H2. simpl in H1. split; [lia|assumption].
  - intros [Hp Hn]. exists (p, true). split; [reflexivity|]. apply filter_In. split; [|reflexivity].
    assert (forall s (l : list bool) k, (k < length l)%nat -> nth k l false = true ->
              In (Z.of_nat (s + k), true) (combine (map Z.of_nat (seq s (length l))) l)) as Hgen.
    { intros s l. revert s. induction l as [|b l IH]; intros s k Hk Hn'; [simpl in Hk; lia|].
      destruct k as [|k]; simpl in *.
      - subst b. left. now rewrite Nat.add_0_r.
      - right. replace (s + S k)%nat with (S s + k)%nat by lia. apply IH; [lia|assumption]. }
    specialize (Hgen 0%nat row (Z.to_nat p)). simpl in Hgen. rewrite Z2Nat.id in Hgen by lia.
    apply Hgen; [lia|assumption].
Qed.

(** In the candidate graph of [_build] every cluster has a path to each of
    the terminals its row of the assignment matrix marks. *)
Theorem cluster_reaches_its_terminals :
  forall (w : Weaver) (c : Q) (w' : Weaver) (G : DiGraph)
         (L : list (list bool)) (ts : list Z),
    _build w c = (w', Ok G) ->
    _assignment w = Some L -> _terminals w = Some ts ->
    forall (i k : Z) (p : nat),
      In (Internal i k) (nodes G) -> 0 <= i ->
      (p < length (nthZ L i []))%nat -> nth p (nthZ L i []) false = true ->
      path G (Internal i k) (Terminal (nth p ts 0)).
Proof.
  intros w c w' G L ts HB EL Ets i k p Hin Hi Hp Hn.
  unfold _build in HB. rewrite EL, Ets in HB.
  destruct (_levels w) as [lv|]; [|discriminate].
  destruct (_labels w) as [labels|]; [|discriminate].
  destruct (build_graph L lv labels (assume_levels w) ts c) as [[G1 root]|e] eqn:EB;
    [|discriminate].
  cbn [fst snd] in HB. destruct (secondary L G1 root) as [s|e]; [|discriminate].
  inversion HB; subst G1. clear HB.
  apply build_graph_phases in EB as (G1 & E1 & E2).
  assert (cluster_graph (remove_redundant G1)) as HG0.
  { apply cluster_remove_redundant. eapply cluster_add_root; [|exact E1].
    apply cluster_init_graph. }
  destruct (attach_terminals_spec L ts _ HG0) as (G' & r & E' & Hinv & _).
  rewrite E2 in E'. inversion E'; subst G'. clear E'.
  pose proof (attach_terminals_cover _ HG0 ts L G E2 i k (Z.of_nat p)) as H.
  unfold nthZ in H at 2. rewrite Nat2Z.id in H. apply H.
  - now apply (ai_nodes Hinv).
  - lia.
  - apply In_true_positions. rewrite Nat2Z.id. split; [lia|assumption].
Qed.

(** * The hierarchy that [pick] returns *)

(** ** Every node is below the root *)

Lemma list_max_rank : forall (f : node -> Z) (l : list node), l <> [] ->
  exists m, In m l /\ forall x, In x l -> f x <= f m.
Proof.
  intros f l Hl. destruct (list_min_rank (fun n => - f n) l Hl) as (m & Hm & Hmin).
  exists m. split; [assumption|]. intros x Hx. apply Hmin in Hx. lia.
Qed.

Lemma rooted_reachable : forall rk r T, hier_inv rk r T ->
  forall v, In v (nodes T) -> path T r v.
Proof.
  intros rk r T Hi v Hv.
  destruct (list_max_rank rk (nodes T)) as (m & Hm & Hmax).
  { intro E. rewrite E in Hv. destruct Hv. }
  destruct (hi_rooted Hi) as [Hpar _].
  assert (forall k : nat, forall x, In x (nodes T) -> rk m - rk x <= Z.of_nat k -> path T r x) as H.
  { induction k as [|k IH]; intros x Hx Hk.
    - destruct (Hpar x Hx) as [->|[p Hp]]; [apply path_refl|].
      pose proof (hi_ranked Hi _ _ Hp). assert (In p (nodes T)) as Hpn by now apply (hi_wf Hi) in Hp.
      apply Hmax in Hpn. lia.
    - destruct (Hpar x Hx) as [->|[p Hp]]; [apply path_refl|].
      pose proof (hi_ranked Hi _ _ Hp). assert (In p (nodes T)) as Hpn by now apply (hi_wf Hi) in Hp.
      eapply path_snoc; [|exact Hp]. apply IH; [assumption|]. lia. }
  apply (H (Z.to_nat (rk m - rk v)) v Hv). pose proof (Hmax v Hv). lia.
Qed.

(** ** The depths *)

Local Open Scope nat_scope.

Lemma update_depth_graph_spec : forall T r,
  wf_graph T -> no_depth T -> get_root T = Some r ->
  exists T', update_depth_graph T = Ok T' /\
             g_edges T' = g_edges T /\ nodes T' = nodes T /\
             get_depth T' r = Some 0 /\
             (forall v d, get_depth T' v = Some d -> shortest T' r v d) /\
             (forall v, path T' r v -> exists d, get_depth T' v = Some d).
Proof.
  intros T r Hw Hn Hr.
  destruct (get_root_Some T r Hr) as [Hin _].
  destruct (bfs_inv_init T r Hw Hn Hin) as [Hi0 Hlen].
  destruct (update_topdown_spec (S (length (g_nodes T))) r _ [r] Hi0) as (T' & E & Hext & Hi).
  { simpl. lia. }
  assert (forall u v du, In (u, v) (edges T') -> get_depth T' u = Some du ->
            exists dv, get_depth T' v = Some dv /\ dv <= du + 1) as Hedge.
  { intros u v du Huv Hu. destruct (bi_done Hi u du Hu) as [[]|Hrel]. now apply Hrel. }
  assert (forall a b k, walk T' a b k -> forall da, get_depth T' a = Some da ->
            exists d, get_depth T' b = Some d /\ d <= da + k) as Hgen.
  { intros a b k Hab. induction Hab as [a|a x b k Eax Hxb IH]; intros da Ha.
    - exists da. split; [assumption|lia].
    - destruct (Hedge a x da Eax Ha) as [dx [Hx Hle]].
      destruct (IH dx Hx) as [d [Hd Hle']]. exists d. split; [assumption|lia]. }
  exists T'. split.
  { unfold update_depth_graph. rewrite Hr, E. reflexivity. }
  destruct Hext as (Ee & Ne & _).
  split; [exact Ee|]. split; [rewrite Ne; apply nodes_set_depth|].
  split; [apply (bi_root Hi)|]. split.
  - intros v d Hd. split; [now apply (bi_walk Hi)|].
    intros d' Hd'. destruct (Hgen r v d' Hd' 0 (bi_root Hi)) as [d2 [Hd2 Hle]].
    rewrite Hd in Hd2. inversion Hd2. lia.
  - intros v Hp. apply path_walk in Hp as [n Hn'].
    destruct (Hgen r v n Hn' 0 (bi_root Hi)) as [d [Hd _]]. eauto.
Qed.

Local Close Scope nat_scope.

(** ** No dead end is left *)

Lemma single_branch_has_child : forall strict T n,
  _single_branch strict T n = true -> out_degree T n <> O.
Proof.
  intros strict T n H E. unfold _single_branch in H.
  destruct (negb _); [discriminate|].
  unfold out_degree in *. destruct (successors T n) as [|c l]; [|discriminate].
  simpl in H. destruct strict; discriminate.
Qed.

Lemma no_dead_end_collapse : forall rk r strict T n T',
  hier_inv rk r T -> no_dead_end T ->
  _single_branch strict T n = true -> collapse T n = Ok T' -> no_dead_end T'.
Proof.
  intros rk r strict T n T' Hi Hnd Hsb Hc v Hv Ht Hout.
  destruct (single_branch_collapse strict T n (hi_wf Hi) Hsb)
    as (parent & T1 & Hp & Hpe & E & _ & _ & He).
  rewrite Hc in E. inversion E; subst T1. clear E.
  destruct (hier_inv_collapse rk r strict T n T' Hi Hsb Hc) as (_ & _ & Hnodes).
  apply Hnodes in Hv as [Hv Hvn].
  pose proof (proj1 (out_degree_zero T' v) Hout) as Hno.
  assert (exists c, In (v, c) (edges T)) as [c Hc'].
  { specialize (Hnd v Hv Ht). unfold out_degree in Hnd.
    destruct (successors T v) as [|c l] eqn:Es; [exfalso; now apply Hnd|].
    exists c. apply In_successors. rewrite Es. now left. }
  destruct (node_eq_dec c n) as [->|Hcn].
  - assert (v = parent) as ->.
    { apply In_predecessors in Hc'. rewrite Hp in Hc'. destruct Hc' as [<-|[]]. reflexivity. }
    pose proof (single_branch_has_child strict T n Hsb) as Hch. unfold out_degree in Hch.
    destruct (successors T n) as [|c l] eqn:Es; [exfalso; now apply Hch|].
    assert (In (n, c) (edges T)) as Hnc by (apply In_successors; rewrite Es; now left).
    apply (Hno c). apply He. split; [right; auto|]. split; [assumption|].
    intro Ec. subst c. pose proof (hi_ranked Hi _ _ Hnc). lia.
  - apply (Hno c). apply He. auto.
Qed.

Lemma prune_no_dead_end : forall rk r T strict h,
  hier_inv rk r T -> prune T strict = Ok h -> no_dead_end h.
Proof.
  intros rk r T strict h Hi. unfold prune.
  pose proof (remove_dead_ends_done (length (internal_nodes T)) T (internal_nodes T)
                (proj1 (hi_wf Hi)) eq_refl (Nat.le_refl _)) as [Hdone Hint].
  assert (hier_inv rk r (fst (remove_dead_ends (length (internal_nodes T)) T (internal_nodes T))))
    as H1.
  { apply remove_dead_ends_inv; [|assumption].
    intros T0 n H0 _ Hout. now apply hier_inv_drop. }
  set (T1 := fst (remove_dead_ends _ T _)) in *.
  set (i1 := snd (remove_dead_ends _ T _)) in *.
  assert (no_dead_end T1) as Hnd1.
  { intros v Hv Ht Hout. unfold has_dead_end in Hdone.
    assert (existsb (fun n => (out_degree T1 n =? 0)%nat) i1 = true) as Hex; [|congruence].
    apply existsb_exists. exists v. split; [|now apply Nat.eqb_eq].
    rewrite Hint. unfold internal_nodes. apply filter_In. auto. }
  clearbody T1. clear Hdone Hint i1.
  unfold traverse_topdown.
  destruct (get_root T1) as [r'|]; cbn [bind]; [|discriminate].
  intro E.
  assert (hier_inv rk r h /\ no_dead_end h) as [_ Hh]; [|exact Hh].
  revert E.
  apply (foldM_Ok_inv _ _ (fun T0 => hier_inv rk r T0 /\ no_dead_end T0)); [now split|].
  intros T0 n T' _ [H0 Hn0]. unfold collapse_step.
  destruct (_single_branch strict T0 n) eqn:Esb.
  - intro Hc. split.
    + now destruct (hier_inv_collapse rk r strict T0 n T' H0 Esb Hc).
    + eapply no_dead_end_collapse; eassumption.
  - intro E'. inversion E'; subst. now split.
Qed.

(** ** The nodes that stay *)

Lemma prune_nodes : forall rk r T strict h,
  hier_inv rk r T -> prune T strict = Ok h ->
  (forall t, In (Terminal t) (nodes h) <-> In (Terminal t) (nodes T)) /\
  (forall n a, In (n, a) (g_nodes h) -> In (n, a) (g_nodes T)).
Proof.
  intros rk r T strict h Hi. unfold prune.
  set (P := fun T0 : DiGraph =>
              hier_inv rk r T0 /\
              (forall t, In (Terminal t) (nodes T0) <-> In (Terminal t) (nodes T)) /\
              (forall n a, In (n, a) (g_nodes T0) -> In (n, a) (g_nodes T))).
  assert (P (fst (remove_dead_ends (length (internal_nodes T)) T (internal_nodes T)))) as H1.
  { apply remove_dead_ends_inv.
    - intros T0 n (H0 & Ht0 & Ha0) Hn Hout. split; [now apply hier_inv_drop|]. split.
      + intro t. rewrite nodes_drop_node, <- Ht0. split; [tauto|].
        intro H. split; [assumption|]. intro E. subst n. discriminate.
      + intros x a Hx. apply Ha0. unfold drop_node in Hx. simpl in Hx.
        now apply filter_In in Hx.
    - split; [assumption|]. split; [tauto|auto]. }
  set (T1 := fst (remove_dead_ends _ T _)) in *. clearbody T1.
  unfold traverse_topdown.
  destruct (get_root T1) as [r'|]; cbn [bind]; [|discriminate].
  intro E.
  assert (P h) as (_ & Ht & Ha); [|split; assumption].
  revert E. apply (foldM_Ok_inv _ _ P); [assumption|].
  intros T0 n T' _ (H0 & Ht0 & Ha0). unfold collapse_step.
  destruct (_single_branch strict T0 n) eqn:Esb.
  - intro Hc.
    destruct (hier_inv_collapse rk r strict T0 n T' H0 Esb Hc) as (H' & _ & Hnodes).
    destruct (single_branch_collapse strict T0 n (hi_wf H0) Esb)
      as (parent & T1' & _ & _ & E' & _ & Hg & _).
    rewrite Hc in E'. inversion E'; subst T1'. clear E'.
    pose proof (single_branch_internal strict T0 n (hi_src H0) Esb) as Hn.
    split; [assumption|]. split.
    + intro t. rewrite Hnodes, <- Ht0. split; [tauto|].
      intro H. split; [assumption|]. intro E'. subst n. discriminate.
    + intros x a Hx. apply Ha0. rewrite Hg in Hx. now apply filter_In in Hx.
  - intro E'. inversion E'; subst. split; [assumption|]. split; assumption.
Qed.

(** ** From [pick] to the hierarchy *)

Lemma pick_Ok_hier : forall rk root L s w G pe pte adds rep strict w' h,
  hier_inv rk root G -> secondary L G root = Ok s ->
  _full w = Some G -> _secondary_edges w = Some (fst s) ->
  _secondary_terminal_edges w = Some (snd s) ->
  pick w pe pte adds rep strict = (w', Ok h) ->
  exists T h0,
    hier_inv rk root T /\ g_nodes T = g_nodes G /\
    prune T strict = Ok h0 /\ hier_inv rk root h0 /\ In root (nodes h0) /\
    update_depth_graph h0 = Ok h.
Proof.
  intros rk root L s w G pe pte adds rep strict w' h HG ES EG Ese Este HP.
  destruct (pick_Ok w G _ _ pe pte adds rep strict w' h EG Ese Este HP)
    as (T & h0 & ET & E0 & Eh & _).
  destruct (select_inv rk root L G s pe pte adds rep T HG ES ET) as (HT & _ & En).
  destruct (prune_hier rk root T strict h0 HT E0) as [H0 Hr0].
  exists T, h0. auto 8.
Qed.

Lemma weave_hier : forall w partitions terminals boolean levels c w' h,
  (0 < cutoff c)%Q ->
  weave w partitions terminals boolean levels c = (w', Ok h) ->
  exists rk root G T h0,
    _full w' = Some G /\ hier_inv rk root G /\ istuple root = true /\
    hier_inv rk root T /\ g_nodes T = g_nodes G /\
    prune T (strict_single_branch c) = Ok h0 /\ hier_inv rk root h0 /\
    In root (nodes h0) /\ update_depth_graph h0 = Ok h.
Proof.
  intros w partitions terminals boolean levels c w' h Hc HW.
  destruct (weave_Ok _ _ _ _ _ _ _ _ HW) as (w3 & w4 & G & HB & HP).
  destruct (_build_Ok w3 (cutoff c) w4 G HB)
    as (L & lv & labels & ts & root & s & EB & ES & _ & EG & Ese & Este).
  destruct (build_graph_props _ _ _ _ _ _ _ _ (or_intror Hc) EB)
    as (Hw & Hn & Hs & Hr & Hroot & Htr & Hin).
  assert (hier_inv (rank L lv (assume_levels w3)) root G) as HG by now constructor.
  destruct (pick_Ok_hier _ root L s w4 G _ _ _ _ _ w' h HG ES EG Ese Este HP)
    as (T & h0 & HT & En & E0 & H0 & Hr0 & Eh).
  exists (rank L lv (assume_levels w3)), root, G, T, h0.
  destruct (pick_Ok w4 G _ _ _ _ _ _ _ w' h EG Ese Este HP) as (_ & _ & _ & _ & _ & Ew).
  subst w'. split; [exact EG|]. auto 10.
Qed.

Local Open Scope nat_scope.

(** In a hierarchy that [weave] returns every node is reachable from the
    root and carries a depth, the length of a shortest path from the root;
    the root has depth 0. *)
Theorem hierarchy_depths_complete :
  forall (w : Weaver) (partitions : list (list Z)) (terminals : terminals_arg)
         (boolean : bool) (levels : levels_arg) (c : config) (w' : Weaver) (h : DiGraph),
    (0 < cutoff c)%Q ->
    weave w partitions terminals boolean levels c = (w', Ok h) ->
    exists r, get_root h = Some r /\ get_depth h r = Some 0 /\
      forall v, In v (nodes h) ->
        path h r v /\ exists d, get_depth h v = Some d /\ shortest h r v d.
Proof.
  intros w partitions terminals boolean levels c w' h Hc HW.
  destruct (weave_hier _ _ _ _ _ _ _ _ Hc HW)
    as (rk & root & G & T & h0 & _ & _ & _ & _ & _ & _ & H0 & Hr0 & Eh).
  destruct (rooted_only_root rk root h0 H0 Hr0) as [_ Hroot].
  destruct (update_depth_graph_spec h0 root (hi_wf H0) (hi_nodepth H0) Hroot)
    as (h' & Eh' & Ee & En & Hd0 & Hsh & Hall).
  rewrite Eh in Eh'. inversion Eh'; subst h'. clear Eh'.
  assert (edges h = edges h0) as Ee' by (unfold edges; now rewrite Ee).
  exists root. split; [|split; [exact Hd0|]].
  - unfold get_root in *. rewrite En, <- Hroot. apply find_same.
    intro v. unfold in_degree, predecessors. now rewrite Ee.
  - intros v Hv. rewrite En in Hv.
    assert (path h root v) as Hp.
    { pose proof (rooted_reachable rk root h0 H0 v Hv) as Hp.
      revert Hp. apply path_mono. intros e He. now rewrite Ee'. }
    split; [exact Hp|]. destruct (Hall v Hp) as [d Hd]. exists d. split; [exact Hd|].
    now apply Hsh.
Qed.

(** In a hierarchy that [weave] returns the terminals are the leaves: a
    cluster has a child, a terminal has none; and every terminal has a
    parent. *)
Theorem hierarchy_leaves_are_terminals :
  forall (w : Weaver) (partitions : list (list Z)) (terminals : terminals_arg)
         (boolean : bool) (levels : levels_arg) (c : config) (w' : Weaver) (h : DiGraph),
    (0 < cutoff c)%Q ->
    weave w partitions terminals boolean levels c = (w', Ok h) ->
    forall v, In v (nodes h) ->
      (istuple v = true -> out_degree h v <> 0) /\
      (istuple v = false -> out_degree h v = 0 /\ in_degree h v <> 0).
Proof.
  intros w partitions terminals boolean levels c w' h Hc HW v Hv.
  destruct (weave_hier _ _ _ _ _ _ _ _ Hc HW)
    as (rk & root & G & T & h0 & _ & HG & Htr & HT & _ & E0 & H0 & Hr0 & Eh).
  destruct (update_depth_graph_edges h0 h Eh) as [Ee En].
  assert (forall x, out_degree h x = out_degree h0 x) as Hout.
  { intro x. unfold out_degree, successors. now rewrite Ee. }
  assert (forall x, in_degree h x = in_degree h0 x) as Hind.
  { intro x. unfold in_degree, predecessors. now rewrite Ee. }
  rewrite En in Hv. split.
  - intro Ht. rewrite Hout. now apply (prune_no_dead_end rk root T _ h0 HT E0 v Hv).
  - intro Ht. split.
    + rewrite Hout. apply out_degree_zero. intros x Hx.
      apply (hi_src H0) in Hx. congruence.
    + rewrite Hind. intro E.
      destruct (hi_rooted H0) as [Hpar _].
      destruct (Hpar v Hv) as [->|[p Hp]]; [congruence|].
      now apply (proj1 (in_degree_zero h0 v) E p).
Qed.

Local Close Scope nat_scope.

(** * When [_build] and [pick] return *)

(** ** The breadth-first search finds what is reachable *)

Lemma path_exit : forall G (S : list node) x t,
  path G x t -> In x S -> ~ In t S ->
  exists a b, In a S /\ ~ In b S /\ In (a, b) (edges G) /\ path G b t.
Proof.
  intros G S x t Hp. induction Hp as [x|x y t E Hp IH]; intros Hx Ht; [contradiction|].
  destruct (in_dec node_eq_dec y S) as [Hy|Hy].
  - now apply IH.
  - exists x, y. auto.
Qed.

Lemma bfs_length_complete : forall G t, wf_graph G ->
  forall fuel seen layer d,
    NoDup seen -> incl seen (nodes G) -> incl layer seen ->
    (forall x y, In x seen -> ~ In x layer -> In (x, y) (edges G) -> In y seen) ->
    (length (nodes G) <= fuel + length seen)%nat ->
    (In t seen -> In t layer) ->
    (exists x, In x seen /\ path G x t) ->
    exists d', bfs_length G fuel seen layer t d = Some d'.
Proof.
  intros G t Hw. induction fuel as [|f IH]; intros seen layer d Hnd Hsub Hlay Hcl Hfuel Hnew Hreach.
  - simpl. destruct (mem t layer) eqn:Em; [eauto|exfalso].
    apply mem_false in Em. destruct Hreach as (x & Hx & Hp).
    destruct (path_exit G seen x t Hp Hx) as (a & b & Ha & Hb & Hab & _); [tauto|].
    assert (NoDup (b :: seen)) as Hnd' by now constructor.
    assert (incl (b :: seen) (nodes G)) as Hsub'.
    { intros z [<-|Hz]; [now apply Hw in Hab|now apply Hsub]. }
    pose proof (NoDup_incl_length Hnd' Hsub') as Hlen. simpl in Hlen, Hfuel. lia.
  - cbn [bfs_length]. destruct (mem t layer) eqn:Em; [eauto|].
    apply mem_false in Em. destruct Hreach as (x & Hx & Hp).
    assert (~ In t seen) as Hts by tauto.
    destruct (path_exit G seen x t Hp Hx Hts) as (a & b & Ha & Hb & Hab & Hbt).
    set (next := filter (fun n => negb (mem n seen))
                        (union [] (flat_map (successors G) layer))).
    assert (forall y, In y next <->
              ~ In y seen /\ exists u, In u layer /\ In (u, y) (edges G)) as Hnext.
    { intro y. unfold next. rewrite filter_In, negb_true_iff, mem_false, In_union, in_flat_map.
      split.
      - intros [[[]|(u & Hu & Hy)] Hn]. split; [assumption|]. exists u.
        split; [assumption|now apply In_successors].
      - intros [Hn (u & Hu & Hy)]. split; [|assumption]. right. exists u.
        split; [assumption|now apply In_successors]. }
    assert (In b next) as Hbn.
    { apply Hnext. split; [assumption|]. exists a. split; [|assumption].
      destruct (in_dec node_eq_dec a layer) as [Hl|Hl]; [assumption|].
      exfalso. apply Hb. eapply Hcl; eassumption. }
    assert (NoDup next) as Hndn.
    { unfold next. apply NoDup_filter, NoDup_union. constructor. }
    destruct next as [|n0 next'] eqn:En; [destruct Hbn|]. rewrite <- En in *.
    apply IH.
    + apply NoDup_app; [assumption|assumption|].
      intros z Hz Hz'. apply Hnext in Hz' as [Hz' _]. contradiction.
    + intros z Hz. apply in_app_iff in Hz as [Hz|Hz]; [now apply Hsub|].
      apply Hnext in Hz as (_ & u & _ & Hu). now apply Hw in Hu.
    + intros z Hz. apply in_app_iff. now right.
    + intros z y Hz Hzn Hzy. apply in_app_iff.
      apply in_app_iff in Hz as [Hz|Hz]; [|contradiction].
      destruct (in_dec node_eq_dec z layer) as [Hl|Hl].
      * destruct (in_dec node_eq_dec y seen) as [Hy|Hy]; [now left|].
        right. apply Hnext. split; [assumption|]. eauto.
      * left. eapply Hcl; eassumption.
    + rewrite length_app. assert (1 <= length next)%nat; [|simpl in Hfuel; lia].
      rewrite En. simpl. lia.
    + intro Hz. apply in_app_iff in Hz as [Hz|Hz]; [contradiction|assumption].
    + exists x. split; [apply in_app_iff; now left|assumption].
Qed.

Lemma shortest_path_length_Some : forall G s t,
  wf_graph G -> In s (nodes G) -> path G s t ->
  exists d, shortest_path_length G s t = Some d.
Proof.
  intros G s t Hw Hs Hp. unfold shortest_path_length.
  apply bfs_length_complete; try assumption.
  - repeat constructor. intros [].
  - intros z [<-|[]]. assumption.
  - apply incl_refl.
  - intros x y [<-|[]] Hx. exfalso. apply Hx. now left.
  - unfold nodes. rewrite length_map. simpl. lia.
  - auto.
  - exists s. split; [now left|assumption].
Qed.

(** ** [secondary] on a graph below its root *)

Lemma mapM_total : forall (A B : Type) (f : A -> result B) l,
  (forall x, In x l -> exists y, f x = Ok y) -> exists l', mapM f l = Ok l'.
Proof.
  intros A B f l. induction l as [|x l IH]; intro H; simpl; [eauto|].
  destruct (H x (or_introl eq_refl)) as [y ->]. simpl.
  destruct IH as [l' ->]; [intros z Hz; apply H; now right|]. simpl. eauto.
Qed.

Lemma secondary_total : forall L G root,
  wf_graph G -> In root (nodes G) -> (forall v, In v (nodes G) -> path G root v) ->
  exists s, secondary L G root = Ok s.
Proof.
  intros L G root Hw Hr Hreach. unfold secondary.
  destruct (foldM_inv _ _ (fun _ => True) (secondary_step L G root) (nodes G) ([], []) I)
    as (acc & -> & _); [|simpl; eauto].
  intros acc n Hn _. unfold secondary_step.
  destruct (1 <? length (predecessors G n))%nat; [|eauto].
  destruct (istuple n).
  - destruct (mapM_total _ _ (preference L G n) (predecessors G n)) as [pref ->]; [|simpl; eauto].
    intros p Hp. apply In_predecessors in Hp. unfold preference.
    destruct (weight_Ok G p n Hp) as [x ->]. simpl. eauto.
  - destruct (mapM_total _ _ (steps_from G root n) (predecessors G n)) as [es ->]; [|simpl; eauto].
    intros p Hp. apply In_predecessors in Hp. unfold steps_from.
    assert (In p (nodes G)) as Hpn by now apply Hw in Hp.
    destruct (shortest_path_length_Some G root p Hw Hr (Hreach p Hpn)) as [d ->]. eauto.
Qed.

(** ** The root of the first graph *)

Lemma add_root_total : forall (rk : node -> Z) G,
  wf_graph G -> ranked rk G -> nodes G <> [] ->
  exists G1 root, add_root G = Ok (G1, root).
Proof.
  intros rk G Hw Hr Hne. unfold add_root.
  set (roots := filter (fun n => (in_degree G n =? 0)%nat) (nodes G)).
  destruct (1 <? length roots)%nat; [eauto|].
  destruct roots as [|r l] eqn:E; [exfalso|eauto].
  destruct (list_max_rank rk (nodes G) Hne) as (m & Hm & Hmax).
  assert (In m roots) as Hin; [|rewrite E in Hin; destruct Hin].
  apply filter_In. split; [assumption|]. apply Nat.eqb_eq, in_degree_zero.
  intros u Hu. pose proof (Hr _ _ Hu).
  assert (In u (nodes G)) as Hun by now apply Hw in Hu. apply Hmax in Hun. lia.
Qed.

(** ** The nodes of the first graph *)

Lemma init_step_keeps : forall L levels labels cutoff G ij n,
  In n (nodes G) -> In n (nodes (init_step L levels labels cutoff G ij)).
Proof.
  intros L levels labels cutoff G [i j] n Hn. unfold init_step. cbn [fst snd].
  set (G1 := if has_node G (Internal i 0) then G else add_node G (Internal i 0) _).
  set (G2 := if has_node G1 (Internal j 0) then G1 else add_node G1 (Internal j 0) _).
  assert (In n (nodes G1)) as H1.
  { unfold G1. destruct (has_node G _); [assumption|]. apply nodes_add_node. now left. }
  assert (In n (nodes G2)) as H2.
  { unfold G2. destruct (has_node G1 _); [assumption|]. apply nodes_add_node. now left. }
  destruct (Qle_bool _ _); [|assumption].
  destruct (lookup_edge _ _); [destruct (Qgtb _ _); [|assumption]|];
    apply nodes_add_edge; left; assumption.
Qed.

Lemma init_step_adds : forall L levels labels cutoff G i j,
  In (Internal i 0) (nodes (init_step L levels labels cutoff G (i, j))) /\
  In (Internal j 0) (nodes (init_step L levels labels cutoff G (i, j))).
Proof.
  intros L levels labels cutoff G i j. unfold init_step. cbn [fst snd].
  set (G1 := if has_node G (Internal i 0) then G else add_node G (Internal i 0) _).
  set (G2 := if has_node G1 (Internal j 0) then G1 else add_node G1 (Internal j 0) _).
  assert (In (Internal i 0) (nodes G1)) as H1.
  { unfold G1. destruct (has_node G _) eqn:E; [now apply has_node_In|].
    apply nodes_add_node. now right. }
  assert (In (Internal i 0) (nodes G2) /\ In (Internal j 0) (nodes G2)) as [Hi Hj].
  { unfold G2. destruct (has_node G1 (Internal j 0)) eqn:E.
    - split; [assumption|now apply has_node_In].
    - split; apply nodes_add_node; auto. }
  destruct (Qle_bool _ _); [|auto].
  destruct (lookup_edge _ _); [destruct (Qgtb _ _); [|auto]|];
    split; apply nodes_add_edge; left; assumption.
Qed.

Lemma init_graph_nodes : forall L levels labels assume cutoff i j,
  In (i, j) (gen L levels assume) ->
  In (Internal i 0) (nodes (init_graph L levels labels assume cutoff)) /\
  In (Internal j 0) (nodes (init_graph L levels labels assume cutoff)).
Proof.
  intros L levels labels assume cutoff i j. unfold init_graph.
  generalize empty_graph. induction (gen L levels assume) as [|p l IH]; intros G H;
    [destruct H|destruct H as [->|H]].
  - simpl. destruct (init_step_adds L levels labels cutoff G i j) as [Hi Hj].
    split; apply fold_left_inv; try assumption; intros; now apply init_step_keeps.
  - simpl. now apply IH.
Qed.

Lemma add_root_keeps : forall G G1 root n,
  add_root G = Ok (G1, root) -> In n (nodes G) -> In n (nodes G1).
Proof.
  intros G G1 root n. unfold add_root.
  set (roots := filter _ _).
  destruct (1 <? length roots)%nat.
  - intro E. inversion E; subst. intro Hn. apply fold_left_inv.
    + apply nodes_add_node. now left.
    + intros a x _ Ha. apply nodes_add_edge. now left.
  - destruct roots; intro E; inversion E. now subst.
Qed.

(** ** [_build] *)

Lemma gen_nil_short : forall L levels,
  gen L levels false = [] <-> (length L <= 1)%nat.
Proof.
  intros L levels. split.
  - intro E. destruct (le_lt_dec (length L) 1) as [H|H]; [assumption|exfalso].
    assert (In (0, 1) (gen L levels false)) as Hin by (apply In_gen; lia).
    rewrite E in Hin. destruct Hin.
  - intro H. destruct (gen L levels false) as [|[i j] l] eqn:E; [reflexivity|exfalso].
    assert (In (i, j) (gen L levels false)) as Hin by (rewrite E; now left).
    apply In_gen in Hin. lia.
Qed.

Lemma build_graph_returns : forall L lv labels assume ts c,
  assume = true \/ (0 < c)%Q -> gen L lv assume <> [] ->
  exists G root, build_graph L lv labels assume ts c = Ok (G, root).
Proof.
  intros L lv labels assume ts c Hc Hgen.
  destruct (gen L lv assume) as [|[i j] l] eqn:E; [congruence|].
  assert (In (i, j) (gen L lv assume)) as Hin by (rewrite E; now left).
  destruct (init_graph_nodes L lv labels assume c i j Hin) as [Hi _].
  pose proof (cluster_init_graph L lv labels assume c) as Hcl.
  pose proof (init_graph_ranked L lv labels assume c Hc) as Hr.
  destruct (add_root_total _ _ (proj1 Hcl) Hr) as (G1 & root & E1).
  { intro En. rewrite En in Hi. destruct Hi. }
  assert (cluster_graph (remove_redundant G1)) as HG0.
  { apply cluster_remove_redundant. eapply cluster_add_root; eassumption. }
  destruct (attach_terminals_spec L ts _ HG0) as (G & r & E2 & _).
  exists G, root. unfold build_graph. rewrite E1. cbn [bind fst snd]. rewrite E2.
  reflexivity.
Qed.

Lemma build_returns_core :
  forall (w : Weaver) (c : Q) (L : list (list bool)) (lv labels ts : list Z),
    _assignment w = Some L -> _levels w = Some lv -> _labels w = Some labels ->
    _terminals w = Some ts -> (0 < c)%Q ->
    gen L lv (assume_levels w) <> [] -> exists w' G, _build w c = (w', Ok G).
Proof.
  intros w c L lv labels ts EL Elv Elab Ets Hc Hgen.
  destruct (build_graph_returns L lv labels (assume_levels w) ts c (or_intror Hc) Hgen)
    as (G & root & EB).
  destruct (build_graph_props _ _ _ _ _ _ _ _ (or_intror Hc) EB)
    as (Hw & Hn & Hs & Hr & Hroot & _ & Hin).
  assert (hier_inv (rank L lv (assume_levels w)) root G) as HG by now constructor.
  destruct (secondary_total L G root Hw Hin (rooted_reachable _ _ _ HG)) as [s ES].
  unfold _build. rewrite EL, Elv, Elab, Ets, EB. cbn [fst snd]. rewrite ES. eauto.
Qed.

(** On an object whose arrays fit together, a level and a label for every
    row and a terminal for every column, and with a positive cutoff,
    [_build] raises when there is no pair of clusters to compare, the
    [IndexError] of [roots[0]], and returns otherwise; without levels there
    is no pair when there is one cluster at most. *)
Theorem build_returns_unless_no_pair :
  forall (w : Weaver) (c : Q) (L : list (list bool)) (lv labels ts : list Z),
    _assignment w = Some L -> _levels w = Some lv -> _labels w = Some labels ->
    _terminals w = Some ts ->
    Forall (fun row => length row = length ts) L ->
    length lv = length L -> length labels = length L ->
    (0 < c)%Q ->
    (gen L lv (assume_levels w) = [] -> _build w c = (w, Raise IndexError)) /\
    (gen L lv (assume_levels w) <> [] -> exists w' G, _build w c = (w', Ok G)) /\
    (assume_levels w = false -> (gen L lv false = [] <-> (length L <= 1)%nat)).
Proof.
  intros w c L lv labels ts EL Elv Elab Ets _ _ _ Hc. split; [|split].
  - intro E. unfold _build. rewrite EL, Elv, Elab, Ets.
    unfold build_graph, init_graph. rewrite E. reflexivity.
  - now apply build_returns_core with (labels := labels) (ts := ts).
  - intros _. apply gen_nil_short.
Qed.

(** ** [pick] without additional edges *)

Lemma prune_cases : forall rk r T strict, hier_inv rk r T ->
  prune T strict = Raise NetworkXError \/ exists h, prune T strict = Ok h.
Proof.
  intros rk r T strict Hi. unfold prune.
  assert (hier_inv rk r (fst (remove_dead_ends (length (internal_nodes T)) T (internal_nodes T))))
    as H1.
  { apply remove_dead_ends_inv; [|assumption].
    intros T0 n H0 _ Hout. now apply hier_inv_drop. }
  set (T1 := fst (remove_dead_ends _ T _)) in *. clearbody T1.
  unfold traverse_topdown. destruct (get_root T1) as [r'|]; cbn [bind]; [right|now left].
  destruct (foldM_inv _ _ (fun T0 => hier_inv rk r T0) (collapse_step strict)
              (fst (traverse_loop T1 (S (length (g_edges T1))) [r'] [])) T1 H1) as (h & Eh & _);
    [|eauto].
  intros T0 n _ H0. unfold collapse_step.
  destruct (_single_branch strict T0 n) eqn:Esb; [|eauto].
  destruct (single_branch_collapse strict T0 n (hi_wf H0) Esb) as (parent & T' & _ & _ & E & _).
  exists T'. split; [assumption|].
  now destruct (hier_inv_collapse rk r strict T0 n T' H0 Esb E).
Qed.

Lemma pick_returns_core :
  forall (w0 : Weaver) (c : Q) (w : Weaver) (G : DiGraph) (t : Z)
         (pe pte : Q) (rep strict : bool),
    (0 < c)%Q -> _build w0 c = (w, Ok G) -> In (Terminal t) (nodes G) ->
    exists h, pick w pe pte None rep strict = (set_hier w (Some h), Ok h).
Proof.
  intros w0 c w G t pe pte rep strict Hc HB Ht.
  destruct (build_hier_inv w0 c w G (or_intror Hc) HB)
    as (L & root & s & rk & HG & Hin & ES & EG & Ese & Este).
  destruct (pick_additional_core rk root L s w G t pe pte None rep strict
              HG Hin ES EG Ese Este Ht) as (_ & _ & Hgood & _).
  destruct Hgood as (se & ste & T & h0 & h & _ & _ & _ & _ & _ & Er & _).
  { intros u v []. }
  exists h. exact Er.
Qed.

(** On a weaver built with a positive cutoff, [pick] without additional
    edges returns a hierarchy when the candidate graph has a terminal, and
    raises the [NetworkXError] of [T.successors(None)] when it has none; the
    object is then as it was. *)
Theorem pick_returns_unless_no_terminal :
  forall (w0 : Weaver) (c : Q) (w : Weaver) (G : DiGraph),
    (0 < c)%Q -> _build w0 c = (w, Ok G) ->
    forall (pe pte : Q) (rep strict : bool),
      ((exists t, In (Terminal t) (nodes G)) ->
       exists h, pick w pe pte None rep strict = (set_hier w (Some h), Ok h)) /\
      ((forall t, ~ In (Terminal t) (nodes G)) ->
       pick w pe pte None rep strict = (w, Raise NetworkXError)).
Proof.
  intros w0 c w G Hc HB pe pte rep strict. split.
  - intros [t Ht]. eapply pick_returns_core; eassumption.
  - destruct (build_hier_inv w0 c w G (or_intror Hc) HB)
      as (L & root & s & rk & HG & Hin & ES & EG & Ese & Este).
    intro Hno. rewrite (pick_phases w G _ _ pe pte None rep strict EG Ese Este).
    destruct (select G (map fst (fst s)) (map fst (snd s)) pe pte None rep) as [T|e] eqn:ET;
      [|discriminate ET].
    destruct (select_inv rk root L G s pe pte None rep T HG ES ET) as (HT & _ & En).
    cbn [bind]. destruct (prune_cases rk root T strict HT) as [->|[h Eh]]; [reflexivity|].
    exfalso. destruct (prune_Ok_terminal rk root T strict h HT Eh) as [t Ht].
    apply (Hno t). unfold nodes in *. now rewrite <- En.
Qed.

(** ** [weave] *)

Lemma build_has_terminal : forall L lv labels assume ts c G root i j p,
  build_graph L lv labels assume ts c = Ok (G, root) ->
  In (i, j) (gen L lv assume) \/ In (j, i) (gen L lv assume) ->
  In p (true_positions (nthZ L i [])) ->
  In (Terminal (nthZ ts p 0)) (nodes G).
Proof.
  intros L lv labels assume ts c G root i j p EB Hgen Hp.
  apply build_graph_phases in EB as (G1 & E1 & E2).
  assert (cluster_graph (remove_redundant G1)) as HG0.
  { apply cluster_remove_redundant. eapply cluster_add_root; [|exact E1].
    apply cluster_init_graph. }
  destruct (attach_terminals_spec L ts _ HG0) as (G' & r & E' & _ & Hcov).
  rewrite E2 in E'. inversion E'; subst G'. clear E'.
  apply (Hcov i 0 p); [|destruct Hgen as [H|H]; apply In_gen in H; lia|assumption].
  change (nodes (remove_redundant G1)) with (nodes G1).
  apply (add_root_keeps _ _ _ _ E1).
  destruct Hgen as [H|H]; now apply (init_graph_nodes L lv labels assume c) in H.
Qed.

Lemma length_range : forall n, length (range n) = n.
Proof. intro n. unfold range. now rewrite length_map, length_seq. Qed.

Lemma lengths_agree : forall (partitions : list (list Z)) n,
  (forall p, In p partitions -> length p = n) ->
  existsb (fun l => negb (l =? hd O (map (@length Z) partitions))%nat)
          (map (@length Z) partitions) = false.
Proof.
  intros partitions n H.
  assert (forall l, In l (map (@length Z) partitions) -> l = n) as Hl.
  { intros l Hl. apply in_map_iff in Hl as (p & <- & Hp). now apply H. }
  assert (hd O (map (@length Z) partitions) = n \/ partitions = []) as [E|E].
  { destruct partitions as [|p l]; [now right|left]. simpl. apply H. now left. }
  - rewrite E. destruct (existsb _ _) eqn:Ex; [|reflexivity].
    apply existsb_exists in Ex as (l & Hin & Hne). apply Hl in Hin. subst l.
    rewrite Nat.eqb_refl in Hne. discriminate.
  - subst. reflexivity.
Qed.

Lemma In_insert_unique : forall x y l, In x (insert_unique y l) <-> x = y \/ In x l.
Proof.
  intros x y l. induction l as [|z l IH]; simpl; [intuition|].
  destruct (y <? z) eqn:E1; [simpl; intuition|].
  destruct (y =? z) eqn:E2.
  - apply Z.eqb_eq in E2. subst z. simpl. intuition.
  - simpl. rewrite IH. intuition.
Qed.

Lemma In_unique : forall x p, In x (unique p) <-> In x p.
Proof.
  intros x p. unfold unique. induction p as [|y p IH]; simpl; [tauto|].
  rewrite In_insert_unique, IH. intuition.
Qed.

Lemma label_row_position : forall (p : list Z) x, In x p ->
  exists k, In k (true_positions (map (fun y => y =? x) p)).
Proof.
  intros p x Hx. apply In_nth with (d := 0) in Hx as (k & Hk & Hn).
  exists (Z.of_nat k). apply In_true_positions. rewrite length_map, Nat2Z.id.
  split; [lia|]. rewrite (nth_map_in _ _ (fun y => y =? x) p k 0 false Hk), Hn.
  apply Z.eqb_refl.
Qed.

Lemma boolean_row_position : forall (partitions : list (list Z)) p x,
  In p partitions -> In x p -> x <> 0 ->
  exists i k, 0 <= i < Z.of_nat (length partitions) /\
              In k (true_positions (nthZ (rows_boolean partitions) i [])).
Proof.
  intros partitions p x Hp Hx Hne.
  apply In_nth with (d := []) in Hp as (i & Hi & Hn).
  apply In_nth with (d := 0) in Hx as (k & Hk & Hnk).
  exists (Z.of_nat i), (Z.of_nat k). split; [lia|].
  unfold nthZ, rows_boolean. rewrite Nat2Z.id.
  rewrite (nth_map_in _ _ (map (fun x => negb (x =? 0))) partitions i [] [] Hi), Hn.
  apply In_true_positions. rewrite length_map, Nat2Z.id.
  split; [lia|].
  rewrite (nth_map_in _ _ (fun x => negb (x =? 0)) p k 0 false Hk), Hnk.
  apply negb_true_iff, Z.eqb_neq. assumption.
Qed.

(** What [weave] needs to return, on the object as it reaches [_build]. *)
Lemma build_pick_returns : forall w3 c L lv labels ts i j p,
  _assignment w3 = Some L -> _levels w3 = Some lv -> _labels w3 = Some labels ->
  _terminals w3 = Some ts -> (0 < cutoff c)%Q -> additional c = None ->
  In (i, j) (gen L lv (assume_levels w3)) \/ In (j, i) (gen L lv (assume_levels w3)) ->
  In p (true_positions (nthZ L i [])) ->
  exists w' h,
    match _build w3 (cutoff c) with
    | (w4, Raise e) => (w4, Raise e)
    | (w4, Ok _) =>
        pick w4 (top c) (percentage_terminal_edges c) (additional c)
             (replace c) (strict_single_branch c)
    end = (w', Ok h).
Proof.
  intros w3 c L lv labels ts i j p EL Elv Elab Ets Hc Hadd Hgen Hp.
  destruct (build_returns_core w3 (cutoff c) L lv labels ts EL Elv Elab Ets Hc)
    as (w4 & G & HB).
  { intro E. rewrite E in Hgen. destruct Hgen as [[]|[]]. }
  rewrite HB, Hadd.
  assert (exists t, In (Terminal t) (nodes G)) as Ht.
  { pose proof HB as HB'. unfold _build in HB'. rewrite EL, Elv, Elab, Ets in HB'.
    destruct (build_graph L lv labels (assume_levels w3) ts (cutoff c)) as [[G1 root]|e] eqn:EB;
      [|discriminate].
    cbn [fst snd] in HB'. destruct (secondary L G1 root); [|discriminate].
    inversion HB'; subst G1. eexists.
    eapply build_has_terminal; eassumption. }
  destruct Ht as [t Ht].
  destruct (pick_returns_core w3 (cutoff c) w4 G t (top c) (percentage_terminal_edges c)
              (replace c) (strict_single_branch c) Hc HB Ht) as [h Eh].
  eauto.
Qed.

(** [weave] returns a hierarchy for two or more partitions of one positive
    length, without levels, with a positive cutoff and no additional edges;
    with [boolean] set one entry at least has to be non-zero.  The
    terminals are the default ones or a sequence of that length. *)
Theorem weave_returns :
  forall (w : Weaver) (partitions : list (list Z)) (terminals : terminals_arg)
         (boolean : bool) (c : config) (n : nat),
    (2 <= length partitions)%nat -> (0 < n)%nat ->
    (forall p, In p partitions -> length p = n) ->
    match terminals with
    | TNone => True
    | TSeq l => length l = n
    | TNdarray _ => False
    end ->
    (0 < cutoff c)%Q -> additional c = None ->
    (boolean = true -> exists p x, In p partitions /\ In x p /\ x <> 0) ->
    exists w' h, weave w partitions terminals boolean (LBool false) c = (w', Ok h).
Proof.
  intros w partitions terminals boolean c n Hlen Hn Hall Hter Hc Hadd Hbool.
  unfold weave.
  destruct (length partitions =? 0)%nat eqn:E0; [apply Nat.eqb_eq in E0; lia|].
  rewrite (lengths_agree partitions n Hall), length_range, Nat.eqb_refl. cbn [negb].
  set (w1 := set_assume w false).
  destruct partitions as [|p0 [|p1 rest]]; [simpl in Hlen; lia|simpl in Hlen; lia|].
  assert (length p0 = n) as Hp0 by (apply Hall; now left).
  destruct boolean.
  - set (L := rows_boolean (p0 :: p1 :: rest)).
    set (w2 := set_assignment w1 L _ _).
    assert (n_terminals w2 = n) as Hnt.
    { unfold n_terminals, w2, L. simpl. now rewrite length_map. }
    assert (exists w3 ts, set_terminals w2 terminals = Ok w3 /\
              _assignment w3 = Some L /\
              _levels w3 = Some (range (length (p0 :: p1 :: rest))) /\
              _labels w3 = Some (map (fun _ => 1) (p0 :: p1 :: rest)) /\
              _terminals w3 = Some ts /\ assume_levels w3 = false) as (w3 & ts & E3 & F).
    { unfold set_terminals. destruct terminals as [|a|l]; [|destruct Hter|].
      - rewrite length_range, Nat.eqb_refl. cbn [negb]. eexists. eexists.
        split; [reflexivity|]. simpl. auto 6.
      - rewrite Hnt, Hter, Nat.eqb_refl. cbn [negb]. eexists. eexists.
        split; [reflexivity|]. simpl. auto 6. }
    rewrite E3. destruct F as (EL & Elv & Elab & Ets & Eas).
    destruct (Hbool eq_refl) as (p & x & Hp & Hx & Hne).
    destruct (boolean_row_position _ p x Hp Hx Hne) as (i & k & Hi & Hk).
    fold L in Hk.
    eapply (build_pick_returns w3 c L _ _ ts i (if i =? 0 then 1 else 0) k); try eassumption.
    left. rewrite Eas. apply In_gen. unfold L, rows_boolean. rewrite length_map.
    simpl length in *. destruct (i =? 0) eqn:Ei; [apply Z.eqb_eq in Ei|apply Z.eqb_neq in Ei]; lia.
  - set (rows := rows_labelled (p0 :: p1 :: rest) (range (length (p0 :: p1 :: rest)))).
    assert (exists x0 u, unique p0 = x0 :: u) as (x0 & u0 & Eu0).
    { destruct (unique p0) as [|x0 u] eqn:E; [exfalso|eauto].
      destruct p0 as [|y p0]; [simpl in Hp0; lia|].
      assert (In y (unique (y :: p0))) as Hy by (apply In_unique; now left).
      rewrite E in Hy. destruct Hy. }
    assert (length p1 = n) as Hp1 by (apply Hall; right; now left).
    assert (exists x1 u, unique p1 = x1 :: u) as (x1 & u1 & Eu1).
    { destruct (unique p1) as [|x1 u] eqn:E; [exfalso|eauto].
      destruct p1 as [|y p1]; [simpl in Hp1; lia|].
      assert (In y (unique (y :: p1))) as Hy by (apply In_unique; now left).
      rewrite E in Hy. destruct Hy. }
    assert (exists r1 rs, rows = (map (fun x => x =? x0) p0, x0, 0) :: r1 :: rs) as (r1 & rs & Er).
    { unfold rows, rows_labelled. simpl. rewrite Eu0, Eu1. simpl.
      destruct u0; simpl; eauto. }
    rewrite Er.
    set (L := map (fun r => fst (fst r)) ((map (fun x => x =? x0) p0, x0, 0) :: r1 :: rs)).
    set (w2 := set_assignment w1 L _ _).
    assert (n_terminals w2 = n) as Hnt.
    { unfold n_terminals, w2, L. simpl. now rewrite length_map. }
    assert (exists w3 ts lv labels, set_terminals w2 terminals = Ok w3 /\
              _assignment w3 = Some L /\ _levels w3 = Some lv /\
              _labels w3 = Some labels /\
              _terminals w3 = Some ts /\ assume_levels w3 = false)
      as (w3 & ts & lv & labels & E3 & F).
    { unfold set_terminals. destruct terminals as [|a|l]; [|destruct Hter|].
      - rewrite length_range, Nat.eqb_refl. cbn [negb]. do 4 eexists.
        split; [reflexivity|]. simpl. auto 6.
      - rewrite Hnt, Hter, Nat.eqb_refl. cbn [negb]. do 4 eexists.
        split; [reflexivity|]. simpl. auto 6. }
    rewrite E3. destruct F as (EL & Elv & Elab & Ets & Eas).
    assert (In x0 p0) as Hx0 by (apply In_unique; rewrite Eu0; now left).
    destruct (label_row_position p0 x0 Hx0) as [k Hk].
    eapply (build_pick_returns w3 c L lv labels ts 0 1 k); try eassumption.
    left. rewrite Eas. apply In_gen. unfold L. simpl length. lia.
Qed.

(** [weave] on a single boolean partition raises the [IndexError] of
    [roots[0]]: there is no pair of clusters, the first graph is empty. *)
Theorem weave_single_boolean_partition :
  forall (w : Weaver) (p : list Z) (terminals : terminals_arg) (b : bool) (c : config),
    match terminals with
    | TNone => True
    | TSeq l => length l = length p
    | TNdarray _ => False
    end ->
    snd (weave w [p] terminals true (LBool b) c) = Raise IndexError.
Proof.
  intros w p terminals b c Hter. unfold weave. simpl length. cbn [Nat.eqb map hd existsb].
  rewrite Nat.eqb_refl. cbn [negb orb]. change (length (range 1) =? 1)%nat with true.
  cbn [negb].
  set (w2 := set_assignment _ _ _ _).
  assert (n_terminals w2 = length p) as Hnt.
  { unfold n_terminals, w2. simpl. now rewrite length_map. }
  assert (exists w3 ts, set_terminals w2 terminals = Ok w3 /\
            _assignment w3 = Some (rows_boolean [p]) /\ _levels w3 = Some (range 1) /\
            _labels w3 = Some [1] /\ _terminals w3 = Some ts /\ assume_levels w3 = b)
    as (w3 & ts & E3 & EL & Elv & Elab & Ets & Eas).
  { unfold set_terminals. destruct terminals as [|a|l]; [|destruct Hter|].
    - rewrite length_range, Nat.eqb_refl. cbn [negb]. do 2 eexists.
      split; [reflexivity|]. simpl. auto 6.
    - rewrite Hnt, Hter, Nat.eqb_refl. cbn [negb]. do 2 eexists.
      split; [reflexivity|]. simpl. auto 6. }
  rewrite E3. unfold _build. rewrite EL, Elv, Elab, Ets, Eas.
  assert (gen (rows_boolean [p]) (range 1) b = []) as Eg by now destruct b.
  unfold build_graph, init_graph. rewrite Eg. reflexivity.
Qed.

(** * More on the candidate graph and the hierarchy *)

(** ** A parent is not smaller than its child *)

Lemma add_root_nodes : forall G G1 root n,
  add_root G = Ok (G1, root) -> In n (nodes G1) -> In n (nodes G) \/ n = Internal (-1) 0.
Proof.
  intros G G1 root n. unfold add_root.
  set (roots := filter _ _).
  destruct (1 <? length roots)%nat.
  - intro E. inversion E; subst. clear E.
    assert (forall l G0, (forall x, In x l -> In x (nodes G0)) ->
              In (Internal (-1) 0) (nodes G0) ->
              In n (nodes (fold_left (fun G' x => add_edge G' (Internal (-1) 0) x 1) l G0)) ->
              In n (nodes G0)) as H.
    { induction l as [|x l IH]; intros G0 Hl Hr; simpl; [auto|].
      intro Hn. apply IH in Hn.
      - apply nodes_add_edge in Hn. destruct Hn as [Hn|[Hn|Hn]]; subst;
          [assumption|assumption|]. apply Hl. now left.
      - intros y Hy. apply nodes_add_edge. left. apply Hl. now right.
      - apply nodes_add_edge. now left. }
    intro Hn. apply H in Hn.
    + apply nodes_add_node in Hn. tauto.
    + intros x Hx. apply nodes_add_node. left. unfold roots in Hx.
      now apply filter_In in Hx.
    + apply nodes_add_node. now right.
  - destruct roots; intro E; inversion E. subst. auto.
Qed.

(** In the candidate graph of [_build] an edge between two clusters goes
    from the cluster with more terminals, or as many, to the other; with
    levels it goes from the lower level to the higher one. *)
Theorem candidate_parent_not_smaller :
  forall (w : Weaver) (c : Q) (w' : Weaver) (G : DiGraph) (L : list (list bool))
         (lv : list Z),
    (0 < c)%Q -> _build w c = (w', Ok G) ->
    _assignment w = Some L -> _levels w = Some lv ->
    forall i j ki kj, 0 <= i -> 0 <= j ->
      In (Internal j kj, Internal i ki) (edges G) ->
      if assume_levels w then nthZ lv j 0 < nthZ lv i 0
      else count_nonzero (nthZ L i []) <= count_nonzero (nthZ L j []).
Proof.
  intros w c w' G L lv Hc HB EL Elv i j ki kj Hi Hj He.
  unfold _build in HB. rewrite EL, Elv in HB.
  destruct (_labels w) as [labels|]; [|discriminate].
  destruct (_terminals w) as [ts|]; [|discriminate].
  destruct (build_graph L lv labels (assume_levels w) ts c) as [[G1 root]|e] eqn:EB;
    [|discriminate].
  cbn [fst snd] in HB. destruct (secondary L G1 root) as [s|e]; [|discriminate].
  inversion HB; subst G1. clear HB.
  destruct (build_graph_props _ _ _ _ _ _ _ _ (or_intror Hc) EB)
    as (Hw & _ & _ & Hr & _).
  pose proof (Hr _ _ He) as Hlt.
  rewrite !rank_cluster in Hlt by assumption.
  unfold cluster_rank in Hlt. destruct (assume_levels w) eqn:Ea; [lia|].
  assert (forall x k, In (Internal x k) (nodes G) -> 0 <= x -> x < Z.of_nat (length L)) as Hidx.
  { intros x k Hx Hx0.
    apply build_graph_phases in EB as (G1 & E1 & E2).
    assert (cluster_graph (remove_redundant G1)) as HG0.
    { apply cluster_remove_redundant. eapply cluster_add_root; [|exact E1].
      apply cluster_init_graph. }
    destruct (attach_terminals_spec L ts _ HG0) as (G' & r & E' & Hinv & _).
    rewrite E2 in E'. inversion E'; subst G'. clear E'.
    apply (ai_nodes Hinv) in Hx; [|reflexivity].
    change (nodes (remove_redundant G1)) with (nodes G1) in Hx.
    apply (add_root_nodes _ _ _ _ E1) in Hx as [Hx|Hx]; [|inversion Hx; lia].
    apply init_graph_index in Hx; [|right; exact Hc].
    destruct Hx as (x' & E' & Hb). inversion E'; subst. lia. }
  apply Hw in He as [Hjn Hin].
  pose proof (Hidx _ _ Hjn Hj). pose proof (Hidx _ _ Hin Hi).
  fold (size L i) (size L j) in *.
  pose proof (size_nonneg L i). pose proof (size_nonneg L j). nia.
Qed.

(** ** The terminals of the hierarchy *)

(** The hierarchy [weave] returns has the terminals of the candidate graph,
    all of them, and no node that the candidate graph has not. *)
Theorem hierarchy_keeps_terminals :
  forall (w : Weaver) (partitions : list (list Z)) (terminals : terminals_arg)
         (boolean : bool) (levels : levels_arg) (c : config) (w' : Weaver) (h : DiGraph),
    (0 < cutoff c)%Q ->
    weave w partitions terminals boolean levels c = (w', Ok h) ->
    exists G, _full w' = Some G /\
      (forall t, In (Terminal t) (nodes h) <-> In (Terminal t) (nodes G)) /\
      (forall n, In n (nodes h) -> In n (nodes G)).
Proof.
  intros w partitions terminals boolean levels c w' h Hc HW.
  destruct (weave_hier _ _ _ _ _ _ _ _ Hc HW)
    as (rk & root & G & T & h0 & EG & _ & _ & HT & En & E0 & _ & _ & Eh).
  destruct (update_depth_graph_edges h0 h Eh) as [_ Enh].
  destruct (prune_nodes rk root T _ h0 HT E0) as [Ht Ha].
  exists G. split; [exact EG|]. rewrite Enh. unfold nodes at 2 4. rewrite <- En. split.
  - exact Ht.
  - intros n Hn. apply in_map_iff in Hn as ([n' a] & <- & Hin).
    apply Ha in Hin. apply in_map_iff. exists (n', a). auto.
Qed.

(** ** [update_depth] a second time *)

Lemma map_absent : forall (f : node * attrs -> node * attrs) n (ns : list (node * attrs)),
  ~ In n (map fst ns) ->
  map (fun p => if node_eqb (fst p) n then f p else p) ns = ns.
Proof.
  intros f n ns. induction ns as [|[y b] ns IH]; simpl; intro H; [reflexivity|].
  assert (node_eqb y n = false) as ->.
  { apply node_eqb_neq. intro Ey. subst y. apply H. now left. }
  f_equal. apply IH. intro Hin. apply H. now right.
Qed.

Lemma set_depth_same : forall T n d, NoDup (nodes T) ->
  get_depth T n = Some d -> set_depth T n d = T.
Proof.
  intros [ns es] n d. unfold set_depth, get_depth, get_attrs, nodes. simpl.
  intros Hnd Hd. f_equal.
  induction ns as [|[x a] ns IH]; simpl in *; [reflexivity|].
  inversion Hnd as [|? ? Hx Hnd']; subst.
  destruct (node_eqb x n) eqn:E.
  - simpl in Hd. apply node_eqb_eq in E. subst x. f_equal.
    + destruct a as [ai al ab ad]. simpl in *. now subst.
    + now apply map_absent.
  - f_equal. now apply IH.
Qed.

Local Open Scope nat_scope.

Lemma relax_skip_all : forall d cs T Q,
  (forall c, In c cs -> exists dc, get_depth T c = Some dc /\ dc <= d + 1) ->
  fold_left (relax d) cs (T, Q) = (T, Q).
Proof.
  intros d cs T Q. induction cs as [|c cs IH]; intro H; simpl; [reflexivity|].
  destruct (H c (or_introl eq_refl)) as (dc & Hdc & Hle).
  unfold relax at 2. cbn [fst snd]. rewrite Hdc.
  assert ((dc <=? d + 1) = true) as -> by now apply Nat.leb_le.
  apply IH. intros c' Hc'. apply H. now right.
Qed.

(** A second [update_depth] on a hierarchy that [update_depth] has annotated
    leaves the object as it is. *)
Theorem update_depth_again :
  forall (w : Weaver) (T : DiGraph) (r : node),
    hier w = Some T -> wf_graph T -> no_depth T -> get_root T = Some r ->
    exists w1, update_depth w = (w1, Ok tt) /\ update_depth w1 = (w1, Ok tt).
Proof.
  intros w T r Hh Hw Hn Hr.
  destruct (update_depth_graph_spec T r Hw Hn Hr) as (T' & E & Ee & En & Hd0 & Hsh & Hall).
  exists (set_hier w (Some T')). split.
  { unfold update_depth. rewrite Hh, E. reflexivity. }
  unfold update_depth. cbn [hier set_hier].
  assert (update_depth_graph T' = Ok T') as ->; [|reflexivity].
  assert (edges T' = edges T) as Ee' by (unfold edges; now rewrite Ee).
  assert (get_root T' = Some r) as Hr'.
  { unfold get_root in *. rewrite En, <- Hr. apply find_same.
    intro v. unfold in_degree, predecessors. now rewrite Ee. }
  unfold update_depth_graph. rewrite Hr'.
  rewrite set_depth_same; [|rewrite En; apply Hw|assumption].
  cbn [update_topdown]. rewrite Hd0.
  rewrite relax_skip_all.
  - cbn [fst snd]. destruct (length (g_nodes T')); reflexivity.
  - intros c Hc. apply In_successors in Hc.
    assert (path T' r c) as Hp by now apply path_edge.
    destruct (Hall c Hp) as [d Hd]. exists d. split; [assumption|].
    destruct (Hsh c d Hd) as [_ Hmin].
    assert (walk T' r c 1) as Hw1 by (eapply walk_cons; [exact Hc|apply walk_nil]).
    apply Hmin in Hw1. lia.
Qed.

Local Close Scope nat_scope.

(** * The further statements on the worked inputs *)

Lemma docstring_build_returns :
  _build docstring_assigned (9 # 10)
  = (fst (_build docstring_assigned (9 # 10)), Ok docstring_full).
Proof. vm_compute. reflexivity. Qed.

Lemma triangle_wf : wf_graph triangle.
Proof.
  split; [|split].
  - repeat constructor; simpl; intuition discriminate.
  - repeat constructor; simpl; intuition discriminate.
  - intros u v H. simpl in H.
    destruct H as [H|[H|[H|[]]]]; inversion H; subst; simpl; auto.
Qed.

Lemma triangle_ranked : ranked triangle_rank triangle.
Proof.
  intros u v H. simpl in H.
  destruct H as [H|[H|[H|[]]]]; inversion H; subst; simpl; lia.
Qed.

Lemma remove_redundant_keeps_paths_witness :
  path triangle (Internal 0 0) (Internal 2 0) <->
  path (remove_redundant triangle) (Internal 0 0) (Internal 2 0).
Proof.
  apply (remove_redundant_keeps_paths triangle triangle_rank).
  - exact triangle_wf.
  - exact triangle_ranked.
Defined.

Lemma candidate_graph_no_shortcut_witness :
  ~ path docstring_full (Internal 3 0) (Internal 5 0).
Proof.
  apply (candidate_graph_no_shortcut docstring_assigned (9 # 10)
           (fst (_build docstring_assigned (9 # 10))) docstring_full)
    with (a := Internal 1 0).
  - reflexivity.
  - exact docstring_build_returns.
  - vm_compute. tauto.
  - vm_compute. tauto.
  - discriminate.
Defined.

Lemma cluster_reaches_its_terminals_witness :
  path docstring_full (Internal 3 0) (Terminal 0).
Proof.
  apply (cluster_reaches_its_terminals docstring_assigned (9 # 10)
           (fst (_build docstring_assigned (9 # 10))) docstring_full
           (rows_boolean docstring_partitions) (range 8) docstring_build_returns
           eq_refl eq_refl 3 0 0%nat).
  - vm_compute. tauto.
  - lia.
  - simpl. lia.
  - reflexivity.
Defined.

Lemma hierarchy_depths_complete_witness :
  exists r, get_root docstring_hier = Some r /\ get_depth docstring_hier r = Some 0%nat /\
    forall v, In v (nodes docstring_hier) ->
      path docstring_hier r v /\
      exists d, get_depth docstring_hier v = Some d /\ shortest docstring_hier r v d.
Proof.
  apply (hierarchy_depths_complete init_weaver docstring_partitions TNone true
           (LBool false) docstring_config docstring_weaver docstring_hier).
  - reflexivity.
  - exact docstring_weave_returns.
Defined.

Lemma hierarchy_leaves_are_terminals_witness :
  (istuple (Terminal 3) = true -> out_degree docstring_hier (Terminal 3) <> O) /\
  (istuple (Terminal 3) = false ->
   out_degree docstring_hier (Terminal 3) = O /\ in_degree docstring_hier (Terminal 3) <> O).
Proof.
  apply (hierarchy_leaves_are_terminals init_weaver docstring_partitions TNone true
           (LBool false) docstring_config docstring_weaver docstring_hier).
  - reflexivity.
  - exact docstring_weave_returns.
  - vm_compute. tauto.
Defined.

Lemma hierarchy_keeps_terminals_witness :
  exists G, _full docstring_weaver = Some G /\
    (forall t, In (Terminal t) (nodes docstring_hier) <-> In (Terminal t) (nodes G)) /\
    (forall n, In n (nodes docstring_hier) -> In n (nodes G)).
Proof.
  apply (hierarchy_keeps_terminals init_weaver docstring_partitions TNone true
           (LBool false) docstring_config docstring_weaver docstring_hier).
  - reflexivity.
  - exact docstring_weave_returns.
Defined.

Lemma build_returns_unless_no_pair_witness :
  exists w' G, _build docstring_assigned (9 # 10) = (w', Ok G).
Proof.
  destruct (build_returns_unless_no_pair docstring_assigned (9 # 10)
              (rows_boolean docstring_partitions) (range 7)
              (map (fun _ => 1) docstring_partitions) (range 8)
              eq_refl eq_refl eq_refl eq_refl
              ltac:(repeat constructor) eq_refl eq_refl eq_refl) as (_ & H & _).
  apply H. vm_compute. discriminate.
Defined.

Lemma pick_returns_unless_no_terminal_witness :
  exists h, pick (fst (_build docstring_assigned (9 # 10))) 100 0 None false false
            = (set_hier (fst (_build docstring_assigned (9 # 10))) (Some h), Ok h).
Proof.
  destruct (pick_returns_unless_no_terminal docstring_assigned (9 # 10)
              (fst (_build docstring_assigned (9 # 10))) docstring_full
              eq_refl docstring_build_returns 100 0 false false) as [H _].
  apply H. exists 0. vm_compute. tauto.
Defined.

Lemma weave_returns_witness :
  exists w' h,
    weave init_weaver docstring_partitions TNone true (LBool false) docstring_config
    = (w', Ok h).
Proof.
  apply (weave_returns init_weaver docstring_partitions TNone true docstring_config 8).
  - simpl. lia.
  - lia.
  - intros p Hp. simpl in Hp.
    repeat (destruct Hp as [<-|Hp]; [reflexivity|]). destruct Hp.
  - exact I.
  - reflexivity.
  - reflexivity.
  - intros _. exists [1;1;1;1;1;1;1;1], 1. split; [now left|]. split; [now left|lia].
Defined.

Lemma weave_single_boolean_partition_witness :
  snd (weave init_weaver [[1; 1; 0]] TNone true (LBool false) default_config)
  = Raise IndexError.
Proof.
  apply (weave_single_boolean_partition init_weaver [1; 1; 0] TNone false default_config).
  exact I.
Defined.

Lemma candidate_parent_not_smaller_witness :
  if assume_levels docstring_assigned
  then nthZ (range 7) 1 0 < nthZ (range 7) 3 0
  else count_nonzero (nthZ (rows_boolean docstring_partitions) 3 [])
       <= count_nonzero (nthZ (rows_boolean docstring_partitions) 1 []).
Proof.
  apply (candidate_parent_not_smaller docstring_assigned (9 # 10)
           (fst (_build docstring_assigned (9 # 10))) docstring_full
           (rows_boolean docstring_partitions) (range 7) eq_refl docstring_build_returns
           eq_refl eq_refl 3 1 0 0).
  - lia.
  - lia.
  - vm_compute. tauto.
Defined.

Lemma update_depth_again_witness :
  exists w1, update_depth (set_hier init_weaver (Some small_hier)) = (w1, Ok tt) /\
             update_depth w1 = (w1, Ok tt).
Proof.
  apply (update_depth_again (set_hier init_weaver (Some small_hier)) small_hier
           (Internal 0 0)).
  - reflexivity.
  - split; [|split].
    + repeat constructor; simpl; intuition discriminate.
    + repeat constructor; simpl; intuition discriminate.
    + intros u v H. simpl in H. destruct H as [H|[H|[]]]; inversion H; subst; simpl; auto.
  - intros n a H. simpl in H.
    destruct H as [H|[H|[H|[]]]]; inversion H; reflexivity.
  - reflexivity.
Defined.

(** * The hierarchy in the object after [weave] *)

(** ** The object [weave] hands to [_build] *)

Lemma rows_labelled_length : forall partitions clevels n r,
  (forall p, In p partitions -> length p = n) ->
  In r (rows_labelled partitions clevels) -> length (fst (fst r)) = n.
Proof.
  intros partitions clevels n r Hn. unfold rows_labelled.
  intro H. apply in_flat_map in H as ([i p] & Hip & Hr).
  apply in_map_iff in Hr as (label & <- & _). simpl.
  rewrite length_map. apply Hn. now apply in_combine_r in Hip.
Qed.

Lemma lengths_all : forall (partitions : list (list Z)),
  existsb (fun l => negb (l =? hd O (map (@length Z) partitions))%nat)
          (map (@length Z) partitions) = false ->
  forall p, In p partitions -> length p = hd O (map (@length Z) partitions).
Proof.
  intros partitions H p Hp.
  destruct (Nat.eq_dec (length p) (hd O (map (@length Z) partitions))) as [E|E]; [exact E|].
  exfalso. assert (existsb (fun l => negb (l =? hd O (map (@length Z) partitions))%nat)
                           (map (@length Z) partitions) = true) as H'; [|congruence].
  apply existsb_exists. exists (length p). split; [now apply in_map|].
  apply negb_true_iff. now apply Nat.eqb_neq.
Qed.

Lemma weave_state : forall w partitions terminals boolean levels c w' h,
  weave w partitions terminals boolean levels c = (w', Ok h) ->
  exists w3 w4 G L ts,
    _build w3 (cutoff c) = (w4, Ok G) /\
    pick w4 (top c) (percentage_terminal_edges c) (additional c) (replace c)
         (strict_single_branch c) = (w', Ok h) /\
    _assignment w3 = Some L /\ _terminals w3 = Some ts /\
    (forall row, In row L -> length row = length ts) /\
    n_terminals w3 = length ts /\
    (boolean = false ->
     forall p, (p < length ts)%nat -> exists row, In row L /\ nth p row false = true).
Proof.
  intros w partitions terminals boolean levels c w' h. unfold weave.
  destruct (length partitions =? 0)%nat eqn:E0; [discriminate|].
  destruct (existsb _ _) eqn:El; [discriminate|].
  destruct (negb _); [discriminate|].
  pose proof (lengths_all partitions El) as Hlen.
  set (n := hd O (map (@length Z) partitions)) in *.
  set (w1 := set_assume w _).
  set (clevels := match levels with LBool _ => _ | LList l => l end).
  match goal with
  | |- match ?a with _ => _ end = _ -> _ => destruct a as [w2|e] eqn:Ea; [|discriminate]
  end.
  assert (exists L, _assignment w2 = Some L /\ L <> [] /\
                    (forall row, In row L -> length row = n) /\
                    (boolean = false ->
                     forall p, (p < n)%nat -> exists row, In row L /\ nth p row false = true))
    as (L & EL & HL & Hrow & Hcov).
  { destruct boolean.
    - inversion Ea; subst w2. exists (rows_boolean partitions). split; [reflexivity|].
      split; [|split].
      + destruct partitions; [discriminate|]. discriminate.
      + intros row Hr. unfold rows_boolean in Hr. apply in_map_iff in Hr as (p & <- & Hp).
        rewrite length_map. now apply Hlen.
      + discriminate.
    - destruct (rows_labelled partitions clevels) as [|r0 rs] eqn:Er; [discriminate|].
      inversion Ea; subst w2. exists (map (fun r => fst (fst r)) (r0 :: rs)).
      split; [reflexivity|]. split; [discriminate|]. split.
      + intros row Hr. apply in_map_iff in Hr as (r & <- & Hr). rewrite <- Er in Hr.
        now apply (rows_labelled_length partitions clevels n r Hlen).
      + intros _ p Hp. rewrite <- Er.
        destruct partitions as [|p0 ps]; [discriminate|].
        assert (length p0 = n) as Hp0 by (apply Hlen; now left).
        exists (map (fun x => x =? nth p p0 0) p0). split.
        * apply in_map_iff.
          exists (map (fun x => x =? nth p p0 0) p0, nth p p0 0, nthZ clevels 0 0).
          split; [reflexivity|]. unfold rows_labelled. apply in_flat_map.
          exists (0, p0). split; [simpl; now left|].
          apply in_map_iff. exists (nth p p0 0). split; [reflexivity|].
          apply In_unique. apply nth_In. simpl. lia.
        * rewrite (nth_map_in _ _ (fun x => x =? nth p p0 0) p0 p 0 false) by lia.
          apply Z.eqb_refl. }
  unfold set_terminals.
  destruct (match terminals with TNone => _ | TNdarray _ => _ | TSeq l => _ end) as [ts|] eqn:Et;
    [|discriminate].
  destruct (negb (length ts =? n_terminals w2)%nat) eqn:En; [discriminate|].
  apply negb_false_iff, Nat.eqb_eq in En.
  set (w3 := mkWeaver _ _ _ _ _ _ _ (Some ts) _).
  destruct (_build w3 (cutoff c)) as [w4 [G|e]] eqn:EB; [|discriminate].
  intro HP. exists w3, w4, G, L, ts.
  assert (n_terminals w2 = n) as Hn2.
  { unfold n_terminals. rewrite EL. destruct L as [|r0 L]; [congruence|].
    simpl. apply Hrow. now left. }
  split; [exact EB|]. split; [exact HP|]. split; [exact EL|]. split; [reflexivity|].
  split; [intros row Hr; rewrite En, Hn2; now apply Hrow|].
  split; [unfold n_terminals; simpl; fold (n_terminals w2); congruence|].
  intros Hb p Hp. apply Hcov; [assumption|]. congruence.
Qed.

(** ** The clusters keep their level, the terminals come from the rows *)

Lemma levelled_add_node : forall G n a,
  a_level a <> None -> levelled G -> levelled (add_node G n a).
Proof.
  intros G n a Ha HG m b Hm Ht. unfold add_node in Hm.
  destruct (has_node G n); simpl in Hm.
  - apply in_map_iff in Hm as ([x c] & E & Hx). simpl in E.
    destruct (node_eqb x n).
    + inversion E; subst. simpl. destruct (a_level a); [discriminate|contradiction].
    + inversion E; subst. now apply (HG m b).
  - apply in_app_iff in Hm as [Hm|[E|[]]]; [now apply (HG m b)|].
    inversion E; subst. assumption.
Qed.

Lemma levelled_touch : forall G n,
  (istuple n = true -> In n (nodes G)) -> levelled G -> levelled (touch_node G n).
Proof.
  intros G n Hn HG. unfold touch_node. destruct (has_node G n) eqn:E; [assumption|].
  intros m b Hm Ht. simpl in Hm. apply in_app_iff in Hm as [Hm|[E'|[]]]; [now apply (HG m b)|].
  inversion E'; subst. apply Hn, has_node_In in Ht. congruence.
Qed.

Lemma levelled_add_edge : forall G u v w,
  (istuple u = true -> In u (nodes G)) -> (istuple v = true -> In v (nodes G)) ->
  levelled G -> levelled (add_edge G u v w).
Proof.
  intros G u v w Hu Hv HG m b Hm. rewrite g_nodes_add_edge in Hm. revert m b Hm.
  apply levelled_touch.
  - intro Ht. apply nodes_touch_node. left. now apply Hv.
  - now apply levelled_touch.
Qed.

Lemma levelled_init_step : forall L levels labels cutoff G ij,
  levelled G -> levelled (init_step L levels labels cutoff G ij).
Proof.
  intros L levels labels cutoff G [i j] HG. unfold init_step. cbn [fst snd].
  set (G1 := if has_node G (Internal i 0) then G else _).
  set (G2 := if has_node G1 (Internal j 0) then G1 else _).
  assert (levelled G1 /\ In (Internal i 0) (nodes G1)) as [H1 Hi].
  { subst G1. destruct (has_node G (Internal i 0)) eqn:E.
    - split; [assumption|now apply has_node_In].
    - split; [apply levelled_add_node; [discriminate|assumption]|].
      apply nodes_add_node. now right. }
  assert (levelled G2 /\ In (Internal i 0) (nodes G2) /\ In (Internal j 0) (nodes G2))
    as (H2 & Hi2 & Hj2).
  { subst G2. destruct (has_node G1 (Internal j 0)) eqn:E.
    - split; [assumption|]. split; [assumption|now apply has_node_In].
    - split; [apply levelled_add_node; [discriminate|assumption]|].
      split; apply nodes_add_node; [now left|now right]. }
  clearbody G1 G2.
  destruct (Qle_bool _ _); [|assumption].
  destruct (lookup_edge _ _); [destruct (Qgtb _ _); [|assumption]|];
    apply levelled_add_edge; auto.
Qed.

Lemma levelled_init_graph : forall L levels labels assume cutoff,
  levelled (init_graph L levels labels assume cutoff).
Proof.
  intros. unfold init_graph. apply fold_left_inv.
  - intros n a [].
  - intros G ij _ HG. now apply levelled_init_step.
Qed.

Lemma levelled_add_root : forall G G1 root,
  levelled G -> add_root G = Ok (G1, root) -> levelled G1.
Proof.
  intros G G1 root HG. unfold add_root.
  set (roots := filter _ (nodes G)).
  assert (forall n, In n roots -> In n (nodes G)) as Hroots.
  { intros n Hn. subst roots. now apply filter_In in Hn. }
  clearbody roots.
  destruct (1 <? length roots)%nat.
  - intro E. inversion E; subst. clear E.
    assert (levelled (add_node G (Internal (-1) 0) root_attrs) /\
            In (Internal (-1) 0) (nodes (add_node G (Internal (-1) 0) root_attrs)) /\
            forall n, In n roots -> In n (nodes (add_node G (Internal (-1) 0) root_attrs)))
      as H0.
    { split; [apply levelled_add_node; [discriminate|assumption]|].
      split; [apply nodes_add_node; now right|].
      intros n Hn. apply nodes_add_node. left. now apply Hroots. }
    revert H0. generalize (add_node G (Internal (-1) 0) root_attrs) as G0.
    clear Hroots. induction roots as [|x roots IH]; intros G0 (H1 & H2 & H3); simpl;
      [assumption|].
    apply IH. split; [|split].
    + apply levelled_add_edge; auto. intros _. apply H3. now left.
    + apply nodes_add_edge. now left.
    + intros n Hn. apply nodes_add_edge. left. apply H3. now right.
  - destruct roots as [|r roots]; [discriminate|]. intro E. inversion E; subst. assumption.
Qed.

Section Origin.

Variable L : list (list bool).
Variable terminals : list Z.

Lemma scan_attached_g_nodes : forall n ter idx G att skip G' att',
  scan_attached G n ter idx att = Ok (skip, G', att') -> g_nodes G' = g_nodes G.
Proof.
  intros n ter. induction idx as [|k IH]; intros G att skip G' att'; simpl.
  - intro E. now inversion E.
  - destruct (k <? length att)%nat; [|intro E; now inversion E].
    destruct (has_path G n (nth k att n)); [intro E; now inversion E|].
    destruct (has_path G (nth k att n) n); [|apply IH].
    unfold remove_edge. destruct (has_edge G (nth k att n) ter); [|discriminate].
    cbn [bind]. intro E. apply IH in E. now rewrite E.
Qed.

Lemma attach_one_origin : forall G0 n st i k p st',
  n = Internal i k -> In p (true_positions (nthZ L i [])) ->
  In n (nodes (fst st)) ->
  levelled (fst st) /\ from_rows L terminals (fst st) /\ incl (nodes G0) (nodes (fst st)) ->
  attach_one terminals n st p = Ok st' ->
  levelled (fst st') /\ from_rows L terminals (fst st') /\ incl (nodes G0) (nodes (fst st')).
Proof.
  intros G0 n st i k p st' En Hp Hn (Hl & Hf & Hi). unfold attach_one.
  destruct (scan_attached _ _ _ _ _) as [[[skip G1] att1]|e] eqn:Es; [|discriminate].
  cbn [bind fst snd]. apply scan_attached_g_nodes in Es.
  assert (nodes G1 = nodes (fst st)) as En1 by (unfold nodes; now rewrite Es).
  assert (levelled G1) as Hl1 by (intros m b Hm; rewrite Es in Hm; now apply (Hl m b)).
  destruct skip; intro E; inversion E; subst st'; cbn [fst].
  - split; [assumption|]. split; [|now rewrite En1].
    intros t Ht. rewrite En1 in Ht. now apply Hf.
  - split; [|split].
    + apply levelled_add_edge; [intros _; now rewrite En1|discriminate|assumption].
    + intros t Ht. apply nodes_add_edge in Ht as [Ht|[Ht|Ht]].
      * rewrite En1 in Ht. now apply Hf.
      * subst n. discriminate.
      * inversion Ht; subst. eauto.
    + intros x Hx. apply nodes_add_edge. left. rewrite En1. now apply Hi.
Qed.

Lemma attach_terminals_origin : forall G0 G,
  levelled G0 -> (forall n, In n (nodes G0) -> istuple n = true) ->
  attach_terminals L terminals G0 = Ok G ->
  levelled G /\ from_rows L terminals G.
Proof.
  intros G0 G Hl Hc. unfold attach_terminals.
  destruct (foldM _ _ _) as [st|e] eqn:E; [|discriminate]. cbn [bind].
  intro E'. inversion E'; subst G. clear E'.
  assert (levelled (fst st) /\ from_rows L terminals (fst st) /\ incl (nodes G0) (nodes (fst st)))
    as (H1 & H2 & _); [|now split].
  revert E.
  apply (foldM_Ok_inv _ _ (fun st => levelled (fst st) /\ from_rows L terminals (fst st) /\
                                     incl (nodes G0) (nodes (fst st)))).
  - split; [assumption|]. split; [|apply incl_refl].
    intros t Ht. apply Hc in Ht. discriminate.
  - intros st0 n st1 Hn H0. unfold attach_node.
    destruct n as [i k|t]; [|discriminate].
    destruct (i =? -1); [intro E; inversion E; subst; exact H0|].
    apply (foldM_Ok_inv _ _ (fun st => levelled (fst st) /\ from_rows L terminals (fst st) /\
                                       incl (nodes G0) (nodes (fst st)))); [assumption|].
    intros st2 p st3 Hp H2 E.
    apply (attach_one_origin G0 (Internal i k) st2 i k p st3 eq_refl Hp); [|assumption|assumption].
    destruct H2 as (_ & _ & Hi2). now apply Hi2.
Qed.

End Origin.

Lemma build_graph_origin : forall L levels labels assume terminals cutoff G root,
  build_graph L levels labels assume terminals cutoff = Ok (G, root) ->
  levelled G /\ from_rows L terminals G.
Proof.
  intros L levels labels assume terminals cutoff G root HB.
  apply build_graph_phases in HB as (G1 & E1 & E2).
  pose proof (cluster_init_graph L levels labels assume cutoff) as Hc0.
  pose proof (cluster_add_root _ _ _ Hc0 E1) as Hc1.
  apply cluster_remove_redundant in Hc1.
  apply (attach_terminals_origin L terminals (remove_redundant G1) G); [| |assumption].
  - intros n a Hn. unfold remove_redundant in Hn. rewrite nodes_remove_edges_from in Hn.
    revert n a Hn. eapply levelled_add_root; [|eassumption]. apply levelled_init_graph.
  - apply Hc1.
Qed.

(** ** [update_depth] leaves the levels as they are *)

Lemma get_attr_level_set_depth : forall T m d n,
  get_attr Level (set_depth T m d) n = get_attr Level T n.
Proof.
  intros T m d n. unfold get_attr, get_attrs, set_depth. simpl.
  induction (g_nodes T) as [|[x a] l IH]; simpl; [reflexivity|].
  destruct (node_eqb x m); simpl; destruct (node_eqb x n); simpl; auto.
Qed.

Lemma relax_level : forall d l st n,
  get_attr Level (fst (fold_left (relax d) l st)) n = get_attr Level (fst st) n.
Proof.
  intros d. induction l as [|c l IH]; intros st n; simpl; [reflexivity|].
  rewrite IH. unfold relax.
  destruct (match get_depth (fst st) c with Some _ => _ | None => _ end); [reflexivity|].
  simpl. apply get_attr_level_set_depth.
Qed.

Lemma update_topdown_level : forall fuel T Q st n,
  update_topdown fuel T Q = Ok st -> get_attr Level (fst st) n = get_attr Level T n.
Proof.
  induction fuel as [|f IH]; intros T Q st n; simpl.
  - intro H. now inversion H.
  - destruct Q as [|p Q]; [intro H; now inversion H|].
    destruct (get_depth T p); [|discriminate].
    intro H. apply (IH _ _ _ n) in H. rewrite H. apply relax_level.
Qed.

Lemma update_depth_graph_level : forall T T' n,
  update_depth_graph T = Ok T' -> get_attr Level T' n = get_attr Level T n.
Proof.
  intros T T' n. unfold update_depth_graph.
  destruct (get_root T) as [r|]; [|discriminate].
  destruct (update_topdown _ _ _) as [st|] eqn:E; simpl; [|discriminate].
  intro H. inversion H; subst. rewrite (update_topdown_level _ _ _ _ n E).
  apply get_attr_level_set_depth.
Qed.

Lemma levelled_get_attr : forall G n,
  levelled G -> In n (nodes G) -> istuple n = true ->
  exists l, get_attr Level G n = Some l.
Proof.
  intros G n HG Hn Ht. unfold get_attr, get_attrs.
  destruct (find (fun p => node_eqb (fst p) n) (g_nodes G)) as [[x a]|] eqn:E.
  - apply find_some in E as [Hx Ex]. simpl in Ex. apply node_eqb_eq in Ex. subst x.
    simpl. pose proof (HG n a Hx Ht) as Ha. destruct (a_level a) as [l|]; [eauto|contradiction].
  - exfalso. unfold nodes in Hn. apply in_map_iff in Hn as ([x a] & Ex & Hx). simpl in Ex. subst x.
    apply (find_none _ _ E) in Hx. simpl in Hx. now rewrite node_eqb_refl in Hx.
Qed.

(** ** The hierarchy in the object *)

(** Where there is a pair at all, every cluster is in one. *)
Lemma gen_partner : forall L levels assume i,
  0 <= i < Z.of_nat (length L) -> gen L levels assume <> [] ->
  exists j, In (i, j) (gen L levels assume) \/ In (j, i) (gen L levels assume).
Proof.
  intros L levels assume i Hi Hgen.
  destruct (gen L levels assume) as [|[a b] g] eqn:E; [congruence|].
  assert (In (a, b) (gen L levels assume)) as Hab by (rewrite E; now left).
  rewrite <- E. clear E Hgen g.
  apply In_gen in Hab as (Ha & Hb & Hc).
  destruct assume.
  - destruct (Z_lt_dec (nthZ levels b 0) (nthZ levels i 0)) as [Hlt|Hge].
    + exists b. left. apply In_gen. auto.
    + exists a. right. apply In_gen. split; [assumption|]. split; [assumption|]. lia.
  - destruct (Z.eq_dec a i) as [->|Hne].
    + exists b. left. apply In_gen. auto.
    + exists a. right. apply In_gen. auto.
Qed.

Lemma _build_fields : forall w c w' G,
  _build w c = (w', Ok G) ->
  exists L lv labels ts root s,
    _assignment w = Some L /\ _levels w = Some lv /\ _labels w = Some labels /\
    _terminals w = Some ts /\
    build_graph L lv labels (assume_levels w) ts c = Ok (G, root) /\
    secondary L G root = Ok s /\
    w' = set_secondary (set_full w G) (fst s) (snd s).
Proof.
  intros w c w' G. unfold _build.
  destruct (_assignment w) as [L|]; [|discriminate].
  destruct (_levels w) as [lv|]; [|discriminate].
  destruct (_labels w) as [labels|]; [|discriminate].
  destruct (_terminals w) as [ts|]; [|discriminate].
  destruct (build_graph _ _ _ _ _ _) as [[G1 root]|] eqn:EB; [|discriminate].
  cbn [fst snd]. destruct (secondary L G1 root) as [s|] eqn:ES; [|discriminate].
  intro H. inversion H; subst.
  exists L, lv, labels, ts, root, s. auto 10.
Qed.

Lemma weave_stored : forall w partitions terminals boolean levels c w' h,
  (0 < cutoff c)%Q ->
  weave w partitions terminals boolean levels c = (w', Ok h) ->
  exists rk r ts, stored rk w' h r ts /\
    (boolean = false -> forall t, In t ts -> In (Terminal t) (nodes h)).
Proof.
  intros w partitions terminals boolean levels c w' h Hc HW.
  destruct (weave_state _ _ _ _ _ _ _ _ HW)
    as (w3 & w4 & G & L & ts & HB & HP & EL & Ets & Hrows & En & Hcov).
  destruct (_build_fields w3 (cutoff c) w4 G HB)
    as (L' & lv & labels & ts' & root & s & EL' & Elv & Elab & Ets' & EB & ES & Ew4).
  rewrite EL in EL'. inversion EL'; subst L'. clear EL'.
  rewrite Ets in Ets'. inversion Ets'; subst ts'. clear Ets'.
  destruct (build_graph_props _ _ _ _ _ _ _ _ (or_intror Hc) EB)
    as (Hw & Hn & Hs & Hr & Hroot & Htr & Hin).
  set (rk := rank L lv (assume_levels w3)) in *.
  assert (hier_inv rk root G) as HG by now constructor.
  assert (_full w4 = Some G /\ _secondary_edges w4 = Some (fst s) /\
          _secondary_terminal_edges w4 = Some (snd s)) as (EG & Ese & Este)
    by (subst w4; auto).
  destruct (pick_Ok_hier _ root L s w4 G _ _ _ _ _ w' h HG ES EG Ese Este HP)
    as (T & h0 & HT & EnT & E0 & H0 & Hr0 & Eh).
  destruct (pick_Ok w4 G _ _ _ _ _ _ _ w' h EG Ese Este HP) as (_ & _ & _ & _ & _ & Ew).
  destruct (build_graph_origin _ _ _ _ _ _ _ _ EB) as [Hlev Hfrom].
  destruct (rooted_only_root rk root h0 H0 Hr0) as [_ Hgr].
  destruct (update_depth_graph_spec h0 root (hi_wf H0) (hi_nodepth H0) Hgr)
    as (h' & Eh' & Ee & Enn & Hd0 & Hsh & Hall).
  rewrite Eh in Eh'. inversion Eh'; subst h'. clear Eh'.
  assert (edges h = edges h0) as Ee' by (unfold edges; now rewrite Ee).
  destruct (prune_nodes rk root T _ h0 HT E0) as [Hterm Hattr].
  assert (forall v, In v (nodes h) -> path h root v) as Hreach.
  { intros v Hv. rewrite Enn in Hv.
    pose proof (rooted_reachable rk root h0 H0 v Hv) as Hp.
    revert Hp. apply path_mono. intros e He. now rewrite Ee'. }
  exists rk, root, ts. split.
  - constructor.
    + subst w'. reflexivity.
    + subst w' w4. exact Ets.
    + subst w' w4. exact En.
    + destruct (hi_wf H0) as (W1 & W2 & W3). unfold wf_graph. rewrite Enn, Ee'. auto.
    + intros u v Huv. rewrite Ee' in Huv. exact (hi_src H0 u v Huv).
    + intros u v Huv. rewrite Ee' in Huv. exact (hi_ranked H0 u v Huv).
    + unfold get_root in *. rewrite Enn, <- Hgr. apply find_same.
      intro v. unfold in_degree, predecessors. now rewrite Ee.
    + exact Htr.
    + exact Hreach.
    + intros v Hv. destruct (Hall v (Hreach v Hv)) as [d Hd]. exists d. split; [exact Hd|].
      now apply Hsh.
    + intros v Hv Ht. rewrite Enn in Hv.
      assert (out_degree h v = out_degree h0 v) as -> by (unfold out_degree, successors; now rewrite Ee).
      now apply (prune_no_dead_end rk root T _ h0 HT E0 v Hv).
    + intros t Ht. rewrite Enn in Ht. apply Hterm in Ht.
      unfold nodes in Ht. rewrite EnT in Ht. apply Hfrom in Ht as (i & p & Hp & ->).
      apply In_true_positions in Hp as [Hp Hp'].
      assert (nthZ L i [] <> []) as Hne by (intro E; rewrite E in Hp; simpl in Hp; lia).
      assert (In (nthZ L i []) L) as HinL.
      { unfold nthZ in *. destruct (Nat.lt_ge_cases (Z.to_nat i) (length L)) as [Hlt|Hge].
        - now apply nth_In.
        - rewrite nth_overflow in Hne by assumption. congruence. }
      apply Hrows in HinL. unfold nthZ. apply nth_In. lia.
    + intros n Hn' Ht. rewrite (update_depth_graph_level h0 h n Eh).
      rewrite Enn in Hn'. apply levelled_get_attr; [|assumption|assumption].
      intros m a Hm. apply Hattr in Hm. rewrite EnT in Hm. now apply (Hlev m a).
  - intros Hb t Ht. rewrite Enn. apply Hterm. unfold nodes. rewrite EnT.
    apply In_nth with (d := 0) in Ht as (p & Hp & <-).
    destruct (Hcov Hb p Hp) as (row & Hrow & Hmark).
    apply In_nth with (d := []) in Hrow as (i & Hi & Ei).
    assert (In (Z.of_nat p) (true_positions (nthZ L (Z.of_nat i) []))) as Hpos.
    { apply In_true_positions. unfold nthZ. rewrite !Nat2Z.id, Ei.
      split; [|assumption]. rewrite (Hrows row) by (rewrite <- Ei; now apply nth_In). lia. }
    assert (exists j, In (Z.of_nat i, j) (gen L lv (assume_levels w3)) \/
                      In (j, Z.of_nat i) (gen L lv (assume_levels w3))) as [j Hj].
    { apply (gen_partner L lv (assume_levels w3) (Z.of_nat i)); [lia|].
      intro E. revert EB. unfold build_graph, init_graph. rewrite E. discriminate. }
    pose proof (build_has_terminal L lv labels _ ts (cutoff c) G root (Z.of_nat i) j
                  (Z.of_nat p) EB Hj Hpos) as H.
    unfold nthZ in H. now rewrite Nat2Z.id in H.
Qed.

(** * The cluster of a node: [node_cluster] *)

(** ** Marks *)

Lemma first_index_Some : forall t ts, In t ts ->
  exists j, Util.first_index t ts = Some j /\ (j < length ts)%nat.
Proof.
  intros t. induction ts as [|x ts IH]; simpl; [contradiction|].
  intro H. destruct (x =? t) eqn:E.
  - exists O. split; [reflexivity|lia].
  - destruct H as [H|H]; [subst; rewrite Z.eqb_refl in E; discriminate|].
    destruct (IH H) as (j & Ej & Hj). exists (S j). rewrite Ej. split; [reflexivity|lia].
Qed.

Lemma first_index_nth : forall t ts j, Util.first_index t ts = Some j ->
  (j < length ts)%nat /\ nth j ts 0 = t.
Proof.
  intros t. induction ts as [|x ts IH]; simpl; [discriminate|].
  intros j. destruct (x =? t) eqn:E.
  - intro H. inversion H; subst. apply Z.eqb_eq in E. split; [lia|assumption].
  - destruct (Util.first_index t ts) as [k|]; [|discriminate].
    intro H. inversion H; subst. destruct (IH k eq_refl). split; [lia|assumption].
Qed.

Lemma set_true_spec : forall out j, (j < length out)%nat ->
  exists out', set_true out j = Returns out' /\ length out' = length out /\
    forall k, nth k out' false = if (k =? j)%nat then true else nth k out false.
Proof.
  induction out as [|b out IH]; intros j Hj; simpl in Hj; [lia|].
  destruct j as [|j]; simpl.
  - exists (true :: out). split; [reflexivity|]. split; [reflexivity|].
    intros [|k]; reflexivity.
  - destruct (IH j) as (out' & E & Hl & Hk); [lia|]. rewrite E. simpl.
    exists (b :: out'). split; [reflexivity|]. split; [simpl; congruence|].
    intros [|k]; [reflexivity|]. simpl. apply Hk.
Qed.

(** A round of marks for terminals that are all in the array. *)
Lemma marks_spec : forall ts desc out,
  length out = length ts ->
  (forall d, In d desc -> exists t, d = Terminal t /\ In t ts) ->
  exists out', ofoldM (mark ts) desc out = Returns out' /\ length out' = length out /\
    forall k, nth k out' false = true <->
      nth k out false = true \/
      exists t, In (Terminal t) desc /\ Util.first_index t ts = Some k.
Proof.
  intros ts. induction desc as [|d desc IH]; intros out Hl Hd; simpl.
  - exists out. split; [reflexivity|]. split; [reflexivity|].
    intro k. split; [auto|]. intros [H|(t & [] & _)]. assumption.
  - destruct (Hd d (or_introl eq_refl)) as (t & -> & Ht).
    destruct (first_index_Some t ts Ht) as (j & Ej & Hj).
    unfold mark at 1. simpl. rewrite Ej. simpl.
    destruct (set_true_spec out j) as (out1 & E1 & Hl1 & Hk1); [lia|].
    rewrite E1. simpl.
    destruct (IH out1) as (out' & E' & Hl' & Hk'); [congruence|intros; apply Hd; now right|].
    exists out'. split; [exact E'|]. split; [congruence|].
    intro k. rewrite Hk', Hk1. destruct (Nat.eqb_spec k j) as [->|Hne].
    + split; [|auto]. intros _. right. exists t. split; [now left|assumption].
    + split.
      * intros [H|(t' & H1 & H2)]; [auto|]. right. exists t'. split; [now right|assumption].
      * intros [H|(t' & [H1|H1] & H2)]; [auto| |].
        -- inversion H1; subst. congruence.
        -- right. eauto.
Qed.

(** ** The terminals below a node *)

Lemma In_descendants : forall G c d, wf_graph G ->
  (In d (descendants G c) <-> d <> c /\ path G c d).
Proof.
  intros G c d Hw. unfold descendants. rewrite filter_In, negb_true_iff, node_eqb_neq.
  split.
  - intros [H Hne]. split; [assumption|].
    unfold reachable_from in H. apply closure_sound in H as (s & [<-|[]] & Hp). assumption.
  - intros [Hne Hp]. split; [|assumption]. now apply reachable_from_complete.
Qed.

Lemma path_from_terminal : forall G t v, src_tuple G -> path G (Terminal t) v -> v = Terminal t.
Proof.
  intros G t v Hs Hp. inversion Hp as [|u x y Hux Hxy]; subst; [reflexivity|].
  apply Hs in Hux. discriminate.
Qed.

Lemma path_in_nodes : forall G u v, wf_graph G -> In u (nodes G) -> path G u v -> In v (nodes G).
Proof.
  intros G u v Hw Hu Hp. induction Hp as [|u x v Hux Hxv IH]; [assumption|].
  apply IH. now apply Hw in Hux.
Qed.

Section Stored.

Variable rk : node -> Z.
Variable w : Weaver.
Variable h : DiGraph.
Variable r : node.
Variable ts : list Z.
Hypothesis Hst : stored rk w h r ts.

(** Every cluster has a terminal below it. *)
Lemma terminal_below : forall c, In c (nodes h) -> exists t, path h c (Terminal t).
Proof.
  assert (forall k : nat, forall c, In c (nodes h) -> rk c <= rk r - rk r + Z.of_nat k + rk c ->
            (forall x, In x (nodes h) -> rk x < rk c -> exists t, path h x (Terminal t)) ->
            exists t, path h c (Terminal t)) as Hstep.
  { intros _ c Hc _ IH. destruct c as [i k'|t]; [|exists t; apply path_refl].
    pose proof (st_child Hst (Internal i k') Hc eq_refl) as Hout.
    unfold out_degree in Hout.
    destruct (successors h (Internal i k')) as [|x l] eqn:Es; [now elim Hout|].
    assert (In (Internal i k', x) (edges h)) as He by (apply In_successors; rewrite Es; now left).
    destruct (IH x) as [t Ht].
    - now apply (st_wf Hst) in He.
    - exact (st_ranked Hst _ _ He).
    - exists t. eapply path_step; eassumption. }
  destruct (list_min_rank rk (nodes h)) as (m & Hm & Hmin).
  { intro E. destruct (get_root_Some h r (st_root Hst)) as [Hr _]. rewrite E in Hr. destruct Hr. }
  assert (forall k : nat, forall c, In c (nodes h) -> rk c - rk m <= Z.of_nat k ->
            exists t, path h c (Terminal t)) as H.
  { induction k as [|k IH]; intros c Hc Hk.
    - apply (Hstep O c Hc); [lia|]. intros x Hx Hlt. apply Hmin in Hx. lia.
    - apply (Hstep O c Hc); [lia|]. intros x Hx Hlt. apply IH; [assumption|]. lia. }
  intros c Hc. apply (H (Z.to_nat (rk c - rk m)) c Hc). pose proof (Hmin c Hc). lia.
Qed.

Lemma node_cluster_spec : forall c, In c (nodes h) ->
  exists row, node_cluster w c (Some (repeat false (n_terminals w))) = Returns row /\
    length row = length ts /\
    forall k, nth k row false = true <->
      exists t, path h c (Terminal t) /\ Util.first_index t ts = Some k.
Proof.
  intros c Hc. unfold node_cluster.
  rewrite (st_hier Hst), (proj2 (has_node_In h c) Hc), (st_terminals Hst), (st_n Hst).
  set (desc := filter (fun d => negb (istuple d)) (descendants h c)).
  assert (forall d, In d desc <-> exists t, d = Terminal t /\ d <> c /\ path h c d) as Hdesc.
  { intro d. unfold desc. rewrite filter_In, (In_descendants h c d (st_wf Hst)).
    destruct d as [i k|t]; simpl.
    - split; [intros [_ H]; discriminate|intros (t & H & _); discriminate].
    - split; [intros [H _]; eauto|intros (t' & _ & H); auto]. }
  assert (forall k : nat, nth k (repeat false (length ts)) false = true <-> False) as Hzero.
  { intro k. split; [|contradiction]. rewrite nth_repeat. discriminate. }
  destruct c as [i k|t0].
  - destruct (marks_spec ts desc (repeat false (length ts))) as (out' & E & Hl & Hk).
    + apply repeat_length.
    + intros d Hd. apply Hdesc in Hd as (t & -> & _ & Hp). exists t. split; [reflexivity|].
      apply (st_term Hst). eapply path_in_nodes; [apply (st_wf Hst)|exact Hc|exact Hp].
    + assert (desc <> []) as Hne.
      { destruct (terminal_below (Internal i k) Hc) as [t Ht].
        intro E'. assert (In (Terminal t) desc) as H; [|rewrite E' in H; destruct H].
        apply Hdesc. exists t. split; [reflexivity|]. split; [discriminate|assumption]. }
      clearbody desc. destruct desc as [|d0 desc0]; [congruence|].
      exists out'. split; [exact E|]. split; [rewrite Hl; apply repeat_length|].
      intro j. rewrite Hk, Hzero. split.
      * intros [[]|(t & Ht & Ej)]. apply Hdesc in Ht as (t' & Et & _ & Hp). eauto.
      * intros (t & Hp & Ej). right. exists t. split; [|assumption].
        apply Hdesc. exists t. split; [reflexivity|]. split; [discriminate|assumption].
  - clearbody desc. assert (desc = []) as ->.
    { destruct desc as [|d l] eqn:Ed; [reflexivity|].
      assert (In d (d :: l)) as Hd by now left.
      apply Hdesc in Hd as (t & -> & Hne & Hp).
      apply path_from_terminal in Hp; [congruence|]. exact (st_src Hst). }
    unfold mark. simpl.
    destruct (first_index_Some t0 ts (st_term Hst t0 Hc)) as (j & Ej & Hj). rewrite Ej. simpl.
    destruct (set_true_spec (repeat false (length ts)) j) as (out' & E & Hl & Hk);
      [rewrite repeat_length; lia|].
    rewrite E. exists out'. split; [reflexivity|]. split; [rewrite Hl; apply repeat_length|].
    intro k. rewrite Hk. destruct (Nat.eqb_spec k j) as [->|Hne].
    + split; [|reflexivity]. intros _. exists t0. split; [apply path_refl|assumption].
    + rewrite nth_repeat. split; [discriminate|].
      intros (t & Hp & Ek). apply path_from_terminal in Hp; [|exact (st_src Hst)].
      inversion Hp; subst. congruence.
Qed.

End Stored.

(** * The search of [_topdown_cluster] *)

(** ** The edges that can still fill the queue *)

Lemma pending_visit : forall h n visited, ~ In n visited ->
  (pending h (n :: visited) + length (successors h n) = pending h visited)%nat.
Proof.
  intros h n visited Hn. unfold pending, successors. rewrite length_map.
  apply mem_false in Hn. unfold mem in *.
  induction (g_edges h) as [|[[u v] q] l IH]; simpl in *; [reflexivity|].
  destruct (node_eqb u n) eqn:E; simpl.
  - apply node_eqb_eq in E. subst u. rewrite Hn. simpl. lia.
  - destruct (existsb (node_eqb u) visited); simpl; lia.
Qed.

Section Search.

Variable rk : node -> Z.
Variable w : Weaver.
Variable h : DiGraph.
Variable r : node.
Variable ts : list Z.
Hypothesis Hst : stored rk w h r ts.

Variable attr : attr_name.
Variable value : Z.
Variable sbt bounded : bool.

Hypothesis Hattr : forall n, In n (nodes h) -> istuple n = true ->
  exists a, get_attr attr h n = Some a.
Hypothesis Hbound : bounded = true -> forall u c a,
  In (u, c) (edges h) -> istuple c = true -> get_attr attr h u = Some a -> a < value ->
  exists b, get_attr attr h c = Some b /\ b <= value.

Let inv := scan_inv h r attr value sbt bounded.
Let potential (s : scan) : nat := (length (s_queue s) + pending h (s_visited s))%nat.

Lemma topdown_step_spec : forall n Q V C W,
  inv (mkScan (n :: Q) V C W) ->
  exists s', topdown_step w h attr value sbt n Q V C W = Returns s' /\ inv s' /\
             (potential s' < potential (mkScan (n :: Q) V C W))%nat.
Proof.
  intros n Q V C W Hi. unfold topdown_step.
  destruct (si_queue Hi n (or_introl eq_refl)) as (Hn & Hnt & Hnb).
  destruct (mem n V) eqn:Em.
  { apply mem_In in Em. exists (mkScan Q V C W). split; [reflexivity|]. split.
    - constructor; simpl.
      + intros m Hm. apply (si_queue Hi m). now right.
      + apply (si_visited Hi).
      + apply (si_clusters Hi).
      + destruct (si_root Hi) as [[<-|H]|H]; auto.
      + intros m a c Hm Ht Ea Ha Hc.
        destruct (si_low Hi m a c Hm Ht Ea Ha Hc) as [H|[[<-|H]|H]]; auto.
      + apply (si_eq Hi).
      + apply (si_term Hi).
      + apply (si_warn Hi).
    - unfold potential. simpl. lia. }
  apply mem_false in Em.
  pose proof (pending_visit h n V Em) as Hpend.
  destruct (istuple n) eqn:Et; simpl.
  2:{ assert (sbt = false) as Es by (destruct sbt; [now specialize (Hnt eq_refl)|reflexivity]).
      rewrite Es. eexists. split; [reflexivity|]. split.
      - constructor; simpl.
        + intros m Hm. apply (si_queue Hi m). now right.
        + intros m [<-|Hm]; [|now apply (si_visited Hi)].
          split; [assumption|]. split; [congruence|congruence].
        + intros m Hm. apply in_app_iff in Hm as [Hm|[<-|[]]]; [|now left].
          right. now apply (si_clusters Hi).
        + destruct (si_root Hi) as [[<-|H]|H]; auto.
        + intros m a c [<-|Hm] Ht Ea Ha Hc; [congruence|].
          destruct (si_low Hi m a c Hm Ht Ea Ha Hc) as [(_ & H & _)|[[<-|H]|H]]; auto.
          congruence.
        + intros m [<-|Hm] Ht Ea; [congruence|]. apply in_app_iff. left.
          now apply (si_eq Hi).
        + intros m [<-|Hm] Ht; apply in_app_iff; [right; now left|left].
          now apply (si_term Hi).
        + apply (si_warn Hi).
      - unfold potential. simpl. lia. }
  destruct (Hattr n Hn Et) as [a Ea]. rewrite Ea.
  destruct (a <? value) eqn:Elt.
  { apply Z.ltb_lt in Elt.
    set (keep := existsb (fun child => negb (istuple child)) (successors h n)).
    assert ((if sbt then has_any_terminal w n else Returns false)
            = Returns (sbt && keep)) as ->.
    { destruct sbt; [|reflexivity]. unfold has_any_terminal.
      rewrite (st_hier Hst), (proj2 (has_node_In h n) Hn). reflexivity. }
    simpl. eexists. split; [reflexivity|].
    set (kids := filter (fun child => negb (sbt && negb (istuple child))) (successors h n)).
    assert (forall c, In c kids <-> In (n, c) (edges h) /\ (sbt = true -> istuple c = true))
      as Hkids.
    { intro c. unfold kids. rewrite filter_In, In_successors.
      destruct sbt, (istuple c); simpl; intuition congruence. }
    split.
    - constructor; simpl.
      + intros m Hm. apply in_app_iff in Hm as [Hm|Hm]; [apply (si_queue Hi m); now right|].
        apply Hkids in Hm as [He Hs]. split; [now apply (st_wf Hst) in He|].
        split; [assumption|]. intros Hb Hmt. now apply (Hbound Hb n m a).
      + intros m [<-|Hm]; [|now apply (si_visited Hi)]. auto.
      + intros m Hm.
        assert (In m C \/ m = n) as [H | ->]; [|right; now apply (si_clusters Hi)|now left].
        destruct (sbt && keep); [|now left].
        apply in_app_iff in Hm as [Hm|[<-|[]]]; auto.
      + destruct (si_root Hi) as [[<-|H]|H]; [right; now left| |right; now right].
        left. apply in_app_iff. now left.
      + intros m a' c [<-|Hm] Ht Ea' Ha' Hc.
        * destruct sbt eqn:Es, (istuple c) eqn:Ec.
          -- right. left. apply in_app_iff. right. apply Hkids. auto.
          -- left. split; [reflexivity|]. split; [reflexivity|].
             assert (keep = true) as ->.
             { unfold keep. apply existsb_exists. exists c.
               split; [now apply In_successors|]. now rewrite Ec. }
             simpl. apply in_app_iff. right. now left.
          -- right. left. apply in_app_iff. right. apply Hkids. split; [assumption|discriminate].
          -- right. left. apply in_app_iff. right. apply Hkids. split; [assumption|discriminate].
        * destruct (si_low Hi m a' c Hm Ht Ea' Ha' Hc) as [(H1 & H2 & H3)|[[<-|H]|H]].
          -- left. split; [assumption|]. split; [assumption|].
             destruct (sbt && keep); [apply in_app_iff; now left|assumption].
          -- right. right. now left.
          -- right. left. apply in_app_iff. now left.
          -- right. right. now right.
      + intros m [<-|Hm] Ht Ev.
        * rewrite Ea in Ev. inversion Ev. lia.
        * pose proof (si_eq Hi m Hm Ht Ev) as H.
          destruct (sbt && keep); [apply in_app_iff; now left|assumption].
      + intros m [<-|Hm] Ht; [congruence|].
        pose proof (si_term Hi m Hm Ht) as H.
        destruct (sbt && keep); [apply in_app_iff; now left|assumption].
      + apply (si_warn Hi).
    - unfold potential. simpl. rewrite length_app.
      assert (length kids <= length (successors h n))%nat by apply filter_length_le.
      lia. }
  apply Z.ltb_ge in Elt.
  destruct (a =? value) eqn:Eeq.
  { apply Z.eqb_eq in Eeq. subst a. eexists. split; [reflexivity|]. split.
    - constructor; simpl.
      + intros m Hm. apply (si_queue Hi m). now right.
      + intros m [<-|Hm]; [|now apply (si_visited Hi)]. auto.
      + intros m Hm. apply in_app_iff in Hm as [Hm|[<-|[]]]; [|now left].
        right. now apply (si_clusters Hi).
      + destruct (si_root Hi) as [[<-|H]|H]; auto.
      + intros m a c [<-|Hm] Ht Ea' Ha' Hc.
        * rewrite Ea in Ea'. inversion Ea'. lia.
        * destruct (si_low Hi m a c Hm Ht Ea' Ha' Hc) as [(H1 & H2 & H3)|[[<-|H]|H]]; auto.
          left. split; [assumption|]. split; [assumption|]. apply in_app_iff. now left.
      + intros m [<-|Hm] Ht Ev; apply in_app_iff; [right; now left|left].
        now apply (si_eq Hi).
      + intros m [<-|Hm] Ht; [congruence|]. apply in_app_iff. left. now apply (si_term Hi).
      + apply (si_warn Hi).
    - unfold potential. simpl. lia. }
  apply Z.eqb_neq in Eeq.
  assert (bounded = false) as Eb.
  { destruct bounded; [|reflexivity]. destruct (Hnb eq_refl eq_refl) as (a' & Ea' & Hle).
    rewrite Ea in Ea'. inversion Ea'. lia. }
  eexists. split; [reflexivity|]. split.
  - constructor; simpl.
    + intros m Hm. apply (si_queue Hi m). now right.
    + intros m [<-|Hm]; [|now apply (si_visited Hi)]. auto.
    + intros m Hm. right. now apply (si_clusters Hi).
    + destruct (si_root Hi) as [[<-|H]|H]; auto.
    + intros m a' c [<-|Hm] Ht Ea' Ha' Hc.
      * rewrite Ea in Ea'. inversion Ea'. lia.
      * destruct (si_low Hi m a' c Hm Ht Ea' Ha' Hc) as [H|[[<-|H]|H]]; auto.
    + intros m [<-|Hm] Ht Ev.
      * rewrite Ea in Ev. inversion Ev. lia.
      * now apply (si_eq Hi).
    + intros m [<-|Hm] Ht; [congruence|]. now apply (si_term Hi).
    + congruence.
  - unfold potential. simpl. lia.
Qed.

Lemma topdown_loop_spec : forall fuel s,
  inv s -> (potential s <= fuel)%nat ->
  exists s', topdown_loop w h attr value sbt fuel s = Returns s' /\ inv s' /\ s_queue s' = [].
Proof.
  induction fuel as [|f IH]; intros [Q V C W] Hi Hp; simpl.
  - exists (mkScan Q V C W). split; [reflexivity|]. split; [assumption|].
    unfold potential in Hp. simpl in *. destruct Q; [reflexivity|simpl in Hp; lia].
  - destruct Q as [|n Q]; [exists (mkScan [] V C W); auto|].
    destruct (topdown_step_spec n Q V C W Hi) as (s' & E & Hi' & Hlt).
    rewrite E. simpl. apply IH; [assumption|lia].
Qed.

Lemma pending_nil : pending h [] = length (g_edges h).
Proof.
  unfold pending. simpl. induction (g_edges h) as [|e l IH]; simpl; [reflexivity|].
  now rewrite IH.
Qed.

Lemma topdown_search :
  (bounded = true -> exists a, get_attr attr h r = Some a /\ a <= value) ->
  exists s, topdown_loop w h attr value sbt (S (length (g_edges h))) (mkScan [r] [] [] O)
            = Returns s /\ inv s /\ s_queue s = [].
Proof.
  intro Hr. apply topdown_loop_spec.
  - destruct (get_root_Some h r (st_root Hst)) as [Hin _].
    constructor; simpl; try contradiction.
    + intros n [<-|[]]. split; [assumption|]. split; [intros _; exact (st_tuple Hst)|].
      intros Hb _. now apply Hr.
    + left. now left.
    + reflexivity.
  - unfold potential. simpl. rewrite pending_nil. lia.
Qed.

(** With the bound every terminal ends up below a cluster found. *)
Lemma search_covers : forall s,
  inv s -> s_queue s = [] -> bounded = true ->
  forall t, In (Terminal t) (nodes h) ->
    exists c, In c (s_clusters s) /\ path h c (Terminal t).
Proof.
  intros s Hi Hq Hb t Ht.
  assert (In r (s_visited s)) as Hr.
  { destruct (si_root Hi) as [H|H]; [rewrite Hq in H; destruct H|assumption]. }
  pose proof (st_reach Hst _ Ht) as Hp.
  assert (forall v x, path h v x -> x = Terminal t -> In v (s_visited s) ->
            exists c, In c (s_clusters s) /\ path h c (Terminal t)) as Hgen;
    [|now apply (Hgen r (Terminal t))].
  clear Hp Hr. intros v x Hp. induction Hp as [v|v y x Hvy Hyx IH]; intros Ex Hv.
  - subst v. exists (Terminal t). split; [|apply path_refl]. now apply (si_term Hi).
  - specialize (IH Ex). pose proof (st_src Hst v y Hvy) as Hvt.
    destruct (si_visited Hi v Hv) as (Hvn & _ & Hvb).
    destruct (Hvb Hb Hvt) as (a & Ea & Hle).
    assert (path h v x) as Hvx by (eapply path_step; eassumption).
    destruct (Z.eq_dec a value) as [->|Hne].
    + exists v. split; [now apply (si_eq Hi)|]. now subst x.
    + destruct (si_low Hi v a y Hv Hvt Ea ltac:(lia) Hvy) as [(_ & _ & H)|[H|H]].
      * exists v. split; [assumption|now subst x].
      * rewrite Hq in H. destruct H.
      * now apply IH.
Qed.

(** The clusters found are nodes of the hierarchy: [node_cluster] returns
    a row for each of them. *)
Lemma omapM_spec : forall (A B : Type) (P : A -> B -> Prop) (f : A -> outcome B) l,
  (forall x, In x l -> exists y, f x = Returns y /\ P x y) ->
  exists ys, omapM f l = Returns ys /\ Forall2 P l ys.
Proof.
  intros A B P f. induction l as [|x l IH]; intro H; simpl.
  - exists []. split; [reflexivity|constructor].
  - destruct (H x (or_introl eq_refl)) as (y & E & HP). rewrite E. simpl.
    destruct IH as (ys & E' & HF); [intros; apply H; now right|].
    rewrite E'. simpl. exists (y :: ys). split; [reflexivity|now constructor].
Qed.

Lemma search_rows : forall s, inv s ->
  exists H, omapM (fun n => node_cluster w n (Some (repeat false (n_terminals w))))
                  (s_clusters s) = Returns H /\
    Forall2 (fun c row =>
               In c (nodes h) /\ length row = length ts /\
               forall k, nth k row false = true <->
                 exists t, path h c (Terminal t) /\ Util.first_index t ts = Some k)
            (s_clusters s) H.
Proof.
  intros s Hi. apply omapM_spec. intros c Hc.
  apply (si_clusters Hi), (si_visited Hi) in Hc as [Hc _].
  destruct (node_cluster_spec rk w h r ts Hst c Hc) as (row & E & Hrow).
  exists row. auto.
Qed.

End Search.

(** * The partition at a depth: [depth_cluster] *)

(** ** The labels of a matrix *)

Lemma column_max_nth : forall x y, length x = length y ->
  length (column_max x y) = length x /\
  forall j, nth j (column_max x y) 0 = Z.max (nth j x 0) (nth j y 0).
Proof.
  unfold column_max. induction x as [|a x IH]; intros [|b y] Hl; simpl in Hl; try discriminate.
  - split; [reflexivity|]. intros [|j]; reflexivity.
  - destruct (IH y) as [H1 H2]; [lia|]. simpl. split; [now rewrite H1|].
    intros [|j]; [reflexivity|]. apply H2.
Qed.

Lemma fold_column_max : forall rs r n,
  length r = n -> (forall x, In x rs -> length x = n) ->
  length (fold_left column_max rs r) = n /\
  forall j, 1 <= nth j (fold_left column_max rs r) 0 <->
            1 <= nth j r 0 \/ exists x, In x rs /\ 1 <= nth j x 0.
Proof.
  induction rs as [|y rs IH]; intros r n Hr Hrs; simpl.
  - split; [assumption|]. intro j. split; [auto|]. intros [H|(x & [] & _)]. assumption.
  - assert (length y = n) as Hy by (apply Hrs; now left).
    destruct (column_max_nth r y) as [Hl Hn]; [congruence|].
    destruct (IH (column_max r y) n) as [H1 H2]; [congruence|intros; apply Hrs; now right|].
    split; [assumption|]. intro j. rewrite H2, Hn. split.
    + intros [H|(x & Hx & H)].
      * destruct (Z.max_spec (nth j r 0) (nth j y 0)) as [[_ E]|[_ E]]; rewrite E in H; eauto.
      * right. exists x. auto.
    + intros [H|(x & [<-|Hx] & H)]; [left; lia|left; lia|right; eauto].
Qed.

Lemma scale_row_nth : forall i row j,
  1 <= nth j (scale_row i row) 0 <-> nth j row false = true.
Proof.
  intros i row j. unfold scale_row.
  change 0 with ((fun b : bool => if b then Z.of_nat (S i) else 0) false) at 2.
  rewrite map_nth. destruct (nth j row false); split; try discriminate; try lia;
    reflexivity.
Qed.

Lemma In_combine_seq : forall (A : Type) (H : list A) start row,
  In row H -> exists i, In (i, row) (combine (seq start (length H)) H).
Proof.
  intros A. induction H as [|x H IH]; intros start row; simpl; [contradiction|].
  intros [->|Hr]; [exists start; now left|].
  destruct (IH (S start) row Hr) as [i Hi]. exists i. now right.
Qed.

Lemma flatten_spec : forall H n,
  H <> [] -> (forall row, In row H -> length row = n) ->
  exists labels, flatten H = Returns labels /\ length labels = n /\
    forall j, 1 <= nth j labels 0 <-> exists row, In row H /\ nth j row false = true.
Proof.
  intros H n Hne Hrows. unfold flatten.
  set (LR := map (fun p => scale_row (fst p) (snd p)) (combine (seq 0 (length H)) H)).
  assert (forall x, In x LR -> exists i row, In row H /\ x = scale_row i row) as Hin.
  { intros x Hx. unfold LR in Hx. apply in_map_iff in Hx as ([i row] & <- & Hp).
    exists i, row. split; [now apply in_combine_r in Hp|reflexivity]. }
  assert (forall row, In row H -> exists i, In (scale_row i row) LR) as Hout.
  { intros row Hr. destruct (In_combine_seq _ H O row Hr) as [i Hi]. exists i.
    unfold LR. apply in_map_iff. exists (i, row). auto. }
  assert (forall x, In x LR -> length x = n) as Hlen.
  { intros x Hx. apply Hin in Hx as (i & row & Hr & ->). unfold scale_row.
    rewrite length_map. now apply Hrows. }
  destruct LR as [|r rs] eqn:E.
  - exfalso. destruct H as [|row H]; [congruence|].
    destruct (Hout row (or_introl eq_refl)) as [i []].
  - destruct (fold_column_max rs r n) as [H1 H2];
      [apply Hlen; now left|intros; apply Hlen; now right|].
    exists (fold_left column_max rs r). split; [reflexivity|]. split; [assumption|].
    intro j. rewrite H2. split.
    + intros [Hj|(x & Hx & Hj)].
      * destruct (Hin r (or_introl eq_refl)) as (i & row & Hr & Er).
        rewrite Er in Hj. apply scale_row_nth in Hj. eauto.
      * destruct (Hin x (or_intror Hx)) as (i & row & Hr & Er).
        rewrite Er in Hj. apply scale_row_nth in Hj. eauto.
    + intros (row & Hr & Hj). destruct (Hout row Hr) as [i [Hi|Hi]].
      * left. rewrite Hi. now apply scale_row_nth.
      * right. exists (scale_row i row). split; [assumption|]. now apply scale_row_nth.
Qed.

(** ** The depths along an edge *)

Lemma get_attr_depth : forall h n,
  get_attr Depth h n = option_map Z.of_nat (get_depth h n).
Proof.
  intros h n. unfold get_attr, get_depth. now destruct (get_attrs h n).
Qed.

Section Depths.

Variable rk : node -> Z.
Variable w : Weaver.
Variable h : DiGraph.
Variable r : node.
Variable ts : list Z.
Hypothesis Hst : stored rk w h r ts.

Lemma stored_depth_attr : forall n, In n (nodes h) ->
  exists a, get_attr Depth h n = Some a.
Proof.
  intros n Hn. destruct (st_depth Hst n Hn) as (d & Ed & _).
  rewrite get_attr_depth, Ed. simpl. eauto.
Qed.

Lemma stored_depth_edge : forall u c a,
  In (u, c) (edges h) -> get_attr Depth h u = Some a ->
  exists b, get_attr Depth h c = Some b /\ b <= a + 1.
Proof.
  intros u c a He Ea.
  destruct (proj2 (st_wf Hst)) as [_ Hends]. destruct (Hends u c He) as [Hu Hc].
  destruct (st_depth Hst u Hu) as (du & Eu & [Hwu _]).
  destruct (st_depth Hst c Hc) as (dc & Ec & [_ Hmin]).
  rewrite get_attr_depth, Eu in Ea. simpl in Ea. inversion Ea; subst a.
  rewrite get_attr_depth, Ec. simpl. exists (Z.of_nat dc). split; [reflexivity|].
  pose proof (Hmin _ (walk_snoc _ _ _ _ _ Hwu He)). lia.
Qed.

Lemma stored_depth_root : get_attr Depth h r = Some 0.
Proof.
  destruct (get_root_Some h r (st_root Hst)) as [Hin _].
  destruct (st_depth Hst r Hin) as (d & Ed & [_ Hmin]).
  rewrite get_attr_depth, Ed. simpl. pose proof (Hmin O (walk_nil h r)).
  replace d with O by lia. reflexivity.
Qed.

End Depths.

(** ** The rows and the clusters *)

Lemma Forall2_In_l : forall (A B : Type) (P : A -> B -> Prop) l ys x,
  Forall2 P l ys -> In x l -> exists y, In y ys /\ P x y.
Proof.
  intros A B P l ys x HF. induction HF as [|a b l ys Hab HF IH]; simpl; [contradiction|].
  intros [<-|Hx]; [exists b; auto|]. destruct (IH Hx) as (y & Hy & HP). exists y. auto.
Qed.

Lemma Forall2_In_r : forall (A B : Type) (P : A -> B -> Prop) l ys y,
  Forall2 P l ys -> In y ys -> exists x, In x l /\ P x y.
Proof.
  intros A B P l ys y HF. induction HF as [|a b l ys Hab HF IH]; simpl; [contradiction|].
  intros [<-|Hy]; [exists a; auto|]. destruct (IH Hy) as (x & Hx & HP). exists x. auto.
Qed.

Lemma first_index_NoDup : forall ts j, NoDup ts -> (j < length ts)%nat ->
  Util.first_index (nth j ts 0) ts = Some j.
Proof.
  induction ts as [|x ts IH]; intros j Hnd Hj; simpl in Hj; [lia|].
  inversion Hnd as [|y l Hx Hnd']; subst. destruct j as [|j]; simpl.
  - now rewrite Z.eqb_refl.
  - destruct (x =? nth j ts 0) eqn:E.
    + apply Z.eqb_eq in E. exfalso. apply Hx. rewrite E. apply nth_In. lia.
    + rewrite IH by (assumption || lia). reflexivity.
Qed.

(** ** [depth_cluster] on the hierarchy of [weave] *)

(** At a depth that is not negative [depth_cluster] returns the labels of a
    partition of the terminals of the hierarchy that [weave] has returned:
    no warning is logged, and the positions with a label, from 1 on, are the
    first positions of the terminals of the hierarchy in the array of
    terminals.  With labelled partitions and distinct terminals every
    position has a label. *)
Theorem depth_cluster_labels :
  forall (w : Weaver) (partitions : list (list Z)) (terminals : terminals_arg)
         (boolean : bool) (levels : levels_arg) (c : config) (w' : Weaver) (h : DiGraph)
         (d : Z) (stop_before_terminal : bool),
    (0 < cutoff c)%Q ->
    weave w partitions terminals boolean levels c = (w', Ok h) ->
    0 <= d ->
    exists ts labels,
      _terminals w' = Some ts /\
      depth_cluster w' d true stop_before_terminal = Returns (Labels labels, O) /\
      length labels = length ts /\
      (forall j, 1 <= nth j labels 0 <->
                 exists t, In (Terminal t) (nodes h) /\ Util.first_index t ts = Some j) /\
      (boolean = false -> NoDup ts -> forall j, (j < length ts)%nat -> 1 <= nth j labels 0).
Proof.
  intros w partitions terminals boolean levels c w' h d sbt Hc HW Hd.
  destruct (weave_stored _ _ _ _ _ _ _ _ Hc HW) as (rk & r & ts & Hst & Hall).
  destruct (topdown_search rk w' h r ts Hst Depth d sbt true) as (s & Es & Hi & Hq).
  { intros n Hn _. now apply (stored_depth_attr rk w' h r ts Hst). }
  { intros _ u x a He _ Ea Ha.
    destruct (stored_depth_edge rk w' h r ts Hst u x a He Ea) as (b & Eb & Hb).
    exists b. split; [assumption|lia]. }
  { intros _. exists 0. split; [apply (stored_depth_root rk w' h r ts Hst)|assumption]. }
  destruct (search_rows rk w' h r ts Hst Depth d sbt true s Hi) as (H & EH & HF).
  pose proof (search_covers rk w' h r ts Hst Depth d sbt true s Hi Hq eq_refl) as Hcov.
  destruct (get_root_Some h r (st_root Hst)) as [Hrin _].
  destruct (terminal_below rk w' h r ts Hst r Hrin) as [t0 Ht0].
  assert (In (Terminal t0) (nodes h)) as Ht0n
    by (eapply path_in_nodes; [apply (st_wf Hst)|exact Hrin|exact Ht0]).
  destruct (flatten_spec H (length ts)) as (labels & El & Hlen & Hlab).
  { destruct (Hcov t0 Ht0n) as (c0 & Hc0 & _).
    destruct (Forall2_In_l _ _ _ _ _ c0 HF Hc0) as (y & Hy & _).
    intro E. rewrite E in Hy. destruct Hy. }
  { intros row Hr. destruct (Forall2_In_r _ _ _ _ _ row HF Hr) as (x & _ & _ & Hl & _).
    exact Hl. }
  assert (forall j, 1 <= nth j labels 0 <->
            exists t, In (Terminal t) (nodes h) /\ Util.first_index t ts = Some j) as Hiff.
  { intro j. rewrite Hlab. split.
    - intros (row & Hr & Hj).
      destruct (Forall2_In_r _ _ _ _ _ row HF Hr) as (x & Hx & Hxn & _ & Hk).
      destruct (proj1 (Hk j) Hj) as (t & Hp & Ej). exists t. split; [|assumption].
      eapply path_in_nodes; [apply (st_wf Hst)|exact Hxn|exact Hp].
    - intros (t & Ht & Ej). destruct (Hcov t Ht) as (x & Hx & Hp).
      destruct (Forall2_In_l _ _ _ _ _ x HF Hx) as (row & Hr & _ & _ & Hk).
      exists row. split; [assumption|]. apply Hk. eauto. }
  exists ts, labels. split; [exact (st_terminals Hst)|]. split; [|split; [assumption|split]].
  - unfold depth_cluster, _topdown_cluster.
    rewrite (st_hier Hst), (st_root Hst), Es. cbn [obind fst snd].
    rewrite EH. cbn [obind]. rewrite El. cbn [obind].
    now rewrite (si_warn Hi eq_refl).
  - exact Hiff.
  - intros Hb Hnd j Hj. apply Hiff. exists (nth j ts 0).
    split; [apply (Hall Hb); apply nth_In; lia|]. now apply first_index_NoDup.
Qed.

(** Below depth 0 the search finds no cluster and logs its warning for the
    root: the labels are numpy's [ValueError] for a maximum over no row,
    the matrix has no row. *)
Theorem depth_cluster_negative :
  forall (w : Weaver) (partitions : list (list Z)) (terminals : terminals_arg)
         (boolean : bool) (levels : levels_arg) (c : config) (w' : Weaver) (h : DiGraph)
         (d : Z) (stop_before_terminal : bool),
    (0 < cutoff c)%Q ->
    weave w partitions terminals boolean levels c = (w', Ok h) ->
    d < 0 ->
    depth_cluster w' d true stop_before_terminal = RaisesEmpty /\
    depth_cluster w' d false stop_before_terminal = Returns (Matrix [], 1%nat).
Proof.
  intros w partitions terminals boolean levels c w' h d sbt Hc HW Hd.
  destruct (weave_stored _ _ _ _ _ _ _ _ Hc HW) as (rk & r & ts & Hst & _).
  assert (forall flat, depth_cluster w' d flat sbt =
            if flat then RaisesEmpty else Returns (Matrix [], 1%nat)) as E.
  { intro flat. unfold depth_cluster, _topdown_cluster.
    rewrite (st_hier Hst), (st_root Hst). cbn [topdown_loop s_queue s_visited s_clusters s_warnings].
    unfold topdown_step. cbn [mem existsb]. rewrite (st_tuple Hst). cbn [negb].
    rewrite (stored_depth_root rk w' h r ts Hst).
    assert ((0 <? d) = false) as -> by (apply Z.ltb_ge; lia).
    assert ((0 =? d) = false) as -> by (apply Z.eqb_neq; lia).
    cbn [obind]. destruct (length (g_edges h)); cbn [topdown_loop s_queue obind fst snd omapM];
      destruct flat; reflexivity. }
  split; apply E.
Qed.

(** As a matrix the clusters of [_topdown_cluster] are returned at every
    level and at every depth, with or without the terminals: no key is
    missing, every terminal is found in the array.  A row has the length of
    the array and marks a terminal at least. *)
Theorem topdown_cluster_matrix :
  forall (w : Weaver) (partitions : list (list Z)) (terminals : terminals_arg)
         (boolean : bool) (levels : levels_arg) (c : config) (w' : Weaver) (h : DiGraph)
         (attr : attr_name) (value : Z) (stop_before_terminal : bool),
    (0 < cutoff c)%Q ->
    weave w partitions terminals boolean levels c = (w', Ok h) ->
    exists H warnings,
      _topdown_cluster w' attr value false stop_before_terminal
        = Returns (Matrix H, warnings) /\
      forall row, In row H ->
        length row = n_terminals w' /\ exists k, nth k row false = true.
Proof.
  intros w partitions terminals boolean levels c w' h attr value sbt Hc HW.
  destruct (weave_stored _ _ _ _ _ _ _ _ Hc HW) as (rk & r & ts & Hst & _).
  destruct (topdown_search rk w' h r ts Hst attr value sbt false) as (s & Es & Hi & Hq).
  { intros n Hn Ht. destruct attr.
    - now apply (stored_depth_attr rk w' h r ts Hst).
    - now apply (st_level Hst). }
  { discriminate. }
  { discriminate. }
  destruct (search_rows rk w' h r ts Hst attr value sbt false s Hi) as (H & EH & HF).
  exists H, (s_warnings s). split.
  - unfold _topdown_cluster. rewrite (st_hier Hst), (st_root Hst), Es. cbn [obind fst snd].
    rewrite EH. reflexivity.
  - intros row Hr. destruct (Forall2_In_r _ _ _ _ _ row HF Hr) as (x & _ & Hx & Hl & Hk).
    split; [rewrite (st_n Hst); exact Hl|].
    destruct (terminal_below rk w' h r ts Hst x Hx) as [t Ht].
    assert (In t ts) as Hin.
    { apply (st_term Hst). eapply path_in_nodes; [apply (st_wf Hst)|exact Hx|exact Ht]. }
    destruct (first_index_Some t ts Hin) as (j & Ej & _).
    exists j. apply Hk. eauto.
Qed.

(** * Levels and depths of the hierarchy *)

(** ** Sorted lists without duplicates *)

Lemma In_insert_sorted : forall x y l, In x (insert_sorted y l) <-> x = y \/ In x l.
Proof.
  intros x y. induction l as [|z l IH]; simpl; [intuition|].
  destruct (y <=? z); simpl; [intuition|]. rewrite IH. intuition.
Qed.

Lemma In_sort : forall x l, In x (sort l) <-> In x l.
Proof.
  intros x. induction l as [|y l IH]; simpl; [tauto|].
  rewrite In_insert_sorted, IH. intuition.
Qed.

Lemma insert_sorted_strict : forall x l,
  StronglySorted Z.lt l -> ~ In x l -> StronglySorted Z.lt (insert_sorted x l).
Proof.
  intros x. induction l as [|y l IH]; intros Hs Hx; simpl.
  - constructor; constructor.
  - inversion Hs as [|a b Hs' Hall]; subst.
    destruct (x <=? y) eqn:E.
    + apply Z.leb_le in E. assert (x < y) as Hlt by (simpl in Hx; lia).
      constructor; [assumption|]. constructor; [assumption|].
      rewrite Forall_forall in *. intros z Hz. specialize (Hall z Hz). lia.
    + apply Z.leb_gt in E. constructor.
      * apply IH; [assumption|]. simpl in Hx. tauto.
      * rewrite Forall_forall in *. intros z Hz. apply In_insert_sorted in Hz as [->|Hz]; auto.
Qed.

Lemma sort_strict : forall l, NoDup l -> StronglySorted Z.lt (sort l).
Proof.
  induction l as [|x l IH]; intro Hnd; simpl; [constructor|].
  inversion Hnd; subst. apply insert_sorted_strict; [auto|]. now rewrite In_sort.
Qed.

Lemma insert_unique_strict : forall x l,
  StronglySorted Z.lt l -> StronglySorted Z.lt (insert_unique x l).
Proof.
  intros x. induction l as [|y l IH]; intros Hs; simpl.
  - constructor; constructor.
  - inversion Hs as [|a b Hs' Hall]; subst.
    destruct (x <? y) eqn:E.
    + apply Z.ltb_lt in E. constructor; [assumption|]. constructor; [assumption|].
      rewrite Forall_forall in *. intros z Hz. specialize (Hall z Hz). lia.
    + apply Z.ltb_ge in E. destruct (x =? y) eqn:E'; [assumption|].
      apply Z.eqb_neq in E'. constructor; [now apply IH|].
      rewrite Forall_forall in *. intros z Hz. apply In_insert_unique in Hz as [->|Hz]; auto.
      lia.
Qed.

Lemma unique_strict : forall l, StronglySorted Z.lt (unique l).
Proof.
  induction l as [|x l IH]; simpl; [constructor|]. now apply insert_unique_strict.
Qed.

(** Two ascending lists with the same elements are the same list. *)
Lemma strict_ext : forall l l' : list Z,
  StronglySorted Z.lt l -> StronglySorted Z.lt l' ->
  (forall x, In x l <-> In x l') -> l = l'.
Proof.
  induction l as [|x l IH]; intros [|y l'] Hs Hs' Hiff.
  - reflexivity.
  - exfalso. apply (proj2 (Hiff y)). now left.
  - exfalso. apply (proj1 (Hiff x)). now left.
  - inversion Hs as [|a b Hs1 Hall]; subst. inversion Hs' as [|a b Hs1' Hall']; subst.
    rewrite Forall_forall in Hall, Hall'.
    assert (x = y) as ->.
    { destruct (proj1 (Hiff x) (or_introl eq_refl)) as [E|Hx]; [now symmetry|].
      destruct (proj2 (Hiff y) (or_introl eq_refl)) as [E|Hy]; [assumption|].
      specialize (Hall y Hy). specialize (Hall' x Hx). lia. }
    f_equal. apply IH; [assumption|assumption|].
    intro z. split; intro Hz.
    + destruct (proj1 (Hiff z) (or_intror Hz)) as [E|H]; [|assumption].
      specialize (Hall z Hz). lia.
    + destruct (proj2 (Hiff z) (or_intror Hz)) as [E|H]; [|assumption].
      specialize (Hall' z Hz). lia.
Qed.

Lemma range_strict : forall n, StronglySorted Z.lt (range n).
Proof.
  intro n. unfold range.
  assert (forall k a, StronglySorted Z.lt (map Z.of_nat (seq a k))) as H; [|apply H].
  induction k as [|k IH]; intro a; simpl; [constructor|].
  constructor; [apply IH|]. rewrite Forall_forall. intros z Hz.
  apply in_map_iff in Hz as (i & <- & Hi). apply in_seq in Hi. lia.
Qed.

(** ** [get_levels] and [some_node] *)

Lemma levels_fold : forall T l acc,
  NoDup acc -> (forall n, In n l -> exists v, get_attr Level T n = Some v) ->
  exists acc', ofoldM (levels_step T) l acc = Returns acc' /\ NoDup acc' /\
    forall v, In v acc' <-> In v acc \/ exists n, In n l /\ get_attr Level T n = Some v.
Proof.
  intros T. induction l as [|n l IH]; intros acc Hnd Hl; simpl.
  - exists acc. split; [reflexivity|]. split; [assumption|].
    intro v. split; [auto|]. intros [H|(n & [] & _)]. assumption.
  - destruct (Hl n (or_introl eq_refl)) as [v Ev]. unfold levels_step at 1. rewrite Ev.
    destruct (existsb (Z.eqb v) acc) eqn:Ex; simpl.
    + apply existsb_exists in Ex as (x & Hx & Exv). apply Z.eqb_eq in Exv. subst x.
      destruct (IH acc Hnd) as (acc' & E & Hnd' & Hiff); [intros; apply Hl; now right|].
      exists acc'. split; [assumption|]. split; [assumption|].
      intro v'. rewrite Hiff. split.
      * intros [H|(m & Hm & Em)]; [auto|]. right. exists m. auto.
      * intros [H|(m & [<-|Hm] & Em)]; [auto| |right; eauto].
        left. congruence.
    + assert (~ In v acc) as Hv.
      { intro H. assert (existsb (Z.eqb v) acc = true) as H'; [|congruence].
        apply existsb_exists. exists v. split; [assumption|apply Z.eqb_refl]. }
      destruct (IH (acc ++ [v])) as (acc' & E & Hnd' & Hiff).
      * now apply NoDup_snoc.
      * intros; apply Hl; now right.
      * exists acc'. split; [assumption|]. split; [assumption|].
        intro v'. rewrite Hiff, in_app_iff. simpl. split.
        -- intros [[H|[<-|[]]]|(m & Hm & Em)]; [auto|right; exists n; auto|right; exists m; auto].
        -- intros [H|(m & [<-|Hm] & Em)]; [auto| |right; eauto].
           left. right. left. congruence.
Qed.

Lemma some_node_loop_spec : forall T level l,
  (forall n, In n l -> exists v, get_attr Level T n = Some v) ->
  (exists n, some_node_loop T level l = Returns (Some n) /\ In n l /\
             get_attr Level T n = Some level) \/
  (some_node_loop T level l = Returns None /\
   forall n, In n l -> get_attr Level T n <> Some level).
Proof.
  intros T level. induction l as [|n l IH]; intro Hl; simpl.
  - right. split; [reflexivity|]. intros n [].
  - destruct (Hl n (or_introl eq_refl)) as [v Ev]. rewrite Ev.
    destruct (v =? level) eqn:E.
    + apply Z.eqb_eq in E. subst v. left. exists n. auto.
    + apply Z.eqb_neq in E.
      destruct IH as [(m & Em & Hm & Elm)|[En Hn]]; [intros; apply Hl; now right| |].
      * left. exists m. auto.
      * right. split; [assumption|]. intros m [<-|Hm]; [congruence|now apply Hn].
Qed.

(** After [weave] the levels that [get_levels] returns are ascending
    without a repetition and are the levels of the clusters of the
    hierarchy; for each of them [some_node] returns a cluster of that
    level, for any other level it returns [None]. *)
Theorem get_levels_some_node :
  forall (w : Weaver) (partitions : list (list Z)) (terminals : terminals_arg)
         (boolean : bool) (levels : levels_arg) (c : config) (w' : Weaver) (h : DiGraph),
    (0 < cutoff c)%Q ->
    weave w partitions terminals boolean levels c = (w', Ok h) ->
    exists lv, get_levels w' = Returns lv /\ StronglySorted Z.lt lv /\
      (forall l, In l lv <->
                 exists n, In n (nodes h) /\ istuple n = true /\
                           get_attr Level h n = Some l) /\
      (forall l, In l lv ->
                 exists n, some_node w' l = Returns (Some n) /\ In n (nodes h) /\
                           istuple n = true /\ get_attr Level h n = Some l) /\
      (forall l, ~ In l lv -> some_node w' l = Returns None).
Proof.
  intros w partitions terminals boolean levels c w' h Hc HW.
  destruct (weave_stored _ _ _ _ _ _ _ _ Hc HW) as (rk & r & ts & Hst & _).
  assert (forall n, In n (internal_nodes h) <-> In n (nodes h) /\ istuple n = true) as Hint.
  { intro n. unfold internal_nodes. apply filter_In. }
  assert (forall n, In n (internal_nodes h) -> exists v, get_attr Level h n = Some v) as Hlev.
  { intros n Hn. apply Hint in Hn as [Hn Ht]. now apply (st_level Hst). }
  destruct (levels_fold h (internal_nodes h) [] (NoDup_nil _) Hlev) as (acc & E & Hnd & Hiff).
  assert (forall l, In l (sort acc) <->
            exists n, In n (nodes h) /\ istuple n = true /\ get_attr Level h n = Some l) as Hin.
  { intro l. rewrite In_sort, Hiff. split.
    - intros [[]|(n & Hn & El)]. apply Hint in Hn as [Hn Ht]. eauto.
    - intros (n & Hn & Ht & El). right. exists n. split; [apply Hint; auto|assumption]. }
  exists (sort acc). split; [|split; [now apply sort_strict|split; [exact Hin|split]]].
  - unfold get_levels. rewrite (st_hier Hst), E. reflexivity.
  - intros l Hl. unfold some_node. rewrite (st_hier Hst).
    destruct (some_node_loop_spec h l (internal_nodes h) Hlev) as [(n & En & Hn & El)|[_ Hno]].
    + exists n. apply Hint in Hn as [Hn Ht]. auto.
    + exfalso. apply Hin in Hl as (n & Hn & Ht & El).
      apply (Hno n); [apply Hint; auto|assumption].
  - intros l Hl. unfold some_node. rewrite (st_hier Hst).
    destruct (some_node_loop_spec h l (internal_nodes h) Hlev) as [(n & En & Hn & El)|[En _]];
      [|assumption].
    exfalso. apply Hl, Hin. exists n. apply Hint in Hn as [Hn Ht]. auto.
Qed.

(** * The depths of the hierarchy: [get_attribute], [get_max_depth], [all_depths] *)

(** ** The dictionary of an attribute *)

Lemma lookup_value_absent : forall attr (l : list (node * attrs)) n,
  ~ In n (map fst l) ->
  lookup_value (flat_map (fun p => match attr_of attr (snd p) with
                                   | Some v => [(fst p, v)]
                                   | None => []
                                   end) l) n = None.
Proof.
  intros attr. induction l as [|[x a] l IH]; intros n Hn; simpl; [reflexivity|].
  simpl in Hn. destruct (attr_of attr a); simpl.
  - destruct (node_eqb x n) eqn:E; [apply node_eqb_eq in E; tauto|]. apply IH. tauto.
  - apply IH. tauto.
Qed.

Lemma lookup_value_get_attr : forall G attr n, NoDup (nodes G) ->
  lookup_value (get_node_attributes G attr) n = get_attr attr G n.
Proof.
  intros G attr n. unfold get_node_attributes, get_attr, get_attrs, nodes.
  induction (g_nodes G) as [|[x a] l IH]; intro Hnd; simpl; [reflexivity|].
  inversion Hnd as [|y l' Hx Hnd']; subst.
  destruct (node_eqb x n) eqn:E.
  - apply node_eqb_eq in E. subst x. simpl. destruct (attr_of attr a) as [v|]; simpl.
    + now rewrite node_eqb_refl.
    + now apply lookup_value_absent.
  - destruct (attr_of attr a) as [v|]; simpl; [rewrite E|]; now apply IH.
Qed.

Lemma In_get_node_attributes : forall G attr n v, NoDup (nodes G) ->
  (In (n, v) (get_node_attributes G attr) <-> In n (nodes G) /\ get_attr attr G n = Some v).
Proof.
  intros G attr n v. unfold get_node_attributes, get_attr, get_attrs, nodes.
  induction (g_nodes G) as [|[x a] l IH]; intro Hnd; simpl; [tauto|].
  inversion Hnd as [|y l' Hx Hnd']; subst. rewrite in_app_iff, (IH Hnd').
  destruct (node_eqb x n) eqn:E.
  - apply node_eqb_eq in E. subst x. simpl. split.
    + intros [H|[H _]]; [|tauto]. destruct (attr_of attr a); [|destruct H].
      destruct H as [H|[]]. inversion H; subst. auto.
    + intros [_ H]. left. rewrite H. now left.
  - apply node_eqb_neq in E. split.
    + intros [H|[H1 H2]]; [|auto]. destruct (attr_of attr a); [|destruct H].
      destruct H as [H|[]]. inversion H; subst. congruence.
    + intros [[H|H] H']; [congruence|auto].
Qed.

(** ** The maximum *)

Lemma fold_max : forall l a,
  (fold_left Z.max l a = a \/ In (fold_left Z.max l a) l) /\
  a <= fold_left Z.max l a /\ forall x, In x l -> x <= fold_left Z.max l a.
Proof.
  induction l as [|y l IH]; intro a; simpl.
  - split; [now left|]. split; [lia|]. intros x [].
  - destruct (IH (Z.max a y)) as (H1 & H2 & H3). split; [|split].
    + destruct H1 as [H1|H1]; [|auto]. rewrite H1.
      destruct (Z.max_spec a y) as [[_ E]|[_ E]]; rewrite E; auto.
    + lia.
    + intros x [<-|Hx]; [lia|auto].
Qed.

Lemma np_max_all : forall l : list (option Z),
  l <> [] -> (forall o, In o l -> exists v, o = Some v) ->
  exists m, np_max l = Returns (Some m) /\ In (Some m) l /\
            forall v, In (Some v) l -> v <= m.
Proof.
  intros l Hne Hall. destruct l as [|x r]; [congruence|].
  destruct (Hall x (or_introl eq_refl)) as [a ->].
  destruct r as [|y r].
  - exists a. split; [reflexivity|]. split; [now left|].
    intros v [H|[]]. inversion H. lia.
  - set (r' := y :: r) in *.
    set (vals := map (fun o : option Z => match o with Some v => v | None => 0 end) r').
    assert (forall v, In (Some v) r' -> In v vals) as Hin.
    { intros v Hv. unfold vals. apply in_map_iff. exists (Some v). auto. }
    assert (forall v, In v vals -> In (Some v) r') as Hout.
    { intros v Hv. unfold vals in Hv. apply in_map_iff in Hv as (o & Eo & Ho).
      destruct (Hall o (or_intror Ho)) as [v' ->]. now subst. }
    destruct (fold_max vals a) as (H1 & H2 & H3).
    exists (fold_left Z.max vals a). split; [|split].
    + unfold np_max. fold r'.
      assert (forallb is_some (Some a :: r') = true) as ->; [|reflexivity].
      apply forallb_forall. intros o Ho. destruct (Hall o Ho) as [v ->]. reflexivity.
    + destruct H1 as [->|H1]; [now left|right; now apply Hout].
    + intros v [H|H]; [inversion H; subst; assumption|]. apply H3. now apply Hin.
Qed.

Lemma np_max_none : forall l : list (option Z),
  (2 <= length l)%nat -> In None l -> np_max l = Raises TypeError.
Proof.
  intros l Hl Hn. destruct l as [|x [|y r]]; simpl in Hl; try lia.
  unfold np_max.
  assert (forallb is_some (x :: y :: r) = false) as ->; [|reflexivity].
  destruct (forallb is_some (x :: y :: r)) eqn:E; [|reflexivity].
  rewrite forallb_forall in E. specialize (E None Hn). discriminate.
Qed.

Section MaxDepth.

Variable rk : node -> Z.
Variable w : Weaver.
Variable h : DiGraph.
Variable r : node.
Variable ts : list Z.
Hypothesis Hst : stored rk w h r ts.

Lemma max_depth_list :
  get_max_depth w = np_max (map (fun t => get_attr Depth h (Terminal t)) ts).
Proof.
  unfold get_max_depth, depth, get_attribute.
  rewrite (st_terminals Hst), (st_hier Hst). cbn [obind]. f_equal.
  rewrite map_map. apply map_ext. intro t.
  apply lookup_value_get_attr. apply (st_wf Hst).
Qed.

Lemma stored_has_terminal : exists t, In (Terminal t) (nodes h) /\ In t ts.
Proof.
  destruct (get_root_Some h r (st_root Hst)) as [Hrin _].
  destruct (terminal_below rk w h r ts Hst r Hrin) as [t Ht].
  assert (In (Terminal t) (nodes h)) as Hn
    by (eapply path_in_nodes; [apply (st_wf Hst)|exact Hrin|exact Ht]).
  exists t. split; [assumption|now apply (st_term Hst)].
Qed.

Lemma depth_zero_root : forall v, get_depth h v = Some O -> v = r.
Proof.
  intros v Ev. assert (In v (nodes h)) as Hv by now apply get_depth_node in Ev.
  destruct (st_depth Hst v Hv) as (d & Ed & [Hw _]).
  rewrite Ev in Ed. inversion Ed; subst d. now inversion Hw.
Qed.

End MaxDepth.

(** When every terminal of the array is in the hierarchy, so after a
    [weave] of labelled partitions, [get_max_depth] returns the depth of
    the deepest terminal, which is 1 at least. *)
Theorem max_depth_deepest_terminal :
  forall (w : Weaver) (partitions : list (list Z)) (terminals : terminals_arg)
         (boolean : bool) (levels : levels_arg) (c : config) (w' : Weaver) (h : DiGraph)
         (ts : list Z),
    (0 < cutoff c)%Q ->
    weave w partitions terminals boolean levels c = (w', Ok h) ->
    _terminals w' = Some ts ->
    boolean = false \/ (forall t, In t ts -> In (Terminal t) (nodes h)) ->
    exists m : nat,
      get_max_depth w' = Returns (Some (Z.of_nat m)) /\ (1 <= m)%nat /\
      (exists t, In t ts /\ get_depth h (Terminal t) = Some m) /\
      (forall t d, get_depth h (Terminal t) = Some d -> (d <= m)%nat).
Proof.
  intros w partitions terminals boolean levels c w' h ts Hc HW Ets Hall.
  destruct (weave_stored _ _ _ _ _ _ _ _ Hc HW) as (rk & r & ts' & Hst & Hlab).
  rewrite (st_terminals Hst) in Ets. inversion Ets; subst ts'. clear Ets.
  assert (forall t, In t ts -> In (Terminal t) (nodes h)) as Hin
    by (destruct Hall as [Hb|H]; [now apply Hlab|exact H]).
  destruct (stored_has_terminal rk w' h r ts Hst) as (t0 & Ht0 & Ht0').
  destruct (np_max_all (map (fun t => get_attr Depth h (Terminal t)) ts)) as (m & Em & Hm & Hmax).
  { destruct ts; [destruct Ht0'|discriminate]. }
  { intros o Ho. apply in_map_iff in Ho as (t & <- & Ht).
    apply (stored_depth_attr rk w' h r ts Hst). now apply Hin. }
  apply in_map_iff in Hm as (t & Et & Ht).
  rewrite get_attr_depth in Et.
  destruct (get_depth h (Terminal t)) as [d|] eqn:Ed; [|discriminate].
  simpl in Et. inversion Et; subst m. clear Et.
  exists d. split; [now rewrite (max_depth_list rk w' h r ts Hst)|]. split; [|split].
  - destruct d; [|lia]. apply (depth_zero_root rk w' h r ts Hst) in Ed.
    pose proof (st_tuple Hst) as Hr. rewrite <- Ed in Hr. discriminate.
  - eauto.
  - intros t' d' Ed'.
    assert (In (Terminal t') (nodes h)) as Hn by now apply get_depth_node in Ed'.
    assert (Z.of_nat d' <= Z.of_nat d); [|lia].
    apply Hmax. apply in_map_iff. exists t'. split; [|now apply (st_term Hst)].
    rewrite get_attr_depth, Ed'. reflexivity.
Qed.

(** When a terminal of the array is not in the hierarchy, a column that
    no cluster of boolean partitions marks, [get_max_depth] raises the
    [TypeError] of a comparison with [None]. *)
Theorem max_depth_missing_terminal :
  forall (w : Weaver) (partitions : list (list Z)) (terminals : terminals_arg)
         (boolean : bool) (levels : levels_arg) (c : config) (w' : Weaver) (h : DiGraph)
         (ts : list Z) (t : Z),
    (0 < cutoff c)%Q ->
    weave w partitions terminals boolean levels c = (w', Ok h) ->
    _terminals w' = Some ts ->
    In t ts -> ~ In (Terminal t) (nodes h) ->
    get_max_depth w' = Raises TypeError.
Proof.
  intros w partitions terminals boolean levels c w' h ts t Hc HW Ets Ht Hno.
  destruct (weave_stored _ _ _ _ _ _ _ _ Hc HW) as (rk & r & ts' & Hst & _).
  rewrite (st_terminals Hst) in Ets. inversion Ets; subst ts'. clear Ets.
  rewrite (max_depth_list rk w' h r ts Hst).
  destruct (stored_has_terminal rk w' h r ts Hst) as (t0 & Ht0 & Ht0').
  apply np_max_none.
  - rewrite length_map. destruct ts as [|a [|b l]]; simpl; [destruct Ht| |lia].
    destruct Ht as [<-|[]], Ht0' as [<-|[]]. contradiction.
  - apply in_map_iff. exists t. split; [|assumption].
    rewrite get_attr_depth, get_depth_not_node by assumption. reflexivity.
Qed.

(** ** The depths are without a gap *)

Lemma walk_last : forall G n u v, walk G u v (S n) ->
  exists x, walk G u x n /\ In (x, v) (edges G).
Proof.
  intros G. induction n as [|n IH]; intros u v Hw.
  - inversion Hw as [|a b c k Hab Hbc]; subst. inversion Hbc; subst.
    exists u. split; [apply walk_nil|assumption].
  - inversion Hw as [|a b c k Hab Hbc]; subst.
    destruct (IH b v Hbc) as (x & Hx & He). exists x. split; [|assumption].
    eapply walk_cons; eassumption.
Qed.

Lemma contiguous_range : forall l : list Z,
  In 0 l -> (forall x, In x l -> 0 <= x) -> (forall x, In x l -> 0 < x -> In (x - 1) l) ->
  exists m : nat, forall x, In x l <-> In x (range (S m)).
Proof.
  intros l H0 Hpos Hdown.
  destruct (fold_max l 0) as (H1 & H2 & H3).
  set (M := fold_left Z.max l 0) in *.
  assert (In M l) as HM by (destruct H1 as [->|H1]; assumption).
  assert (forall k : nat, Z.of_nat k <= M -> In (M - Z.of_nat k) l) as Hk.
  { induction k as [|k IH]; intro Hle.
    - now replace (M - Z.of_nat 0) with M by lia.
    - replace (M - Z.of_nat (S k)) with (M - Z.of_nat k - 1) by lia.
      apply Hdown; [apply IH; lia|lia]. }
  exists (Z.to_nat M). intro x. rewrite In_range. split.
  - intro Hx. pose proof (Hpos x Hx). pose proof (H3 x Hx). lia.
  - intro Hx. replace x with (M - Z.of_nat (Z.to_nat (M - x))) by lia. apply Hk. lia.
Qed.

(** After [weave] the depths that [all_depths] returns are 0, 1, ... up to
    the largest one, without a gap, with the terminals and without. *)
Theorem all_depths_contiguous :
  forall (w : Weaver) (partitions : list (list Z)) (terminals : terminals_arg)
         (boolean : bool) (levels : levels_arg) (c : config) (w' : Weaver) (h : DiGraph)
         (leaf : bool),
    (0 < cutoff c)%Q ->
    weave w partitions terminals boolean levels c = (w', Ok h) ->
    exists m : nat,
      all_depths w' leaf = Returns (range (S m)) /\
      forall d : nat,
        (d <= m)%nat <->
        exists n, In n (nodes h) /\ (leaf = false -> istuple n = true) /\
                  get_depth h n = Some d.
Proof.
  intros w partitions terminals boolean levels c w' h leaf Hc HW.
  destruct (weave_stored _ _ _ _ _ _ _ _ Hc HW) as (rk & r & ts & Hst & _).
  set (dict := get_node_attributes h Depth).
  set (depths := if leaf then map snd dict
                 else map snd (filter (fun kv => istuple (fst kv)) dict)).
  assert (all_depths w' leaf = Returns (unique depths)) as Eall.
  { unfold all_depths, depth, get_attribute. rewrite (st_hier Hst). reflexivity. }
  assert (forall x, In x depths <->
            exists n d, In n (nodes h) /\ (leaf = false -> istuple n = true) /\
                        get_depth h n = Some d /\ x = Z.of_nat d) as Hin.
  { intro x. unfold depths. destruct leaf.
    - rewrite in_map_iff. split.
      + intros ([n v] & <- & Hnv). apply In_get_node_attributes in Hnv as [Hn Ev];
          [|apply (st_wf Hst)].
        rewrite get_attr_depth in Ev. destruct (get_depth h n) as [d|] eqn:Ed; [|discriminate].
        inversion Ev. exists n, d. split; [assumption|]. split; [discriminate|auto].
      + intros (n & d & Hn & _ & Ed & ->). exists (n, Z.of_nat d). split; [reflexivity|].
        apply In_get_node_attributes; [apply (st_wf Hst)|]. split; [assumption|].
        now rewrite get_attr_depth, Ed.
    - rewrite in_map_iff. split.
      + intros ([n v] & <- & Hnv). apply filter_In in Hnv as [Hnv Ht]. simpl in Ht.
        apply In_get_node_attributes in Hnv as [Hn Ev]; [|apply (st_wf Hst)].
        rewrite get_attr_depth in Ev. destruct (get_depth h n) as [d|] eqn:Ed; [|discriminate].
        inversion Ev. exists n, d. auto.
      + intros (n & d & Hn & Ht & Ed & ->). exists (n, Z.of_nat d). split; [reflexivity|].
        apply filter_In. split; [|now apply Ht].
        apply In_get_node_attributes; [apply (st_wf Hst)|]. split; [assumption|].
        now rewrite get_attr_depth, Ed. }
  destruct (get_root_Some h r (st_root Hst)) as [Hrin _].
  destruct (contiguous_range depths) as [m Hm].
  - apply Hin. exists r, O. split; [assumption|]. split; [intros _; apply (st_tuple Hst)|].
    split; [|reflexivity].
    pose proof (stored_depth_root rk w' h r ts Hst) as E. rewrite get_attr_depth in E.
    destruct (get_depth h r) as [d|]; [|discriminate]. inversion E. f_equal. lia.
  - intros x Hx. apply Hin in Hx as (n & d & _ & _ & _ & ->). lia.
  - intros x Hx Hpos. apply Hin in Hx as (n & d & Hn & Ht & Ed & ->).
    destruct d as [|d]; [lia|].
    destruct (st_depth Hst n Hn) as (d' & Ed' & [Hw Hmin]).
    rewrite Ed in Ed'. inversion Ed'; subst d'. clear Ed'.
    destruct (walk_last h d r n Hw) as (p & Hp & He).
    assert (In p (nodes h)) as Hpn by now apply (st_wf Hst) in He.
    destruct (st_depth Hst p Hpn) as (dp & Edp & [Hwp Hminp]).
    assert (dp = d) as ->.
    { pose proof (Hminp d Hp). pose proof (Hmin _ (walk_snoc _ _ _ _ _ Hwp He)). lia. }
    apply Hin. exists p, d. split; [assumption|].
    split; [intros _; exact (st_src Hst p n He)|]. split; [assumption|lia].
  - exists m. split.
    + rewrite Eall. f_equal. apply strict_ext; [apply unique_strict|apply range_strict|].
      intro x. rewrite In_unique. apply Hm.
    + intro d. split.
      * intro Hd. assert (In (Z.of_nat d) depths) as H by (apply Hm, In_range; lia).
        apply Hin in H as (n & d' & Hn & Ht & Ed & E). apply Nat2Z.inj in E. subst d'.
        exists n. auto.
      * intros (n & Hn & Ht & Ed).
        assert (In (Z.of_nat d) depths) as H by (apply Hin; exists n, d; auto).
        apply Hm, In_range in H. lia.
Qed.

(** * The weights of the candidate graph *)

Section Weights.

Variable L : list (list bool).
Variable cutoff : Q.

Lemma weighted_add_edge : forall G u v q,
  edge_weight_ok L cutoff u v q -> weighted L cutoff G -> weighted L cutoff (add_edge G u v q).
Proof.
  intros G u v q Hq HG a b Hab.
  destruct (edge_eq_dec (a, b) (u, v)) as [E|E].
  - inversion E; subst. exists q. split; [apply lookup_add_edge_same|assumption].
  - apply edges_add_edge in Hab as [Hab|Hab]; [|congruence].
    rewrite lookup_add_edge_other by assumption. now apply HG.
Qed.

Lemma weighted_remove_edges_from : forall G l,
  weighted L cutoff G -> weighted L cutoff (remove_edges_from G l).
Proof.
  intros G l HG a b Hab. apply edges_remove_edges_from in Hab as [Hab Hn].
  rewrite lookup_remove_edges_from. apply emem_false in Hn. rewrite Hn. now apply HG.
Qed.

Lemma weighted_add_node : forall G n a,
  weighted L cutoff G -> weighted L cutoff (add_node G n a).
Proof.
  intros G n a HG u v Huv. unfold edges in Huv. rewrite edges_add_node in *.
  now apply HG.
Qed.

Lemma weighted_add_root : forall G G1 root,
  (forall n, In n (nodes G) -> istuple n = true) ->
  weighted L cutoff G -> add_root G = Ok (G1, root) -> weighted L cutoff G1.
Proof.
  intros G G1 root Hc HG. unfold add_root.
  set (roots := filter _ (nodes G)).
  assert (forall n, In n roots -> istuple n = true) as Hroots.
  { intros n Hn. unfold roots in Hn. apply filter_In in Hn as [Hn _]. now apply Hc. }
  clearbody roots.
  destruct (1 <? length roots)%nat.
  - intro E. inversion E; subst. clear E.
    pose proof (weighted_add_node G (Internal (-1) 0) root_attrs HG) as H0.
    revert H0. generalize (add_node G (Internal (-1) 0) root_attrs) as G0.
    induction roots as [|x roots IH]; intros G0 H0; simpl; [assumption|].
    apply IH; [intros; apply Hroots; now right|].
    apply weighted_add_edge; [|assumption].
    specialize (Hroots x (or_introl eq_refl)). destruct x; [reflexivity|discriminate].
  - destruct roots as [|r roots]; [discriminate|]. intro E. inversion E; subst. assumption.
Qed.

Variable terminals : list Z.

Lemma weighted_scan_attached : forall n ter idx G att skip G' att',
  weighted L cutoff G ->
  scan_attached G n ter idx att = Ok (skip, G', att') -> weighted L cutoff G'.
Proof.
  intros n ter. induction idx as [|k IH]; intros G att skip G' att' HG; simpl.
  - intro E. inversion E; subst; exact HG.
  - destruct (k <? length att)%nat; [|intro E; inversion E; subst; exact HG].
    destruct (has_path G n (nth k att n)); [intro E; inversion E; subst; exact HG|].
    destruct (has_path G (nth k att n) n); [|now apply IH].
    unfold remove_edge. destruct (has_edge G (nth k att n) ter); [|discriminate].
    cbn [bind]. apply IH. now apply weighted_remove_edges_from.
Qed.

Lemma weighted_attach_terminals : forall G0 G,
  (forall n, In n (nodes G0) -> istuple n = true) ->
  weighted L cutoff G0 -> attach_terminals L terminals G0 = Ok G -> weighted L cutoff G.
Proof.
  intros G0 G Hc H0. unfold attach_terminals.
  destruct (foldM _ _ _) as [st|e] eqn:E; [|discriminate]. cbn [bind].
  intro E'. inversion E'; subst G. clear E'. revert E.
  apply (foldM_Ok_inv _ _ (fun st => weighted L cutoff (fst st))); [assumption|].
  intros st0 n st1 Hn HW. unfold attach_node.
  destruct n as [i k|t]; [|discriminate].
  destruct (i =? -1); [intro E; inversion E; subst; exact HW|].
  apply (foldM_Ok_inv _ _ (fun st => weighted L cutoff (fst st))); [assumption|].
  intros st2 p st3 Hp H2. unfold attach_one.
  destruct (scan_attached _ _ _ _ _) as [[[skip G1] att1]|e] eqn:Es; [|discriminate].
  cbn [bind fst snd]. apply weighted_scan_attached in Es; [|assumption].
  destruct skip; intro E; inversion E; subst st3; cbn [fst]; [assumption|].
  apply weighted_add_edge; [reflexivity|assumption].
Qed.

End Weights.

Lemma weighted_init_graph : forall L levels labels assume cutoff,
  assume = true \/ (0 < cutoff)%Q ->
  weighted L cutoff (init_graph L levels labels assume cutoff).
Proof.
  intros L levels labels assume cutoff Hcut u v Huv.
  pose proof (init_graph_inv L levels labels assume cutoff Hcut) as Hi.
  destruct (ii_edge Hi u v Huv) as (i & j & -> & -> & _ & El & Hle & _).
  destruct (proj2 (proj2 (proj1 (ii_cluster Hi))) _ _ Huv) as [Hu Hv].
  destruct (ii_index Hi _ Hu) as (j' & Ej & Hj). inversion Ej; subst j'.
  destruct (ii_index Hi _ Hv) as (i' & Ei & Hi'). inversion Ei; subst i'.
  exists (at2 (CI L) i j). split; [assumption|]. simpl.
  assert ((j <? 0) = false) as -> by (apply Z.ltb_ge; lia).
  split; [now apply CI_entry|assumption].
Qed.

(** In the candidate graph of [_build] an edge between two clusters carries
    the containment index of the child in the parent, the number of
    terminals of both over the number of terminals of the child, and this
    is the cutoff at least; the edges from the added root and the edges to
    the terminals carry 1. *)
Theorem candidate_edge_weight :
  forall (w : Weaver) (c : Q) (w' : Weaver) (G : DiGraph) (L : list (list bool)),
    (0 < c)%Q -> _build w c = (w', Ok G) -> _assignment w = Some L ->
    forall u v, In (u, v) (edges G) ->
      exists q, weight G u v = Ok q /\ edge_weight_ok L c u v q.
Proof.
  intros w c w' G L Hc HB EL u v Huv.
  destruct (_build_fields w c w' G HB)
    as (L' & lv & labels & ts & root & s & EL' & _ & _ & _ & EB & _).
  rewrite EL in EL'. inversion EL'; subst L'. clear EL'.
  apply build_graph_phases in EB as (G1 & E1 & E2).
  pose proof (cluster_init_graph L lv labels (assume_levels w) c) as Hc0.
  pose proof (cluster_add_root _ _ _ Hc0 E1) as Hc1.
  assert (weighted L c G) as HW.
  { apply (weighted_attach_terminals L c ts (remove_redundant G1) G); [| |assumption].
    - apply cluster_remove_redundant in Hc1. apply Hc1.
    - unfold remove_redundant. apply weighted_remove_edges_from.
      apply (weighted_add_root L c (init_graph L lv labels (assume_levels w) c) G1 root);
        [apply Hc0| |assumption].
      apply weighted_init_graph. now right. }
  destruct (HW u v Huv) as (q & Eq & Hq). exists q. split; [|assumption].
  unfold weight. now rewrite Eq.
Qed.

(** * [traverse_topdown] *)

Lemma pending_ext : forall h V V',
  (forall x, mem x V = mem x V') -> pending h V = pending h V'.
Proof.
  intros h V V' H. unfold pending. f_equal. apply filter_ext. intro e. now rewrite H.
Qed.

Lemma mem_snoc : forall x n V, mem x (V ++ [n]) = mem x (n :: V).
Proof.
  intros x n V. unfold mem. rewrite existsb_app. simpl.
  rewrite orb_false_r. apply orb_comm.
Qed.

Lemma closed_reach : forall T (S : list node),
  (forall u c, In u S -> In (u, c) (edges T) -> In c S) ->
  forall u v, path T u v -> In u S -> In v S.
Proof.
  intros T S Hc u v Hp. induction Hp as [u|u x y Hux Hxy IH]; [auto|].
  intro Hu. apply IH. eapply Hc; eassumption.
Qed.

Lemma traverse_loop_spec : forall T r, wf_graph T ->
  forall fuel Q out,
    NoDup out ->
    (forall v, In v Q \/ In v out -> path T r v) ->
    In r Q \/ In r out ->
    (forall u c, In u out -> In (u, c) (edges T) -> In c Q \/ In c out) ->
    (length Q + pending T out <= fuel)%nat ->
    snd (traverse_loop T fuel Q out) = [] /\
    NoDup (fst (traverse_loop T fuel Q out)) /\
    (forall v, In v (fst (traverse_loop T fuel Q out)) <-> path T r v) /\
    exists l, fst (traverse_loop T fuel Q out) = out ++ l.
Proof.
  intros T r Hw. induction fuel as [|f IH]; intros Q out Hnd Hp Hr Hc Hf.
  - destruct Q as [|n Q]; [|simpl in Hf; lia]. simpl.
    split; [reflexivity|]. split; [assumption|]. split; [|exists []; now rewrite app_nil_r].
    intro v. split; [intro H; apply Hp; now right|].
    intro Hv. destruct Hr as [[]|Hr]. apply (closed_reach T out) with (u := r); try assumption.
    intros u c Hu Huc. destruct (Hc u c Hu Huc) as [[]|H]. assumption.
  - destruct Q as [|n Q].
    + simpl. split; [reflexivity|]. split; [assumption|].
      split; [|exists []; now rewrite app_nil_r].
      intro v. split; [intro H; apply Hp; now right|].
      intro Hv. destruct Hr as [[]|Hr]. apply (closed_reach T out) with (u := r); try assumption.
      intros u c Hu Huc. destruct (Hc u c Hu Huc) as [[]|H]. assumption.
    + simpl. destruct (mem n out) eqn:Em.
      * apply mem_In in Em. apply IH; try assumption.
        -- intros v [H|H]; apply Hp; [left; now right|now right].
        -- destruct Hr as [[<-|H]|H]; auto.
        -- intros u c Hu Huc. destruct (Hc u c Hu Huc) as [[<-|H]|H]; auto.
        -- simpl in Hf. lia.
      * apply mem_false in Em.
        destruct (IH (Q ++ successors T n) (out ++ [n])) as (H1 & H2 & H3 & l & El).
        -- now apply NoDup_snoc.
        -- intros v [H|H].
           ++ apply in_app_iff in H as [H|H]; [apply Hp; left; now right|].
              apply In_successors in H. eapply path_snoc; [|exact H].
              apply Hp. left. now left.
           ++ apply in_app_iff in H as [H|[<-|[]]]; apply Hp; [now right|left; now left].
        -- destruct Hr as [[<-|H]|H].
           ++ right. apply in_app_iff. right. now left.
           ++ left. apply in_app_iff. now left.
           ++ right. apply in_app_iff. now left.
        -- intros u c Hu Huc. apply in_app_iff in Hu as [Hu|[<-|[]]].
           ++ destruct (Hc u c Hu Huc) as [[<-|H]|H].
              ** right. apply in_app_iff. right. now left.
              ** left. apply in_app_iff. now left.
              ** right. apply in_app_iff. now left.
           ++ left. apply in_app_iff. right. now apply In_successors.
        -- rewrite length_app, (pending_ext T (out ++ [n]) (n :: out)) by (intro; apply mem_snoc).
           pose proof (pending_visit T n out Em). simpl in Hf. lia.
        -- split; [assumption|]. split; [assumption|]. split; [assumption|].
           exists (n :: l). rewrite El, <- app_assoc. reflexivity.
Qed.

(** [traverse_topdown] yields the root first and then every node below the
    root, each once, and empties its queue; without a root it raises
    [NetworkXError]. *)
Theorem traverse_topdown_visits :
  forall T : DiGraph, wf_graph T ->
    (get_root T = None -> traverse_topdown T = Raise NetworkXError) /\
    (forall r, get_root T = Some r ->
       exists l, traverse_topdown T = Ok (r :: l) /\ NoDup (r :: l) /\
                 (forall v, In v (r :: l) <-> path T r v) /\
                 snd (traverse_loop T (S (length (g_edges T))) [r] []) = []).
Proof.
  intros T Hw. split.
  - intro E. unfold traverse_topdown. now rewrite E.
  - intros r Er. unfold traverse_topdown. rewrite Er.
    destruct (traverse_loop_spec T r Hw (S (length (g_edges T))) [r] [])
      as (H1 & H2 & H3 & l & El).
    + constructor.
    + intros v [[<-|[]]|[]]. apply path_refl.
    + left. now left.
    + intros u c [].
    + simpl. rewrite pending_nil. lia.
    + set (res := traverse_loop T (S (length (g_edges T))) [r] []) in *.
      assert (exists l', fst res = r :: l') as [l' El'].
      { unfold res. cbn [traverse_loop mem existsb app].
        destruct (traverse_loop_spec T r Hw (length (g_edges T)) (successors T r) [r])
          as (_ & _ & _ & l0 & E0).
        - constructor; [intros []|constructor].
        - intros v [H|[<-|[]]]; [|apply path_refl].
          apply In_successors in H. now apply path_edge.
        - right. now left.
        - intros u c [<-|[]] Hc. left. now apply In_successors.
        - pose proof (pending_visit T r [] ltac:(intros [])) as Hp.
          rewrite pending_nil in Hp. lia.
        - exists l0. exact E0. }
      exists l'. rewrite El' in *. auto.
Qed.

(** * The hierarchy against the candidate graph *)

Lemma prune_paths : forall G strict T h,
  wf_graph T -> (forall u v, In (u, v) (edges T) -> path G u v) ->
  prune T strict = Ok h ->
  forall u v, In (u, v) (edges h) -> path G u v.
Proof.
  intros G strict T h Hw Hp E.
  assert (wf_graph h /\ forall u v, In (u, v) (edges h) -> path G u v) as [_ H]; [|exact H].
  revert E.
  apply (prune_inv (fun T0 => wf_graph T0 /\ forall u v, In (u, v) (edges T0) -> path G u v)).
  - intros T0 n [Hw0 H0] _ _. split; [now apply wf_drop_node|].
    intros u v Huv. apply edges_drop_node in Huv as [Huv _]. now apply H0.
  - intros T0 n T' [Hw0 H0] Hsb Hc.
    destruct (single_branch_collapse strict T0 n Hw0 Hsb)
      as (parent & T1 & _ & Hpe & E & Hw1 & _ & He).
    rewrite Hc in E. inversion E; subst T1. split; [assumption|].
    intros u v Huv. apply He in Huv as [[Huv|[-> Hnv]] _]; [now apply H0|].
    eapply path_trans; apply H0; eassumption.
  - now split.
Qed.

(** An edge of the hierarchy that [weave] returns follows a path of the
    candidate graph between two different nodes, so what is below a
    cluster in the hierarchy is below it in the candidate graph. *)
Theorem hierarchy_follows_candidate :
  forall (w : Weaver) (partitions : list (list Z)) (terminals : terminals_arg)
         (boolean : bool) (levels : levels_arg) (c : config) (w' : Weaver) (h : DiGraph),
    (0 < cutoff c)%Q ->
    weave w partitions terminals boolean levels c = (w', Ok h) ->
    exists G, _full w' = Some G /\
      (forall u v, In (u, v) (edges h) -> u <> v /\ path G u v) /\
      (forall u v, path h u v -> path G u v).
Proof.
  intros w partitions terminals boolean levels c w' h Hc HW.
  destruct (weave_Ok _ _ _ _ _ _ _ _ HW) as (w3 & w4 & G & HB & HP).
  destruct (_build_Ok w3 (cutoff c) w4 G HB)
    as (L & lv & labels & ts & root & s & EB & ES & _ & EG & Ese & Este).
  destruct (build_graph_props _ _ _ _ _ _ _ _ (or_intror Hc) EB)
    as (Hw & Hn & Hs & Hr & Hroot & Htr & Hin).
  set (rk := rank L lv (assume_levels w3)) in *.
  assert (hier_inv rk root G) as HG by now constructor.
  destruct (pick_Ok w4 G _ _ _ _ _ _ _ w' h EG Ese Este HP) as (T & h0 & ET & E0 & Eh & Ew).
  destruct (select_inv rk root L G s _ _ _ _ T HG ES ET) as (HT & Hsub & _).
  destruct (prune_hier rk root T _ h0 HT E0) as [H0 _].
  destruct (update_depth_graph_edges h0 h Eh) as [Ee _].
  assert (forall u v, In (u, v) (edges h) -> u <> v /\ path G u v) as Hedge.
  { intros u v Huv. unfold edges in Huv. rewrite Ee in Huv. fold (edges h0) in Huv. split.
    - intro E. subst v. pose proof (hi_ranked H0 u u Huv). lia.
    - apply (prune_paths G (strict_single_branch c) T h0 (hi_wf HT)); [|assumption|assumption].
      intros a b Hab. apply path_edge. now apply Hsub. }
  exists G. split; [subst w'; exact EG|]. split; [exact Hedge|].
  intros u v Hp. induction Hp as [u|u x v Hux Hxv IH]; [apply path_refl|].
  eapply path_trans; [apply Hedge; exact Hux|exact IH].
Qed.

(** * The attributes of the nodes *)

Section Attributes.

Variable levels labels : list Z.

Let ok := attributed levels labels.

Lemma attributed_same : forall G G', g_nodes G' = g_nodes G -> ok G -> ok G'.
Proof. intros G G' E H n a Hn. rewrite E in Hn. now apply H. Qed.

Lemma node_attrs_ok_ext : forall n a a',
  a_index a' = a_index a -> a_level a' = a_level a -> a_label a' = a_label a ->
  node_attrs_ok levels labels n a -> node_attrs_ok levels labels n a'.
Proof.
  intros n a a' E1 E2 E3. unfold node_attrs_ok. rewrite E1, E2, E3. auto.
Qed.

Lemma attributed_add_node : forall G n a,
  a_index a <> None -> a_level a <> None -> a_label a <> None ->
  node_attrs_ok levels labels n a -> ok G -> ok (add_node G n a).
Proof.
  intros G n a H1 H2 H3 Ha HG m b Hm. unfold add_node in Hm.
  destruct (has_node G n); simpl in Hm.
  - apply in_map_iff in Hm as ([x c] & E & Hx). simpl in E.
    destruct (node_eqb x n) eqn:En.
    + apply node_eqb_eq in En. inversion E; subst.
      apply (node_attrs_ok_ext m a); [| | |assumption]; simpl.
      * destruct (a_index a); [reflexivity|contradiction].
      * destruct (a_level a); [reflexivity|contradiction].
      * destruct (a_label a); [reflexivity|contradiction].
    + inversion E; subst. now apply HG.
  - apply in_app_iff in Hm as [Hm|[E|[]]]; [now apply HG|].
    inversion E; subst. assumption.
Qed.

Lemma attributed_touch : forall G n,
  (istuple n = true -> In n (nodes G)) -> ok G -> ok (touch_node G n).
Proof.
  intros G n Hn HG. unfold touch_node. destruct (has_node G n) eqn:E; [assumption|].
  intros m b Hm. simpl in Hm. apply in_app_iff in Hm as [Hm|[E'|[]]]; [now apply HG|].
  inversion E'; subst. destruct m as [i k|t].
  - specialize (Hn eq_refl). apply has_node_In in Hn. congruence.
  - simpl. auto.
Qed.

Lemma attributed_add_edge : forall G u v w,
  (istuple u = true -> In u (nodes G)) -> (istuple v = true -> In v (nodes G)) ->
  ok G -> ok (add_edge G u v w).
Proof.
  intros G u v w Hu Hv HG m b Hm. rewrite g_nodes_add_edge in Hm. revert m b Hm.
  apply attributed_touch.
  - intro Ht. apply nodes_touch_node. left. now apply Hv.
  - now apply attributed_touch.
Qed.

Lemma attributed_init_step : forall L cutoff G i j,
  0 <= i < Z.of_nat (length levels) -> 0 <= j < Z.of_nat (length levels) ->
  ok G -> ok (init_step L levels labels cutoff G (i, j)).
Proof.
  intros L cutoff G i j Hi Hj HG. unfold init_step. cbn [fst snd].
  assert (forall x, 0 <= x < Z.of_nat (length levels) ->
            node_attrs_ok levels labels (Internal x 0) (cluster_attrs levels labels x)) as Hcl.
  { intros x Hx. simpl. split; [reflexivity|].
    assert ((x <? 0) = false) as -> by (apply Z.ltb_ge; lia). repeat split. lia. }
  set (G1 := if has_node G (Internal i 0) then G else _).
  set (G2 := if has_node G1 (Internal j 0) then G1 else _).
  assert (ok G1 /\ In (Internal i 0) (nodes G1)) as [H1 Hi1].
  { subst G1. destruct (has_node G (Internal i 0)) eqn:E.
    - split; [assumption|now apply has_node_In].
    - split; [apply attributed_add_node; try discriminate; auto|].
      apply nodes_add_node. now right. }
  assert (ok G2 /\ In (Internal i 0) (nodes G2) /\ In (Internal j 0) (nodes G2))
    as (H2 & Hi2 & Hj2).
  { subst G2. destruct (has_node G1 (Internal j 0)) eqn:E.
    - split; [assumption|]. split; [assumption|now apply has_node_In].
    - split; [apply attributed_add_node; try discriminate; auto|].
      split; apply nodes_add_node; [now left|now right]. }
  clearbody G1 G2.
  destruct (Qle_bool _ _); [|assumption].
  destruct (lookup_edge _ _); [destruct (Qgtb _ _); [|assumption]|];
    apply attributed_add_edge; auto.
Qed.

Lemma attributed_init_graph : forall L assume cutoff,
  length levels = length L -> ok (init_graph L levels labels assume cutoff).
Proof.
  intros L assume cutoff Hl. unfold init_graph. apply fold_left_inv.
  - intros n a [].
  - intros G [i j] Hij HG. apply In_gen in Hij as (Hi & Hj & _).
    apply attributed_init_step; [lia|lia|assumption].
Qed.

Lemma attributed_add_root : forall G G1 root,
  ok G -> add_root G = Ok (G1, root) -> ok G1.
Proof.
  intros G G1 root HG. unfold add_root.
  set (roots := filter _ (nodes G)).
  assert (forall n, In n roots -> In n (nodes G)) as Hroots.
  { intros n Hn. subst roots. now apply filter_In in Hn. }
  clearbody roots.
  destruct (1 <? length roots)%nat.
  - intro E. inversion E; subst. clear E.
    assert (ok (add_node G (Internal (-1) 0) root_attrs) /\
            In (Internal (-1) 0) (nodes (add_node G (Internal (-1) 0) root_attrs)) /\
            forall n, In n roots -> In n (nodes (add_node G (Internal (-1) 0) root_attrs)))
      as H0.
    { split; [apply attributed_add_node; try discriminate; try assumption; simpl; auto|].
      split; [apply nodes_add_node; now right|].
      intros n Hn. apply nodes_add_node. left. now apply Hroots. }
    revert H0. generalize (add_node G (Internal (-1) 0) root_attrs) as G0.
    clear Hroots. induction roots as [|x roots IH]; intros G0 (H1 & H2 & H3); simpl;
      [assumption|].
    apply IH. split; [|split].
    + apply attributed_add_edge; auto. intros _. apply H3. now left.
    + apply nodes_add_edge. now left.
    + intros n Hn. apply nodes_add_edge. left. apply H3. now right.
  - destruct roots as [|r roots]; [discriminate|]. intro E. inversion E; subst. assumption.
Qed.

Lemma attributed_attach_terminals : forall L terminals G0 G,
  ok G0 -> attach_terminals L terminals G0 = Ok G -> ok G.
Proof.
  intros L terminals G0 G H0. unfold attach_terminals.
  destruct (foldM _ _ _) as [st|e] eqn:E; [|discriminate]. cbn [bind].
  intro E'. inversion E'; subst G. clear E'.
  assert (ok (fst st) /\ incl (nodes G0) (nodes (fst st))) as [H _]; [|exact H].
  revert E.
  apply (foldM_Ok_inv _ _ (fun st => ok (fst st) /\ incl (nodes G0) (nodes (fst st)))).
  - split; [assumption|apply incl_refl].
  - intros st0 n st1 Hn HI. unfold attach_node.
    destruct n as [i k|t]; [|discriminate].
    destruct (i =? -1); [intro E; inversion E; subst; exact HI|].
    apply (foldM_Ok_inv _ _ (fun st => ok (fst st) /\ incl (nodes G0) (nodes (fst st))));
      [assumption|].
    intros st2 p st3 Hp [H2 Hi2]. unfold attach_one.
    destruct (scan_attached _ _ _ _ _) as [[[skip G1] att1]|e] eqn:Es; [|discriminate].
    cbn [bind fst snd]. apply scan_attached_g_nodes in Es.
    assert (nodes G1 = nodes (fst st2)) as En1 by (unfold nodes; now rewrite Es).
    assert (ok G1) as Hok1 by (now apply (attributed_same (fst st2))).
    destruct skip; intro E; inversion E; subst st3; cbn [fst].
    + split; [assumption|now rewrite En1].
    + split.
      * apply attributed_add_edge; [|discriminate|assumption].
        intros _. rewrite En1. now apply Hi2.
      * intros x Hx. apply nodes_add_edge. left. rewrite En1. now apply Hi2.
Qed.

Lemma build_graph_attributed : forall L assume terminals cutoff G root,
  length levels = length L ->
  build_graph L levels labels assume terminals cutoff = Ok (G, root) -> ok G.
Proof.
  intros L assume terminals cutoff G root Hl HB.
  apply build_graph_phases in HB as (G1 & E1 & E2).
  apply (attributed_attach_terminals L terminals (remove_redundant G1) G); [|assumption].
  apply (attributed_same G1); [reflexivity|].
  eapply attributed_add_root; [|eassumption]. now apply attributed_init_graph.
Qed.

(** [update_depth] touches the depth only. *)
Lemma set_depth_attributed : forall T n d, ok T -> ok (set_depth T n d).
Proof.
  intros T n d HT m a Hm. unfold set_depth in Hm. simpl in Hm.
  apply in_map_iff in Hm as ([x b] & E & Hx). simpl in E.
  destruct (node_eqb x n); inversion E; subst; [|now apply HT].
  apply (node_attrs_ok_ext m b); try reflexivity. now apply HT.
Qed.

Lemma relax_attributed : forall d l st,
  ok (fst st) -> ok (fst (fold_left (relax d) l st)).
Proof.
  intros d. induction l as [|c l IH]; intros st Hst; simpl; [assumption|].
  apply IH. unfold relax.
  destruct (match get_depth (fst st) c with Some _ => _ | None => _ end); [assumption|].
  simpl. now apply set_depth_attributed.
Qed.

Lemma update_topdown_attributed : forall fuel T Q st,
  ok T -> update_topdown fuel T Q = Ok st -> ok (fst st).
Proof.
  induction fuel as [|f IH]; intros T Q st HT; simpl.
  - intro H. now inversion H.
  - destruct Q as [|p Q]; [intro H; now inversion H|].
    destruct (get_depth T p); [|discriminate].
    apply IH. now apply relax_attributed.
Qed.

Lemma update_depth_graph_attributed : forall T T',
  ok T -> update_depth_graph T = Ok T' -> ok T'.
Proof.
  intros T T' HT. unfold update_depth_graph.
  destruct (get_root T) as [r|]; [|discriminate].
  destruct (update_topdown _ _ _) as [st|] eqn:E; simpl; [|discriminate].
  intro H. inversion H; subst. eapply update_topdown_attributed; [|exact E].
  now apply set_depth_attributed.
Qed.

End Attributes.

Lemma weave_levels : forall w partitions terminals boolean levels c w' h,
  weave w partitions terminals boolean levels c = (w', Ok h) ->
  exists w3 w4 G L lv labels,
    _build w3 (cutoff c) = (w4, Ok G) /\
    pick w4 (top c) (percentage_terminal_edges c) (additional c) (replace c)
         (strict_single_branch c) = (w', Ok h) /\
    _assignment w3 = Some L /\ _levels w3 = Some lv /\ _labels w3 = Some labels /\
    length lv = length L /\ length labels = length L.
Proof.
  intros w partitions terminals boolean levels c w' h. unfold weave.
  destruct (length partitions =? 0)%nat eqn:E0; [discriminate|].
  destruct (existsb _ _) eqn:El; [discriminate|].
  destruct (negb _) eqn:Ec; [discriminate|].
  apply negb_false_iff, Nat.eqb_eq in Ec.
  set (w1 := set_assume w _).
  set (clevels := match levels with LBool _ => _ | LList l => l end) in *.
  match goal with
  | |- match ?a with _ => _ end = _ -> _ => destruct a as [w2|e] eqn:Ea; [|discriminate]
  end.
  assert (exists L lv labels, _assignment w2 = Some L /\ _levels w2 = Some lv /\
            _labels w2 = Some labels /\ length lv = length L /\ length labels = length L)
    as (L & lv & labels & EL & Elv & Elab & H1 & H2).
  { destruct boolean.
    - inversion Ea; subst w2. exists (rows_boolean partitions), clevels,
        (map (fun _ => 1) partitions).
      repeat split; unfold rows_boolean; rewrite ?length_map; auto.
    - destruct (rows_labelled partitions clevels) as [|r0 rs] eqn:Er; [discriminate|].
      inversion Ea; subst w2.
      exists (map (fun r => fst (fst r)) (r0 :: rs)), (map (fun r => snd r) (r0 :: rs)),
        (map (fun r => snd (fst r)) (r0 :: rs)).
      repeat split; now rewrite !length_map. }
  unfold set_terminals.
  destruct (match terminals with TNone => _ | TNdarray _ => _ | TSeq l => _ end) as [ts|] eqn:Et;
    [|discriminate].
  destruct (negb (length ts =? n_terminals w2)%nat) eqn:En; [discriminate|].
  set (w3 := mkWeaver _ _ _ _ _ _ _ (Some ts) _).
  destruct (_build w3 (cutoff c)) as [w4 [G|e]] eqn:EB; [|discriminate].
  intro HP. exists w3, w4, G, L, lv, labels. auto 10.
Qed.

(** In the hierarchy that [weave] returns a cluster [(i, 0)] carries the
    index [i] and the level and the label of row [i] of the assignment
    matrix, the added root [(-1, 0)] carries index -1, level -1 and label
    [True], and a terminal carries none of the three. *)
Theorem hierarchy_attributes :
  forall (w : Weaver) (partitions : list (list Z)) (terminals : terminals_arg)
         (boolean : bool) (levels : levels_arg) (c : config) (w' : Weaver) (h : DiGraph),
    (0 < cutoff c)%Q ->
    weave w partitions terminals boolean levels c = (w', Ok h) ->
    exists L lv labels,
      _assignment w' = Some L /\ _levels w' = Some lv /\ _labels w' = Some labels /\
      length lv = length L /\ length labels = length L /\
      forall n a, In (n, a) (g_nodes h) -> node_attrs_ok lv labels n a.
Proof.
  intros w partitions terminals boolean levels c w' h Hc HW.
  destruct (weave_levels _ _ _ _ _ _ _ _ HW)
    as (w3 & w4 & G & L & lv & labels & HB & HP & EL & Elv & Elab & Hl1 & Hl2).
  destruct (_build_fields w3 (cutoff c) w4 G HB)
    as (L' & lv' & labels' & ts & root & s & EL' & Elv' & Elab' & Ets & EB & ES & Ew4).
  rewrite EL in EL'. inversion EL'; subst L'. clear EL'.
  rewrite Elv in Elv'. inversion Elv'; subst lv'. clear Elv'.
  rewrite Elab in Elab'. inversion Elab'; subst labels'. clear Elab'.
  destruct (build_graph_props _ _ _ _ _ _ _ _ (or_intror Hc) EB)
    as (Hw & Hn & Hs & Hr & Hroot & Htr & Hin).
  set (rk := rank L lv (assume_levels w3)) in *.
  assert (hier_inv rk root G) as HG by now constructor.
  assert (_full w4 = Some G /\ _secondary_edges w4 = Some (fst s) /\
          _secondary_terminal_edges w4 = Some (snd s)) as (EG & Ese & Este)
    by (subst w4; auto).
  destruct (pick_Ok_hier _ root L s w4 G _ _ _ _ _ w' h HG ES EG Ese Este HP)
    as (T & h0 & HT & EnT & E0 & H0 & Hr0 & Eh).
  destruct (pick_Ok w4 G _ _ _ _ _ _ _ w' h EG Ese Este HP) as (_ & _ & _ & _ & _ & Ew).
  destruct (prune_nodes rk root T _ h0 HT E0) as [_ Hattr].
  exists L, lv, labels. subst w' w4. cbn. repeat split; try assumption.
  apply (update_depth_graph_attributed lv labels h0 h); [|assumption].
  intros n a Hna. apply Hattr in Hna. rewrite EnT in Hna. revert n a Hna.
  now apply (build_graph_attributed lv labels L (assume_levels w3) ts (cutoff c) G root).
Qed.

(** * The parent that is not secondary *)

(** ** [sorted(..., reverse=True)] puts a largest key first *)

Section Descending.

Variables A K : Type.
Variable gtb : K -> K -> bool.
Variable le : K -> K -> Prop.
Variable key : A -> K.
Hypothesis gtb_true : forall a b, gtb a b = true -> le b a.
Hypothesis gtb_false : forall a b, gtb a b = false -> le a b.
Hypothesis le_trans : forall a b c, le a b -> le b c -> le a c.

Lemma insert_desc_sorted : forall x l,
  StronglySorted (fun a b => le (key b) (key a)) l ->
  StronglySorted (fun a b => le (key b) (key a)) (insert_desc gtb key x l).
Proof.
  intros x. induction l as [|y l IH]; intro Hs; simpl.
  - constructor; constructor.
  - inversion Hs as [|a b Hs' Hall]; subst. destruct (gtb (key y) (key x)) eqn:E.
    + constructor; [now apply IH|]. rewrite Forall_forall in *.
      intros z Hz. apply (Permutation_in _ (insert_desc_perm _ _ gtb key x l)) in Hz.
      destruct Hz as [<-|Hz]; [now apply gtb_true|now apply Hall].
    + constructor; [assumption|]. rewrite Forall_forall in *.
      intros z [<-|Hz]; [now apply gtb_false|].
      eapply le_trans; [apply Hall; exact Hz|now apply gtb_false].
Qed.

Lemma sorted_desc_sorted : forall l,
  StronglySorted (fun a b => le (key b) (key a)) (sorted_desc gtb key l).
Proof.
  induction l as [|x l IH]; simpl; [constructor|]. now apply insert_desc_sorted.
Qed.

(** What is not in the tail is the head, and no key is above its key. *)
Lemma sorted_desc_head : forall l x y,
  In x l -> In y l -> ~ In x (tl (sorted_desc gtb key l)) -> x = y \/ le (key y) (key x).
Proof.
  intros l x y Hx Hy Hn.
  pose proof (sorted_desc_sorted l) as Hs.
  pose proof (sorted_desc_perm _ _ gtb key l) as Hp.
  apply (Permutation_in _ (Permutation_sym Hp)) in Hx, Hy.
  destruct (sorted_desc gtb key l) as [|h t]; [destruct Hx|].
  simpl in Hn. destruct Hx as [->|Hx]; [|contradiction].
  destruct Hy as [->|Hy]; [now left|right].
  inversion Hs as [|a b _ Hall]; subst. rewrite Forall_forall in Hall. now apply Hall.
Qed.

End Descending.

Lemma mapM_combine : forall (A B : Type) (f : A -> result B) l l',
  mapM f l = Ok l' ->
  (forall x y, In (x, y) (combine l l') -> f x = Ok y) /\
  (forall x, In x l -> exists y, In (x, y) (combine l l')).
Proof.
  intros A B f. induction l as [|a l IH]; intros l'; simpl.
  - intro E. inversion E. split; [intros x y []|intros x []].
  - destruct (f a) as [b|] eqn:Ea; simpl; [|discriminate].
    destruct (mapM f l) as [bs|] eqn:El; simpl; [|discriminate].
    intro E. inversion E; subst. destruct (IH bs eq_refl) as [H1 H2]. split.
    + intros x y [H|H]; [inversion H; subst; assumption|now apply H1].
    + intros x [<-|Hx]; [exists b; now left|].
      destruct (H2 x Hx) as [y Hy]. exists y. now right.
Qed.

Lemma Qgtb_true_le : forall a b, Qgtb a b = true -> (b <= a)%Q.
Proof. intros a b H. apply Qgtb_lt in H. now apply Qlt_le_weak. Qed.

Lemma Qgtb_false_le : forall a b, Qgtb a b = false -> (a <= b)%Q.
Proof. intros a b H. now apply Qgtb_false. Qed.

Lemma nat_gtb_true_le : forall a b, nat_gtb a b = true -> (b <= a)%nat.
Proof. intros a b H. unfold nat_gtb in H. apply Nat.ltb_lt in H. lia. Qed.

Lemma nat_gtb_false_le : forall a b, nat_gtb a b = false -> (a <= b)%nat.
Proof. intros a b H. unfold nat_gtb in H. apply Nat.ltb_ge in H. lia. Qed.

Lemma perm_in_iff : forall (A : Type) (l l' : list A) x,
  Permutation l l' -> (In x l <-> In x l').
Proof.
  intros A l l' x H. split; [apply Permutation_in; assumption|].
  apply Permutation_in. now apply Permutation_sym.
Qed.

(** ** The two lists of secondary edges *)

Section Secondary.

Variable L : list (list bool).
Variable G : DiGraph.
Variable root : node.
Hypothesis Hw : wf_graph G.

Lemma step_parts : forall n a0,
  secondary_step L G root ([], []) n = Ok a0 ->
  (istuple n = true -> snd a0 = [] /\ node_pool L G root n = map fst (fst a0)) /\
  (istuple n = false -> fst a0 = [] /\ node_pool L G root n = map fst (snd a0)).
Proof.
  intros n a0 E. unfold node_pool. rewrite E. unfold pool. revert E. unfold secondary_step.
  destruct (1 <? length (predecessors G n))%nat.
  - destruct (istuple n).
    + destruct (mapM _ _); simpl; [|discriminate]. intro E. inversion E; subst. simpl.
      split; [intros _; split; [reflexivity|apply app_nil_r]|discriminate].
    + destruct (mapM _ _); simpl; [|discriminate]. intro E. inversion E; subst. simpl.
      split; [discriminate|intros _; split; reflexivity].
  - intro E. inversion E; subst. simpl. split; intros _; split; reflexivity.
Qed.

Lemma secondary_fold_parts : forall l acc acc',
  foldM (secondary_step L G root) l acc = Ok acc' ->
  (forall e, In e (map fst (fst acc')) <->
             In e (map fst (fst acc)) \/
             exists n, In n l /\ istuple n = true /\ In e (node_pool L G root n)) /\
  (forall e, In e (map fst (snd acc')) <->
             In e (map fst (snd acc)) \/
             exists n, In n l /\ istuple n = false /\ In e (node_pool L G root n)).
Proof.
  induction l as [|n l IH]; intros acc acc'; simpl.
  - intro E. inversion E; subst. split; intro e; split; auto.
    + intros [H|(n & [] & _)]. assumption.
    + intros [H|(n & [] & _)]. assumption.
  - destruct (secondary_step L G root acc n) as [a1|] eqn:E1; simpl; [|discriminate].
    intro E. destruct (IH a1 acc' E) as [H1 H2].
    destruct (secondary_step_acc _ _ _ _ _ _ E1) as (a0 & E0 & Ef & Es).
    destruct (step_parts n a0 E0) as [Ht Hf].
    split; intro e.
    + rewrite H1, Ef, map_app, in_app_iff. split.
      * intros [[H|H]|(m & Hm & Hmt & He)]; [auto| |right; exists m; auto].
        right. exists n. destruct (istuple n) eqn:Et.
        -- destruct (Ht eq_refl) as [_ ->]. auto.
        -- destruct (Hf eq_refl) as [E' _]. rewrite E' in H. destruct H.
      * intros [H|(m & [<-|Hm] & Hmt & He)]; [auto| |right; eauto].
        left. right. destruct (Ht Hmt) as [_ E']. now rewrite <- E'.
    + rewrite H2, Es, map_app, in_app_iff. split.
      * intros [[H|H]|(m & Hm & Hmt & He)]; [auto| |right; exists m; auto].
        right. exists n. destruct (istuple n) eqn:Et.
        -- destruct (Ht eq_refl) as [E' _]. rewrite E' in H. destruct H.
        -- destruct (Hf eq_refl) as [_ ->]. auto.
      * intros [H|(m & [<-|Hm] & Hmt & He)]; [auto| |right; eauto].
        left. right. destruct (Hf Hmt) as [_ E']. now rewrite <- E'.
Qed.

Lemma secondary_parts : forall s, secondary L G root = Ok s ->
  (forall p n, istuple n = true -> In n (nodes G) ->
     (In (p, n) (map fst (fst s)) <-> In (p, n) (node_pool L G root n))) /\
  (forall p n, istuple n = false -> In n (nodes G) ->
     (In (p, n) (map fst (snd s)) <-> In (p, n) (node_pool L G root n))).
Proof.
  intros s. unfold secondary.
  destruct (foldM _ _ _) as [acc|] eqn:E; simpl; [|discriminate].
  intro Es. inversion Es; subst s. clear Es. cbn [fst snd].
  destruct (secondary_fold_parts _ _ _ E) as [H1 H2].
  destruct (secondary_fold_pool _ _ _ _ _ _ E) as [Hall _].
  assert (forall m e, In m (nodes G) -> In e (node_pool L G root m) -> snd e = m) as Htarget.
  { intros m e Hm He. destruct (node_pool_facts L G root m Hw (Hall m Hm)) as (Hf & _).
    now apply Hf in He. }
  split; intros p n Ht Hn.
  - rewrite (perm_in_iff _ _ _ _ (Permutation_map fst (sorted_desc_perm _ _ Qgtb (fun x => snd x) (fst acc)))).
    rewrite H1. simpl. split.
    + intros [[]|(m & Hm & _ & He)]. pose proof (Htarget m _ Hm He) as E'. simpl in E'.
      now subst m.
    + intro He. right. exists n. auto.
  - rewrite (perm_in_iff _ _ _ _ (Permutation_map fst (sorted_desc_perm _ _ nat_gtb (fun x => snd x) (snd acc)))).
    rewrite H2. simpl. split.
    + intros [[]|(m & Hm & _ & He)]. pose proof (Htarget m _ Hm He) as E'. simpl in E'.
      now subst m.
    + intro He. right. exists n. auto.
Qed.

Lemma two_parents_same : forall n p q,
  (length (predecessors G n) <= 1)%nat ->
  In (p, n) (edges G) -> In (q, n) (edges G) -> p = q.
Proof.
  intros n p q Hl Hp Hq. apply In_predecessors in Hp, Hq.
  destruct (predecessors G n) as [|x [|y l]]; simpl in *.
  - destruct Hp.
  - destruct Hp as [<-|[]], Hq as [<-|[]]. reflexivity.
  - lia.
Qed.

Lemma preference_Ok : forall n p, In (p, n) (edges G) ->
  exists j, preference L G n p = Ok j.
Proof.
  intros n p Hp. unfold preference. destruct (weight_Ok G p n Hp) as [q ->]. simpl. eauto.
Qed.

Lemma pool_head_cluster : forall n p q,
  istuple n = true -> In (p, n) (edges G) -> In (q, n) (edges G) ->
  (exists a, secondary_step L G root ([], []) n = Ok a) ->
  ~ In (p, n) (node_pool L G root n) ->
  exists jp jq, preference L G n p = Ok jp /\ preference L G n q = Ok jq /\ (jq <= jp)%Q.
Proof.
  intros n p q Ht Hp Hq [a Ea] Hno.
  destruct (Nat.le_gt_cases (length (predecessors G n)) 1) as [Hl|Hl].
  { assert (p = q) as <- by (eapply two_parents_same; eassumption).
    destruct (preference_Ok n p Hp) as [j Ej]. exists j, j.
    split; [assumption|]. split; [assumption|apply Qle_refl]. }
  unfold node_pool in Hno. rewrite Ea in Hno. revert Ea. unfold secondary_step.
  apply Nat.ltb_lt in Hl. rewrite Hl, Ht.
  destruct (mapM (preference L G n) (predecessors G n)) as [pref|] eqn:Em; simpl; [|discriminate].
  intro E. inversion E; subst a. clear E. unfold pool in Hno. simpl in Hno.
  rewrite app_nil_r in Hno.
  destruct (mapM_combine _ _ _ _ _ Em) as [Hval Hex].
  apply In_predecessors in Hp, Hq.
  destruct (Hex p Hp) as [jp Hjp]. destruct (Hex q Hq) as [jq Hjq].
  exists jp, jq. split; [now apply Hval|]. split; [now apply Hval|].
  set (S := sorted_desc Qgtb (fun x : node * Q => snd x) (combine (predecessors G n) pref)) in *.
  destruct (sorted_desc_head (node * Q) Q Qgtb Qle (fun x => snd x)
              Qgtb_true_le Qgtb_false_le Qle_trans
              (combine (predecessors G n) pref) (p, jp) (q, jq) Hjp Hjq) as [E|H].
  - fold S. intro Hin. apply Hno. rewrite map_tail. rewrite <- map_tail.
    apply in_map_iff. exists ((p, n), jp). split; [reflexivity|].
    rewrite <- map_tail. apply in_map_iff. exists (p, jp). auto.
  - inversion E; subst. apply Qle_refl.
  - exact H.
Qed.

Hypothesis Hroot : In root (nodes G).
Hypothesis Hreach : forall v, In v (nodes G) -> path G root v.

Lemma steps_Ok : forall p, In p (nodes G) -> exists d, shortest_path_length G root p = Some d.
Proof.
  intros p Hp. apply shortest_path_length_Some; auto.
Qed.

Lemma pool_head_terminal : forall n p q,
  istuple n = false -> In (p, n) (edges G) -> In (q, n) (edges G) ->
  (exists a, secondary_step L G root ([], []) n = Ok a) ->
  ~ In (p, n) (node_pool L G root n) ->
  exists dp dq, shortest_path_length G root p = Some dp /\
                shortest_path_length G root q = Some dq /\ (dq <= dp)%nat.
Proof.
  intros n p q Ht Hp Hq [a Ea] Hno.
  destruct (Nat.le_gt_cases (length (predecessors G n)) 1) as [Hl|Hl].
  { assert (p = q) as <- by (eapply two_parents_same; eassumption).
    destruct (steps_Ok p) as [d Ed]; [now apply Hw in Hp|]. exists d, d. auto. }
  unfold node_pool in Hno. rewrite Ea in Hno. revert Ea. unfold secondary_step.
  apply Nat.ltb_lt in Hl. rewrite Hl, Ht.
  destruct (mapM (steps_from G root n) (predecessors G n)) as [es|] eqn:Em; simpl; [|discriminate].
  intro E. inversion E; subst a. clear E. unfold pool in Hno. simpl in Hno.
  destruct (mapM_combine _ _ _ _ _ Em) as [Hval Hex].
  apply In_predecessors in Hp, Hq.
  destruct (Hex p Hp) as [[ep dp] Hjp]. destruct (Hex q Hq) as [[eq dq] Hjq].
  pose proof (Hval _ _ Hjp) as Evp. pose proof (Hval _ _ Hjq) as Evq.
  unfold steps_from in Evp, Evq.
  destruct (shortest_path_length G root p) as [dp'|]; [|discriminate].
  destruct (shortest_path_length G root q) as [dq'|]; [|discriminate].
  inversion Evp; subst. inversion Evq; subst. clear Evp Evq.
  exists dp, dq. split; [reflexivity|]. split; [reflexivity|].
  apply in_combine_r in Hjp, Hjq.
  destruct (sorted_desc_head (edge * nat) nat nat_gtb le (fun x => snd x)
              nat_gtb_true_le nat_gtb_false_le Nat.le_trans
              es ((p, n), dp) ((q, n), dq) Hjp Hjq) as [E|H].
  - intro Hin. apply Hno. rewrite map_tail. rewrite <- map_tail.
    apply in_map_iff. exists ((p, n), dp). auto.
  - inversion E; subst. lia.
  - exact H.
Qed.

End Secondary.

(** Of the parents of a node in the candidate graph the one whose edge is
    not secondary, the parent that [pick(0)] keeps, is a best one: for a
    cluster no other parent has a higher preference, the Jaccard index of
    the cluster and the parent as the code computes it in binary64; for a
    terminal no other parent is farther from the root. *)
Theorem primary_parent_is_best :
  forall (w : Weaver) (c : Q) (w' : Weaver) (G : DiGraph) (L : list (list bool))
         (se : list (edge * Q)) (ste : list (edge * nat)),
    (0 < c)%Q -> _build w c = (w', Ok G) -> _assignment w = Some L ->
    _secondary_edges w' = Some se -> _secondary_terminal_edges w' = Some ste ->
    exists root, get_root G = Some root /\
      (forall n p q, istuple n = true ->
         In (p, n) (edges G) -> In (q, n) (edges G) -> ~ In (p, n) (map fst se) ->
         exists jp jq, preference L G n p = Ok jp /\ preference L G n q = Ok jq /\
                       (jq <= jp)%Q) /\
      (forall n p q, istuple n = false ->
         In (p, n) (edges G) -> In (q, n) (edges G) -> ~ In (p, n) (map fst ste) ->
         exists dp dq, shortest_path_length G root p = Some dp /\
                       shortest_path_length G root q = Some dq /\ (dq <= dp)%nat).
Proof.
  intros w c w' G L se ste Hc HB EL Ese Este.
  destruct (_build_fields w c w' G HB)
    as (L' & lv & labels & ts & root & s & EL' & _ & _ & _ & EB & ES & Ew).
  rewrite EL in EL'. inversion EL'; subst L'. clear EL'.
  subst w'. cbn in Ese, Este. inversion Ese; subst se. inversion Este; subst ste.
  clear Ese Este.
  destruct (build_graph_props _ _ _ _ _ _ _ _ (or_intror Hc) EB)
    as (Hw & Hn & Hs & Hr & Hroot & Htr & Hin).
  assert (hier_inv (rank L lv (assume_levels w)) root G) as HG by now constructor.
  destruct (rooted_only_root _ root G HG Hin) as [_ Hgr].
  destruct (secondary_parts L G root Hw s ES) as [H1 H2].
  assert (forall n, In n (nodes G) -> exists a, secondary_step L G root ([], []) n = Ok a)
    as Hall.
  { revert ES. unfold secondary.
    destruct (foldM _ _ _) as [acc|] eqn:E; simpl; [|discriminate]. intros _.
    now destruct (secondary_fold_pool _ _ _ _ _ _ E) as [Hall _]. }
  exists root. split; [exact Hgr|]. split.
  - intros n p q Ht Hp Hq Hno.
    assert (In n (nodes G)) as Hnn by now apply Hw in Hp.
    apply (pool_head_cluster L G root n p q Ht Hp Hq (Hall n Hnn)).
    intro H. apply Hno. now apply H1.
  - intros n p q Ht Hp Hq Hno.
    assert (In n (nodes G)) as Hnn by now apply Hw in Hp.
    apply (pool_head_terminal L G root Hw Hin (rooted_reachable _ _ _ HG)
             n p q Ht Hp Hq (Hall n Hnn)).
    intro H. apply Hno. now apply H2.
Qed.

(** * Relabelling the hierarchy: [relabel] *)

(** ** The counters and the mapping *)

Lemma counter_get_incr : forall c v v',
  counter_get (counter_incr c v) v' =
  if v =? v' then S (counter_get c v) else counter_get c v'.
Proof.
  induction c as [|[x k] c IH]; intros v v'; simpl.
  - destruct (v =? v'); reflexivity.
  - destruct (x =? v) eqn:E; simpl.
    + apply Z.eqb_eq in E. subst x. destruct (v =? v'); reflexivity.
    + rewrite IH. destruct (x =? v') eqn:E'; [|reflexivity].
      apply Z.eqb_eq in E'. subst x. now rewrite Z.eqb_sym, E.
Qed.

Lemma lookup_node_In : forall m n n',
  NoDup (map fst m) -> (lookup_node m n = Some n' <-> In (n, n') m).
Proof.
  induction m as [|[k v] m IH]; intros n n' Hnd; simpl.
  - split; [discriminate|contradiction].
  - inversion Hnd as [|x l Hk Hnd']; subst. destruct (node_eqb k n) eqn:E.
    + apply node_eqb_eq in E. subst k. split.
      * intro H. inversion H. now left.
      * intros [H|H]; [now inversion H|]. exfalso. apply Hk. apply in_map_iff.
        exists (n, n'). auto.
    + apply node_eqb_neq in E. rewrite IH by assumption. split; [auto|].
      intros [H|H]; [inversion H; congruence|assumption].
Qed.

Lemma lookup_node_None : forall m n, ~ In n (map fst m) -> lookup_node m n = None.
Proof.
  induction m as [|[k v] m IH]; intros n Hn; simpl; [reflexivity|].
  simpl in Hn. destruct (node_eqb k n) eqn:E; [apply node_eqb_eq in E; tauto|].
  apply IH. tauto.
Qed.

Lemma relabel_step_inv : forall done m c n v,
  ~ In n (map fst done) ->
  mapping_inv done m c ->
  mapping_inv (done ++ [(n, v)]) (fst (relabel_step (m, c) (n, v)))
              (snd (relabel_step (m, c) (n, v))).
Proof.
  intros done m c n v Hn Hi. unfold relabel_step. cbn [fst snd].
  destruct (istuple n) eqn:Et; cbn [fst snd].
  - constructor.
    + intros x x' Hx. apply in_app_iff in Hx as [Hx|[Hx|[]]].
      * destruct (mi_val Hi x x' Hx) as (v' & k & E & Hd & Hxt & Hk).
        exists v', k. split; [assumption|]. split; [apply in_app_iff; now left|].
        split; [assumption|]. rewrite counter_get_incr. destruct (v =? v') eqn:E'; [|assumption].
        apply Z.eqb_eq in E'. subst v'. lia.
      * inversion Hx; subst. exists v, (counter_get c v). split; [reflexivity|].
        split; [apply in_app_iff; right; now left|]. split; [assumption|].
        rewrite counter_get_incr, Z.eqb_refl. lia.
    + intros x v' Hx Hxt. apply in_app_iff in Hx as [Hx|[Hx|[]]].
      * destruct (mi_key Hi x v' Hx Hxt) as [x' Hx']. exists x'. apply in_app_iff. now left.
      * inversion Hx; subst. eexists. apply in_app_iff. right. now left.
    + intros v' k Hk. rewrite counter_get_incr in Hk. destruct (v =? v') eqn:E'.
      * apply Z.eqb_eq in E'. subst v'.
        destruct (Nat.eq_dec k (counter_get c v)) as [->|Hne].
        -- exists n. apply in_app_iff. right. now left.
        -- destruct (mi_idx Hi v k) as [x Hx]; [lia|]. exists x. apply in_app_iff. now left.
      * destruct (mi_idx Hi v' k Hk) as [x Hx]. exists x. apply in_app_iff. now left.
    + intros n1 n2 n' H1 H2.
      apply in_app_iff in H1 as [H1|[H1|[]]], H2 as [H2|[H2|[]]].
      * eapply (mi_inj Hi); eassumption.
      * exfalso. inversion H2; subst.
        destruct (mi_val Hi n1 _ H1) as (v' & k & E & _ & _ & Hk).
        inversion E; subst. apply Nat2Z.inj in H3. lia.
      * exfalso. inversion H1; subst.
        destruct (mi_val Hi n2 _ H2) as (v' & k & E & _ & _ & Hk).
        inversion E; subst. apply Nat2Z.inj in H3. lia.
      * inversion H1; inversion H2; subst. reflexivity.
    + rewrite map_app. simpl. apply NoDup_snoc; [apply (mi_nodup Hi)|].
      intro H. apply in_map_iff in H as ([x x'] & E & Hx). simpl in E. subst x.
      destruct (mi_val Hi n x' Hx) as (v' & k & _ & Hd & _). apply Hn.
      apply in_map_iff. exists (n, v'). auto.
  - constructor.
    + intros x x' Hx. destruct (mi_val Hi x x' Hx) as (v' & k & E & Hd & Hxt & Hk).
      exists v', k. split; [assumption|]. split; [apply in_app_iff; now left|]. auto.
    + intros x v' Hx Hxt. apply in_app_iff in Hx as [Hx|[Hx|[]]].
      * now apply (mi_key Hi x v').
      * inversion Hx; subst. congruence.
    + apply (mi_idx Hi).
    + apply (mi_inj Hi).
    + apply (mi_nodup Hi).
Qed.

Lemma relabel_fold_inv : forall rest done m c,
  NoDup (map fst (done ++ rest)) ->
  mapping_inv done m c ->
  mapping_inv (done ++ rest) (fst (fold_left relabel_step rest (m, c)))
              (snd (fold_left relabel_step rest (m, c))).
Proof.
  induction rest as [|[n v] rest IH]; intros done m c Hnd Hi; simpl.
  - now rewrite app_nil_r.
  - replace (done ++ (n, v) :: rest) with ((done ++ [(n, v)]) ++ rest)
      by (rewrite <- app_assoc; reflexivity).
    destruct (relabel_step (m, c) (n, v)) as [m1 c1] eqn:E.
    apply IH.
    + rewrite <- app_assoc. exact Hnd.
    + replace m1 with (fst (relabel_step (m, c) (n, v))) by now rewrite E.
      replace c1 with (snd (relabel_step (m, c) (n, v))) by now rewrite E.
      apply relabel_step_inv; [|assumption].
      rewrite map_app in Hnd. apply NoDup_remove_2 in Hnd.
      intro H. apply Hnd. apply in_app_iff. now left.
Qed.

Lemma mapping_inv_nil : mapping_inv [] [] [].
Proof.
  constructor; simpl; try contradiction; [intros v k H; lia|constructor].
Qed.

(** ** The relabelled graph *)

Section Rename.

Variable f : node -> node.

Lemma add_nodes_fold : forall (l : list (node * attrs)) H,
  NoDup (nodes H ++ map (fun p => f (fst p)) l) ->
  nodes (fold_left (fun H p => add_node H (f (fst p)) no_attrs) l H)
  = nodes H ++ map (fun p => f (fst p)) l /\
  g_edges (fold_left (fun H p => add_node H (f (fst p)) no_attrs) l H) = g_edges H.
Proof.
  induction l as [|p l IH]; intros H Hnd; simpl.
  - now rewrite app_nil_r.
  - assert (nodes (add_node H (f (fst p)) no_attrs) = nodes H ++ [f (fst p)]) as En.
    { rewrite nodes_add_node_list.
      destruct (has_node H (f (fst p))) eqn:E; [|reflexivity].
      apply has_node_In in E. exfalso. simpl in Hnd. apply NoDup_remove_2 in Hnd.
      apply Hnd. apply in_app_iff. now left. }
    destruct (IH (add_node H (f (fst p)) no_attrs)) as [H1 H2].
    + rewrite En, <- app_assoc. exact Hnd.
    + rewrite H1, H2, En, <- app_assoc, edges_add_node. auto.
Qed.

Lemma nodes_set_attrs : forall H n a, nodes (set_attrs H n a) = nodes H.
Proof.
  intros H n a. unfold set_attrs, nodes. simpl. rewrite map_map. apply map_ext.
  intros [x b]. simpl. now destruct (node_eqb x n).
Qed.

Lemma get_attrs_set_attrs_same : forall H n a,
  In n (nodes H) -> get_attrs (set_attrs H n a) n = Some a.
Proof.
  intros H n a. unfold get_attrs, set_attrs, nodes. simpl.
  induction (g_nodes H) as [|[x b] l IH]; simpl; [contradiction|].
  intros [E|Hin].
  - subst x. rewrite node_eqb_refl. simpl. now rewrite node_eqb_refl.
  - destruct (node_eqb x n) eqn:E; simpl; rewrite E; [reflexivity|]. now apply IH.
Qed.

Lemma get_attrs_set_attrs_other : forall H n a m,
  m <> n -> get_attrs (set_attrs H n a) m = get_attrs H m.
Proof.
  intros H n a m Hne. unfold get_attrs, set_attrs. simpl.
  induction (g_nodes H) as [|[x b] l IH]; simpl; [reflexivity|].
  destruct (node_eqb x n) eqn:E; simpl.
  - apply node_eqb_eq in E. subst x.
    assert (node_eqb n m = false) as -> by (apply node_eqb_neq; congruence). exact IH.
  - destruct (node_eqb x m); [reflexivity|exact IH].
Qed.

Lemma set_attrs_fold : forall (l : list (node * attrs)) H,
  NoDup (map (fun p => f (fst p)) l) ->
  (forall p, In p l -> In (f (fst p)) (nodes H)) ->
  nodes (fold_left (fun H p => set_attrs H (f (fst p)) (snd p)) l H) = nodes H /\
  g_edges (fold_left (fun H p => set_attrs H (f (fst p)) (snd p)) l H) = g_edges H /\
  (forall p, In p l ->
     get_attrs (fold_left (fun H p => set_attrs H (f (fst p)) (snd p)) l H) (f (fst p))
     = Some (snd p)) /\
  (forall x, ~ In x (map (fun p => f (fst p)) l) ->
     get_attrs (fold_left (fun H p => set_attrs H (f (fst p)) (snd p)) l H) x
     = get_attrs H x).
Proof.
  induction l as [|p l IH]; intros H Hnd Hin; simpl.
  - split; [reflexivity|]. split; [reflexivity|]. split; [intros p []|auto].
  - inversion Hnd as [|x l' Hp Hnd']; subst.
    destruct (IH (set_attrs H (f (fst p)) (snd p)) Hnd') as (H1 & H2 & H3 & H4).
    { intros q Hq. rewrite nodes_set_attrs. apply Hin. now right. }
    split; [now rewrite H1, nodes_set_attrs|]. split; [now rewrite H2|]. split.
    + intros q [<-|Hq]; [|now apply H3].
      rewrite H4 by assumption. apply get_attrs_set_attrs_same. apply Hin. now left.
    + intros x Hx. simpl in Hx. rewrite H4 by tauto. apply get_attrs_set_attrs_other.
      intro E. apply Hx. left. now symmetry.
Qed.

Lemma add_edges_fold : forall (l : list (edge * Q)) H,
  (forall e, In e l -> In (f (fst (fst e))) (nodes H) /\ In (f (snd (fst e))) (nodes H)) ->
  g_nodes (fold_left (fun H e => add_edge H (f (fst (fst e))) (f (snd (fst e))) (snd e)) l H)
  = g_nodes H /\
  forall e, In e (edges (fold_left (fun H e => add_edge H (f (fst (fst e))) (f (snd (fst e)))
                                              (snd e)) l H)) <->
            In e (edges H) \/ In e (map (fun e => (f (fst (fst e)), f (snd (fst e)))) l).
Proof.
  induction l as [|x l IH]; intros H Hin; cbn [fold_left map].
  - split; [reflexivity|]. intro e. simpl. tauto.
  - destruct (Hin x (or_introl eq_refl)) as [Hu Hv].
    pose proof (g_nodes_add_edge_same H _ _ (snd x) Hu Hv) as En.
    destruct (IH (add_edge H (f (fst (fst x))) (f (snd (fst x))) (snd x))) as [H1 H2].
    { intros e He. unfold nodes. rewrite En. apply Hin. now right. }
    split; [eapply eq_trans; [exact H1|exact En]|]. intro e.
    pose proof (H2 e) as H2e. rewrite edges_add_edge in H2e. simpl.
    split; intro He.
    + apply H2e in He. destruct He as [[He|He]|He]; [now left| |right; now right].
      right. left. now symmetry.
    + apply H2e. destruct He as [He|[He|He]]; [left; now left| |now right].
      left. right. now symmetry.
Qed.

Lemma get_attrs_In : forall G n a, NoDup (nodes G) ->
  In (n, a) (g_nodes G) -> get_attrs G n = Some a.
Proof.
  intros G n a. unfold get_attrs, nodes.
  induction (g_nodes G) as [|[x b] l IH]; simpl; [contradiction|].
  intros Hnd [E|Hin].
  - inversion E; subst. now rewrite node_eqb_refl.
  - inversion Hnd as [|y l' Hx Hnd']; subst. destruct (node_eqb x n) eqn:E.
    + apply node_eqb_eq in E. subst x. exfalso. apply Hx. apply in_map_iff.
      exists (n, a). auto.
    + now apply IH.
Qed.

Lemma get_attrs_absent : forall G n, ~ In n (nodes G) -> get_attrs G n = None.
Proof.
  intros G n H. unfold get_attrs. now rewrite find_node_none.
Qed.

End Rename.

Lemma NoDup_map_on : forall (A B : Type) (g : A -> B) (l : list A),
  (forall x y, In x l -> In y l -> g x = g y -> x = y) -> NoDup l -> NoDup (map g l).
Proof.
  intros A B g. induction l as [|a l IH]; intros Hinj Hnd; simpl; [constructor|].
  inversion Hnd as [|x l' Ha Hnd']; subst. constructor.
  - intro H. apply in_map_iff in H as (y & E & Hy). apply Ha.
    rewrite (Hinj a y); [assumption|now left|now right|now symmetry].
  - apply IH; [|assumption]. intros x y Hx Hy. apply Hinj; now right.
Qed.

Lemma lookup_edges_fold : forall (f : node -> node) (l : list (edge * Q)) H,
  NoDup (map (fun e => (f (fst (fst e)), f (snd (fst e)))) l) ->
  (forall e, In e l ->
     lookup_edge (g_edges (fold_left (fun H e => add_edge H (f (fst (fst e)))
                                                           (f (snd (fst e))) (snd e)) l H))
                 (f (fst (fst e)), f (snd (fst e))) = Some (snd e)) /\
  (forall k, ~ In k (map (fun e => (f (fst (fst e)), f (snd (fst e)))) l) ->
     lookup_edge (g_edges (fold_left (fun H e => add_edge H (f (fst (fst e)))
                                                           (f (snd (fst e))) (snd e)) l H)) k
     = lookup_edge (g_edges H) k).
Proof.
  intros f. induction l as [|x l IH]; intros H Hnd; cbn [fold_left map].
  - split; [intros e []|auto].
  - inversion Hnd as [|y l' Hx Hnd']; subst.
    destruct (IH (add_edge H (f (fst (fst x))) (f (snd (fst x))) (snd x)) Hnd') as [H1 H2].
    split.
    + intros e [<-|He]; [|now apply H1].
      eapply eq_trans; [apply H2; assumption|]. apply lookup_add_edge_same.
    + intros k Hk. simpl in Hk.
      eapply eq_trans; [apply H2; tauto|]. apply lookup_add_edge_other.
      intro E. apply Hk. left. now symmetry.
Qed.

Lemma relabel_nodes_spec : forall G m,
  wf_graph G ->
  (forall x y, In x (nodes G) -> In y (nodes G) ->
     relabelled m x = relabelled m y -> x = y) ->
  nodes (relabel_nodes G m) = map (relabelled m) (nodes G) /\
  (forall n a, In (n, a) (g_nodes G) ->
     get_attrs (relabel_nodes G m) (relabelled m n) = Some a) /\
  (forall u v, In u (nodes G) -> In v (nodes G) ->
     (In (relabelled m u, relabelled m v) (edges (relabel_nodes G m)) <->
      In (u, v) (edges G))) /\
  (forall u v, In (u, v) (edges G) ->
     lookup_edge (g_edges (relabel_nodes G m)) (relabelled m u, relabelled m v)
     = lookup_edge (g_edges G) (u, v)).
Proof.
  intros G m Hw Hinj. unfold relabel_nodes.
  set (f := relabelled m) in *.
  set (H0 := fold_left (fun H p => add_node H (f (fst p)) no_attrs) (g_nodes G) empty_graph).
  set (H1 := fold_left (fun H p => set_attrs H (f (fst p)) (snd p)) (g_nodes G) H0).
  assert (NoDup (map (fun p : node * attrs => f (fst p)) (g_nodes G))) as Hnd.
  { rewrite <- (map_map fst f). apply NoDup_map_on; [exact Hinj|apply Hw]. }
  destruct (add_nodes_fold f (g_nodes G) empty_graph Hnd) as [En0 Ee0].
  fold H0 in En0, Ee0. simpl in En0, Ee0.
  destruct (set_attrs_fold f (g_nodes G) H0 Hnd) as (En1 & Ee1 & Ha1 & _).
  { intros p Hp. rewrite En0. now apply (in_map (fun p : node * attrs => f (fst p))). }
  fold H1 in En1, Ee1, Ha1.
  assert (nodes H1 = map f (nodes G)) as EnH1.
  { rewrite En1, En0. unfold nodes. now rewrite map_map. }
  pose proof (wf_copy G Hw) as Hwc.
  assert (forall e, In e (g_edges (copy G)) ->
            In (fst (fst e)) (nodes G) /\ In (snd (fst e)) (nodes G)) as Hends.
  { intros [[u v] q] He. simpl. destruct Hwc as (_ & _ & Hc).
    destruct (Hc u v) as [Hu Hv].
    - unfold edges. apply in_map_iff. exists ((u, v), q). auto.
    - unfold nodes in Hu, Hv. rewrite nodes_copy in Hu, Hv. auto. }
  destruct (add_edges_fold f (g_edges (copy G)) H1) as [En2 Ee2].
  { intros e He. destruct (Hends e He) as [Hu Hv]. rewrite EnH1. split; now apply in_map. }
  assert (edges H1 = []) as EeH1 by (unfold edges; rewrite Ee1, Ee0; reflexivity).
  assert (NoDup (map (fun e : edge * Q => (f (fst (fst e)), f (snd (fst e))))
                     (g_edges (copy G)))) as Hnde.
  { rewrite <- (map_map fst (fun e : edge => (f (fst e), f (snd e)))).
    apply NoDup_map_on; [|apply Hwc].
    intros [a b] [a' b'] Hab Hab' E. simpl in E. inversion E as [[E1 E2]].
    destruct (proj2 (proj2 Hwc) a b Hab) as [Ha Hb].
    destruct (proj2 (proj2 Hwc) a' b' Hab') as [Ha' Hb'].
    unfold nodes in Ha, Hb, Ha', Hb'. rewrite nodes_copy in Ha, Hb, Ha', Hb'.
    f_equal; apply Hinj; assumption. }
  destruct (lookup_edges_fold f (g_edges (copy G)) H1 Hnde) as [Hl _].
  split; [|split; [|split]].
  - unfold nodes at 1. eapply eq_trans; [apply f_equal; exact En2|]. exact EnH1.
  - intros n a Hna. unfold get_attrs. eapply eq_trans; [|apply (Ha1 (n, a) Hna)].
    unfold get_attrs. f_equal. f_equal. exact En2.
  - intros u v Hu Hv. split.
    + intro He. apply Ee2 in He. rewrite EeH1 in He. destruct He as [[]|He].
      apply in_map_iff in He as ([[u' v'] q] & E & He). simpl in E. inversion E as [[E1 E2]].
      destruct (Hends _ He) as [Hu' Hv']. simpl in Hu', Hv'.
      apply Hinj in E1; [|assumption|assumption]. apply Hinj in E2; [|assumption|assumption].
      subst u' v'. apply (edges_copy G (u, v) Hw). unfold edges. apply in_map_iff.
      exists ((u, v), q). auto.
    + intro He. apply Ee2. right. apply (edges_copy G (u, v) Hw) in He.
      unfold edges in He. apply in_map_iff in He as ([[u' v'] q] & E & He).
      simpl in E. inversion E; subst. apply in_map_iff. exists ((u, v), q). auto.
  - intros u v He. apply (edges_copy G (u, v) Hw) in He.
    unfold edges in He. apply in_map_iff in He as ([e q] & E & He). simpl in E. subst e.
    eapply eq_trans; [exact (Hl ((u, v), q) He)|]. simpl. symmetry.
    assert (In ((u, v), q) (g_edges G)) as HeG by (apply g_edges_copy_In in He; tauto).
    clear - HeG Hw. destruct Hw as (_ & Hnd & _). unfold edges in Hnd.
    induction (g_edges G) as [|[e' q'] l IH]; simpl in *; [contradiction|].
    inversion Hnd as [|x l' Hx Hnd']; subst. destruct HeG as [E|HeG].
    + inversion E; subst. now rewrite edge_eqb_refl.
    + destruct (edge_eqb (u, v) e') eqn:Ee.
      * apply edge_eqb_eq in Ee. subst e'. exfalso. apply Hx. apply in_map_iff.
        exists ((u, v), q). auto.
      * now apply IH.
Qed.

Lemma NoDup_get_node_attributes : forall G attr, NoDup (nodes G) ->
  NoDup (map fst (get_node_attributes G attr)).
Proof.
  intros G attr. unfold get_node_attributes, nodes.
  induction (g_nodes G) as [|[x a] l IH]; intro Hnd; simpl; [constructor|].
  inversion Hnd as [|y l' Hx Hnd']; subst.
  destruct (attr_of attr a) as [v|]; simpl; [|now apply IH].
  constructor; [|now apply IH].
  intro H. apply Hx. apply in_map_iff in H as ([n v'] & E & Hn). simpl in E. subst n.
  apply in_flat_map in Hn as ([y b] & Hy & Hin). simpl in Hin.
  destruct (attr_of attr b); [|destruct Hin]. destruct Hin as [E|[]]. inversion E; subst.
  apply in_map_iff. exists (x, b). auto.
Qed.

(** After [weave], [relabel] maps every cluster to the pair of its depth,
    or of its level when levels were assumed, and a running index from 0
    without a gap, and leaves the terminals as they are; no two nodes get
    the same name, and the hierarchy it stores is the old one under the
    new names: the nodes in order, their attributes, the edges and their
    weights. *)
Theorem relabel_isomorphic :
  forall (w : Weaver) (partitions : list (list Z)) (terminals : terminals_arg)
         (boolean : bool) (levels : levels_arg) (c : config) (w' : Weaver) (h : DiGraph),
    (0 < cutoff c)%Q ->
    weave w partitions terminals boolean levels c = (w', Ok h) ->
    exists mapping h',
      relabel w' = (set_hier w' (Some h'), Returns mapping) /\
      (forall x y, In x (nodes h) -> In y (nodes h) ->
         relabelled mapping x = relabelled mapping y -> x = y) /\
      (forall n, In n (nodes h) -> istuple n = false -> relabelled mapping n = n) /\
      (forall n, In n (nodes h) -> istuple n = true ->
         exists v k, relabelled mapping n = Internal v (Z.of_nat k) /\
           get_attr (if assume_levels w' then Level else Depth) h n = Some v /\
           forall j, (j < k)%nat ->
             exists n0, In n0 (nodes h) /\
                        relabelled mapping n0 = Internal v (Z.of_nat j)) /\
      nodes h' = map (relabelled mapping) (nodes h) /\
      (forall n, In n (nodes h) -> get_attrs h' (relabelled mapping n) = get_attrs h n) /\
      (forall u v, In u (nodes h) -> In v (nodes h) ->
         (In (relabelled mapping u, relabelled mapping v) (edges h') <->
          In (u, v) (edges h))) /\
      (forall u v, In (u, v) (edges h) ->
         weight h' (relabelled mapping u) (relabelled mapping v) = weight h u v).
Proof.
  intros w partitions terminals boolean levels c w' h Hc HW.
  destruct (weave_stored _ _ _ _ _ _ _ _ Hc HW) as (rk & r & ts & Hst & _).
  set (A := if assume_levels w' then Level else Depth).
  set (dict := get_node_attributes h A).
  assert ((if assume_levels w' then level w' NNone else depth w' NNone)
          = Returns (VDict dict)) as Edict.
  { unfold dict, A, level, depth, get_attribute. rewrite (st_hier Hst).
    now destruct (assume_levels w'). }
  assert (forall n, In n (nodes h) -> istuple n = true -> exists v, get_attr A h n = Some v)
    as Hattr.
  { intros n Hn Ht. unfold A. destruct (assume_levels w').
    - now apply (st_level Hst).
    - now apply (stored_depth_attr rk w' h r ts Hst). }
  pose proof (proj1 (st_wf Hst)) as Hnd.
  assert (forall n v, In (n, v) dict <-> In n (nodes h) /\ get_attr A h n = Some v) as Hdict.
  { intros n v. now apply In_get_node_attributes. }
  destruct (fold_left relabel_step dict ([], [])) as [m cnt] eqn:Efold.
  pose proof (relabel_fold_inv dict [] [] []
                (NoDup_get_node_attributes h A Hnd) mapping_inv_nil) as Hi.
  simpl in Hi. fold dict in Hi. rewrite Efold in Hi. cbn [fst snd] in Hi.
  assert (forall n, In n (nodes h) -> istuple n = false -> relabelled m n = n) as Hterm.
  { intros n Hn Ht. unfold relabelled.
    destruct (lookup_node m n) as [n'|] eqn:El; [|reflexivity].
    apply (lookup_node_In m n n' (mi_nodup Hi)) in El.
    destruct (mi_val Hi n n' El) as (_ & _ & _ & _ & Ht' & _). congruence. }
  assert (forall n, In n (nodes h) -> istuple n = true ->
            exists v k, relabelled m n = Internal v (Z.of_nat k) /\ In (n, relabelled m n) m /\
                        get_attr A h n = Some v /\ (k < counter_get cnt v)%nat) as Hclu.
  { intros n Hn Ht. destruct (Hattr n Hn Ht) as [v Ev].
    destruct (mi_key Hi n v (proj2 (Hdict n v) (conj Hn Ev)) Ht) as [n' Hn'].
    pose proof (proj2 (lookup_node_In m n n' (mi_nodup Hi)) Hn') as El.
    unfold relabelled. rewrite El.
    destruct (mi_val Hi n n' Hn') as (v' & k & E & Hd & _ & Hk).
    apply Hdict in Hd as [_ Ev']. rewrite Ev in Ev'. inversion Ev'; subst v'.
    exists v, k. auto. }
  assert (forall x y, In x (nodes h) -> In y (nodes h) ->
            relabelled m x = relabelled m y -> x = y) as Hinj.
  { intros x y Hx Hy E.
    destruct (istuple x) eqn:Etx, (istuple y) eqn:Ety.
    - destruct (Hclu x Hx Etx) as (_ & _ & _ & Hxm & _).
      destruct (Hclu y Hy Ety) as (_ & _ & _ & Hym & _).
      rewrite E in Hxm. exact (mi_inj Hi x y _ Hxm Hym).
    - destruct (Hclu x Hx Etx) as (v & k & Ex & _).
      rewrite (Hterm y Hy Ety) in E. rewrite Ex in E. subst y. discriminate.
    - destruct (Hclu y Hy Ety) as (v & k & Ey & _).
      rewrite (Hterm x Hx Etx) in E. rewrite Ey in E. subst x. discriminate.
    - rewrite (Hterm x Hx Etx), (Hterm y Hy Ety) in E. exact E. }
  destruct (relabel_nodes_spec h m (st_wf Hst) Hinj) as (Hn' & Ha' & He' & Hw').
  exists m, (relabel_nodes h m). split; [|split; [exact Hinj|split; [exact Hterm|split]]].
  - unfold relabel. rewrite Edict, Efold, (st_hier Hst). reflexivity.
  - intros n Hn Ht. destruct (Hclu n Hn Ht) as (v & k & En & _ & Ev & Hk).
    exists v, k. split; [assumption|]. split; [assumption|].
    intros j Hj. destruct (mi_idx Hi v j) as [n0 Hn0]; [lia|].
    destruct (mi_val Hi n0 _ Hn0) as (v' & k' & _ & Hd & _).
    apply Hdict in Hd as [Hn0n _]. exists n0. split; [assumption|].
    unfold relabelled. now rewrite (proj2 (lookup_node_In m n0 _ (mi_nodup Hi)) Hn0).
  - split; [exact Hn'|]. split; [|split; [exact He'|]].
    + intros n Hn. unfold nodes in Hn. apply in_map_iff in Hn as ([x a] & E & Hx).
      simpl in E. subst x. rewrite (Ha' n a Hx). symmetry.
      now apply get_attrs_In.
    + intros u v Huv. unfold weight. now rewrite (Hw' u v Huv).
Qed.

(** * The containment indices of two labellings *)

(** ** The counters of [containment_indices_legacy] *)

Lemma pair_get_incr : forall c k k',
  pair_get (pair_incr c k) k' =
  if (fst k =? fst k') && (snd k =? snd k') then S (pair_get c k) else pair_get c k'.
Proof.
  induction c as [|[[a b] n] c IH]; intros [k1 k2] [k1' k2']; cbn [pair_get pair_incr fst snd].
  - destruct ((k1 =? k1') && (k2 =? k2')); reflexivity.
  - destruct ((a =? k1) && (b =? k2)) eqn:E; cbn [pair_get fst snd].
    + apply andb_true_iff in E as [E1 E2]. apply Z.eqb_eq in E1, E2. subst a b.
      destruct ((k1 =? k1') && (k2 =? k2')); reflexivity.
    + rewrite IH. cbn [fst snd].
      destruct ((a =? k1') && (b =? k2')) eqn:E'; [|reflexivity].
      apply andb_true_iff in E' as [E1 E2]. apply Z.eqb_eq in E1, E2. subst a b.
      rewrite (Z.eqb_sym k1 k1'), (Z.eqb_sym k2 k2'), E. reflexivity.
Qed.

Lemma In_counter_incr : forall c v x,
  In x (map fst (counter_incr c v)) <-> x = v \/ In x (map fst c).
Proof.
  induction c as [|[y k] c IH]; intros v x; simpl.
  - intuition.
  - destruct (y =? v) eqn:E; simpl.
    + apply Z.eqb_eq in E. subst y. intuition.
    + rewrite IH. intuition.
Qed.

Lemma NoDup_counter_incr : forall c v,
  NoDup (map fst c) -> NoDup (map fst (counter_incr c v)).
Proof.
  induction c as [|[y k] c IH]; intros v Hnd; simpl.
  - constructor; [intros []|constructor].
  - inversion Hnd as [|y' l Hy Hnd']; subst.
    destruct (y =? v) eqn:E; simpl.
    + now constructor.
    + constructor; [|now apply IH].
      intro H. apply In_counter_incr in H as [H|H]; [|now apply Hy].
      subst y. now rewrite Z.eqb_refl in E.
Qed.

(** The counters after the pairs [P]. *)
Lemma counters_fold : forall P st a b,
  let st' := fold_left count_pair P st in
  counter_get (counterA st') a
  = (counter_get (counterA st) a + length (filter (fun p => Z.eqb (fst p) a) P))%nat /\
  pair_get (counterAB st') (a, b)
  = (pair_get (counterAB st) (a, b)
     + length (filter (fun p => Z.eqb (fst p) a && Z.eqb (snd p) b) P))%nat.
Proof.
  induction P as [|[x y] P IH]; intros st a b; cbn zeta; simpl fold_left.
  - simpl. lia.
  - destruct (IH (count_pair st (x, y)) a b) as [H1 H2]. cbn zeta in H1, H2.
    rewrite H1, H2. unfold count_pair. cbn [counterA counterAB fst snd filter].
    rewrite counter_get_incr, pair_get_incr. cbn [fst snd].
    split.
    + destruct (x =? a) eqn:E; cbn [length]; [|lia].
      apply Z.eqb_eq in E. subst x. lia.
    + destruct ((x =? a) && (y =? b)) eqn:E; cbn [length]; [|lia].
      apply andb_true_iff in E as [E1 E2]. apply Z.eqb_eq in E1, E2. subst x y. lia.
Qed.

Lemma keys_fold : forall P st,
  let st' := fold_left count_pair P st in
  (NoDup (map fst (counterA st)) -> NoDup (map fst (counterA st'))) /\
  (NoDup (map fst (counterB st)) -> NoDup (map fst (counterB st'))) /\
  (forall a, In a (map fst (counterA st')) <->
             In a (map fst (counterA st)) \/ In a (map fst P)) /\
  (forall b, In b (map fst (counterB st')) <->
             In b (map fst (counterB st)) \/ In b (map snd P)).
Proof.
  induction P as [|[x y] P IH]; intros st; cbn zeta; simpl fold_left.
  - simpl. intuition.
  - destruct (IH (count_pair st (x, y))) as (H1 & H2 & H3 & H4). cbn zeta in *.
    unfold count_pair in *. cbn [counterA counterB fst snd] in *.
    split; [|split; [|split]].
    + intro Hnd. apply H1. now apply NoDup_counter_incr.
    + intro Hnd. apply H2. now apply NoDup_counter_incr.
    + intro a. rewrite H3, In_counter_incr. simpl. intuition.
    + intro b. rewrite H4, In_counter_incr. simpl. intuition.
Qed.

(** ** The loop over the positions *)

Lemma ofoldM_app : forall (S E : Type) (f : S -> E -> outcome S) l1 l2 st,
  ofoldM f (l1 ++ l2) st = (st' <~ ofoldM f l1 st ;; ofoldM f l2 st').
Proof.
  induction l1 as [|x l1 IH]; intros l2 st; simpl; [reflexivity|].
  destruct (f st x); simpl; auto.
Qed.

Lemma count_loop : forall A B A2 B2 s st,
  (forall i, (i < length A2)%nat -> nth_error A (s + i) = nth_error A2 i) ->
  (forall i, (i < length A2)%nat -> nth_error B (s + i) = nth_error B2 i) ->
  (length A2 <= length B2)%nat ->
  ofoldM (count_step A B) (seq s (length A2)) st
  = Returns (fold_left count_pair (combine A2 B2) st).
Proof.
  intros A B. induction A2 as [|a A2 IH]; intros B2 s st HA HB Hl; [reflexivity|].
  destruct B2 as [|b B2]; [simpl in Hl; lia|].
  cbn [length seq ofoldM combine fold_left].
  unfold count_step at 1.
  pose proof (HA 0%nat ltac:(simpl; lia)) as Ea.
  pose proof (HB 0%nat ltac:(simpl; lia)) as Eb.
  rewrite Nat.add_0_r in Ea, Eb. simpl in Ea, Eb. rewrite Ea, Eb. cbn [obind].
  apply IH.
  - intros i Hi. pose proof (HA (S i) ltac:(simpl; lia)) as H. cbn [nth_error] in H.
    rewrite <- H. f_equal. lia.
  - intros i Hi. pose proof (HB (S i) ltac:(simpl; lia)) as H. cbn [nth_error] in H.
    rewrite <- H. f_equal. lia.
  - simpl in Hl. lia.
Qed.

Lemma legacy_loop : forall A B, (length A <= length B)%nat ->
  ofoldM (count_step A B) (seq 0 (length A)) (mkCounters [] [] [])
  = Returns (fold_left count_pair (combine A B) (mkCounters [] [] [])).
Proof. intros A B H. apply count_loop; auto. Qed.

Lemma legacy_short : forall A B, (length B < length A)%nat ->
  containment_indices_legacy A B = Raises IndexError.
Proof.
  intros A B H. unfold containment_indices_legacy.
  replace (length A) with (length B + S (length A - S (length B)))%nat by lia.
  rewrite seq_app, ofoldM_app.
  assert (length (firstn (length B) A) = length B) as El
    by (rewrite length_firstn; lia).
  rewrite <- El at 1.
  rewrite (count_loop A B (firstn (length B) A) B).
  - cbn [obind seq ofoldM Nat.add]. unfold count_step at 1.
    destruct (nth_error A (length B)) as [a|] eqn:Ea.
    + now rewrite (proj2 (nth_error_None B (length B)) (Nat.le_refl _)).
    + reflexivity.
  - intros i Hi. rewrite El in Hi. simpl. now rewrite nth_error_firstn, (proj2 (Nat.ltb_lt _ _) Hi).
  - intros i Hi. reflexivity.
  - lia.
Qed.

(** ** Counting by boolean rows *)

Lemma length_filter_map : forall (X Y : Type) (k : X -> Y) (h : Y -> bool) (l : list X),
  length (filter h (map k l)) = length (filter (fun x => h (k x)) l).
Proof.
  intros X Y k h l. induction l as [|x l IH]; simpl; [reflexivity|].
  destruct (h (k x)); simpl; now rewrite IH.
Qed.

Lemma combine_map2 : forall (X Y X' Y' : Type) (f : X -> X') (g : Y -> Y') l1 l2,
  combine (map f l1) (map g l2) = map (fun p => (f (fst p), g (snd p))) (combine l1 l2).
Proof.
  intros X Y X' Y' f g. induction l1 as [|x l1 IH]; intros [|y l2]; simpl; try reflexivity.
  now rewrite IH.
Qed.

Lemma both_count_labelled : forall A B a b,
  both_count (labelled A a) (labelled B b)
  = Z.of_nat (length (filter (fun p => Z.eqb (fst p) a && Z.eqb (snd p) b) (combine A B))).
Proof.
  intros A B a b. unfold both_count, labelled.
  now rewrite combine_map2, length_filter_map.
Qed.

Lemma map_fst_combine_le : forall (X Y : Type) (l1 : list X) (l2 : list Y),
  (length l1 <= length l2)%nat -> map fst (combine l1 l2) = l1.
Proof.
  intros X Y. induction l1 as [|x l1 IH]; intros [|y l2] H; simpl in *; try reflexivity;
    try lia.
  now rewrite IH by lia.
Qed.

Lemma map_snd_combine_le : forall (X Y : Type) (l1 : list X) (l2 : list Y),
  (length l2 <= length l1)%nat -> map snd (combine l1 l2) = l2.
Proof.
  intros X Y. induction l1 as [|x l1 IH]; intros [|y l2] H; simpl in *; try reflexivity;
    try lia.
  now rewrite IH by lia.
Qed.

Lemma count_nonzero_labelled : forall A B a, (length A <= length B)%nat ->
  count_nonzero (labelled A a)
  = Z.of_nat (length (filter (fun p : Z * Z => Z.eqb (fst p) a) (combine A B))).
Proof.
  intros A B a H. unfold count_nonzero, labelled.
  rewrite <- (map_fst_combine_le _ _ A B H) at 1.
  now rewrite map_map, length_filter_map.
Qed.

(** What [containment_indices_legacy] returns when [B] is long enough. *)
Lemma legacy_returns : forall A B, (length A <= length B)%nat ->
  exists LA LB,
    containment_indices_legacy A B
    = Returns (map (fun a => map (fun b => containment A B a b) LB) LA, LA, LB) /\
    NoDup LA /\ NoDup LB /\
    (forall a, In a LA <-> In a A) /\
    (forall b, In b LB <-> In b (firstn (length A) B)).
Proof.
  intros A B H. unfold containment_indices_legacy. rewrite (legacy_loop A B H).
  cbn [obind].
  set (st := fold_left count_pair (combine A B) (mkCounters [] [] [])).
  destruct (keys_fold (combine A B) (mkCounters [] [] [])) as (H1 & H2 & H3 & H4).
  cbn zeta in H1, H2, H3, H4. fold st in H1, H2, H3, H4. cbn [counterA counterB map] in *.
  exists (map fst (counterA st)), (map fst (counterB st)).
  split; [|split; [apply H1; constructor|split; [apply H2; constructor|split]]].
  - f_equal. f_equal. f_equal. apply map_ext. intro a. apply map_ext. intro b.
    unfold legacy_entry, containment.
    destruct (counters_fold (combine A B) (mkCounters [] [] []) a b) as [E1 E2].
    cbn zeta in E1, E2. fold st in E1, E2. cbn [counterA counterAB counter_get pair_get] in *.
    rewrite E1, E2, both_count_labelled, (count_nonzero_labelled A B a H).
    reflexivity.
  - intro a. rewrite H3, (map_fst_combine_le _ _ A B H). simpl. intuition.
  - intro b. rewrite H4. rewrite (combine_firstn_l A B).
    rewrite map_snd_combine_le by (rewrite length_firstn; lia). simpl. intuition.
Qed.

(** ** [containment_indices] *)

Lemma indicator_float : forall A a, indicator A a = astype_float (labelled A a).
Proof. intros A a. unfold indicator, astype_float, labelled. now rewrite map_map. Qed.

Lemma sum_counts : forall r k,
  fold_left Qplus (astype_float r) (inject_Z k) = inject_Z (k + count_nonzero r).
Proof.
  induction r as [|x r IH]; intro k.
  - simpl. unfold count_nonzero. simpl. now rewrite Z.add_0_r.
  - cbn [astype_float map fold_left].
    replace (inject_Z k + (if x then 1 else 0))%Q with (inject_Z (k + (if x then 1 else 0))).
    + fold (astype_float r). rewrite IH. f_equal.
      unfold count_nonzero. cbn [filter]. destruct x; cbn [length]; lia.
    + destruct x; unfold Qplus, inject_Z; simpl; f_equal; lia.
Qed.

Lemma row_sum_indicator : forall A a,
  row_sum (indicator A a) = inject_Z (count_nonzero (labelled A a)).
Proof. intros A a. unfold row_sum. rewrite indicator_float. apply (sum_counts _ 0). Qed.

Lemma dot_indicator : forall A B a b,
  dot (indicator A a) (indicator B b) = inject_Z (both_count (labelled A a) (labelled B b)).
Proof. intros A B a b. rewrite !indicator_float. apply dot_both_count. Qed.

Lemma combine_same : forall (X Y Z' : Type) (F : X -> Y) (G : X -> Z') (l : list X),
  combine (map F l) (map G l) = map (fun x => (F x, G x)) l.
Proof. intros X Y Z' F G l. induction l as [|x l IH]; simpl; [reflexivity|now rewrite IH]. Qed.

Lemma containment_indices_returns : forall A B, length A = length B ->
  forallb is_int64 A = true -> forallb is_int64 B = true ->
  containment_indices A B
  = Fits (map (fun a => map (fun b => containment A B a b) (unique B)) (unique A),
          unique A, unique B).
Proof.
  intros A B H HA HB. unfold containment_indices.
  rewrite (proj2 (Nat.eqb_eq _ _) H), HA, HB. cbn [andb].
  f_equal. f_equal. f_equal.
  rewrite !map_map, combine_same, map_map. apply map_ext. intro a. cbn [fst snd].
  rewrite !map_map. apply map_ext. intro b.
  unfold containment. now rewrite dot_indicator, row_sum_indicator.
Qed.

Lemma table_entry : forall (f : Z -> Z -> Q) LA LB i j a b,
  nth_error LA i = Some a -> nth_error LB j = Some b ->
  nth j (nth i (map (fun a => map (fun b => f a b) LB) LA) []) 0%Q = f a b.
Proof.
  intros f LA LB i j a b Ha Hb.
  assert (i < length LA)%nat as Hi by (apply nth_error_Some; congruence).
  assert (j < length LB)%nat as Hj by (apply nth_error_Some; congruence).
  rewrite nth_map_in with (d := 0) by assumption.
  rewrite nth_map_in with (d := 0) by assumption.
  rewrite (nth_error_nth LA i 0 Ha), (nth_error_nth LB j 0 Hb). reflexivity.
Qed.

(** For two labellings of one length by integers of 64 bits, the labels
    that [np.asarray] keeps as they are, [containment_indices] and
    [containment_indices_legacy] both return; each lists the labels of [A]
    and of [B] once, the first in ascending order, and at the positions of
    a label [a] of [A] and a label [b] of [B] both matrices hold the number
    of elements labelled [a] and [b] divided by the number labelled [a]. *)
Theorem containment_indices_agree : forall (A B : list Z),
  length A = length B ->
  forallb is_int64 A = true -> forallb is_int64 B = true ->
  exists CI LA LB CI' LA' LB',
    containment_indices A B = Fits (CI, LA, LB) /\
    containment_indices_legacy A B = Returns (CI', LA', LB') /\
    StronglySorted Z.lt LA /\ StronglySorted Z.lt LB /\ NoDup LA' /\ NoDup LB' /\
    (forall a, In a A <-> In a LA) /\ (forall a, In a A <-> In a LA') /\
    (forall b, In b B <-> In b LB) /\ (forall b, In b B <-> In b LB') /\
    forall i j i' j' a b,
      nth_error LA i = Some a -> nth_error LA' i' = Some a ->
      nth_error LB j = Some b -> nth_error LB' j' = Some b ->
      nth j (nth i CI []) 0%Q = containment A B a b /\
      nth j' (nth i' CI' []) 0%Q = containment A B a b.
Proof.
  intros A B H HA HB.
  destruct (legacy_returns A B ltac:(lia)) as (LA' & LB' & E' & N1 & N2 & I1 & I2).
  rewrite H, firstn_all in I2.
  exists (map (fun a => map (fun b => containment A B a b) (unique B)) (unique A)),
    (unique A), (unique B),
    (map (fun a => map (fun b => containment A B a b) LB') LA'), LA', LB'.
  split; [now apply containment_indices_returns|].
  split; [exact E'|].
  split; [apply unique_strict|]. split; [apply unique_strict|].
  split; [exact N1|]. split; [exact N2|].
  split; [intro a; symmetry; apply In_unique|].
  split; [intro a; symmetry; apply I1|].
  split; [intro b; symmetry; apply In_unique|].
  split; [intro b; symmetry; apply I2|].
  intros i j i' j' a b Hi Hi' Hj Hj'. split; now apply table_entry.
Qed.

(** For two labellings of two lengths [containment_indices] raises numpy's
    [ValueError]; [containment_indices_legacy] raises [IndexError] when [B]
    is the shorter one, and when [B] is the longer one it returns what it
    returns without the elements of [B] past the length of [A]. *)
Theorem containment_indices_lengths : forall (A B : list Z),
  length A <> length B ->
  containment_indices A B = Mismatch /\
  ((length B < length A)%nat -> containment_indices_legacy A B = Raises IndexError) /\
  ((length A < length B)%nat ->
     exists r, containment_indices_legacy A B = Returns r /\
               containment_indices_legacy A (firstn (length A) B) = Returns r).
Proof.
  intros A B H. split; [|split].
  - unfold containment_indices. now rewrite (proj2 (Nat.eqb_neq _ _) H).
  - apply legacy_short.
  - intro Hl. unfold containment_indices_legacy.
    rewrite (legacy_loop A B ltac:(lia)).
    rewrite (legacy_loop A (firstn (length A) B)) by (rewrite length_firstn; lia).
    rewrite <- combine_firstn_l. cbn [obind]. eexists. split; reflexivity.
Qed.

(** ** [containment_indices_sparse] *)

Lemma has_shape_spec : forall A rows cols,
  has_shape A rows cols = true <->
  length A = rows /\ forall r, In r A -> length r = cols.
Proof.
  intros A rows cols. unfold has_shape.
  rewrite andb_true_iff, Nat.eqb_eq, forallb_forall.
  split; intros [H1 H2]; (split; [exact H1|]); intros r Hr.
  - now apply Nat.eqb_eq, H2.
  - now apply Nat.eqb_eq, H2.
Qed.

Lemma count_nonzero_multiply : forall a b,
  count_nonzero (multiply a b) = both_count a b.
Proof.
  intros a b. unfold count_nonzero, multiply, both_count.
  now rewrite length_filter_map.
Qed.

(** For two matrices of one shape with a row, the entry [i] of
    [containment_indices_sparse], for a row [i] of [A] with a member, is
    the entry [i, i] of [containment_indices_boolean]: the members that
    row [i] of [A] shares with row [i] of [B], by the members of row [i]
    of [A]. *)
Theorem containment_indices_sparse_diagonal :
  forall (A B : list (list bool)) (rows cols : nat),
    (0 < rows)%nat -> has_shape A rows cols = true -> has_shape B rows cols = true ->
    exists r, containment_indices_sparse A B = Returns r /\ length r = rows /\
      forall i, (i < rows)%nat -> 0 < count_nonzero (nth i A []) ->
        (nth i r 0 == nth i (nth i (containment_indices_boolean A B) []) 0)%Q /\
        (nth i r 0 == inject_Z (both_count (nth i A []) (nth i B []))
                      / inject_Z (count_nonzero (nth i A [])))%Q.
Proof.
  intros A B rows cols Hr HA HB.
  pose proof (proj1 (has_shape_spec _ _ _) HA) as [LA CA].
  pose proof (proj1 (has_shape_spec _ _ _) HB) as [LB CB].
  unfold containment_indices_sparse.
  destruct A as [|a0 A']; [simpl in LA; lia|].
  set (A := a0 :: A') in *.
  assert (length a0 = cols) as Ec by (apply CA; now left).
  rewrite Ec, LA, HA, HB. cbn [andb].
  eexists. split; [reflexivity|].
  split; [rewrite length_map, length_combine, !length_map, length_combine; lia|].
  intros i Hi _.
  assert (nth i
            (map (fun bc : Z * Z => (1 * inject_Z (fst bc) / inject_Z (snd bc))%Q)
               (combine
                  (map (fun ab => count_nonzero (multiply (fst ab) (snd ab))) (combine A B))
                  (map count_nonzero A))) 0%Q
          = (1 * inject_Z (both_count (nth i A []) (nth i B []))
             / inject_Z (count_nonzero (nth i A [])))%Q) as E.
  { rewrite nth_map_in with (d := (0, 0)).
    2:{ rewrite length_combine, !length_map, length_combine. lia. }
    rewrite combine_nth by (rewrite !length_map, length_combine; lia).
    cbn [fst snd].
    rewrite nth_map_in with (d := (@nil bool, @nil bool)) by (rewrite length_combine; lia).
    rewrite combine_nth by lia. cbn [fst snd].
    rewrite nth_map_in with (d := @nil bool) by lia.
    now rewrite count_nonzero_multiply. }
  rewrite E, containment_entry by lia.
  unfold Qdiv. rewrite Qmult_1_l. split; reflexivity.
Qed.

Local Open Scope nat_scope.

(** * Counting the paths between two nodes *)

Lemma reg_get_cons : forall reg x k u,
  reg_get ((x, k) :: reg) u = if node_eqb x u then Some k else reg_get reg u.
Proof. reflexivity. Qed.

Lemma flat_map_ext_in : forall (X Y : Type) (f g : X -> list Y) l,
  (forall x, In x l -> f x = g x) -> flat_map f l = flat_map g l.
Proof.
  intros X Y f g l. induction l as [|x l IH]; intro H; simpl; [reflexivity|].
  rewrite (H x) by now left. f_equal. apply IH. intros y Hy. apply H. now right.
Qed.

Lemma NoDup_flat_map_cons : forall (X : Type) (F : X -> list (list X)) l,
  NoDup l -> (forall c, In c l -> NoDup (F c)) ->
  NoDup (flat_map (fun c => map (cons c) (F c)) l).
Proof.
  intros X F l. induction l as [|c l IH]; intros Hnd HF; simpl; [constructor|].
  inversion Hnd as [|c' l' Hc Hnd']; subst.
  apply NoDup_app.
  - apply Injective_map_NoDup; [|apply HF; now left].
    intros p q E. now inversion E.
  - apply IH; [assumption|]. intros d Hd. apply HF. now right.
  - intros p Hp Hq. apply in_map_iff in Hp as (r & E & _). subst p.
    apply in_flat_map in Hq as (d & Hd & Hq). apply in_map_iff in Hq as (r' & E & _).
    inversion E; subst. contradiction.
Qed.

Section Paths.

Variable G : DiGraph.
Variable rk : node -> nat.
Variable v : node.
Hypothesis Hwf : wf_graph G.
Hypothesis Hrk : forall a b, In (a, b) (edges G) -> rk b < rk a.

(** The number of paths from [x] to [v]. *)
Let cnt (x : node) : nat := length (paths_from G v (S (rk x)) x).

Lemma paths_from_enough : forall n m x, m <= n -> rk x < m ->
  paths_from G v m x = paths_from G v (S (rk x)) x.
Proof.
  induction n as [|n IH]; intros m x Hm Hx; [lia|].
  destruct m as [|m]; [lia|]. cbn [paths_from].
  destruct (node_eqb x v); [reflexivity|].
  apply flat_map_ext_in. intros c Hc. apply In_successors in Hc.
  pose proof (Hrk _ _ Hc) as Hlt. f_equal.
  rewrite (IH m c) by lia. symmetry. apply (IH (rk x) c); lia.
Qed.

Lemma chain_rank : forall p x, chain G x v p -> rk v <= rk x /\ (p <> [] -> rk v < rk x).
Proof.
  induction p as [|c p IH]; intros x H; simpl in H.
  - subst x. split; [lia|congruence].
  - destruct H as [He Hc]. pose proof (Hrk _ _ He). destruct (IH c Hc) as [H1 _].
    split; [lia|intros _; lia].
Qed.

Lemma In_paths_from : forall n x p, rk x < n ->
  (In p (paths_from G v n x) <-> chain G x v p).
Proof.
  induction n as [|n IH]; intros x p Hx; [lia|]. cbn [paths_from].
  destruct (node_eqb x v) eqn:E.
  - apply node_eqb_eq in E. subst x. split.
    + intros [H|[]]. subst p. reflexivity.
    + intro H. destruct p as [|c p]; [now left|].
      destruct (chain_rank _ _ H) as [_ H2]. specialize (H2 ltac:(discriminate)). lia.
  - apply node_eqb_neq in E. rewrite in_flat_map. split.
    + intros (c & Hc & Hp). apply in_map_iff in Hp as (r & Ep & Hr). subst p.
      apply In_successors in Hc. pose proof (Hrk _ _ Hc).
      split; [assumption|]. apply (IH c r); [lia|assumption].
    + intro H. destruct p as [|c r]; [simpl in H; contradiction|].
      destruct H as [He Hc]. pose proof (Hrk _ _ He).
      exists c. split; [now apply In_successors|].
      apply in_map. apply (IH c r); [lia|assumption].
Qed.

Lemma NoDup_paths_from : forall n x, NoDup (paths_from G v n x).
Proof.
  induction n as [|n IH]; intro x; cbn [paths_from]; [constructor|].
  destruct (node_eqb x v).
  - constructor; [intros []|constructor].
  - apply NoDup_flat_map_cons; [now apply NoDup_successors|]. intros c _. apply IH.
Qed.

Lemma length_flat_paths : forall (F : node -> list (list node)) l acc,
  fold_left (fun a c => a + length (F c)) l acc
  = acc + length (flat_map (fun c => map (cons c) (F c)) l).
Proof.
  intros F l. induction l as [|c l IH]; intro acc; simpl; [lia|].
  rewrite IH, length_app, length_map. lia.
Qed.

(** The register holds numbers of paths. *)
Let good (reg : list (node * nat)) : Prop :=
  forall x k, reg_get reg x = Some k -> k = cnt x.

Lemma nsp_spec : forall limit reg u,
  rk u < limit -> good reg -> (u = v \/ In u (nodes G)) ->
  exists reg', nsp G v limit reg u = Returns (reg', cnt u) /\ good reg'.
Proof.
  induction limit as [|limit IH]; intros reg u Hu Hg Hn; [lia|].
  cbn [nsp]. unfold cnt at 1. cbn [paths_from].
  destruct (node_eqb u v) eqn:E; [exists reg; split; [reflexivity|assumption]|].
  apply node_eqb_neq in E. destruct Hn as [Hn|Hn]; [contradiction|].
  destruct (reg_get reg u) as [k|] eqn:Er.
  - exists reg. split; [|assumption]. rewrite (Hg u k Er). unfold cnt. cbn [paths_from].
    now rewrite (proj2 (node_eqb_neq u v) E).
  - rewrite (proj2 (has_node_In G u) Hn).
    assert (forall l acc reg0, good reg0 -> (forall c, In c l -> In (u, c) (edges G)) ->
              exists reg1,
                ofoldM (fun (st : list (node * nat) * nat) (c : node) =>
                          r <~ nsp G v limit (fst st) c ;;
                          Returns (fst r, snd st + snd r))
                       l (reg0, acc)
                = Returns (reg1, fold_left (fun a c => a + cnt c) l acc) /\ good reg1)
      as Hloop.
    { induction l as [|c l IHl]; intros acc reg0 Hg0 Hl.
      - exists reg0. split; [reflexivity|assumption].
      - pose proof (Hl c (or_introl eq_refl)) as He. pose proof (Hrk _ _ He) as Hlt.
        destruct (IH reg0 c ltac:(lia) Hg0 (or_intror (proj2 (proj2 (proj2 Hwf) _ _ He))))
          as (reg1 & E1 & Hg1).
        cbn [ofoldM fst snd]. rewrite E1. cbn [obind fst snd fold_left].
        apply IHl; [assumption|]. intros d Hd. apply Hl. now right. }
    destruct (Hloop (successors G u) 0 reg Hg (fun c Hc => proj1 (In_successors G u c) Hc))
      as (reg1 & E1 & Hg1).
    rewrite E1. cbn [obind fst snd].
    assert (fold_left (fun a c => a + cnt c) (successors G u) 0
            = length (flat_map (fun c => map (cons c) (paths_from G v (rk u) c))
                               (successors G u))) as Ec.
    { rewrite (flat_map_ext_in _ _
                 (fun c => map (cons c) (paths_from G v (rk u) c))
                 (fun c => map (cons c) (paths_from G v (S (rk c)) c))).
      - unfold cnt. now rewrite length_flat_paths.
      - intros c Hc. apply In_successors in Hc. pose proof (Hrk _ _ Hc). f_equal.
        apply (paths_from_enough (rk u)); lia. }
    rewrite Ec. eexists. split; [reflexivity|].
    intros x k. rewrite reg_get_cons. destruct (node_eqb u x) eqn:Ex.
    + apply node_eqb_eq in Ex. subst x. intro Hk. inversion Hk. unfold cnt.
      cbn [paths_from]. now rewrite (proj2 (node_eqb_neq u v) E).
    + apply Hg1.
Qed.

Lemma chain_path : forall p x, chain G x v p -> path G x v.
Proof.
  induction p as [|c p IH]; intros x H; simpl in H.
  - subst x. constructor.
  - destruct H as [He Hc]. eapply path_step; [exact He|now apply IH].
Qed.

Lemma path_chain : forall x y, path G x y -> y = v -> exists p, chain G x v p.
Proof.
  intros x y H. induction H as [u|u c w He Hp IH]; intro E.
  - subst u. now exists [].
  - destruct (IH E) as [p Hc]. exists (c :: p). split; assumption.
Qed.

End Paths.

(** On a graph whose edges go down in a rank, [n_simple_paths(G, u, v)] for
    a node [u], given a recursion depth above the rank of [u], returns the
    number of directed paths from [u] to [v]: the length of a list that
    holds every such path once.  It is positive exactly when [v] can be
    reached from [u]. *)
Theorem n_simple_paths_counts :
  forall (G : DiGraph) (rk : node -> nat) (limit : nat) (u v : node),
    wf_graph G ->
    (forall a b, In (a, b) (edges G) -> rk b < rk a) ->
    In u (nodes G) -> rk u < limit ->
    exists ps : list (list node),
      n_simple_paths G limit u v = Returns (length ps) /\
      NoDup ps /\ (forall p, In p ps <-> chain G u v p) /\
      (0 < length ps <-> path G u v).
Proof.
  intros G rk limit u v Hwf Hrk Hu Hl.
  destruct (nsp_spec G rk v Hwf Hrk limit [] u Hl) as (reg & E & _).
  - intros x k H. discriminate.
  - now right.
  - exists (paths_from G v (S (rk u)) u).
    assert (forall p, In p (paths_from G v (S (rk u)) u) <-> chain G u v p) as Hin
      by (intro p; apply (In_paths_from G rk v Hrk); lia).
    split; [|split; [apply (NoDup_paths_from G v Hwf)|split; [exact Hin|]]].
    + unfold n_simple_paths. rewrite E. reflexivity.
    + split.
      * intro H. destruct (paths_from G v (S (rk u)) u) as [|p ps] eqn:Ep;
          [simpl in H; lia|].
        apply (chain_path G v p). apply Hin. now left.
      * intro H. destruct (path_chain G v u v H eq_refl) as [p Hp].
        apply Hin in Hp. destruct (paths_from G v (S (rk u)) u); [destruct Hp|simpl; lia].
Qed.

Local Close Scope nat_scope.

(** * The runs of a sequence *)

Lemma groupby_head : forall x r,
  exists grp gs, groupby (x :: r) = (x, grp) :: gs /\
                 (gs = [] <-> forall y, In y r -> y = x).
Proof.
  intros x r. revert x. induction r as [|y r IH]; intro x.
  - exists [x], []. split; [reflexivity|]. split; [intros _ y []|reflexivity].
  - destruct (IH y) as (grp & gs & E & Hgs).
    change (groupby (x :: y :: r))
      with (match groupby (y :: r) with
            | (k, grp) :: gs =>
                if x =? k then (k, x :: grp) :: gs else (x, [x]) :: (k, grp) :: gs
            | [] => [(x, [x])]
            end).
    rewrite E. destruct (x =? y) eqn:Exy.
    + apply Z.eqb_eq in Exy. subst y. exists (x :: grp), gs. split; [reflexivity|].
      rewrite Hgs. split.
      * intros H z [Hz|Hz]; [now symmetry|now apply H].
      * intros H z Hz. apply H. now right.
    + apply Z.eqb_neq in Exy. exists [x], ((y, grp) :: gs). split; [reflexivity|].
      split; [discriminate|]. intro H. exfalso. apply Exy. symmetry. apply H. now left.
Qed.

(** [all_equal] is true exactly for a sequence whose elements are all the
    same, the empty sequence included. *)
Theorem all_equal_spec : forall (l : list Z),
  all_equal l = true <-> forall x y, In x l -> In y l -> x = y.
Proof.
  intros [|x r]; [split; [intros _ x y []|reflexivity]|].
  unfold all_equal. destruct (groupby_head x r) as (grp & gs & E & Hgs). rewrite E.
  split.
  - intro H. destruct gs as [|g gs]; [|discriminate].
    pose proof (proj1 Hgs eq_refl) as Hall.
    assert (forall z, In z (x :: r) -> z = x) as Hx
      by (intros z [Hz|Hz]; [now symmetry|now apply Hall]).
    intros a b Ha Hb. now rewrite (Hx a Ha), (Hx b Hb).
  - intro H. assert (gs = []) as ->; [|reflexivity].
    apply Hgs. intros y Hy. apply H; [now right|now left].
Qed.

(** * The methods that read the hierarchy, on the worked inputs *)

Lemma gap_weave_returns :
  weave init_weaver gap_partitions TNone true (LBool false) default_config
  = (gap_weaver, Ok gap_hier).
Proof. vm_compute. reflexivity. Qed.

Lemma small_hier_wf : wf_graph small_hier.
Proof.
  split; [|split].
  - repeat constructor; simpl; intuition discriminate.
  - repeat constructor; simpl; intuition discriminate.
  - intros u v H. simpl in H.
    destruct H as [H|[H|[]]]; inversion H; subst; simpl; auto.
Qed.

Lemma depth_cluster_labels_witness :
  exists ts labels,
    _terminals docstring_weaver = Some ts /\
    depth_cluster docstring_weaver 1 true true = Returns (Labels labels, O) /\
    length labels = length ts /\
    (forall j, 1 <= nth j labels 0 <->
               exists t, In (Terminal t) (nodes docstring_hier) /\
                         Util.first_index t ts = Some j) /\
    (true = false -> NoDup ts -> forall j, (j < length ts)%nat -> 1 <= nth j labels 0).
Proof.
  apply (depth_cluster_labels init_weaver docstring_partitions TNone true
           (LBool false) docstring_config docstring_weaver docstring_hier 1 true).
  - reflexivity.
  - exact docstring_weave_returns.
  - lia.
Defined.

Lemma depth_cluster_negative_witness :
  depth_cluster docstring_weaver (-1) true true = RaisesEmpty /\
  depth_cluster docstring_weaver (-1) false true = Returns (Matrix [], 1%nat).
Proof.
  apply (depth_cluster_negative init_weaver docstring_partitions TNone true
           (LBool false) docstring_config docstring_weaver docstring_hier (-1) true).
  - reflexivity.
  - exact docstring_weave_returns.
  - lia.
Defined.

Lemma topdown_cluster_matrix_witness :
  exists H warnings,
    _topdown_cluster docstring_weaver Level 3 false true = Returns (Matrix H, warnings) /\
    forall row, In row H ->
      length row = n_terminals docstring_weaver /\ exists k, nth k row false = true.
Proof.
  apply (topdown_cluster_matrix init_weaver docstring_partitions TNone true
           (LBool false) docstring_config docstring_weaver docstring_hier Level 3 true).
  - reflexivity.
  - exact docstring_weave_returns.
Defined.

Lemma get_levels_some_node_witness :
  exists lv, get_levels docstring_weaver = Returns lv /\ StronglySorted Z.lt lv /\
    (forall l, In l lv <->
               exists n, In n (nodes docstring_hier) /\ istuple n = true /\
                         get_attr Level docstring_hier n = Some l) /\
    (forall l, In l lv ->
               exists n, some_node docstring_weaver l = Returns (Some n) /\
                         In n (nodes docstring_hier) /\
                         istuple n = true /\ get_attr Level docstring_hier n = Some l) /\
    (forall l, ~ In l lv -> some_node docstring_weaver l = Returns None).
Proof.
  apply (get_levels_some_node init_weaver docstring_partitions TNone true
           (LBool false) docstring_config docstring_weaver docstring_hier).
  - reflexivity.
  - exact docstring_weave_returns.
Defined.

Lemma max_depth_deepest_terminal_witness :
  exists m : nat,
    get_max_depth docstring_weaver = Returns (Some (Z.of_nat m)) /\ (1 <= m)%nat /\
    (exists t, In t (range 8) /\ get_depth docstring_hier (Terminal t) = Some m) /\
    (forall t d, get_depth docstring_hier (Terminal t) = Some d -> (d <= m)%nat).
Proof.
  apply (max_depth_deepest_terminal init_weaver docstring_partitions TNone true
           (LBool false) docstring_config docstring_weaver docstring_hier (range 8)).
  - reflexivity.
  - exact docstring_weave_returns.
  - vm_compute. reflexivity.
  - right. intros t Ht. apply In_range in Ht.
    assert (t = 0 \/ t = 1 \/ t = 2 \/ t = 3 \/ t = 4 \/ t = 5 \/ t = 6 \/ t = 7) as H by lia.
    destruct H as [H|[H|[H|[H|[H|[H|[H|H]]]]]]]; subst t; vm_compute; tauto.
Defined.

Lemma max_depth_missing_terminal_witness :
  get_max_depth gap_weaver = Raises TypeError.
Proof.
  apply (max_depth_missing_terminal init_weaver gap_partitions TNone true
           (LBool false) default_config gap_weaver gap_hier [0; 1; 2] 2).
  - reflexivity.
  - exact gap_weave_returns.
  - vm_compute. reflexivity.
  - simpl. tauto.
  - vm_compute. intuition discriminate.
Defined.

Lemma all_depths_contiguous_witness :
  exists m : nat,
    all_depths docstring_weaver true = Returns (range (S m)) /\
    forall d : nat,
      (d <= m)%nat <->
      exists n, In n (nodes docstring_hier) /\ (true = false -> istuple n = true) /\
                get_depth docstring_hier n = Some d.
Proof.
  apply (all_depths_contiguous init_weaver docstring_partitions TNone true
           (LBool false) docstring_config docstring_weaver docstring_hier true).
  - reflexivity.
  - exact docstring_weave_returns.
Defined.

Lemma candidate_edge_weight_witness :
  exists q, weight docstring_full (Internal 1 0) (Internal 3 0) = Ok q /\
            edge_weight_ok (rows_boolean docstring_partitions) (9 # 10)
                           (Internal 1 0) (Internal 3 0) q.
Proof.
  apply (candidate_edge_weight docstring_assigned (9 # 10)
           (fst (_build docstring_assigned (9 # 10))) docstring_full
           (rows_boolean docstring_partitions)).
  - reflexivity.
  - exact docstring_build_returns.
  - reflexivity.
  - vm_compute. tauto.
Defined.

Lemma traverse_topdown_visits_witness :
  (get_root small_hier = None -> traverse_topdown small_hier = Raise NetworkXError) /\
  (forall r, get_root small_hier = Some r ->
     exists l, traverse_topdown small_hier = Ok (r :: l) /\ NoDup (r :: l) /\
               (forall v, In v (r :: l) <-> path small_hier r v) /\
               snd (traverse_loop small_hier (S (length (g_edges small_hier))) [r] []) = []).
Proof.
  apply (traverse_topdown_visits small_hier). exact small_hier_wf.
Defined.

Lemma hierarchy_follows_candidate_witness :
  exists G, _full docstring_weaver = Some G /\
    (forall u v, In (u, v) (edges docstring_hier) -> u <> v /\ path G u v) /\
    (forall u v, path docstring_hier u v -> path G u v).
Proof.
  apply (hierarchy_follows_candidate init_weaver docstring_partitions TNone true
           (LBool false) docstring_config docstring_weaver docstring_hier).
  - reflexivity.
  - exact docstring_weave_returns.
Defined.

Lemma hierarchy_attributes_witness :
  exists L lv labels,
    _assignment docstring_weaver = Some L /\ _levels docstring_weaver = Some lv /\
    _labels docstring_weaver = Some labels /\
    length lv = length L /\ length labels = length L /\
    forall n a, In (n, a) (g_nodes docstring_hier) -> node_attrs_ok lv labels n a.
Proof.
  apply (hierarchy_attributes init_weaver docstring_partitions TNone true
           (LBool false) docstring_config docstring_weaver docstring_hier).
  - reflexivity.
  - exact docstring_weave_returns.
Defined.

Lemma primary_parent_is_best_witness :
  exists root, get_root docstring_full = Some root /\
    (forall n p q, istuple n = true ->
       In (p, n) (edges docstring_full) -> In (q, n) (edges docstring_full) ->
       ~ In (p, n) (map fst [((Internal 1 0, Internal 5 0), 6004799503160661 # 18014398509481984)]) ->
       exists jp jq,
         preference (rows_boolean docstring_partitions) docstring_full n p = Ok jp /\
         preference (rows_boolean docstring_partitions) docstring_full n q = Ok jq /\
         (jq <= jp)%Q) /\
    (forall n p q, istuple n = false ->
       In (p, n) (edges docstring_full) -> In (q, n) (edges docstring_full) ->
       ~ In (p, n) (map fst [((Internal 4 0, Terminal 2), 2%nat)]) ->
       exists dp dq, shortest_path_length docstring_full root p = Some dp /\
                     shortest_path_length docstring_full root q = Some dq /\ (dq <= dp)%nat).
Proof.
  apply (primary_parent_is_best docstring_assigned (9 # 10)
           (fst (_build docstring_assigned (9 # 10))) docstring_full
           (rows_boolean docstring_partitions)).
  - reflexivity.
  - exact docstring_build_returns.
  - reflexivity.
  - vm_compute. reflexivity.
  - vm_compute. reflexivity.
Defined.

Lemma relabel_isomorphic_witness :
  exists mapping h',
    relabel docstring_weaver = (set_hier docstring_weaver (Some h'), Returns mapping) /\
    (forall x y, In x (nodes docstring_hier) -> In y (nodes docstring_hier) ->
       relabelled mapping x = relabelled mapping y -> x = y) /\
    (forall n, In n (nodes docstring_hier) -> istuple n = false ->
       relabelled mapping n = n) /\
    (forall n, In n (nodes docstring_hier) -> istuple n = true ->
       exists v k, relabelled mapping n = Internal v (Z.of_nat k) /\
         get_attr (if assume_levels docstring_weaver then Level else Depth)
                  docstring_hier n = Some v /\
         forall j, (j < k)%nat ->
           exists n0, In n0 (nodes docstring_hier) /\
                      relabelled mapping n0 = Internal v (Z.of_nat j)) /\
    nodes h' = map (relabelled mapping) (nodes docstring_hier) /\
    (forall n, In n (nodes docstring_hier) ->
       get_attrs h' (relabelled mapping n) = get_attrs docstring_hier n) /\
    (forall u v, In u (nodes docstring_hier) -> In v (nodes docstring_hier) ->
       (In (relabelled mapping u, relabelled mapping v) (edges h') <->
        In (u, v) (edges docstring_hier))) /\
    (forall u v, In (u, v) (edges docstring_hier) ->
       weight h' (relabelled mapping u) (relabelled mapping v)
       = weight docstring_hier u v).
Proof.
  apply (relabel_isomorphic init_weaver docstring_partitions TNone true
           (LBool false) docstring_config docstring_weaver docstring_hier).
  - reflexivity.
  - exact docstring_weave_returns.
Defined.

Lemma containment_indices_agree_witness :
  exists CI LA LB CI' LA' LB',
    containment_indices [7; 3; 7; 3] [1; 1; 2; 1] = Fits (CI, LA, LB) /\
    containment_indices_legacy [7; 3; 7; 3] [1; 1; 2; 1] = Returns (CI', LA', LB') /\
    StronglySorted Z.lt LA /\ StronglySorted Z.lt LB /\ NoDup LA' /\ NoDup LB' /\
    (forall a, In a [7; 3; 7; 3] <-> In a LA) /\ (forall a, In a [7; 3; 7; 3] <-> In a LA') /\
    (forall b, In b [1; 1; 2; 1] <-> In b LB) /\ (forall b, In b [1; 1; 2; 1] <-> In b LB') /\
    forall i j i' j' a b,
      nth_error LA i = Some a -> nth_error LA' i' = Some a ->
      nth_error LB j = Some b -> nth_error LB' j' = Some b ->
      nth j (nth i CI []) 0%Q = containment [7; 3; 7; 3] [1; 1; 2; 1] a b /\
      nth j' (nth i' CI' []) 0%Q = containment [7; 3; 7; 3] [1; 1; 2; 1] a b.
Proof.
  apply (containment_indices_agree [7; 3; 7; 3] [1; 1; 2; 1]); reflexivity.
Defined.

Lemma containment_indices_lengths_witness :
  containment_indices [7; 3] [1; 1; 2] = Mismatch /\
  ((length [1; 1; 2] < length [7; 3])%nat ->
     containment_indices_legacy [7; 3] [1; 1; 2] = Raises IndexError) /\
  ((length [7; 3] < length [1; 1; 2])%nat ->
     exists r, containment_indices_legacy [7; 3] [1; 1; 2] = Returns r /\
               containment_indices_legacy [7; 3] (firstn (length [7; 3]) [1; 1; 2])
               = Returns r).
Proof. apply (containment_indices_lengths [7; 3] [1; 1; 2]). simpl. lia. Defined.

Lemma containment_indices_sparse_diagonal_witness :
  exists r,
    containment_indices_sparse [[true; true; false]; [false; true; true]]
                               [[true; false; false]; [true; true; true]] = Returns r /\
    length r = 2%nat /\
    forall i, (i < 2)%nat ->
      0 < count_nonzero (nth i [[true; true; false]; [false; true; true]] []) ->
      (nth i r 0
       == nth i (nth i (containment_indices_boolean
                          [[true; true; false]; [false; true; true]]
                          [[true; false; false]; [true; true; true]]) []) 0)%Q /\
      (nth i r 0
       == inject_Z (both_count (nth i [[true; true; false]; [false; true; true]] [])
                               (nth i [[true; false; false]; [true; true; true]] []))
          / inject_Z (count_nonzero (nth i [[true; true; false]; [false; true; true]] [])))%Q.
Proof.
  apply (containment_indices_sparse_diagonal
           [[true; true; false]; [false; true; true]]
           [[true; false; false]; [true; true; true]] 2 3).
  - lia.
  - reflexivity.
  - reflexivity.
Defined.

Lemma n_simple_paths_counts_witness :
  exists ps : list (list node),
    n_simple_paths triangle 4 (Internal 0 0) (Internal 2 0) = Returns (length ps) /\
    NoDup ps /\ (forall p, In p ps <-> chain triangle (Internal 0 0) (Internal 2 0) p) /\
    ((0 < length ps)%nat <-> path triangle (Internal 0 0) (Internal 2 0)).
Proof.
  apply (n_simple_paths_counts triangle (fun n => Z.to_nat (triangle_rank n)) 4
           (Internal 0 0) (Internal 2 0)).
  - exact triangle_wf.
  - intros a b H. simpl in H.
    destruct H as [H|[H|[H|[]]]]; inversion H; subst; simpl; lia.
  - simpl. auto.
  - simpl. lia.
Defined.

(** In binary64 [15/22 * 22] is below 15, the preference of the first
    parent comes out below 1/2, that of the second is 1/2, and the edge from
    the first parent is the secondary one, though it comes first. *)
Lemma near_tie_secondary :
  (15 / (22 + 23 - 15) == 22 / (22 + 44 - 22))%Q /\
  (exists j0 j1,
     preference near_tie_rows near_tie_graph (Internal 2 0) (Internal 0 0) = Ok j0 /\
     preference near_tie_rows near_tie_graph (Internal 2 0) (Internal 1 0) = Ok j1 /\
     (j0 < j1)%Q /\ (j1 == 1 # 2)%Q) /\
  exists j0,
    secondary_step near_tie_rows near_tie_graph (Internal 1 0) ([], []) (Internal 2 0)
    = Ok ([((Internal 0 0, Internal 2 0), j0)], []).
Proof.
  split; [reflexivity|]. split.
  - do 2 eexists. split; [vm_compute; reflexivity|]. split; [vm_compute; reflexivity|].
    split; reflexivity.
  - eexists. vm_compute. reflexivity.
Qed.
